(** * Grammar model, CNF converter and CYK engine: a shallow embedding

    The development follows [src/src/grammar.py], [src/src/cnf_converter.py]
    and [src/src/cyk_parser.py].

    Conventions of the embedding.
    - A symbol is a Python [str], here a [string] of UTF-8 bytes.
    - A Python [set] is a duplicate-free list ([ListSet]); the order in which
      Python iterates a set is unspecified, the lists iterate in insertion
      order, and every statement about a set is a statement about membership.
    - A Python [dict] is an association list in insertion order.
    - A raised exception is the left summand of [result].
    - [while] loops run on fuel; for each loop a lemma shows that the fuel
      handed to it is enough to reach the exit condition.
    - Printing is not modelled. *)

From Stdlib Require Import String Ascii Bool Arith Lia List ListSet.
From Stdlib Require Import Relation_Operators FinFun Decimal DecimalNat DecimalString.
Import ListNotations.
Open Scope string_scope.
Open Scope nat_scope.
Open Scope list_scope.
Open Scope bool_scope.

Set Implicit Arguments.

(* ================================================================= *)
(** ** Python values *)

Definition symbol := string.

(** One right-hand side, a Python list of symbols. *)
Definition rhs := list symbol.

Definition rhs_dec : forall x y : rhs, {x = y} + {x <> y} :=
  list_eq_dec string_dec.

Definition pair_dec : forall x y : symbol * symbol, {x = y} + {x <> y}.
Proof. decide equality; apply string_dec. Defined.

(** Exceptions the modelled code can raise. *)
Inductive exn : Type :=
| KeyError (key : symbol)
| ValueError (msg : string)
| TypeError.

Definition result (A : Type) : Type := (exn + A)%type.

Definition ret {A : Type} (a : A) : result A := inr a.
Definition raise {A : Type} (e : exn) : result A := inl e.
Definition bind {A B : Type} (m : result A) (k : A -> result B) : result B :=
  match m with
  | inl e => inl e
  | inr a => k a
  end.

Notation "x <- m ;; k" := (bind m (fun x => k))
  (at level 61, m at next level, right associativity).

(** [x in s] and [s.add(x)] on sets of symbols. *)
Definition mem (x : symbol) (s : set symbol) : bool := set_mem string_dec x s.
Definition add (x : symbol) (s : set symbol) : set symbol := set_add string_dec x s.
Definition discard (x : symbol) (s : set symbol) : set symbol :=
  filter (fun y => negb (String.eqb x y)) s.

(** [p in l] on lists of right-hand sides. *)
Definition mem_rhs (p : rhs) (l : list rhs) : bool := set_mem rhs_dec p l.

(** [l.append(p)] guarded by [if p not in l]. *)
Definition append_new (p : rhs) (l : list rhs) : list rhs :=
  if mem_rhs p l then l else l ++ [p].

(** [set(l)]: the elements of a list, once each. *)
Definition set_of_list (l : list symbol) : set symbol :=
  fold_left (fun s x => add x s) l [].

(** *** Dictionaries *)

Definition dict (V : Type) : Type := list (symbol * V).

Section Dict.
Variable V : Type.

Fixpoint dict_get (d : dict V) (k : symbol) : option V :=
  match d with
  | [] => None
  | (k', v) :: d' => if String.eqb k k' then Some v else dict_get d' k
  end.

Definition dict_mem (d : dict V) (k : symbol) : bool :=
  match dict_get d k with Some _ => true | None => false end.

(** [d[k] = v]: overwrite in place, or insert at the end. *)
Fixpoint dict_set (d : dict V) (k : symbol) (v : V) : dict V :=
  match d with
  | [] => [(k, v)]
  | (k', v') :: d' =>
      if String.eqb k k' then (k', v) :: d' else (k', v') :: dict_set d' k v
  end.

(** [del d[k]] *)
Definition dict_del (d : dict V) (k : symbol) : dict V :=
  filter (fun kv => negb (String.eqb k (fst kv))) d.

Definition keys (d : dict V) : list symbol := map fst d.

(** [d[k]] on a plain [dict]. *)
Definition dict_lookup (d : dict V) (k : symbol) : result V :=
  match dict_get d k with
  | Some v => ret v
  | None => raise (KeyError k)
  end.
End Dict.

(** [d[k]] on a [defaultdict(list)], read only: a missing key reads as the
    empty list. *)
Definition prods_of (d : dict (list rhs)) (k : symbol) : list rhs :=
  match dict_get d k with Some l => l | None => [] end.

(* ================================================================= *)
(** ** grammar.py *)

Record Grammar : Type := mkGrammar {
  productions : dict (list rhs);
  terminals : set symbol;
  non_terminals : set symbol;
  start_symbol : option symbol
}.

(** [Grammar()] *)
Definition empty_grammar : Grammar := mkGrammar [] [] [] None.

(** ['ε'], two bytes in UTF-8. *)
Definition epsilon_sym : symbol := "ε".

(** [c.isupper()] for an ASCII character: the upper-case letters are [A] to
    [Z]. Python asks it of the first character of a symbol and knows the
    upper-case letters of Unicode; the model asks it of the first byte of
    the symbol, so it gives Python's answer for the symbols that start with
    an ASCII character, and for ['ε']. What is proved below of the
    classification of symbols is stated for these symbols. *)
Definition isupper (c : ascii) : bool :=
  let n := nat_of_ascii c in (65 <=? n) && (n <=? 90).

(** The symbol is empty or starts with an ASCII character. *)
Definition ascii_initial (s : symbol) : bool :=
  match s with
  | EmptyString => true
  | String c _ => nat_of_ascii c <? 128
  end.

(** The symbol starts with one of the letters [A] to [Z]. *)
Definition starts_with_capital (s : symbol) : bool :=
  match s with
  | EmptyString => false
  | String c _ => isupper c
  end.

(** [(symbol and not symbol[0].isupper()) or symbol in ['epsilon', 'ε', '']] *)
Definition classified_terminal (s : symbol) : bool :=
  match s with
  | EmptyString => false
  | String c _ => negb (isupper c)
  end
  || (String.eqb s "epsilon" || String.eqb s epsilon_sym || String.eqb s "").

(** A value passed for the parameter [right]: the method tests
    [isinstance(right, list)] before anything else. *)
Inductive pyarg : Type :=
| PyList (l : rhs)
| PyOther.

Definition add_production_list (g : Grammar) (left : symbol) (right : rhs)
  : Grammar :=
  mkGrammar
    (dict_set (productions g) left (prods_of (productions g) left ++ [right]))
    (fold_left (fun t s => if classified_terminal s then add s t else t)
               right (terminals g))
    (add left (non_terminals g))
    (start_symbol g).

Definition add_production (g : Grammar) (left : symbol) (right : pyarg)
  : result Grammar :=
  match right with
  | PyOther => raise (ValueError "El lado derecho debe ser una lista de símbolos")
  | PyList l => ret (add_production_list g left l)
  end.

Definition set_start_symbol (g : Grammar) (s : symbol) : Grammar :=
  mkGrammar (productions g) (terminals g) (add s (non_terminals g)) (Some s).

(** Python truth value of [self.start_symbol]. *)
Definition truthy (s : option symbol) : bool :=
  match s with
  | None => false
  | Some x => negb (String.eqb x "")
  end.

(** [var != self.start_symbol] *)
Definition is_start (g : Grammar) (var : symbol) : bool :=
  match start_symbol g with
  | Some s => String.eqb var s
  | None => false
  end.

(** The body of the inner loop of [is_in_cnf]: [false] is [return False]. *)
Definition cnf_production_ok (g : Grammar) (var : symbol) (prod : rhs) : bool :=
  match prod with
  | [] => is_start g var
  | [a] => mem a (terminals g)
  | [a; b] => mem a (non_terminals g) && mem b (non_terminals g)
  | _ => false
  end.

Definition is_in_cnf (g : Grammar) : bool :=
  truthy (start_symbol g)
  && forallb (fun vp => forallb (cnf_production_ok g (fst vp)) (snd vp))
             (productions g).

(** [copy]: the copy holds the same values in fresh containers; as a value
    it is the grammar itself. The containers are told apart in the store
    model further down. *)
Definition copy (g : Grammar) : Grammar :=
  mkGrammar (map (fun vp => (fst vp, map (fun p : rhs => p) (snd vp)))
                 (productions g))
            (terminals g) (non_terminals g) (start_symbol g).

(** [l.remove(x)]: drops the first occurrence. *)
Definition list_remove (p : rhs) (l : list rhs) : list rhs :=
  set_remove rhs_dec p l.

Definition remove_production (g : Grammar) (left : symbol) (right : rhs)
  : Grammar :=
  match dict_get (productions g) left with
  | Some l =>
      if mem_rhs right l then
        let l' := list_remove right l in
        match l' with
        | [] =>
            mkGrammar (dict_del (productions g) left)
                      (terminals g)
                      (if is_start g left then non_terminals g
                       else discard left (non_terminals g))
                      (start_symbol g)
        | _ =>
            mkGrammar (dict_set (productions g) left l')
                      (terminals g) (non_terminals g) (start_symbol g)
        end
      else g
  | None => g
  end.

Definition is_epsilon_rhs (prod : rhs) : bool :=
  match prod with
  | [] => true
  | [a] => String.eqb a epsilon_sym || String.eqb a "epsilon" || String.eqb a ""
  | _ => false
  end.

Definition has_epsilon_productions (g : Grammar) : bool :=
  existsb (fun vp => existsb is_epsilon_rhs (snd vp)) (productions g).

(** [len(prod) == 1 and prod[0] in self.non_terminals] *)
Definition is_unit (nts : set symbol) (prod : rhs) : bool :=
  match prod with
  | [a] => mem a nts
  | _ => false
  end.

Definition has_unit_productions (g : Grammar) : bool :=
  existsb (fun vp => existsb (is_unit (non_terminals g)) (snd vp))
          (productions g).

(** An element of the list [errors] that [validate] returns. The text of
    the messages is not modelled: an error is its kind, with the value that
    the message prints. The four kinds are, in the order of their checks:
    no start symbol, no productions, a start symbol without productions,
    and the set of the symbols used as non-terminals without an entry. *)
Inductive validation_error : Type :=
| NoStartSymbol
| NoProductions
| StartWithoutProductions (start : symbol)
| UndefinedNonTerminals (undefined : set symbol).

(** [used_non_terminals] of [validate]: the symbols of the right-hand sides
    that are no terminal and not the empty string. *)
Definition used_non_terminals (g : Grammar) : set symbol :=
  fold_left
    (fun used vp =>
       fold_left
         (fun used' prod =>
            fold_left
              (fun used'' s =>
                 if negb (mem s (terminals g)) && negb (String.eqb s "")
                 then add s used'' else used'')
              prod used')
         (snd vp) used)
    (productions g) [].

Definition validate (g : Grammar) : bool * list validation_error :=
  let errors := if truthy (start_symbol g) then [] else [NoStartSymbol] in
  let errors := match productions g with
                | [] => errors ++ [NoProductions]
                | _ => errors
                end in
  let errors := match start_symbol g with
                | Some s =>
                    if truthy (Some s) && negb (dict_mem (productions g) s)
                    then errors ++ [StartWithoutProductions s]
                    else errors
                | None => errors
                end in
  let undefined_non_terminals :=
    filter (fun x => negb (dict_mem (productions g) x))
           (used_non_terminals g) in
  let errors := match undefined_non_terminals with
                | [] => errors
                | _ => errors ++ [UndefinedNonTerminals undefined_non_terminals]
                end in
  (match errors with [] => true | _ => false end, errors).

(* ================================================================= *)
(** ** cnf_converter.py *)

(** The converter object: [self.grammar] is the working grammar that the
    stages rewrite. *)
Record CNFConverter : Type := mkConverter {
  original_grammar : Grammar;
  grammar : Grammar;
  new_var_counter : nat;
  step_counter : nat
}.

(** [CNFConverter(grammar)] *)
Definition new_converter (g : Grammar) : CNFConverter :=
  mkConverter (copy g) (copy g) 0 1.

Definition with_grammar (c : CNFConverter) (g : Grammar) : CNFConverter :=
  mkConverter (original_grammar c) g (new_var_counter c) (step_counter c).

(** [print_step]: only the counter is kept. *)
Definition print_step (c : CNFConverter) : CNFConverter :=
  mkConverter (original_grammar c) (grammar c) (new_var_counter c)
              (S (step_counter c)).

(** [str(n)] for a counter value. *)
Definition string_of_nat (n : nat) : string :=
  NilEmpty.string_of_uint (Nat.to_uint n).

(** [f"{base}{n}"] *)
Definition candidate (base : string) (n : nat) : symbol :=
  String.append base (string_of_nat n).

(** The [while True] loop of [generate_new_variable]: the candidate and the
    counter after it. With no fuel left the candidate is returned unchecked;
    [generate_new_variable] hands over enough fuel for that never to matter
    (lemma [generate_new_variable_fresh]). *)
Fixpoint generate_loop (fuel : nat) (base : string) (counter : nat)
  (nts : set symbol) : symbol * nat :=
  match fuel with
  | 0 => (candidate base counter, S counter)
  | S fuel' =>
      if mem (candidate base counter) nts
      then generate_loop fuel' base (S counter) nts
      else (candidate base counter, S counter)
  end.

Definition generate_new_variable (base : string) (counter : nat)
  (nts : set symbol) : symbol * nat :=
  generate_loop (length nts) base counter nts.

(** *** Stage A: epsilon productions *)

(** [not prod or (len(prod) == 1 and prod[0] == 'ε')] *)
Definition is_direct_epsilon (prod : rhs) : bool :=
  match prod with
  | [] => true
  | [a] => String.eqb a epsilon_sym
  | _ => false
  end.

(** [prod and all(symbol in s for symbol in prod)] *)
Definition nonempty_all_in (s : set symbol) (prod : rhs) : bool :=
  match prod with
  | [] => false
  | _ => forallb (fun x => mem x s) prod
  end.

(** One run of the body of [while changed] in [find_nullable_symbols] and in
    [find_generating_symbols] (the two bodies are the same): the set after
    the run, and the flag [changed]. *)
Definition propagate_var (var : symbol) (prods : list rhs)
  (st : set symbol * bool) : set symbol * bool :=
  if mem var (fst st) then st
  else fold_left
         (fun st' prod =>
            if nonempty_all_in (fst st') prod
            then (add var (fst st'), true) else st')
         prods st.

Definition propagate_pass (prods : dict (list rhs)) (s : set symbol)
  : set symbol * bool :=
  fold_left (fun st vp => propagate_var (fst vp) (snd vp) st) prods (s, false).

Fixpoint propagate (fuel : nat) (prods : dict (list rhs)) (s : set symbol)
  : set symbol :=
  match fuel with
  | 0 => s
  | S fuel' =>
      let (s', changed) := propagate_pass prods s in
      if changed then propagate fuel' prods s' else s'
  end.

(** Step 1 of [find_nullable_symbols]. *)
Definition direct_nullable (prods : dict (list rhs)) : set symbol :=
  fold_left
    (fun nullable vp =>
       fold_left
         (fun nl prod => if is_direct_epsilon prod then add (fst vp) nl else nl)
         (snd vp) nullable)
    prods [].

Definition find_nullable_symbols (g : Grammar) : set symbol :=
  propagate (S (length (productions g))) (productions g)
            (direct_nullable (productions g)).

(** The combination selected by [mask], or [None]; [i] is the index of the
    head of [production] in the whole right-hand side. *)
Fixpoint combination (production : rhs) (nullable : set symbol)
  (mask i : nat) : option rhs :=
  match production with
  | [] => Some []
  | s :: rest =>
      if Nat.testbit mask i
      then option_map (cons s) (combination rest nullable mask (S i))
      else if mem s nullable
           then combination rest nullable mask (S i)
           else None
  end.

Definition generate_nullable_combinations (production : rhs)
  (nullable : set symbol) : list rhs :=
  match production with
  | [] => [[]]
  | _ =>
      let n := length production in
      let combinations :=
        fold_left
          (fun acc mask =>
             match combination production nullable mask 0 with
             | Some ((_ :: _) as c) => acc ++ [c]
             | _ => acc
             end)
          (seq 0 (2 ^ n)) [] in
      fold_left (fun unique combo => append_new combo unique) combinations []
  end.

(** The right-hand sides that [eliminate_epsilon_productions] collects for
    one variable. *)
Definition epsilon_free_rhs (nullable : set symbol) (prods : list rhs)
  : list rhs :=
  fold_left
    (fun acc prod =>
       if is_direct_epsilon prod then acc
       else fold_left
              (fun acc' c => match c with
                             | [] => acc'
                             | _ => append_new c acc'
                             end)
              (generate_nullable_combinations prod nullable) acc)
    prods [].

Definition eliminate_epsilon_productions (c : CNFConverter)
  : result CNFConverter :=
  let c := print_step c in
  let g := grammar c in
  let nullable := find_nullable_symbols g in
  let new_productions :=
    map (fun vp => (fst vp, epsilon_free_rhs nullable (snd vp)))
        (productions g) in
  match start_symbol g with
  | Some s =>
      if mem s nullable then
        let (new_start, counter) :=
          generate_new_variable "S" (new_var_counter c) (non_terminals g) in
        let np1 := dict_set new_productions new_start [[s]] in
        old <- dict_lookup np1 s ;;
        let np2 := match old with
                   | [] => dict_set np1 new_start
                             (prods_of np1 new_start ++ [[]])
                   | _ => np1
                   end in
        ret (mkConverter (original_grammar c)
               (mkGrammar np2 (terminals g)
                          (add new_start (non_terminals g)) (Some new_start))
               counter (step_counter c))
      else
        ret (with_grammar c (mkGrammar new_productions (terminals g)
                               (non_terminals g) (start_symbol g)))
  | None =>
      ret (with_grammar c (mkGrammar new_productions (terminals g)
                             (non_terminals g) (start_symbol g)))
  end.

(** *** Stage B: unit productions *)

Definition pairs := set (symbol * symbol).

Definition mem_pair (p : symbol * symbol) (s : pairs) : bool :=
  set_mem pair_dec p s.
Definition add_pair (p : symbol * symbol) (s : pairs) : pairs :=
  set_add pair_dec p s.

Definition direct_unit_pairs (g : Grammar) : pairs :=
  fold_left
    (fun up vp =>
       fold_left
         (fun up' prod =>
            match prod with
            | [b] => if mem b (non_terminals g)
                     then add_pair (fst vp, b) up' else up'
            | _ => up'
            end)
         (snd vp) up)
    (productions g) [].

(** [new_pairs] of one run of the closure loop. *)
Definition new_pairs (up : pairs) : pairs :=
  fold_left
    (fun np ab =>
       fold_left
         (fun np' bc =>
            if String.eqb (snd ab) (fst bc)
               && negb (mem_pair (fst ab, snd bc) up)
            then add_pair (fst ab, snd bc) np' else np')
         up np)
    up [].

(** [unit_pairs.update(new_pairs)] *)
Definition update_pairs (up np : pairs) : pairs :=
  fold_left (fun u p => add_pair p u) np up.

(** The closure loop; [changed] is set exactly when [new_pairs] receives an
    element. *)
Fixpoint close_pairs (fuel : nat) (up : pairs) : pairs :=
  match fuel with
  | 0 => up
  | S fuel' =>
      match new_pairs up with
      | [] => up
      | np => close_pairs fuel' (update_pairs up np)
      end
  end.

Definition find_unit_productions (g : Grammar) : pairs :=
  let up := direct_unit_pairs g in
  close_pairs (S (length up * length up)) up.

(** Appends to [acc] the right-hand sides of [l] that are not unit and not
    yet in [acc]. *)
Definition add_non_unit (nts : set symbol) (l acc : list rhs) : list rhs :=
  fold_left
    (fun acc' prod => if is_unit nts prod then acc' else append_new prod acc')
    l acc.

(** The body of [for var in self.grammar.productions]. *)
Definition unit_free_rhs (g : Grammar) (up : pairs) (var : symbol)
  (own : list rhs) : result (list rhs) :=
  fold_left
    (fun racc ab =>
       acc <- racc ;;
       if String.eqb (fst ab) var
       then l <- dict_lookup (productions g) (snd ab) ;;
            ret (add_non_unit (non_terminals g) l acc)
       else ret acc)
    up (ret (add_non_unit (non_terminals g) own [])).

Fixpoint unit_free_productions (g : Grammar) (up : pairs)
  (d : dict (list rhs)) : result (dict (list rhs)) :=
  match d with
  | [] => ret []
  | (var, own) :: d' =>
      l <- unit_free_rhs g up var own ;;
      rest <- unit_free_productions g up d' ;;
      ret ((var, l) :: rest)
  end.

(** Stage B as [to_cnf] runs it, on the plain [dict] that stage A leaves
    behind: [productions[b]] raises [KeyError] for a [b] without an entry.
    (On the [defaultdict] of a converter fresh from its constructor the same
    read inserts [b], and the enclosing iteration over the dictionary then
    raises [RuntimeError]: either way the stage does not return, and it
    returns the same on both kinds of dictionary. What is proved below of
    the exception is stated for a converter that stage A has left.) *)
Definition eliminate_unit_productions (c : CNFConverter)
  : result CNFConverter :=
  let c := print_step c in
  let g := grammar c in
  let unit_pairs := find_unit_productions g in
  new_productions <- unit_free_productions g unit_pairs (productions g) ;;
  ret (with_grammar c (mkGrammar new_productions (terminals g)
                         (non_terminals g) (start_symbol g))).

(** *** Stage C: useless symbols *)

Definition find_generating_symbols (g : Grammar) : set symbol :=
  propagate (S (length (productions g))) (productions g) (terminals g).

(** Every symbol occurrence of every right-hand side. *)
Definition rhs_symbols (prods : dict (list rhs)) : list symbol :=
  concat (concat (map (@snd symbol (list rhs)) prods)).

(** [new_reachable] of one run of the loop of [find_reachable_symbols]. *)
Definition new_reachable (prods : dict (list rhs)) (reachable : set symbol)
  : set symbol :=
  fold_left
    (fun nr var =>
       match dict_get prods var with
       | Some l =>
           fold_left
             (fun nr' prod =>
                fold_left
                  (fun nr'' s => if mem s reachable then nr'' else add s nr'')
                  prod nr')
             l nr
       | None => nr
       end)
    reachable [].

(** [reachable.update(new_reachable)] *)
Definition update (s new : set symbol) : set symbol :=
  fold_left (fun r x => add x r) new s.

Fixpoint reach (fuel : nat) (prods : dict (list rhs)) (reachable : set symbol)
  : set symbol :=
  match fuel with
  | 0 => reachable
  | S fuel' =>
      match new_reachable prods reachable with
      | [] => reachable
      | nr => reach fuel' prods (update reachable nr)
      end
  end.

(** [reachable] starts as [{self.grammar.start_symbol}]; a start symbol that
    is [None] is no key and no symbol of a right-hand side, and is left out
    of the list. *)
Definition find_reachable_symbols (g : Grammar) : set symbol :=
  reach (S (length (rhs_symbols (productions g)))) (productions g)
        (match start_symbol g with Some s => [s] | None => [] end).

Definition filter_generating (generating : set symbol)
  (prods : dict (list rhs)) : dict (list rhs) :=
  map (fun vp =>
         (fst vp, filter (forallb (fun x => mem x generating)) (snd vp)))
      (filter (fun vp => mem (fst vp) generating) prods).

Definition filter_reachable (reachable : set symbol)
  (prods : dict (list rhs)) : dict (list rhs) :=
  filter (fun vp => mem (fst vp) reachable) prods.

Definition eliminate_useless_symbols (c : CNFConverter) : result CNFConverter :=
  let c := print_step c in
  let g := grammar c in
  let generating := find_generating_symbols g in
  let g1 := mkGrammar (filter_generating generating (productions g))
                      (terminals g) (non_terminals g) (start_symbol g) in
  let reachable := find_reachable_symbols g1 in
  let final_productions := filter_reachable reachable (productions g1) in
  ret (with_grammar c
         (mkGrammar final_productions (terminals g)
                    (set_of_list (keys final_productions)) (start_symbol g))).

(** *** Stage D: binary form *)

(** [if var not in d: d[var] = []] followed by [d[var].append(p)]. *)
Definition dict_append (d : dict (list rhs)) (var : symbol) (p : rhs)
  : dict (list rhs) :=
  dict_set d var (prods_of d var ++ [p]).

(** The state that [_convert_long_production] works on: the counter, the
    non-terminals of [self.grammar] and [productions_dict]. *)
Record binarizer : Type := mkBin {
  bin_counter : nat;
  bin_nts : set symbol;
  bin_dict : dict (list rhs)
}.

Fixpoint convert_long_production (var : symbol) (production : rhs)
  (st : binarizer) : binarizer :=
  match production with
  | p0 :: ((_ :: _ :: _) as rest) =>
      let (new_var, counter) :=
        generate_new_variable "Y" (bin_counter st) (bin_nts st) in
      let d := dict_append (bin_dict st) var [p0; new_var] in
      let st' := convert_long_production new_var rest
                   (mkBin counter (bin_nts st) d) in
      mkBin (bin_counter st') (add new_var (bin_nts st')) (bin_dict st')
  | _ =>
      let d := if dict_mem (bin_dict st) var then bin_dict st
               else dict_set (bin_dict st) var [] in
      let d := if mem_rhs production (prods_of d var) then d
               else dict_append d var production in
      mkBin (bin_counter st) (bin_nts st) d
  end.

(** The body of [for prod in productions] in [convert_to_binary_form]. *)
Definition binarize_production (var : symbol) (st : binarizer) (prod : rhs)
  : binarizer :=
  if length prod <=? 2
  then mkBin (bin_counter st) (bin_nts st) (dict_append (bin_dict st) var prod)
  else convert_long_production var prod st.

Definition convert_to_binary_form (c : CNFConverter) : result CNFConverter :=
  let c := print_step c in
  let g := grammar c in
  let st :=
    fold_left
      (fun st vp =>
         fold_left (binarize_production (fst vp)) (snd vp)
                   (mkBin (bin_counter st) (bin_nts st)
                          (dict_set (bin_dict st) (fst vp) [])))
      (productions g)
      (mkBin (new_var_counter c) (non_terminals g) []) in
  ret (mkConverter (original_grammar c)
         (mkGrammar (bin_dict st) (terminals g) (bin_nts st) (start_symbol g))
         (bin_counter st) (step_counter c)).

(** What [to_cnf] prints after the final check. *)
Inductive verdict : Type :=
| Completed
| Warning.

(** [to_cnf]: the returned grammar, the message of the final check, and the
    converter afterwards. *)
Definition to_cnf (c : CNFConverter)
  : result (Grammar * verdict * CNFConverter) :=
  c <- eliminate_epsilon_productions c ;;
  c <- eliminate_unit_productions c ;;
  c <- eliminate_useless_symbols c ;;
  c <- convert_to_binary_form c ;;
  ret (grammar c, if is_in_cnf (grammar c) then Completed else Warning, c).

(** [CNFConverter(g).to_cnf()] *)
Definition convert (g : Grammar) : result (Grammar * verdict * CNFConverter) :=
  to_cnf (new_converter g).

(** An element of the list [errors] of [validate_cnf_conversion], by its
    kind; the checks are, in this order: the grammar is not in CNF, there
    is no start symbol, there are no productions, there is an epsilon
    production while the start symbol has no empty right-hand side, there
    is a unit production. *)
Inductive conversion_error : Type :=
| ResultNotInCnf
| NoStartSymbolDefined
| NoProductionsDefined
| EpsilonOutsideStart
| UnitProductionsFound.

Definition validate_cnf_conversion (c : CNFConverter)
  : bool * list conversion_error :=
  let g := grammar c in
  let errors := if is_in_cnf g then [] else [ResultNotInCnf] in
  let errors := if truthy (start_symbol g) then errors
                else errors ++ [NoStartSymbolDefined] in
  let errors := match productions g with
                | [] => errors ++ [NoProductionsDefined]
                | _ => errors
                end in
  let errors :=
    if has_epsilon_productions g then
      let has_epsilon_in_start :=
        existsb (fun prod : rhs => match prod with [] => true | _ => false end)
                (match start_symbol g with
                 | Some s => prods_of (productions g) s
                 | None => []
                 end) in
      if has_epsilon_in_start then errors
      else errors ++ [EpsilonOutsideStart]
    else errors in
  let errors := if has_unit_productions g
                then errors ++ [UnitProductionsFound] else errors in
  (match errors with [] => true | _ => false end, errors).

(* ================================================================= *)
(** ** cyk_parser.py *)

#[warnings="-register-all"]
Inductive ParseTree : Type :=
| Node (sym : symbol) (span : nat * nat) (is_terminal : bool)
       (children : list ParseTree).

(** An entry of [parse_table[i][j]]: [('terminal', token)] or
    [('production', left_var, right_var, k)]. *)
Inductive entry : Type :=
| TerminalEntry (token : symbol)
| ProductionEntry (left_var right_var : symbol) (k : nat).

(** [binary_producers], a dictionary keyed by pairs. *)
Definition pdict := list ((symbol * symbol) * set symbol).

Fixpoint pdict_get (d : pdict) (k : symbol * symbol) : option (set symbol) :=
  match d with
  | [] => None
  | (k', v) :: d' => if pair_dec k k' then Some v else pdict_get d' k
  end.

Fixpoint pdict_set (d : pdict) (k : symbol * symbol) (v : set symbol) : pdict :=
  match d with
  | [] => [(k, v)]
  | (k', v') :: d' =>
      if pair_dec k k' then (k', v) :: d' else (k', v') :: pdict_set d' k v
  end.

(** A list of lists indexed as [t[i][j]]. *)
Definition grid (A : Type) : Type := list (list A).

Section Grid.
Variable A : Type.
Variable default : A.

Definition grid_get (t : grid A) (i j : nat) : A :=
  nth j (nth i t []) default.

Fixpoint list_update (l : list A) (i : nat) (f : A -> A) : list A :=
  match l, i with
  | [], _ => []
  | x :: l', 0 => f x :: l'
  | x :: l', S i' => x :: list_update l' i' f
  end.
End Grid.

Definition grid_update {A : Type} (t : grid A) (i j : nat) (f : A -> A)
  : grid A :=
  list_update t i (fun row => list_update row j f).

(** [[[x for _ in range(n)] for _ in range(n)]] *)
Definition grid_make {A : Type} (n : nat) (x : A) : grid A :=
  repeat (repeat x n) n.

Record CYKParser : Type := mkParser {
  cyk_grammar : Grammar;
  terminal_producers : dict (set symbol);
  binary_producers : pdict;
  table : grid (set symbol);
  parse_table : grid (dict entry);
  sentence : list symbol
}.

Definition with_tables (p : CYKParser) (t : grid (set symbol))
  (pt : grid (dict entry)) : CYKParser :=
  mkParser (cyk_grammar p) (terminal_producers p) (binary_producers p)
           t pt (sentence p).

(** The body of the inner loop of [_precompute_production_maps]. *)
Definition index_production (g : Grammar) (var : symbol)
  (maps : dict (set symbol) * pdict) (prod : rhs)
  : dict (set symbol) * pdict :=
  match prod with
  | [a] =>
      if mem a (terminals g)
      then (dict_set (fst maps) a
              (add var (match dict_get (fst maps) a with
                        | Some s => s
                        | None => []
                        end)),
            snd maps)
      else maps
  | [l; r] =>
      (fst maps,
       pdict_set (snd maps) (l, r)
         (add var (match pdict_get (snd maps) (l, r) with
                   | Some s => s
                   | None => []
                   end)))
  | _ => maps
  end.

Definition precompute_production_maps (g : Grammar)
  : dict (set symbol) * pdict :=
  fold_left
    (fun maps vp => fold_left (index_production g (fst vp)) (snd vp) maps)
    (productions g) ([], []).

(** [CYKParser(grammar)]; before the first [parse] the tables are [None],
    here empty. *)
Definition new_parser (g : Grammar) : CYKParser :=
  let maps := precompute_production_maps g in
  mkParser g (fst maps) (snd maps) [] [] [].

(** [self.table[i][i].add(var)] and
    [self.parse_table[i][i][var] = ('terminal', token)]. *)
Definition record_terminal (i : nat) (token : symbol) (p : CYKParser)
  (var : symbol) : CYKParser :=
  with_tables p
    (grid_update (table p) i i (add var))
    (grid_update (parse_table p) i i
       (fun d => dict_set d var (TerminalEntry token))).

Definition fill_diagonal (p : CYKParser) : CYKParser :=
  fold_left
    (fun p i =>
       let token := nth i (sentence p) "" in
       match dict_get (terminal_producers p) token with
       | Some vars => fold_left (record_terminal i token) vars p
       | None => p
       end)
    (seq 0 (length (sentence p))) p.

(** The body of [for producer_var in self.binary_producers[pair]]. *)
Definition record_production (i j k : nat) (left_var right_var : symbol)
  (p : CYKParser) (producer_var : symbol) : CYKParser :=
  if mem producer_var (grid_get [] (table p) i j) then p
  else with_tables p
         (grid_update (table p) i j (add producer_var))
         (grid_update (parse_table p) i j
            (fun d => dict_set d producer_var
                        (ProductionEntry left_var right_var k))).

(** The body of [for k in range(i, j)]. The two cells that are iterated,
    [table[i][k]] and [table[k+1][j]], are other objects than the cell
    [table[i][j]] that is written. *)
Definition fill_split (i j : nat) (p : CYKParser) (k : nat) : CYKParser :=
  let left_symbols := grid_get [] (table p) i k in
  let right_symbols := grid_get [] (table p) (S k) j in
  fold_left
    (fun p left_var =>
       fold_left
         (fun p right_var =>
            match pdict_get (binary_producers p) (left_var, right_var) with
            | Some producers =>
                fold_left (record_production i j k left_var right_var)
                          producers p
            | None => p
            end)
         right_symbols p)
    left_symbols p.

(** The body of [for i in range(n - length + 1)]. *)
Definition fill_cell (len : nat) (p : CYKParser) (i : nat) : CYKParser :=
  let j := i + len - 1 in
  fold_left (fill_split i j) (seq i (j - i)) p.

Definition fill_table (p : CYKParser) : CYKParser :=
  let n := length (sentence p) in
  fold_left
    (fun p len => fold_left (fill_cell len) (seq 0 (n - len + 1)) p)
    (seq 2 (n + 1 - 2)) p.

(** [_construct_parse_tree]; the recursion runs on fuel, one unit per level
    of the tree. *)
Fixpoint construct_parse_tree (fuel : nat) (p : CYKParser) (i j : nat)
  (var : symbol) : option ParseTree :=
  match fuel with
  | 0 => None
  | S fuel' =>
      if j <? i then None
      else
        match dict_get (grid_get [] (parse_table p) i j) var with
        | None => None
        | Some (TerminalEntry terminal) =>
            Some (Node var (i, j) false [Node terminal (i, i) true []])
        | Some (ProductionEntry left_var right_var k) =>
            let left_tree := construct_parse_tree fuel' p i k left_var in
            let right_tree := construct_parse_tree fuel' p (S k) j right_var in
            Some (Node var (i, j) false
                    (match left_tree with Some t => [t] | None => [] end
                     ++ match right_tree with Some t => [t] | None => [] end))
        end
  end.

(** [self.grammar.start_symbol in self.table[0][n-1]] *)
Definition start_in (g : Grammar) (cell : set symbol) : bool :=
  match start_symbol g with
  | Some s => mem s cell
  | None => false
  end.

(** [parse]: the pair [(accepted, parse_tree)] and the parser afterwards.
    The elapsed time, the second component of the Python triple, is a clock
    reading and is left out. *)
Definition parse (p : CYKParser) (tokens : list symbol)
  : (bool * option ParseTree) * CYKParser :=
  match tokens with
  | [] => ((false, None), p)
  | _ =>
      let n := length tokens in
      let p := mkParser (cyk_grammar p) (terminal_producers p)
                        (binary_producers p)
                        (grid_make n []) (grid_make n []) tokens in
      let p := fill_table (fill_diagonal p) in
      let accepted := start_in (cyk_grammar p) (grid_get [] (table p) 0 (n - 1)) in
      let parse_tree :=
        if accepted
        then match start_symbol (cyk_grammar p) with
             | Some s => construct_parse_tree n p 0 (n - 1) s
             | None => None
             end
        else None in
      ((accepted, parse_tree), p)
  end.

Definition accepts (g : Grammar) (tokens : list symbol) : bool :=
  fst (fst (parse (new_parser g) tokens)).

(** [usage[prod_str] = usage.get(prod_str, 0) + 1] *)
Definition bump (usage : dict nat) (prod_str : string) : dict nat :=
  dict_set usage prod_str
    (match dict_get usage prod_str with Some n => n | None => 0 end + 1).

(** [count_usage], the local function of [get_production_usage], with the
    dictionary [usage] passed along; the recursion runs on fuel as that of
    [construct_parse_tree] does. The keys are the strings
    [f"{var} -> {entry[1]}"] and [f"{var} -> {left_var} {right_var}"]. *)
Fixpoint count_usage (fuel : nat) (p : CYKParser) (i j : nat) (var : symbol)
  (usage : dict nat) : dict nat :=
  match fuel with
  | 0 => usage
  | S fuel' =>
      if j <? i then usage
      else
        match dict_get (grid_get [] (parse_table p) i j) var with
        | None => usage
        | Some (TerminalEntry terminal) =>
            bump usage (String.append var (String.append " -> " terminal))
        | Some (ProductionEntry left_var right_var k) =>
            let usage :=
              bump usage
                (String.append var
                   (String.append " -> "
                      (String.append left_var
                         (String.append " " right_var)))) in
            let usage := count_usage fuel' p i k left_var usage in
            count_usage fuel' p (S k) j right_var usage
        end
  end.

(** [get_production_usage]; before the first [parse] the sentence and the
    tables are [None], here empty. *)
Definition get_production_usage (p : CYKParser) : dict nat :=
  match sentence p, parse_table p with
  | [], _ => []
  | _, [] => []
  | _, _ =>
      let n := length (sentence p) in
      if start_in (cyk_grammar p) (grid_get [] (table p) 0 (n - 1))
      then match start_symbol (cyk_grammar p) with
           | Some s => count_usage n p 0 (n - 1) s []
           | None => []
           end
      else []
  end.

(* ================================================================= *)
(** ** english_grammar.py *)

(** The list [productions] of [setup_grammar]. *)
Definition english_rules : list (symbol * rhs) :=
  [("S", ["NP"; "VP"]);
   ("VP", ["VP"; "PP"]); ("VP", ["V"; "NP"]);
   ("VP", ["cooks"]); ("VP", ["drinks"]); ("VP", ["eats"]); ("VP", ["cuts"]);
   ("PP", ["P"; "NP"]);
   ("NP", ["Det"; "N"]); ("NP", ["he"]); ("NP", ["she"]);
   ("V", ["cooks"]); ("V", ["drinks"]); ("V", ["eats"]); ("V", ["cuts"]);
   ("P", ["in"]); ("P", ["with"]);
   ("N", ["cat"]); ("N", ["dog"]); ("N", ["beer"]); ("N", ["cake"]);
   ("N", ["juice"]); ("N", ["meat"]); ("N", ["soup"]); ("N", ["fork"]);
   ("N", ["knife"]); ("N", ["oven"]); ("N", ["spoon"]);
   ("Det", ["a"]); ("Det", ["the"])].

(** The list [cnf_productions] of [convert_to_proper_cnf]. *)
Definition english_cnf_rules : list (symbol * rhs) :=
  [("S", ["NP"; "VP"]);
   ("VP", ["VP1"; "PP"]); ("VP", ["V"; "NP"]);
   ("VP", ["cooks"]); ("VP", ["drinks"]); ("VP", ["eats"]); ("VP", ["cuts"]);
   ("VP1", ["V"; "NP"]);
   ("VP1", ["cooks"]); ("VP1", ["drinks"]); ("VP1", ["eats"]);
   ("VP1", ["cuts"]);
   ("PP", ["P"; "NP"]);
   ("NP", ["Det"; "N"]); ("NP", ["he"]); ("NP", ["she"]);
   ("V", ["cooks"]); ("V", ["drinks"]); ("V", ["eats"]); ("V", ["cuts"]);
   ("P", ["in"]); ("P", ["with"]);
   ("N", ["cat"]); ("N", ["dog"]); ("N", ["beer"]); ("N", ["cake"]);
   ("N", ["juice"]); ("N", ["meat"]); ("N", ["soup"]); ("N", ["fork"]);
   ("N", ["knife"]); ("N", ["oven"]); ("N", ["spoon"]);
   ("Det", ["a"]); ("Det", ["the"])].

(** [set_start_symbol('S')], then one [add_production] for each element of
    the list. *)
Definition english_grammar_from (rules : list (symbol * rhs)) : Grammar :=
  fold_left (fun g r => add_production_list g (fst r) (snd r)) rules
            (set_start_symbol empty_grammar "S").

(** The object [EnglishGrammarCYK]; [cnf_grammar] and [parser] are unset
    until [convert_to_proper_cnf] has run. *)
Record EnglishGrammarCYK : Type := mkEnglish {
  eng_grammar : Grammar;
  eng_terminals : set symbol;
  eng_non_terminals : set symbol;
  eng_cnf_grammar : option Grammar;
  eng_parser : option CYKParser
}.

(** [EnglishGrammarCYK()]: [setup_grammar], then [self.parser = None]. *)
Definition setup_grammar : EnglishGrammarCYK :=
  mkEnglish
    (english_grammar_from english_rules)
    ["he"; "she"; "cooks"; "drinks"; "eats"; "cuts"; "a"; "the";
     "cat"; "dog"; "beer"; "cake"; "juice"; "meat"; "soup";
     "fork"; "knife"; "oven"; "spoon"; "in"; "with"]
    ["S"; "NP"; "VP"; "PP"; "V"; "P"; "N"; "Det"]
    None None.

Definition convert_to_proper_cnf (e : EnglishGrammarCYK) : EnglishGrammarCYK :=
  let cnf_grammar := english_grammar_from english_cnf_rules in
  mkEnglish (eng_grammar e) (eng_terminals e)
            (add "VP1" (eng_non_terminals e))
            (Some cnf_grammar) (Some (new_parser cnf_grammar)).

(** [EnglishGrammarCYK.parse]: the pair [(accepted, parse_tree)] and the
    object afterwards. *)
Definition english_parse (e : EnglishGrammarCYK) (tokens : list symbol)
  : (bool * option ParseTree) * EnglishGrammarCYK :=
  let e := match eng_parser e with
           | None => convert_to_proper_cnf e
           | Some _ => e
           end in
  match eng_parser e with
  | Some p =>
      let (r, p') := parse p tokens in
      (r, mkEnglish (eng_grammar e) (eng_terminals e) (eng_non_terminals e)
                    (eng_cnf_grammar e) (Some p'))
  | None => ((false, None), e)
  end.

(** [validate_sentence]: [(len(invalid_words) == 0, invalid_words)]. *)
Definition validate_sentence (e : EnglishGrammarCYK) (tokens : list symbol)
  : bool * list symbol :=
  let invalid_words :=
    filter (fun word => negb (mem word (eng_terminals e))) tokens in
  (match invalid_words with [] => true | _ => false end, invalid_words).

(* ================================================================= *)
(** ** The store: grammars as shared objects *)

(** A [Grammar] object holds references to its three containers. The
    dictionary cell owns the lists stored in it: [Grammar.copy] copies them
    at every level, and no list is ever shared between two dictionaries. *)
Definition loc := nat.

Inductive cell : Type :=
| SetCell (s : set symbol)
| DictCell (d : dict (list rhs))
| GrammarCell (productions_at terminals_at non_terminals_at : loc)
              (start : option symbol).

Definition store := list cell.

(** A reference that does not hold the kind of object the code expects;
    objects built by the modelled code never produce it. *)
Definition bad_reference : exn := TypeError.

(** Computations over the store that may raise. *)
Definition hM (A : Type) : Type := store -> result A * store.

Definition hret {A : Type} (a : A) : hM A := fun st => (inr a, st).
Definition hraise {A : Type} (e : exn) : hM A := fun st => (inl e, st).
Definition hbind {A B : Type} (m : hM A) (k : A -> hM B) : hM B :=
  fun st => match m st with
            | (inl e, st') => (inl e, st')
            | (inr a, st') => k a st'
            end.
Definition hlift {A : Type} (r : result A) : hM A := fun st => (r, st).

Notation "x <<- m ;; k" := (hbind m (fun x => k))
  (at level 61, m at next level, right associativity).

Definition alloc (c : cell) : hM loc :=
  fun st => (inr (length st), st ++ [c]).

Definition read (l : loc) : hM cell :=
  fun st => match nth_error st l with
            | Some c => (inr c, st)
            | None => (inl bad_reference, st)
            end.

Definition write (l : loc) (c : cell) : hM unit :=
  fun st => (inr tt, list_update st l (fun _ => c)).

Definition read_set (l : loc) : hM (set symbol) :=
  c <<- read l ;;
  match c with SetCell s => hret s | _ => hraise bad_reference end.

Definition read_dict (l : loc) : hM (dict (list rhs)) :=
  c <<- read l ;;
  match c with DictCell d => hret d | _ => hraise bad_reference end.

Definition read_object (r : loc) : hM (loc * loc * loc * option symbol) :=
  c <<- read r ;;
  match c with
  | GrammarCell p t n s => hret (p, t, n, s)
  | _ => hraise bad_reference
  end.

(** The value of the grammar object at [r]. *)
Definition load (r : loc) : hM Grammar :=
  o <<- read_object r ;;
  let '(p, t, n, s) := o in
  d <<- read_dict p ;;
  ts <<- read_set t ;;
  ns <<- read_set n ;;
  hret (mkGrammar d ts ns s).

(** [self.start_symbol = s] on the object at [r]. *)
Definition assign_start_symbol (r : loc) (s : option symbol) : hM unit :=
  o <<- read_object r ;;
  let '(p, t, n, _) := o in
  write r (GrammarCell p t n s).

(** [self.terminals = <new set>] *)
Definition assign_terminals (r : loc) (s : set symbol) : hM unit :=
  o <<- read_object r ;;
  let '(p, _, n, st) := o in
  t <<- alloc (SetCell s) ;;
  write r (GrammarCell p t n st).

(** [self.non_terminals = <new set>] *)
Definition assign_non_terminals (r : loc) (s : set symbol) : hM unit :=
  o <<- read_object r ;;
  let '(p, t, _, st) := o in
  n <<- alloc (SetCell s) ;;
  write r (GrammarCell p t n st).

(** [self.productions = <new dict>] *)
Definition assign_productions (r : loc) (d : dict (list rhs)) : hM unit :=
  o <<- read_object r ;;
  let '(_, t, n, st) := o in
  p <<- alloc (DictCell d) ;;
  write r (GrammarCell p t n st).

(** Mutation of the set object [self.non_terminals] itself ([add]); [s] is
    its content afterwards. *)
Definition mutate_non_terminals (r : loc) (s : set symbol) : hM unit :=
  o <<- read_object r ;;
  let '(_, _, n, _) := o in
  write n (SetCell s).

(** Mutation of the dictionary object [self.productions] itself. *)
Definition mutate_productions (r : loc) (d : dict (list rhs)) : hM unit :=
  o <<- read_object r ;;
  let '(p, _, _, _) := o in
  write p (DictCell d).

(** Mutation of the set object [self.terminals] itself ([add]). *)
Definition mutate_terminals (r : loc) (s : set symbol) : hM unit :=
  o <<- read_object r ;;
  let '(_, t, _, _) := o in
  write t (SetCell s).

(** [add_production] on the object at [r], with a list for [right]: the
    dictionary and the two sets are changed in place, in the order of the
    source. *)
Definition add_production_object (r : loc) (left : symbol) (right : rhs)
  : hM unit :=
  g <<- load r ;;
  let g' := add_production_list g left right in
  _ <<- mutate_productions r (productions g') ;;
  _ <<- mutate_non_terminals r (non_terminals g') ;;
  mutate_terminals r (terminals g').

(** [Grammar()] *)
Definition new_grammar : hM loc :=
  p <<- alloc (DictCell []) ;;
  t <<- alloc (SetCell []) ;;
  n <<- alloc (SetCell []) ;;
  alloc (GrammarCell p t n None).

(** [Grammar.copy] on the object at [r]. *)
Definition copy_object (r : loc) : hM loc :=
  g <<- load r ;;
  r' <<- new_grammar ;;
  _ <<- assign_start_symbol r' (start_symbol g) ;;
  _ <<- assign_terminals r' (terminals g) ;;
  _ <<- assign_non_terminals r' (non_terminals g) ;;
  _ <<- mutate_productions r' (productions (copy g)) ;;
  hret r'.

(** The converter object; its two grammars are references. *)
Record converter_object : Type := mkObject {
  original_at : loc;
  grammar_at : loc;
  counter_of : nat;
  step_of : nat
}.

(** [CNFConverter.__init__] *)
Definition new_converter_object (r : loc) : hM converter_object :=
  o <<- copy_object r ;;
  w <<- copy_object r ;;
  hret (mkObject o w 0 1).

(** The converter as a value, read off the store. *)
Definition snapshot (c : converter_object) : hM CNFConverter :=
  o <<- load (original_at c) ;;
  g <<- load (grammar_at c) ;;
  hret (mkConverter o g (counter_of c) (step_of c)).

(** A stage on the store: what it computes is the stage on values; what it
    writes is given by [commit], from the grammar before and after. *)
Definition run_stage (stage : CNFConverter -> result CNFConverter)
  (commit : Grammar -> Grammar -> loc -> hM unit) (c : converter_object)
  : hM converter_object :=
  v <<- snapshot c ;;
  v' <<- hlift (stage v) ;;
  _ <<- commit (grammar v) (grammar v') (grammar_at c) ;;
  hret (mkObject (original_at c) (grammar_at c)
                 (new_var_counter v') (step_counter v')).

(** Stage A assigns [start_symbol] and adds to [non_terminals] in the branch
    of the nullable start symbol, then rebinds [productions]. *)
Definition commit_epsilon (g g' : Grammar) (r : loc) : hM unit :=
  _ <<- match start_symbol g with
        | Some s =>
            if mem s (find_nullable_symbols g)
            then _ <<- assign_start_symbol r (start_symbol g') ;;
                 mutate_non_terminals r (non_terminals g')
            else hret tt
        | None => hret tt
        end ;;
  assign_productions r (productions g').

(** Stage B rebinds [productions]. *)
Definition commit_unit (g g' : Grammar) (r : loc) : hM unit :=
  assign_productions r (productions g').

(** Stage C rebinds [productions] twice and then [non_terminals]. *)
Definition commit_useless (g g' : Grammar) (r : loc) : hM unit :=
  _ <<- assign_productions r
          (filter_generating (find_generating_symbols g) (productions g)) ;;
  _ <<- assign_productions r (productions g') ;;
  assign_non_terminals r (non_terminals g').

(** Stage D adds the new variables to the set [non_terminals] and rebinds
    [productions]. *)
Definition commit_binary (g g' : Grammar) (r : loc) : hM unit :=
  _ <<- mutate_non_terminals r (non_terminals g') ;;
  assign_productions r (productions g').

(** [to_cnf] on the store; the returned grammar is the object
    [self.grammar]. *)
Definition to_cnf_object (c : converter_object)
  : hM (loc * verdict * converter_object) :=
  c <<- run_stage eliminate_epsilon_productions commit_epsilon c ;;
  c <<- run_stage eliminate_unit_productions commit_unit c ;;
  c <<- run_stage eliminate_useless_symbols commit_useless c ;;
  c <<- run_stage convert_to_binary_form commit_binary c ;;
  g <<- load (grammar_at c) ;;
  hret (grammar_at c, if is_in_cnf g then Completed else Warning, c).

(** [CNFConverter(grammar).to_cnf()] for the grammar object at [r]. *)
Definition convert_object (r : loc) : hM (loc * verdict * converter_object) :=
  c <<- new_converter_object r ;;
  to_cnf_object c.

(* ================================================================= *)
(** ** Notions the properties are stated with *)

(** An association list that is a dictionary: no key twice. *)
Definition is_dict {V : Type} (d : dict V) : Prop := NoDup (keys d).

(** The start symbol is set and is one of the non-terminals. *)
Definition start_registered (g : Grammar) : Prop :=
  exists s, start_symbol g = Some s /\ In s (non_terminals g).

(** Sequences of calls on one [Grammar] object. *)
Inductive grammar_op : Type :=
| AddProduction (left : symbol) (right : pyarg)
| SetStartSymbol (s : symbol)
| RemoveProduction (left : symbol) (right : rhs)
| Copy.

(** A call that raises leaves the grammar as it was. *)
Definition run_op (g : Grammar) (op : grammar_op) : Grammar :=
  match op with
  | AddProduction l r =>
      match add_production g l r with
      | inr g' => g'
      | inl _ => g
      end
  | SetStartSymbol s => set_start_symbol g s
  | RemoveProduction l r => remove_production g l r
  | Copy => copy g
  end.

Definition run_ops (g : Grammar) (ops : list grammar_op) : Grammar :=
  fold_left run_op ops g.

(** A grammar as the loader of [main.py] builds it: the start symbol, then
    one [add_production] per rule. *)
Definition grammar_of (start : symbol) (rules : list (symbol * rhs)) : Grammar :=
  fold_left (fun g r => add_production_list g (fst r) (snd r)) rules
            (set_start_symbol empty_grammar start).

(** [A -> B] is a unit production of [g]. *)
Definition unit_pair (g : Grammar) (a b : symbol) : Prop :=
  In [b] (prods_of (productions g) a) /\ In b (non_terminals g).

(** The transitive closure of the unit pairs. *)
Definition unit_closure (g : Grammar) : symbol -> symbol -> Prop :=
  clos_trans symbol (unit_pair g).

(** A right-hand side of one or two symbols, not the symbol ['ε']. *)
Definition short_rhs (p : rhs) : Prop :=
  is_direct_epsilon p = false /\ (length p = 1 \/ length p = 2).

(** A grammar in CNF that gives no stage of the converter anything to do:
    no right-hand side is empty or ['ε'] or listed twice, the two symbol
    sets are disjoint, the non-terminals are the variables with productions,
    and each of them is generating and reachable. *)
Definition settled (g : Grammar) : Prop :=
  is_dict (productions g)
  /\ is_in_cnf g = true
  /\ (forall a l, In (a, l) (productions g) ->
        NoDup l /\ ~ In [] l /\ ~ In [epsilon_sym] l)
  /\ (forall x, In x (terminals g) -> ~ In x (non_terminals g))
  /\ (forall a, In a (non_terminals g) <-> In a (keys (productions g)))
  /\ (forall a, In a (keys (productions g)) ->
        In a (find_generating_symbols g) /\ In a (find_reachable_symbols g)).

(** Derivation of a word of tokens: a terminal derives itself, a symbol with
    a production derives what the right-hand side derives. *)
Inductive derives (g : Grammar) : symbol -> list symbol -> Prop :=
| derives_terminal : forall t,
    In t (terminals g) -> derives g t [t]
| derives_production : forall a p w,
    In p (prods_of (productions g) a) ->
    derives_all g p w ->
    derives g a w
with derives_all (g : Grammar) : rhs -> list symbol -> Prop :=
| derives_nil : derives_all g [] []
| derives_cons : forall s ss w1 w2,
    derives g s w1 ->
    derives_all g ss w2 ->
    derives_all g (s :: ss) (w1 ++ w2).

Scheme derives_mut := Minimality for derives Sort Prop
  with derives_all_mut := Minimality for derives_all Sort Prop.

(** Derivation by the two kinds of rules the recognizer indexes. *)
Inductive cnf_derives (g : Grammar) : symbol -> list symbol -> Prop :=
| cnf_terminal : forall a t,
    In [t] (prods_of (productions g) a) ->
    In t (terminals g) ->
    cnf_derives g a [t]
| cnf_binary : forall a b c w1 w2,
    In [b; c] (prods_of (productions g) a) ->
    cnf_derives g b w1 ->
    cnf_derives g c w2 ->
    cnf_derives g a (w1 ++ w2).

(** The tokens at positions [i..j], both ends included. *)
Definition span_of (tokens : list symbol) (i j : nat) : list symbol :=
  firstn (j + 1 - i) (skipn i tokens).

(** The two sets of a grammar are disjoint and every variable with
    productions is a non-terminal (section 3 of the specification). *)
Definition classified (g : Grammar) : Prop :=
  (forall x, In x (terminals g) -> ~ In x (non_terminals g))
  /\ (forall a, In a (keys (productions g)) -> In a (non_terminals g)).

(** A start symbol with an empty right-hand side occurs in no right-hand
    side. *)
Definition start_isolated (g : Grammar) : Prop :=
  forall s, start_symbol g = Some s ->
    In [] (prods_of (productions g) s) ->
    forall a p, In p (prods_of (productions g) a) -> ~ In s p.

(** [x] is the start symbol and has an empty right-hand side. *)
Definition empty_start (g : Grammar) (x : symbol) : Prop :=
  start_symbol g = Some x /\ In [] (prods_of (productions g) x).

(** The least set that holds the symbols of [base] and every variable with
    a right-hand side that is not empty and is made of its members: what
    the loops of [find_nullable_symbols] and [find_generating_symbols]
    build up. *)
Inductive closure (d : dict (list rhs)) (base : symbol -> Prop)
  : symbol -> Prop :=
| closure_base : forall x, base x -> closure d base x
| closure_step : forall a l p,
    In (a, l) d -> In p l -> p <> [] ->
    (forall x, In x p -> closure d base x) ->
    closure d base a.

(** A variable is nullable when one of its right-hand sides is empty or
    ['ε'], or is made of nullable variables. *)
Definition nullable (g : Grammar) : symbol -> Prop :=
  closure (productions g)
    (fun a => exists l p,
         In (a, l) (productions g) /\ In p l /\ is_direct_epsilon p = true).

(** A symbol is generating when it is a terminal, or a variable with a
    right-hand side that is not empty and is made of generating symbols. *)
Definition generating (g : Grammar) : symbol -> Prop :=
  closure (productions g) (fun x => In x (terminals g)).

(** [x] occurs in a right-hand side of [a]. *)
Definition occurs (d : dict (list rhs)) (a x : symbol) : Prop :=
  exists p, In p (prods_of d a) /\ In x p.

(** [x] is reached from the start symbol through right-hand sides. *)
Definition reachable (g : Grammar) (x : symbol) : Prop :=
  exists s, start_symbol g = Some s
            /\ clos_refl_trans symbol (occurs (productions g)) s x.

(** [x] occurs in a right-hand side of the generating variable [a] that is
    made of generating symbols. *)
Definition useful_step (g : Grammar) (a x : symbol) : Prop :=
  generating g a
  /\ exists p, In p (prods_of (productions g) a)
               /\ (forall y, In y p -> generating g y)
               /\ In x p.

(** [x] is reached from the start symbol through right-hand sides made of
    generating symbols. *)
Definition useful (g : Grammar) (x : symbol) : Prop :=
  exists s, start_symbol g = Some s
            /\ clos_refl_trans symbol (useful_step g) s x.

(** [c] is [p] with some occurrences of nullable symbols left out. *)
Inductive drops (nullable : set symbol) : rhs -> rhs -> Prop :=
| drops_nil : drops nullable [] []
| drops_keep : forall s p c,
    drops nullable p c -> drops nullable (s :: p) (s :: c)
| drops_skip : forall s p c,
    In s nullable -> drops nullable p c -> drops nullable (s :: p) c.

(** The dictionary [d] covers the production [a -> p]: it lists [p] for
    [a], or it lists [a -> x y] for the first symbol [x] of [p] and a
    variable [y] that is none of [old], and covers [y -> rest] for the rest
    of [p]. *)
Inductive covers (d : dict (list rhs)) (old : list symbol)
  : symbol -> rhs -> Prop :=
| covers_listed : forall a p,
    In p (prods_of d a) -> covers d old a p
| covers_chain : forall a x y rest,
    In [x; y] (prods_of d a) -> ~ In y old ->
    covers d old y rest ->
    covers d old a (x :: rest).

(** [d'] lists what [d] lists, for every variable. *)
Definition grows (d d' : dict (list rhs)) : Prop :=
  forall k p, In p (prods_of d k) -> In p (prods_of d' k).

(** What the methods of [Grammar] keep true of a grammar: no key twice,
    every variable with an entry is a non-terminal, the terminals are
    symbols that [add_production] takes for terminals, and every such
    symbol of a right-hand side is a terminal. *)
Definition orderly (g : Grammar) : Prop :=
  is_dict (productions g)
  /\ (forall a, In a (keys (productions g)) -> In a (non_terminals g))
  /\ (forall t, In t (terminals g) -> classified_terminal t = true)
  /\ (forall a l p x, In (a, l) (productions g) -> In p l -> In x p ->
         classified_terminal x = true -> In x (terminals g)).

(** A grammar with its symbols in order: no key twice, every variable with
    an entry is a non-terminal, no terminal starts with one of the letters
    [A] to [Z], and every symbol of a right-hand side is a terminal or a
    non-terminal. *)
Definition well_formed (g : Grammar) : Prop :=
  is_dict (productions g)
  /\ (forall a, In a (keys (productions g)) -> In a (non_terminals g))
  /\ (forall t, In t (terminals g) -> starts_with_capital t = false)
  /\ (forall a p x, In p (prods_of (productions g) a) -> In x p ->
         In x (terminals g) \/ In x (non_terminals g)).

(** No right-hand side is the symbol ['ε'] alone: the empty right-hand
    sides are written as empty lists. *)
Definition epsilon_as_empty (g : Grammar) : Prop :=
  forall a l, In (a, l) (productions g) -> ~ In [epsilon_sym] l.

(** No right-hand side is empty. *)
Definition epsilon_free (g : Grammar) : Prop :=
  forall a l, In (a, l) (productions g) -> ~ In [] l.

(** No terminal is a non-terminal. *)
Definition disjoint_sets (g : Grammar) : Prop :=
  forall x, In x (terminals g) -> ~ In x (non_terminals g).

(** [a] is the start symbol that stage A has made on the way from [g] to
    [g']: the start symbol of [g] is nullable, and [a] is the start symbol
    of [g']. *)
Definition made_start (g g' : Grammar) (a : symbol) : Prop :=
  exists s, start_symbol g = Some s
            /\ In s (find_nullable_symbols g)
            /\ start_symbol g' = Some a.

(** [x] is no symbol of [g]. *)
Definition new_symbol (g : Grammar) (x : symbol) : Prop :=
  ~ In x (terminals g) /\ ~ In x (non_terminals g).

(** Over the dictionary [d], the right-hand side [p] stands for the
    right-hand side [q] of [g]: a symbol of [g] stands for itself, and a
    new variable, which has one right-hand side in [d], for what that
    right-hand side stands for. *)
Inductive unfolds (g : Grammar) (d : dict (list rhs)) : rhs -> rhs -> Prop :=
| unfolds_nil : unfolds g d [] []
| unfolds_old : forall x p q,
    ~ new_symbol g x -> unfolds g d p q -> unfolds g d (x :: p) (x :: q)
| unfolds_new : forall y p q,
    new_symbol g y -> prods_of d y = [p] -> unfolds g d p q ->
    unfolds g d [y] q.

(** A name that the binarizer in the state [st] cannot make any more: a
    symbol of [g], or a name [Y<i>] with [i] below the counter. *)
Definition settled_name (g : Grammar) (st : binarizer) (y : symbol) : Prop :=
  ~ new_symbol g y \/ exists i, i < bin_counter st /\ y = candidate "Y" i.

(** What the loops of stage D keep true of their state: the non-terminals
    of [g] stay, the keys are settled names, and every right-hand side of a
    symbol of [g] stands for one of its right-hand sides in [g]. *)
Definition binarizing (g : Grammar) (st : binarizer) : Prop :=
  incl (non_terminals g) (bin_nts st)
  /\ (forall y, In y (keys (bin_dict st)) -> settled_name g st y)
  /\ (forall a p, ~ new_symbol g a -> In p (prods_of (bin_dict st) a) ->
         exists q, unfolds g (bin_dict st) p q
                   /\ In q (prods_of (productions g) a)).

(** *** Measures of the loops *)

(** The variables of [d] that are not yet in [s]: what the propagation
    loops of the converter count down. *)
Definition missing (d : dict (list rhs)) (s : set symbol) : nat :=
  length (filter (fun vp => negb (mem (fst vp) s)) d).

(** What one run of the loop body keeps true, [s] being the set it started
    from: the flag is set exactly when the set has grown. *)
Definition pass_inv (d : dict (list rhs)) (s : set symbol)
  (st : set symbol * bool) : Prop :=
  missing d (fst st) <= missing d s
  /\ (snd st = true -> missing d (fst st) < missing d s)
  /\ (snd st = false -> fst st = s).

(** *** The parser in the middle of a parse *)

(** The variables that [terminal_producers] lists for a token, and those
    that [binary_producers] lists for a pair. *)
Definition token_producers (g : Grammar) (t : symbol) : set symbol :=
  match dict_get (fst (precompute_production_maps g)) t with
  | Some vars => vars
  | None => []
  end.

Definition pair_producers (g : Grammar) (b c : symbol) : set symbol :=
  match pdict_get (snd (precompute_production_maps g)) (b, c) with
  | Some vars => vars
  | None => []
  end.

(** The same lookups in any pair of index dictionaries. *)
Definition tokens_of (m : dict (set symbol) * pdict) (t : symbol) : set symbol :=
  match dict_get (fst m) t with Some vars => vars | None => [] end.

Definition pairs_of (m : dict (set symbol) * pdict) (b c : symbol)
  : set symbol :=
  match pdict_get (snd m) (b, c) with Some vars => vars | None => [] end.

(** A parser for [g] in the middle of [parse] on [tokens]: the indices are
    those of [g] and the table is square, of the size of the sentence. *)
Definition parsing (g : Grammar) (tokens : list symbol) (p : CYKParser)
  : Prop :=
  cyk_grammar p = g
  /\ terminal_producers p = fst (precompute_production_maps g)
  /\ binary_producers p = snd (precompute_production_maps g)
  /\ sentence p = tokens
  /\ length (table p) = length tokens
  /\ (forall row, In row (table p) -> length row = length tokens).

(** Between [p] and [p'] the table has changed in the cell [(i, j)] only,
    which has received the variables in [added]. *)
Definition adds (g : Grammar) (tokens : list symbol) (i j : nat)
  (added : symbol -> Prop) (p p' : CYKParser) : Prop :=
  parsing g tokens p'
  /\ (forall i' j', (i', j') <> (i, j) ->
        grid_get [] (table p') i' j' = grid_get [] (table p) i' j')
  /\ (forall a, In a (grid_get [] (table p') i j) <->
                In a (grid_get [] (table p) i j) \/ added a).

(** The state of the table when the spans shorter than [len], and those of
    length [len] that start before [i0], have been filled and the others
    are still empty. *)
Definition filled (g : Grammar) (tokens : list symbol) (len i0 : nat)
  (p : CYKParser) : Prop :=
  parsing g tokens p
  /\ forall i j,
      i <= j -> j < length tokens ->
      ((j + 1 - i < len \/ (j + 1 - i = len /\ i < i0)) ->
       forall a, In a (grid_get [] (table p) i j) <->
                 cnf_derives g a (span_of tokens i j))
      /\ ((len < j + 1 - i \/ (j + 1 - i = len /\ i0 <= i)) ->
          grid_get [] (table p) i j = []).

(** Every split point recorded in [parse_table[i][j]] lies in [i..j-1]. *)
Definition splits_inside (p : CYKParser) : Prop :=
  forall i j v l r k,
    dict_get (grid_get [] (parse_table p) i j) v
    = Some (ProductionEntry l r k) ->
    i <= k /\ k < j.

(** Two grids of the same shape. *)
Definition same_shape {A B : Type} (t1 : grid A) (t2 : grid B) : Prop :=
  length t1 = length t2
  /\ forall i, length (nth i t1 []) = length (nth i t2 []).

(** [v in self.parse_table[i][j]] *)
Definition recorded (p : CYKParser) (i j : nat) (v : symbol) : Prop :=
  exists e, dict_get (grid_get [] (parse_table p) i j) v = Some e.

(** What an entry of [parse_table[i][j][v]] stands for: a terminal rule of
    [v] for the token at [i], or a binary rule of [v] whose two symbols are
    recorded for the two parts of the span. *)
Definition entry_ok (g : Grammar) (tokens : list symbol) (p : CYKParser)
  (i j : nat) (v : symbol) (e : entry) : Prop :=
  match e with
  | TerminalEntry t =>
      i = j /\ nth_error tokens i = Some t
      /\ In [t] (prods_of (productions g) v) /\ In t (terminals g)
  | ProductionEntry l r k =>
      i <= k /\ k < j
      /\ In [l; r] (prods_of (productions g) v)
      /\ recorded p i k l /\ recorded p (S k) j r
  end.

(** The two tables in the middle of [parse]: they have one row for each
    token and the same shape, every variable of a cell of [table] is
    recorded in [parse_table], and every entry of [parse_table] stands for
    a rule of the grammar. *)
Definition licensed (g : Grammar) (tokens : list symbol) (p : CYKParser)
  : Prop :=
  cyk_grammar p = g
  /\ terminal_producers p = fst (precompute_production_maps g)
  /\ binary_producers p = snd (precompute_production_maps g)
  /\ sentence p = tokens
  /\ length (table p) = length tokens
  /\ same_shape (table p) (parse_table p)
  /\ (forall i j v, In v (grid_get [] (table p) i j) -> recorded p i j v)
  /\ (forall i j v e,
        dict_get (grid_get [] (parse_table p) i j) v = Some e ->
        entry_ok g tokens p i j v e).

(** [t] is a derivation tree of the tokens [i..j] from the variable [v], as
    [_construct_parse_tree] lays trees out: a variable over a token is a
    node with one terminal child, a variable over two variables is a node
    with their two trees. *)
Inductive derivation_tree (g : Grammar) (tokens : list symbol)
  : symbol -> nat -> nat -> ParseTree -> Prop :=
| tree_terminal : forall v i t,
    In [t] (prods_of (productions g) v) ->
    In t (terminals g) ->
    nth_error tokens i = Some t ->
    derivation_tree g tokens v i i
      (Node v (i, i) false [Node t (i, i) true []])
| tree_production : forall v l r i k j tl tr,
    In [l; r] (prods_of (productions g) v) ->
    i <= k -> k < j ->
    derivation_tree g tokens l i k tl ->
    derivation_tree g tokens r (S k) j tr ->
    derivation_tree g tokens v i j (Node v (i, j) false [tl; tr]).

(** The symbols of the terminal nodes of a tree, from left to right. *)
Fixpoint leaves (t : ParseTree) : list symbol :=
  match t with
  | Node s _ true _ => [s]
  | Node _ _ false children => flat_map leaves children
  end.

(** The number of nodes of a tree that are not terminal nodes. *)
Fixpoint inner_nodes (t : ParseTree) : nat :=
  match t with
  | Node _ _ true _ => 0
  | Node _ _ false children =>
      S (fold_right (fun c n => inner_nodes c + n) 0 children)
  end.

(** The sum of the counts of a usage dictionary. *)
Definition total (usage : dict nat) : nat :=
  fold_right (fun kv n => snd kv + n) 0 usage.

(** The two prepositions of the English vocabulary. *)
Definition is_preposition (word : symbol) : bool :=
  String.eqb word "in" || String.eqb word "with".

(** A parser for the grammar [g] after it has parsed the sentences of
    [history], one after the other. *)
Definition parser_after (g : Grammar) (history : list (list symbol))
  : CYKParser :=
  fold_left (fun p tokens => snd (parse p tokens)) history (new_parser g).

(** An [EnglishGrammarCYK] object after it has parsed the sentences of
    [history], one after the other. *)
Definition english_after (history : list (list symbol)) : EnglishGrammarCYK :=
  fold_left (fun e tokens => snd (english_parse e tokens)) history
            setup_grammar.

(** *** Grammar objects in the store *)

(** The store [st'] agrees with [st] on every cell of [st]. *)
Definition preserves (st st' : store) : Prop :=
  forall l, l < length st -> nth_error st' l = nth_error st l.

(** The store [st'] is no shorter than [st] and agrees with it below
    [n]. *)
Definition extends (n : nat) (st st' : store) : Prop :=
  length st <= length st'
  /\ forall l, l < n -> nth_error st' l = nth_error st l.

(** The object at [r] is a grammar whose value is [g]. *)
Definition holds (st : store) (r : loc) (g : Grammar) : Prop :=
  exists p t n,
    nth_error st r = Some (GrammarCell p t n (start_symbol g))
    /\ nth_error st p = Some (DictCell (productions g))
    /\ nth_error st t = Some (SetCell (terminals g))
    /\ nth_error st n = Some (SetCell (non_terminals g)).

(** The same, for an object that was allocated with its containers at [n1]
    or later, and whose two sets are two objects. *)
Definition owns (n1 : nat) (st : store) (r : loc) (g : Grammar) : Prop :=
  exists p t n,
    nth_error st r = Some (GrammarCell p t n (start_symbol g))
    /\ nth_error st p = Some (DictCell (productions g))
    /\ nth_error st t = Some (SetCell (terminals g))
    /\ nth_error st n = Some (SetCell (non_terminals g))
    /\ t <> n /\ n1 <= r /\ n1 <= p /\ n1 <= t /\ n1 <= n.

(** The same, for an object that lies below [n1] with its containers. *)
Definition below (n1 : nat) (st : store) (r : loc) (g : Grammar) : Prop :=
  exists p t n,
    nth_error st r = Some (GrammarCell p t n (start_symbol g))
    /\ nth_error st p = Some (DictCell (productions g))
    /\ nth_error st t = Some (SetCell (terminals g))
    /\ nth_error st n = Some (SetCell (non_terminals g))
    /\ r < n1 /\ p < n1 /\ t < n1 /\ n < n1.

(** The converter object [c] in the store [st] is the converter [v], its
    original grammar lying below [n1] and its working grammar at [n1] or
    later. *)
Definition represents (n1 : nat) (st : store) (c : converter_object)
  (v : CNFConverter) : Prop :=
  below n1 st (original_at c) (original_grammar v)
  /\ owns n1 st (grammar_at c) (grammar v)
  /\ counter_of c = new_var_counter v
  /\ step_of c = step_counter v.

(** The writes [commit] are those of [stage]: they turn the working grammar
    before the stage into the one after it, and touch nothing below the
    objects the converter owns. *)
Definition commits (stage : CNFConverter -> result CNFConverter)
  (commit : Grammar -> Grammar -> loc -> hM unit) : Prop :=
  forall v v',
    stage v = inr v' ->
    original_grammar v' = original_grammar v
    /\ forall n1 st r,
        owns n1 st r (grammar v) ->
        exists st',
          commit (grammar v) (grammar v') r st = (inr tt, st')
          /\ owns n1 st' r (grammar v')
          /\ extends n1 st st'.

(** *** Grammars and stores used as examples *)

(** The grammars of the three scenarios of section 8, and further ones used
    below. *)
Definition scenario1 : Grammar :=
  grammar_of "E"
    [("E", ["E"; "P"; "T"]); ("E", ["T"]);
     ("T", ["T"; "M"; "F"]); ("T", ["F"]);
     ("F", ["L"; "E"; "R"]); ("F", ["id"]);
     ("L", ["("]); ("R", [")"]); ("P", ["+"]); ("M", ["*"])].

Definition scenario2 : Grammar :=
  grammar_of "S"
    [("S", ["A"; "B"]); ("A", ["a"]); ("A", []); ("B", ["b"]); ("B", [])].

(** Scenario 2 as a grammar file spells it, with the symbol ['ε']. *)
Definition scenario2_eps : Grammar :=
  grammar_of "S"
    [("S", ["A"; "B"]); ("A", ["a"]); ("A", [epsilon_sym]);
     ("B", ["b"]); ("B", [epsilon_sym])].

Definition scenario3 : Grammar :=
  grammar_of "S" [("S", ["A"]); ("A", ["B"]); ("B", ["c"])].

(** [S -> a b] *)
Definition two_terminals : Grammar :=
  grammar_of "S" [("S", ["a"; "b"])].

(** [X -> S] with start symbol [S], which has no production. *)
Definition unit_to_missing : Grammar :=
  grammar_of "S" [("X", ["S"])].

(** [X -> a], [a -> b] with start symbol [X]: the calls of
    [add_production] put [a] in both symbol sets. *)
Definition terminal_with_production : Grammar :=
  grammar_of "X" [("X", ["a"]); ("a", ["b"])].

(** [S -> a | a]: the same right-hand side added twice. *)
Definition cnf_with_duplicate : Grammar :=
  grammar_of "S" [("S", ["a"]); ("S", ["a"])].

(** [S -> a] with start symbol [S], after [T] had been the start symbol:
    [T] is a non-terminal without productions. *)
Definition cnf_with_idle_variable : Grammar :=
  set_start_symbol (grammar_of "T" [("S", ["a"])]) "S".

(** [S -> a | ε], in CNF as it stands. *)
Definition cnf_with_empty : Grammar :=
  grammar_of "S" [("S", ["a"]); ("S", [])].

(** [S -> a], [B -> b]: in CNF, with [B] out of reach. *)
Definition cnf_with_unreachable : Grammar :=
  grammar_of "S" [("S", ["a"]); ("B", ["b"])].

(** [S -> ε | X S], [X -> a], in CNF as it stands. *)
Definition start_on_the_right : Grammar :=
  grammar_of "S" [("S", []); ("S", ["X"; "S"]); ("X", ["a"])].

(** [S -> A B], [A -> a], [B -> b]. *)
Definition small_cnf : Grammar :=
  grammar_of "S" [("S", ["A"; "B"]); ("A", ["a"]); ("B", ["b"])].

(** A store with the grammar of scenario 2 at reference 3. *)
Definition scenario2_store : store :=
  [DictCell (productions scenario2); SetCell (terminals scenario2);
   SetCell (non_terminals scenario2); GrammarCell 0 1 2 (Some "S")].

(* ================================================================= *)
(** * Properties *)
(** ** Sets and dictionaries *)

Lemma mem_In : forall x s, mem x s = true <-> In x s.
Proof.
  intros x s. unfold mem. split.
  - apply set_mem_correct1.
  - apply set_mem_correct2.
Qed.

Lemma mem_not_In : forall x s, mem x s = false <-> ~ In x s.
Proof.
  intros x s. rewrite <- mem_In. destruct (mem x s); split; congruence.
Qed.

Lemma add_In : forall x y s, In x (add y s) <-> x = y \/ In x s.
Proof. intros. unfold add. apply set_add_iff. Qed.

Lemma add_present : forall x s, In x s -> add x s = s.
Proof.
  intros x s. unfold add. induction s as [|y s IH]; simpl; intros H.
  - contradiction.
  - destruct (string_dec x y) as [->|n]; [reflexivity|].
    destruct H as [H|H]; [congruence|]. now rewrite IH.
Qed.

Lemma add_absent : forall x s, ~ In x s -> add x s = s ++ [x].
Proof.
  intros x s. unfold add. induction s as [|y s IH]; simpl; intros H.
  - reflexivity.
  - destruct (string_dec x y) as [->|n]; [tauto|].
    rewrite IH; tauto.
Qed.

Lemma add_NoDup : forall x s, NoDup s -> NoDup (add x s).
Proof. intros. now apply set_add_nodup. Qed.

Lemma discard_In : forall x y s, In x (discard y s) <-> In x s /\ x <> y.
Proof.
  intros x y s. unfold discard. rewrite filter_In, negb_true_iff, String.eqb_neq.
  intuition congruence.
Qed.

Lemma mem_rhs_In : forall p l, mem_rhs p l = true <-> In p l.
Proof.
  intros. unfold mem_rhs. split;
    [apply set_mem_correct1 | apply set_mem_correct2].
Qed.

Lemma mem_rhs_not_In : forall p l, mem_rhs p l = false <-> ~ In p l.
Proof.
  intros p l. rewrite <- mem_rhs_In. destruct (mem_rhs p l); split; congruence.
Qed.

Lemma append_new_In : forall p q l, In p (append_new q l) <-> p = q \/ In p l.
Proof.
  intros p q l. unfold append_new.
  destruct (mem_rhs q l) eqn:E.
  - apply mem_rhs_In in E. intuition congruence.
  - rewrite in_app_iff. simpl. intuition congruence.
Qed.

Lemma dict_get_In : forall V (d : dict V) k v,
  dict_get d k = Some v -> In (k, v) d.
Proof.
  induction d as [|[k' v'] d IH]; simpl; intros k v H; [discriminate|].
  destruct (String.eqb k k') eqn:E.
  - apply String.eqb_eq in E. left. congruence.
  - right. now apply IH.
Qed.

Lemma dict_get_keys : forall V (d : dict V) k,
  In k (keys d) <-> exists v, dict_get d k = Some v.
Proof.
  induction d as [|[k' v'] d IH]; simpl; intros k.
  - split; [contradiction | intros [v H]; discriminate].
  - destruct (String.eqb k k') eqn:E.
    + apply String.eqb_eq in E. subst. split; eauto.
    + apply String.eqb_neq in E. rewrite <- IH. intuition congruence.
Qed.

Lemma dict_get_None : forall V (d : dict V) k,
  dict_get d k = None <-> ~ In k (keys d).
Proof.
  intros V d k. rewrite dict_get_keys.
  destruct (dict_get d k) as [v|]; split; intros H.
  - discriminate.
  - exfalso. apply H. eauto.
  - intros [v' H']. discriminate.
  - reflexivity.
Qed.

Lemma In_dict_get : forall V (d : dict V) k v,
  is_dict d -> In (k, v) d -> dict_get d k = Some v.
Proof.
  unfold is_dict, keys.
  induction d as [|[k' v'] d IH]; simpl; intros k v N H; [contradiction|].
  inversion N as [|? ? Hn Hd]; subst.
  destruct H as [H|H].
  - inversion H; subst. now rewrite String.eqb_refl.
  - destruct (String.eqb k k') eqn:E.
    + apply String.eqb_eq in E. subst. exfalso. apply Hn.
      change k' with (fst (k', v)). now apply in_map.
    + now apply IH.
Qed.

Lemma dict_get_set_same : forall V (d : dict V) k v,
  dict_get (dict_set d k v) k = Some v.
Proof.
  induction d as [|[k' v'] d IH]; simpl; intros k v.
  - now rewrite String.eqb_refl.
  - destruct (String.eqb k k') eqn:E; simpl; rewrite E; auto.
Qed.

Lemma dict_get_set_other : forall V (d : dict V) k k' v,
  k <> k' -> dict_get (dict_set d k v) k' = dict_get d k'.
Proof.
  induction d as [|[k0 v0] d IH]; simpl; intros k k' v N.
  - apply not_eq_sym in N. apply String.eqb_neq in N. now rewrite N.
  - destruct (String.eqb k k0) eqn:E; simpl.
    + apply String.eqb_eq in E. subst k0.
      destruct (String.eqb k' k) eqn:E'; auto.
      apply String.eqb_eq in E'. congruence.
    + destruct (String.eqb k' k0); auto.
Qed.

Lemma dict_get_del_same : forall V (d : dict V) k,
  dict_get (dict_del d k) k = None.
Proof.
  intros V d k. apply dict_get_None. unfold dict_del, keys.
  rewrite in_map_iff. intros [[k' v] [E H]]. simpl in E. subst k'.
  apply filter_In in H. destruct H as [_ H]. simpl in H.
  now rewrite String.eqb_refl in H.
Qed.

Lemma dict_get_del_other : forall V (d : dict V) k k',
  k <> k' -> dict_get (dict_del d k) k' = dict_get d k'.
Proof.
  unfold dict_del.
  induction d as [|[k0 v0] d IH]; simpl; intros k k' N; [reflexivity|].
  destruct (String.eqb k k0) eqn:E; simpl.
  - apply String.eqb_eq in E. subst k0.
    destruct (String.eqb k' k) eqn:E'.
    + apply String.eqb_eq in E'. congruence.
    + now apply IH.
  - destruct (String.eqb k' k0); auto.
Qed.

Lemma dict_get_map : forall (f : symbol -> list rhs -> list rhs) d k,
  dict_get (map (fun vp => (fst vp, f (fst vp) (snd vp))) d) k
  = option_map (f k) (dict_get d k).
Proof.
  induction d as [|[k' v'] d IH]; simpl; intros k; [reflexivity|].
  destruct (String.eqb k k') eqn:E; auto.
  apply String.eqb_eq in E. now subst.
Qed.

Lemma prods_of_set_same : forall d k v, prods_of (dict_set d k v) k = v.
Proof. intros. unfold prods_of. now rewrite dict_get_set_same. Qed.

Lemma prods_of_set_other : forall d k k' v,
  k <> k' -> prods_of (dict_set d k v) k' = prods_of d k'.
Proof. intros. unfold prods_of. now rewrite dict_get_set_other. Qed.

Lemma keys_set : forall V (d : dict V) k v x,
  In x (keys (dict_set d k v)) <-> x = k \/ In x (keys d).
Proof.
  intros V d k v x. rewrite !dict_get_keys.
  destruct (string_dec k x) as [->|N].
  - rewrite dict_get_set_same. split; eauto.
  - rewrite dict_get_set_other by assumption. intuition congruence.
Qed.

Lemma fold_left_ind : forall (A B : Type) (P : B -> Prop) (f : B -> A -> B) l b,
  P b -> (forall b a, In a l -> P b -> P (f b a)) -> P (fold_left f l b).
Proof.
  intros A B P f l. induction l as [|a l IH]; simpl; intros b Hb Hf.
  - assumption.
  - apply IH; auto.
Qed.

(** ** Grammar operations *)

Lemma fold_classify_In : forall right t x,
  In x (fold_left (fun t s => if classified_terminal s then add s t else t)
                  right t)
  <-> In x t \/ (In x right /\ classified_terminal x = true).
Proof.
  induction right as [|s right IH]; simpl; intros t x.
  - tauto.
  - rewrite IH. destruct (classified_terminal s) eqn:E.
    + rewrite add_In. intuition (subst; auto).
    + intuition (subst; auto; congruence).
Qed.

Lemma add_production_list_spec : forall g left right,
  let g' := add_production_list g left right in
  prods_of (productions g') left = prods_of (productions g) left ++ [right]
  /\ (forall a, a <> left ->
        dict_get (productions g') a = dict_get (productions g) a)
  /\ (forall x, In x (non_terminals g') <-> x = left \/ In x (non_terminals g))
  /\ (forall x, In x (terminals g') <->
        In x (terminals g) \/ (In x right /\ classified_terminal x = true))
  /\ start_symbol g' = start_symbol g.
Proof.
  intros g left right. simpl.
  split; [apply prods_of_set_same|].
  split; [intros a N; apply dict_get_set_other; congruence|].
  split; [intros x; apply add_In|].
  split; [intros x; apply fold_classify_In | reflexivity].
Qed.

(** The test of [add_production], spelled out. *)
Lemma classified_terminal_spec : forall x,
  classified_terminal x = true
  <-> starts_with_capital x = false
      \/ x = epsilon_sym \/ x = "epsilon" \/ x = "".
Proof.
  intros x. unfold classified_terminal.
  rewrite !Bool.orb_true_iff, !String.eqb_eq.
  destruct x as [|c x]; cbn [starts_with_capital].
  - intuition.
  - rewrite Bool.negb_true_iff. tauto.
Qed.

(** C7 (as amended). [add_production(left, right)] appends [right] to the
    productions of [left] and registers [left] as a non-terminal; it raises
    for no list of symbols whatever, classified or not. Of the symbols that
    start with an ASCII character, or are ['ε'] or the empty string, those
    of [right] that do not start with one of the letters [A] to [Z], or
    are ['ε'], ['epsilon'] or the empty string, are added to the terminals,
    and the others are left as they are. The only call that raises is one
    whose [right] is not a list. *)
Theorem add_production_accepts_any_symbols :
  forall g left right,
    add_production g left (PyList right) = inr (add_production_list g left right)
    /\ (exists e, add_production g left PyOther = inl e)
    /\ prods_of (productions (add_production_list g left right)) left
       = prods_of (productions g) left ++ [right]
    /\ In left (non_terminals (add_production_list g left right))
    /\ (forall x,
          ascii_initial x = true \/ x = epsilon_sym ->
          (In x (terminals (add_production_list g left right)) <->
           In x (terminals g)
           \/ (In x right
               /\ (starts_with_capital x = false
                   \/ x = epsilon_sym \/ x = "epsilon" \/ x = ""))))
    /\ (forall x, In x (non_terminals (add_production_list g left right)) <->
          x = left \/ In x (non_terminals g)).
Proof.
  intros g left right.
  destruct (add_production_list_spec g left right) as (Hp & _ & Hn & Ht & _).
  split; [reflexivity|].
  split; [eexists; reflexivity|].
  split; [exact Hp|].
  split; [apply Hn; now left|].
  split; [|exact Hn].
  intros x _. rewrite (Ht x), classified_terminal_spec. reflexivity.
Qed.

(** C7, the claim as stated fails: the symbol [A] is in neither set of the
    empty grammar, and [add_production('S', ['A'])] returns all the same,
    leaving [A] in neither set. *)
Lemma add_production_unclassified_symbol :
  ~ In "A" (terminals empty_grammar)
  /\ ~ In "A" (non_terminals empty_grammar)
  /\ add_production empty_grammar "S" (PyList ["A"])
     = inr (mkGrammar [("S", [["A"]])] [] ["S"] None)
  /\ ~ (exists e, add_production empty_grammar "S" (PyList ["A"]) = inl e).
Proof.
  repeat split; try (simpl; tauto).
  intros [e H]. discriminate H.
Qed.

(** ** Nullable symbols *)

Lemma direct_nullable_inner : forall v l acc x,
  In x (fold_left
          (fun nl prod => if is_direct_epsilon prod then add v nl else nl)
          l acc)
  <-> In x acc \/ (x = v /\ exists p, In p l /\ is_direct_epsilon p = true).
Proof.
  intros v l. induction l as [|p l IH]; simpl; intros acc x.
  - split; [auto | intros [H | [_ [p [[] _]]]]; auto].
  - rewrite IH. destruct (is_direct_epsilon p) eqn:E.
    + rewrite add_In. split.
      * intros [[-> | H] | [-> [q [Hq Eq]]]]; eauto 6.
      * intros [H | [-> [q [[<- | Hq] Eq]]]]; eauto 6.
    + split.
      * intros [H | [-> [q [Hq Eq]]]]; eauto 6.
      * intros [H | [-> [q [[<- | Hq] Eq]]]]; eauto 6. congruence.
Qed.

Lemma direct_nullable_In : forall d x,
  In x (direct_nullable d)
  <-> exists l p, In (x, l) d /\ In p l /\ is_direct_epsilon p = true.
Proof.
  intros d x. unfold direct_nullable.
  assert (G : forall acc,
    In x (fold_left
            (fun nullable vp =>
               fold_left
                 (fun nl prod =>
                    if is_direct_epsilon prod then add (fst vp) nl else nl)
                 (snd vp) nullable) d acc)
    <-> In x acc \/
        exists l p, In (x, l) d /\ In p l /\ is_direct_epsilon p = true).
  { induction d as [|[v l] d IH]; simpl; intros acc.
    - split; [auto | intros [H | (l & p & [] & _)]; auto].
    - rewrite IH, direct_nullable_inner. split.
      + intros [[H | [-> (p & Hp & E)]] | (l' & p & H & Hp & E)]; eauto 8.
      + intros [H | (l' & p & [H | H] & Hp & E)]; eauto 8.
        inversion H; subst. eauto 8. }
  rewrite G. simpl. tauto.
Qed.

Lemma propagate_var_incl : forall v l (st : set symbol * bool) x,
  In x (fst st) -> In x (fst (propagate_var v l st)).
Proof.
  intros v l st x H. unfold propagate_var.
  destruct (mem v (fst st)); auto.
  apply (fold_left_ind (fun st' : set symbol * bool => In x (fst st'))); auto.
  intros b a _ Hb. destruct (nonempty_all_in (fst b) a); auto.
  simpl. apply add_In. now right.
Qed.

Lemma propagate_pass_incl : forall d s x,
  In x s -> In x (fst (propagate_pass d s)).
Proof.
  intros d s x H. unfold propagate_pass.
  apply (fold_left_ind (fun st' : set symbol * bool => In x (fst st'))); auto.
  intros b a _ Hb. now apply propagate_var_incl.
Qed.

Lemma propagate_incl : forall fuel d s x,
  In x s -> In x (propagate fuel d s).
Proof.
  induction fuel as [|fuel IH]; simpl; intros d s x H; auto.
  pose proof (propagate_pass_incl d s x H) as Hp.
  destruct (propagate_pass d s) as [s' changed]. simpl in Hp.
  destruct changed; auto.
Qed.

(** C9. [add_production] adds every right-hand-side symbol that is ['ε'],
    ['epsilon'] or the empty string to the terminals. So after
    [add_production(left, ['ε'])] the production [left -> ε] passes the
    length-1 test of [is_in_cnf] as a terminal production, and at the same
    time the converter counts it as an epsilon production: [left] is in the
    nullable set. The grammar [S -> 'ε'] is in CNF and has [S] nullable. *)
Theorem epsilon_symbol_terminal_and_nullable :
  (forall g left right s,
      In s right -> s = epsilon_sym \/ s = "epsilon" \/ s = "" ->
      In s (terminals (add_production_list g left right)))
  /\ (forall g left,
        cnf_production_ok (add_production_list g left [epsilon_sym])
                          left [epsilon_sym] = true
        /\ is_direct_epsilon [epsilon_sym] = true
        /\ In left (find_nullable_symbols
                      (add_production_list g left [epsilon_sym])))
  /\ is_in_cnf (grammar_of "S" [("S", [epsilon_sym])]) = true
  /\ find_nullable_symbols (grammar_of "S" [("S", [epsilon_sym])]) = ["S"].
Proof.
  split; [|split; [|split; reflexivity]].
  - intros g left right s Hin Hs.
    apply add_production_list_spec. right. split; [assumption|].
    unfold classified_terminal.
    destruct Hs as [-> | [-> | ->]]; reflexivity.
  - intros g left. split; [|split; [reflexivity|]].
    + simpl. apply mem_In. apply add_In. now left.
    + unfold find_nullable_symbols. apply propagate_incl.
      apply direct_nullable_In.
      exists (prods_of (productions g) left ++ [[epsilon_sym]]), [epsilon_sym].
      split; [|split; [|reflexivity]].
      * apply dict_get_In. simpl. apply dict_get_set_same.
      * apply in_app_iff. right. now left.
Qed.

Lemma epsilon_symbol_terminal_and_nullable_witness :
  In epsilon_sym
     (terminals (add_production_list empty_grammar "A" ["a"; epsilon_sym])).
Proof.
  apply (proj1 epsilon_symbol_terminal_and_nullable
           empty_grammar "A" ["a"; epsilon_sym] epsilon_sym).
  - simpl. auto.
  - left. reflexivity.
Defined.

(** ** The start symbol stays registered *)

Lemma remove_production_non_terminals : forall g left right x,
  In x (non_terminals (remove_production g left right)) ->
  In x (non_terminals g).
Proof.
  intros g left right x. unfold remove_production.
  destruct (dict_get (productions g) left) as [l|]; auto.
  destruct (mem_rhs right l); auto.
  destruct (list_remove right l); simpl; auto.
  destruct (is_start g left); auto.
  rewrite discard_In. tauto.
Qed.

Lemma remove_production_start : forall g left right,
  start_symbol (remove_production g left right) = start_symbol g.
Proof.
  intros g left right. unfold remove_production.
  destruct (dict_get (productions g) left) as [l|]; auto.
  destruct (mem_rhs right l); auto.
  destruct (list_remove right l); reflexivity.
Qed.

Lemma remove_production_keeps_start : forall g left right,
  start_registered g -> start_registered (remove_production g left right).
Proof.
  intros g left right (s & Hs & Hin). exists s.
  rewrite remove_production_start. split; [assumption|].
  unfold remove_production.
  destruct (dict_get (productions g) left) as [l|]; auto.
  destruct (mem_rhs right l); auto.
  destruct (list_remove right l); simpl; auto.
  unfold is_start. rewrite Hs.
  destruct (String.eqb left s) eqn:E; auto.
  apply discard_In. split; [assumption|].
  apply String.eqb_neq in E. congruence.
Qed.

Lemma run_op_keeps_start : forall g op,
  start_registered g -> start_registered (run_op g op).
Proof.
  intros g op H. destruct op as [l r | s | l r | ]; simpl.
  - destruct r as [r|]; simpl; auto.
    destruct H as (s & Hs & Hin). exists s. split; [assumption|].
    simpl. apply add_In. now right.
  - exists s. simpl. split; [reflexivity|]. apply add_In. now left.
  - now apply remove_production_keeps_start.
  - exact H.
Qed.

(** C10. When [right] is the only production of [left],
    [remove_production(left, right)] deletes [left] from the production map,
    and takes [left] out of the non-terminals exactly when [left] is not the
    start symbol: the non-terminals afterwards are those before, less
    [left] unless it is the start symbol. Hence, once [set_start_symbol]
    has run, the start symbol is a non-terminal after any further calls of
    [add_production], [set_start_symbol], [remove_production] and [copy]. *)
Theorem remove_production_spares_start :
  (forall g left right,
      dict_get (productions g) left = Some [right] ->
      dict_get (productions (remove_production g left right)) left = None
      /\ (forall x,
            In x (non_terminals (remove_production g left right)) <->
            In x (non_terminals g)
            /\ (x = left -> start_symbol g = Some left)))
  /\ (forall g s ops,
        exists s',
          start_symbol (run_ops (set_start_symbol g s) ops) = Some s'
          /\ In s' (non_terminals (run_ops (set_start_symbol g s) ops))).
Proof.
  split.
  - intros g left right H. unfold remove_production. rewrite H.
    assert (E : mem_rhs right [right] = true) by (apply mem_rhs_In; now left).
    rewrite E. unfold list_remove. simpl.
    destruct (rhs_dec right right) as [_|N]; [|congruence]. simpl.
    split; [apply dict_get_del_same|].
    intros x. unfold is_start.
    destruct (start_symbol g) as [s|].
    + destruct (String.eqb left s) eqn:Es.
      * apply String.eqb_eq in Es. subst s. tauto.
      * apply String.eqb_neq in Es. rewrite discard_In.
        split; [intros [Hx Nx]; split; [assumption | congruence]|].
        intros [Hx Imp]. split; [assumption|].
        intros ->. specialize (Imp eq_refl). congruence.
    + rewrite discard_In.
      split; [intros [Hx Nx]; split; [assumption | congruence]|].
      intros [Hx Imp]. split; [assumption|].
      intros ->. specialize (Imp eq_refl). discriminate.
  - intros g s ops. unfold run_ops.
    change (start_registered (fold_left run_op ops (set_start_symbol g s))).
    apply fold_left_ind.
    + exists s. simpl. split; [reflexivity|]. apply add_In. now left.
    + intros b a _ Hb. now apply run_op_keeps_start.
Qed.

Lemma remove_production_spares_start_witness :
  dict_get (productions (remove_production scenario3 "B" ["c"])) "B" = None.
Proof.
  apply (proj1 remove_production_spares_start scenario3 "B" ["c"]).
  reflexivity.
Defined.

(** ** Fresh variables *)

Lemma string_of_nat_inj : forall n m, string_of_nat n = string_of_nat m -> n = m.
Proof.
  intros n m H. unfold string_of_nat in H.
  assert (E : Some (Nat.to_uint n) = Some (Nat.to_uint m)).
  { rewrite <- (NilEmpty.usu (Nat.to_uint n)), <- (NilEmpty.usu (Nat.to_uint m)).
    now rewrite H. }
  inversion E as [E'].
  rewrite <- (Unsigned.of_to n), <- (Unsigned.of_to m). now rewrite E'.
Qed.

Lemma append_inj : forall base s1 s2,
  String.append base s1 = String.append base s2 -> s1 = s2.
Proof.
  induction base as [|c base IH]; simpl; intros s1 s2 H; [assumption|].
  inversion H. auto.
Qed.

Lemma candidate_inj : forall base n m,
  candidate base n = candidate base m -> n = m.
Proof.
  intros base n m H. apply string_of_nat_inj. eapply append_inj. exact H.
Qed.

Lemma candidates_NoDup : forall base c n,
  NoDup (map (candidate base) (seq c n)).
Proof.
  intros base c n. apply Injective_map_NoDup.
  - intros x y. apply candidate_inj.
  - apply seq_NoDup.
Qed.

Lemma generate_loop_spec : forall fuel base c nts,
  exists k,
    generate_loop fuel base c nts = (candidate base (c + k), S (c + k))
    /\ k <= fuel
    /\ (forall i, i < k -> In (candidate base (c + i)) nts)
    /\ (k < fuel -> ~ In (candidate base (c + k)) nts).
Proof.
  induction fuel as [|fuel IH]; simpl; intros base c nts.
  - exists 0. rewrite Nat.add_0_r. repeat split; try lia.
  - destruct (mem (candidate base c) nts) eqn:E.
    + destruct (IH base (S c) nts) as (k & Hk & Hle & Hin & Hout).
      exists (S k). rewrite Nat.add_succ_r. simpl in Hk.
      split; [exact Hk|]. split; [lia|]. split.
      * intros i Hi. destruct i as [|i].
        -- rewrite Nat.add_0_r. now apply mem_In.
        -- rewrite Nat.add_succ_r. apply (Hin i). lia.
      * intros H. apply Hout. lia.
    + exists 0. rewrite Nat.add_0_r. repeat split; try lia.
      intros _. now apply mem_not_In.
Qed.

(** [generate_new_variable] returns a name that is not a non-terminal: the
    fuel of the loop is never used up on a name that is one. *)
Lemma generate_new_variable_fresh : forall base c nts,
  ~ In (fst (generate_new_variable base c nts)) nts
  /\ c < snd (generate_new_variable base c nts).
Proof.
  intros base c nts. unfold generate_new_variable.
  destruct (generate_loop_spec (length nts) base c nts)
    as (k & Hk & Hle & Hin & Hout).
  rewrite Hk. simpl. split; [|lia].
  destruct (Nat.eq_dec k (length nts)) as [E|N]; [|apply Hout; lia].
  intros Hlast.
  assert (L : length (map (candidate base) (seq c (S k))) <= length nts).
  { apply NoDup_incl_length; [apply candidates_NoDup|].
    intros x Hx. apply in_map_iff in Hx. destruct Hx as (i & <- & Hi).
    apply in_seq in Hi.
    destruct (Nat.eq_dec i (c + k)) as [->|Ni]; [assumption|].
    replace i with (c + (i - c)) by lia. apply Hin. lia. }
  rewrite length_map, length_seq in L. lia.
Qed.

(** ** The nullable set holds variables with productions *)

Lemma propagate_var_keys : forall v l (st : set symbol * bool) x,
  In x (fst (propagate_var v l st)) -> In x (fst st) \/ x = v.
Proof.
  intros v l st x. unfold propagate_var.
  destruct (mem v (fst st)); [auto|].
  apply (fold_left_ind
           (fun st' : set symbol * bool =>
              In x (fst st') -> In x (fst st) \/ x = v)); [auto|].
  intros b a _ Hb. destruct (nonempty_all_in (fst b) a); [|assumption].
  simpl. rewrite add_In. intros [-> | H]; auto.
Qed.

Lemma propagate_pass_keys : forall d s x,
  In x (fst (propagate_pass d s)) -> In x s \/ In x (keys d).
Proof.
  intros d s x. unfold propagate_pass.
  apply (fold_left_ind
           (fun st' : set symbol * bool =>
              In x (fst st') -> In x s \/ In x (keys d))); [auto|].
  intros b a Ha Hb H. apply propagate_var_keys in H.
  destruct H as [H | ->]; [auto|].
  right. unfold keys. now apply in_map.
Qed.

Lemma propagate_keys : forall fuel d s x,
  In x (propagate fuel d s) -> In x s \/ In x (keys d).
Proof.
  induction fuel as [|fuel IH]; simpl; intros d s x H; [auto|].
  pose proof (propagate_pass_keys d s x) as Hp.
  destruct (propagate_pass d s) as [s' changed]. simpl in Hp.
  destruct changed; [|auto].
  apply IH in H. destruct H as [H | H]; auto.
Qed.

Lemma nullable_keys : forall g x,
  In x (find_nullable_symbols g) -> In x (keys (productions g)).
Proof.
  intros g x H. unfold find_nullable_symbols in H.
  apply propagate_keys in H. destruct H as [H | H]; [|assumption].
  apply direct_nullable_In in H. destruct H as (l & p & H & _).
  unfold keys. change x with (fst (x, l)). now apply in_map.
Qed.

Lemma keys_map_snd : forall (f : list rhs -> list rhs) (d : dict (list rhs)),
  keys (map (fun vp => (fst vp, f (snd vp))) d) = keys d.
Proof.
  intros f d. unfold keys. rewrite map_map. reflexivity.
Qed.

Lemma prods_of_map_snd : forall (f : list rhs -> list rhs) d k,
  f [] = [] ->
  prods_of (map (fun vp => (fst vp, f (snd vp))) d) k = f (prods_of d k).
Proof.
  intros f d k H. unfold prods_of.
  rewrite (dict_get_map (fun _ => f)).
  destruct (dict_get d k); simpl; auto.
Qed.

(** C3. Stage A returns, and when the start symbol [s] is in the nullable
    set it makes a variable [s'] that is not among the non-terminals the new
    start symbol, registers it, and gives it the production [s' -> s]
    followed by [s' -> ε] exactly when the rewriting leaves [s] without
    productions; the productions of [s] are then the rewritten ones. When
    the start symbol is not nullable it stays the start symbol. *)
Theorem epsilon_elimination_start_symbol :
  forall c,
    (forall s, start_symbol (grammar c) = Some s ->
               In s (non_terminals (grammar c))) ->
    exists c',
      eliminate_epsilon_productions c = inr c'
      /\ match start_symbol (grammar c) with
         | Some s =>
             if mem s (find_nullable_symbols (grammar c))
             then exists s',
                 start_symbol (grammar c') = Some s'
                 /\ ~ In s' (non_terminals (grammar c))
                 /\ (forall x, In x (non_terminals (grammar c')) <->
                               x = s' \/ In x (non_terminals (grammar c)))
                 /\ prods_of (productions (grammar c')) s
                    = epsilon_free_rhs (find_nullable_symbols (grammar c))
                        (prods_of (productions (grammar c)) s)
                 /\ prods_of (productions (grammar c')) s'
                    = match prods_of (productions (grammar c')) s with
                      | [] => [[s]; []]
                      | _ => [[s]]
                      end
             else start_symbol (grammar c') = Some s
                  /\ non_terminals (grammar c') = non_terminals (grammar c)
         | None => start_symbol (grammar c') = None
         end.
Proof.
  intros c Hreg. unfold eliminate_epsilon_productions.
  change (grammar (print_step c)) with (grammar c).
  change (new_var_counter (print_step c)) with (new_var_counter c).
  set (g := grammar c) in *.
  set (nullable := find_nullable_symbols g).
  set (np := map (fun vp => (fst vp, epsilon_free_rhs nullable (snd vp)))
                 (productions g)).
  destruct (start_symbol g) as [s|] eqn:Es.
  2:{ eexists. split; reflexivity. }
  destruct (mem s nullable) eqn:En.
  2:{ eexists. split; [reflexivity|]. simpl. auto. }
  specialize (Hreg s eq_refl).
  pose proof (generate_new_variable_fresh "S" (new_var_counter c)
                (non_terminals g)) as [Hfresh _].
  destruct (generate_new_variable "S" (new_var_counter c) (non_terminals g))
    as [s' counter]. simpl in Hfresh.
  assert (Ns : s' <> s) by (intros ->; contradiction).
  assert (Hold : prods_of (dict_set np s' [[s]]) s
                 = epsilon_free_rhs nullable (prods_of (productions g) s)).
  { rewrite prods_of_set_other by assumption.
    unfold np. now rewrite prods_of_map_snd. }
  assert (Hkey : exists old, dict_get (dict_set np s' [[s]]) s = Some old).
  { apply dict_get_keys. apply keys_set. right.
    unfold np. rewrite keys_map_snd. apply nullable_keys.
    now apply mem_In. }
  destruct Hkey as [old Hget].
  assert (Eold : old = prods_of (dict_set np s' [[s]]) s).
  { unfold prods_of. now rewrite Hget. }
  unfold dict_lookup. rewrite Hget. simpl.
  eexists. split; [reflexivity|]. simpl.
  exists s'. split; [reflexivity|]. split; [assumption|].
  split; [intros x; apply add_In|].
  rewrite Eold in *. clear Eold Hget.
  destruct (prods_of (dict_set np s' [[s]]) s) as [|p0 ps] eqn:Eo.
  - rewrite prods_of_set_other by assumption.
    rewrite Eo. split; [exact Hold|].
    rewrite !prods_of_set_same. reflexivity.
  - rewrite Eo. split; [exact Hold|]. apply prods_of_set_same.
Qed.

Lemma epsilon_elimination_start_symbol_witness :
  exists c',
    eliminate_epsilon_productions (new_converter scenario2) = inr c'
    /\ exists s',
        start_symbol (grammar c') = Some s'
        /\ ~ In s' ["S"; "A"; "B"]
        /\ prods_of (productions (grammar c')) s' = [["S"]].
Proof.
  destruct (epsilon_elimination_start_symbol (new_converter scenario2))
    as (c' & E & H).
  - intros s Hs. inversion Hs. simpl. auto.
  - exists c'. split; [exact E|].
    vm_compute in E. inversion E; subst c'. clear E.
    vm_compute in H. destruct H as (s' & H1 & H2 & _ & _ & H5).
    exists s'. inversion H1; subst s'.
    split; [reflexivity|]. split; [exact H2 | reflexivity].
Defined.

(** ** The propagation loop reaches its exit *)

Lemma filter_length_mono : forall (A : Type) (f g : A -> bool) l,
  (forall x, In x l -> f x = true -> g x = true) ->
  length (filter f l) <= length (filter g l).
Proof.
  intros A f g l. induction l as [|a l IH]; simpl; intros H; [lia|].
  assert (IH' : length (filter f l) <= length (filter g l)) by (apply IH; auto).
  destruct (f a) eqn:Ef.
  - rewrite (H a) by auto. simpl. lia.
  - destruct (g a); simpl; lia.
Qed.

Lemma filter_length_strict : forall (A : Type) (f g : A -> bool) l a,
  (forall x, In x l -> f x = true -> g x = true) ->
  In a l -> f a = false -> g a = true ->
  length (filter f l) < length (filter g l).
Proof.
  intros A f g l. induction l as [|b l IH]; simpl; intros a H Ha Ef Eg;
    [contradiction|].
  destruct Ha as [-> | Ha].
  - rewrite Ef, Eg. simpl.
    assert (length (filter f l) <= length (filter g l))
      by (apply filter_length_mono; auto).
    lia.
  - assert (length (filter f l) < length (filter g l))
      by (apply (IH a); auto).
    destruct (f b) eqn:Efb.
    + rewrite (H b) by auto. simpl. lia.
    + destruct (g b); simpl; lia.
Qed.

Lemma missing_add_le : forall d v s, missing d (add v s) <= missing d s.
Proof.
  intros d v s. unfold missing. apply filter_length_mono.
  intros x _. rewrite !negb_true_iff, !mem_not_In, add_In. tauto.
Qed.

Lemma missing_add_lt : forall d v l s,
  In (v, l) d -> ~ In v s -> missing d (add v s) < missing d s.
Proof.
  intros d v l s Hin Hs. unfold missing.
  apply filter_length_strict with (a := (v, l)); [|assumption| |].
  - intros x _. rewrite !negb_true_iff, !mem_not_In, add_In. tauto.
  - simpl. apply negb_false_iff. apply mem_In. apply add_In. now left.
  - simpl. apply negb_true_iff. now apply mem_not_In.
Qed.

Lemma propagate_var_inv : forall d s v l (st : set symbol * bool),
  In (v, l) d -> pass_inv d s st -> pass_inv d s (propagate_var v l st).
Proof.
  intros d s v l st Hin Hst. unfold propagate_var.
  destruct (mem v (fst st)) eqn:Ev; [assumption|].
  apply mem_not_In in Ev.
  apply proj1 with (B := snd (fold_left
         (fun (st' : set symbol * bool) prod =>
            if nonempty_all_in (fst st') prod
            then (add v (fst st'), true) else st') l st) = false ->
       ~ In v (fst (fold_left
         (fun (st' : set symbol * bool) prod =>
            if nonempty_all_in (fst st') prod
            then (add v (fst st'), true) else st') l st))).
  apply (fold_left_ind
           (fun st' : set symbol * bool =>
              pass_inv d s st' /\ (snd st' = false -> ~ In v (fst st')))).
  - split; [assumption | auto].
  - intros b a _ [(Hle & Hlt & Heq) Hv].
    destruct (nonempty_all_in (fst b) a); [|split; [repeat split|]; auto].
    split; [|simpl; discriminate]. unfold pass_inv. simpl.
    destruct (snd b) eqn:Eb.
    + specialize (Hlt eq_refl). pose proof (missing_add_le d v (fst b)).
      split; [lia|]. split; [intros _; lia | discriminate].
    + pose proof (missing_add_lt d v l (fst b) Hin (Hv eq_refl)).
      split; [lia|]. split; [intros _; lia | discriminate].
Qed.

Lemma propagate_pass_inv : forall d s, pass_inv d s (propagate_pass d s).
Proof.
  intros d s. unfold propagate_pass.
  apply (fold_left_ind (pass_inv d s)).
  - unfold pass_inv. simpl. repeat split; auto; discriminate.
  - intros b [v l] Hin Hb. now apply propagate_var_inv.
Qed.

Lemma propagate_stable : forall fuel d s,
  missing d s < fuel ->
  propagate_pass d (propagate fuel d s) = (propagate fuel d s, false).
Proof.
  induction fuel as [|fuel IH]; simpl; intros d s Hm; [lia|].
  pose proof (propagate_pass_inv d s) as (Hle & Hlt & Heq).
  destruct (propagate_pass d s) as [s' changed] eqn:E. simpl in *.
  destruct changed.
  - apply IH. specialize (Hlt eq_refl). lia.
  - rewrite (Heq eq_refl) in *. exact E.
Qed.

Lemma missing_le_length : forall d s, missing d s <= length d.
Proof. intros. unfold missing. apply List.filter_length_le. Qed.

(** The loops of [find_nullable_symbols] and [find_generating_symbols] end
    because a run of the body leaves [changed] unset: on the set returned,
    one more run changes nothing. *)
Lemma find_nullable_symbols_stable : forall g,
  propagate_pass (productions g) (find_nullable_symbols g)
  = (find_nullable_symbols g, false).
Proof.
  intros g. unfold find_nullable_symbols. apply propagate_stable.
  pose proof (missing_le_length (productions g)
                (direct_nullable (productions g))). lia.
Qed.

Lemma find_generating_symbols_stable : forall g,
  propagate_pass (productions g) (find_generating_symbols g)
  = (find_generating_symbols g, false).
Proof.
  intros g. unfold find_generating_symbols. apply propagate_stable.
  pose proof (missing_le_length (productions g) (terminals g)). lia.
Qed.

(** ** Unit pairs and their closure *)

Lemma mem_pair_In : forall p s, mem_pair p s = true <-> In p s.
Proof.
  intros. unfold mem_pair. split;
    [apply set_mem_correct1 | apply set_mem_correct2].
Qed.

Lemma mem_pair_not_In : forall p s, mem_pair p s = false <-> ~ In p s.
Proof.
  intros p s. rewrite <- mem_pair_In. destruct (mem_pair p s); split; congruence.
Qed.

Lemma add_pair_In : forall p q s, In p (add_pair q s) <-> p = q \/ In p s.
Proof. intros. unfold add_pair. apply set_add_iff. Qed.

Lemma add_pair_NoDup : forall p s, NoDup s -> NoDup (add_pair p s).
Proof. intros. now apply set_add_nodup. Qed.

Lemma direct_unit_inner : forall nts v l acc p,
  In p (fold_left
          (fun up' prod =>
             match prod with
             | [b] => if mem b nts then add_pair (v, b) up' else up'
             | _ => up'
             end) l acc)
  <-> In p acc \/ (exists b, p = (v, b) /\ In [b] l /\ In b nts).
Proof.
  intros nts v l. induction l as [|q l IH]; simpl; intros acc p.
  - split; [auto | intros [H | (b & _ & [] & _)]; auto].
  - rewrite IH. clear IH.
    destruct q as [|b [|b' q]].
    + split; [intros [H | (b & E & H & Hn)]; eauto 6|].
      intros [H | (b & E & [H | H] & Hn)]; eauto 6. discriminate.
    + destruct (mem b nts) eqn:Eb.
      * apply mem_In in Eb. rewrite add_pair_In. split.
        -- intros [[-> | H] | (b0 & E & H & Hn)]; eauto 7.
        -- intros [H | (b0 & E & [H | H] & Hn)]; eauto 7.
           inversion H; subst. auto.
      * apply mem_not_In in Eb. split.
        -- intros [H | (b0 & E & H & Hn)]; eauto 7.
        -- intros [H | (b0 & E & [H | H] & Hn)]; eauto 7.
           inversion H; subst. contradiction.
    + split; [intros [H | (b0 & E & H & Hn)]; eauto 6|].
      intros [H | (b0 & E & [H | H] & Hn)]; eauto 6. discriminate.
Qed.

Lemma direct_unit_pairs_In : forall g a b,
  In (a, b) (direct_unit_pairs g)
  <-> exists l, In (a, l) (productions g) /\ In [b] l
                /\ In b (non_terminals g).
Proof.
  intros g a b. unfold direct_unit_pairs.
  generalize (productions g) as d. intros d.
  assert (G : forall acc,
    In (a, b)
       (fold_left
          (fun up vp =>
             fold_left
               (fun up' prod =>
                  match prod with
                  | [b] => if mem b (non_terminals g)
                           then add_pair (fst vp, b) up' else up'
                  | _ => up'
                  end) (snd vp) up) d acc)
    <-> In (a, b) acc \/
        exists l, In (a, l) d /\ In [b] l /\ In b (non_terminals g)).
  { induction d as [|[v l] d IH]; simpl; intros acc.
    - split; [auto | intros [H | (l & [] & _)]; auto].
    - rewrite IH, direct_unit_inner. split.
      + intros [[H | (b0 & E & H & Hn)] | (l' & H & Hb & Hn)]; eauto 7.
        inversion E; subst. eauto 7.
      + intros [H | (l' & [H | H] & Hb & Hn)]; eauto 7.
        inversion H; subst. left. right. eauto. }
  rewrite G. simpl. tauto.
Qed.

Lemma unit_pair_direct : forall g a b,
  is_dict (productions g) ->
  (unit_pair g a b <-> In (a, b) (direct_unit_pairs g)).
Proof.
  intros g a b Hd. rewrite direct_unit_pairs_In. unfold unit_pair, prods_of.
  split.
  - intros [H Hn]. destruct (dict_get (productions g) a) as [l|] eqn:E;
      [|contradiction].
    exists l. split; [now apply dict_get_In | auto].
  - intros (l & Hl & Hb & Hn). rewrite (In_dict_get _ _ Hd Hl). auto.
Qed.

Lemma new_pairs_inner : forall (up : pairs) ab l acc p,
  In p (fold_left
          (fun np' bc =>
             if String.eqb (snd ab) (fst bc)
                && negb (mem_pair (fst ab, snd bc) up)
             then add_pair (fst ab, snd bc) np' else np') l acc)
  <-> In p acc \/
      (exists c, p = (fst ab, c) /\ In (snd ab, c) l /\ ~ In p up).
Proof.
  intros up ab l. induction l as [|[b' c'] l IH]; simpl; intros acc p.
  - split; [auto | intros [H | (c & _ & [] & _)]; auto].
  - rewrite IH. clear IH.
    destruct (String.eqb (snd ab) b') eqn:Eb; simpl.
    + apply String.eqb_eq in Eb. subst b'.
      destruct (mem_pair (fst ab, c') up) eqn:Em; simpl.
      * apply mem_pair_In in Em. split.
        -- intros [H | (c & E & H & Hn)]; eauto 7.
        -- intros [H | (c & E & [H | H] & Hn)]; eauto 7.
           inversion H; subst. contradiction.
      * apply mem_pair_not_In in Em. rewrite add_pair_In. split.
        -- intros [[-> | H] | (c & E & H & Hn)]; eauto 7.
        -- intros [H | (c & E & [H | H] & Hn)]; eauto 7.
           inversion H; subst. auto.
    + apply String.eqb_neq in Eb. split.
      * intros [H | (c & E & H & Hn)]; eauto 7.
      * intros [H | (c & E & [H | H] & Hn)]; eauto 7.
        inversion H; subst. contradiction.
Qed.

Lemma new_pairs_In : forall up p,
  In p (new_pairs up)
  <-> exists a b c, p = (a, c) /\ In (a, b) up /\ In (b, c) up /\ ~ In p up.
Proof.
  intros up p. unfold new_pairs.
  assert (G : forall l acc,
    In p (fold_left
            (fun np ab =>
               fold_left
                 (fun np' bc =>
                    if String.eqb (snd ab) (fst bc)
                       && negb (mem_pair (fst ab, snd bc) up)
                    then add_pair (fst ab, snd bc) np' else np')
                 up np) l acc)
    <-> In p acc \/
        exists a b c, p = (a, c) /\ In (a, b) l /\ In (b, c) up
                      /\ ~ In p up).
  { induction l as [|[a b] l IH]; cbn [fold_left]; intros acc.
    - simpl. split; [auto | intros [H | (a & b & c & _ & [] & _)]; auto].
    - rewrite IH, new_pairs_inner. simpl. split.
      + intros [[H | (c & E & H & Hn)] | (a0 & b0 & c & E & H & Hc & Hn)];
          eauto 10.
      + intros [H | (a0 & b0 & c & E & [H | H] & Hc & Hn)]; eauto 10.
        inversion H; subst. left. right. eauto. }
  rewrite G. simpl. tauto.
Qed.

Lemma update_pairs_In : forall np up p,
  In p (update_pairs up np) <-> In p up \/ In p np.
Proof.
  unfold update_pairs.
  induction np as [|q np IH]; simpl; intros up p; [tauto|].
  rewrite IH, add_pair_In. intuition congruence.
Qed.

Lemma update_pairs_NoDup : forall np up, NoDup up -> NoDup (update_pairs up np).
Proof.
  unfold update_pairs.
  induction np as [|q np IH]; simpl; intros up H; [assumption|].
  apply IH. now apply add_pair_NoDup.
Qed.

Lemma update_pairs_longer : forall (up np : pairs) q,
  NoDup up -> In q np -> ~ In q up ->
  length up < length (update_pairs up np).
Proof.
  intros up np q Hn Hq Hup.
  assert (L : length (q :: up) <= length (update_pairs up np)).
  { apply NoDup_incl_length; [now constructor|].
    intros x [<- | Hx]; apply update_pairs_In; auto. }
  simpl in L. lia.
Qed.

Lemma close_pairs_incl : forall fuel up p,
  In p up -> In p (close_pairs fuel up).
Proof.
  induction fuel as [|fuel IH]; cbn [close_pairs]; intros up p H; [assumption|].
  destruct (new_pairs up) as [|q np] eqn:E; [assumption|].
  apply IH. apply update_pairs_In. now left.
Qed.

Lemma close_pairs_sound : forall (R : symbol -> symbol -> Prop) fuel up,
  (forall a b, In (a, b) up -> clos_trans symbol R a b) ->
  forall a b, In (a, b) (close_pairs fuel up) -> clos_trans symbol R a b.
Proof.
  intros R. induction fuel as [|fuel IH]; cbn [close_pairs];
    intros up H a b Hab; [auto|].
  destruct (new_pairs up) as [|q np] eqn:E; [auto|].
  apply IH with (up := update_pairs up (q :: np)); [|assumption].
  intros a' b' H'. apply update_pairs_In in H'.
  destruct H' as [H' | H']; [auto|].
  rewrite <- E in H'. apply new_pairs_In in H'.
  destruct H' as (a0 & b0 & c0 & Ep & H1 & H2 & _).
  inversion Ep; subst. eapply t_trans; eauto.
Qed.

Lemma close_pairs_closed : forall (firsts seconds : list symbol) fuel up,
  NoDup up ->
  (forall a b, In (a, b) up -> In a firsts /\ In b seconds) ->
  length firsts * length seconds < fuel + length up ->
  new_pairs (close_pairs fuel up) = [].
Proof.
  intros firsts seconds. induction fuel as [|fuel IH]; cbn [close_pairs];
    intros up Hn Hb Hl.
  - exfalso.
    assert (L : length up <= length (list_prod firsts seconds)).
    { apply NoDup_incl_length; [assumption|].
      intros [a b] H. destruct (Hb _ _ H). now apply in_prod. }
    rewrite length_prod in L. lia.
  - destruct (new_pairs up) as [|q np] eqn:E; [assumption|].
    assert (Hq : In q (new_pairs up)) by (rewrite E; now left).
    apply IH.
    + now apply update_pairs_NoDup.
    + intros a b H. apply update_pairs_In in H. destruct H as [H | H]; [auto|].
      rewrite <- E in H. apply new_pairs_In in H.
      destruct H as (a0 & b0 & c0 & Ep & H1 & H2 & _). inversion Ep; subst.
      split; [apply (Hb _ _ H1) | apply (Hb _ _ H2)].
    + apply new_pairs_In in Hq. destruct Hq as (a0 & b0 & c0 & Ep & _ & _ & Hnew).
      pose proof (@update_pairs_longer up (q :: np) q Hn (or_introl eq_refl)
                    Hnew).
      lia.
Qed.

Lemma direct_unit_pairs_NoDup : forall g, NoDup (direct_unit_pairs g).
Proof.
  intros g. unfold direct_unit_pairs.
  apply (fold_left_ind (fun up : pairs => NoDup up)); [constructor|].
  intros up vp _ H.
  apply (fold_left_ind (fun up : pairs => NoDup up)); [assumption|].
  intros up' prod _ H'.
  destruct prod as [|b [|b' q]]; auto.
  destruct (mem b (non_terminals g)); auto. now apply add_pair_NoDup.
Qed.

(** The closure loop of [find_unit_productions] ends because a run finds no
    new pair: the set returned is closed under composition. *)
Lemma find_unit_productions_closed : forall g,
  new_pairs (find_unit_productions g) = [].
Proof.
  intros g. unfold find_unit_productions.
  apply close_pairs_closed
    with (firsts := map fst (direct_unit_pairs g))
         (seconds := map snd (direct_unit_pairs g)).
  - apply direct_unit_pairs_NoDup.
  - intros a b H. split.
    + change a with (fst (a, b)). now apply in_map.
    + change b with (snd (a, b)). now apply in_map.
  - rewrite !length_map. lia.
Qed.

(** [find_unit_productions] returns the transitive closure of the unit
    pairs. *)
Lemma find_unit_productions_closure : forall g a b,
  is_dict (productions g) ->
  (In (a, b) (find_unit_productions g) <-> unit_closure g a b).
Proof.
  intros g a b Hd. split.
  - unfold find_unit_productions. apply close_pairs_sound.
    intros a' b' H. apply t_step. now apply unit_pair_direct.
  - intros H. induction H as [x y H | x y z _ IH1 _ IH2].
    + apply close_pairs_incl. now apply unit_pair_direct.
    + destruct (mem_pair (x, z) (find_unit_productions g)) eqn:E;
        [now apply mem_pair_In|].
      apply mem_pair_not_In in E. exfalso.
      assert (Hin : In (x, z) (new_pairs (find_unit_productions g))).
      { apply new_pairs_In. exists x, y, z. auto. }
      rewrite find_unit_productions_closed in Hin. contradiction.
Qed.

(** ** Stage B *)

Lemma add_non_unit_In : forall nts l acc p,
  In p (add_non_unit nts l acc)
  <-> In p acc \/ (In p l /\ is_unit nts p = false).
Proof.
  intros nts l. unfold add_non_unit.
  induction l as [|q l IH]; simpl; intros acc p.
  - tauto.
  - rewrite IH. destruct (is_unit nts q) eqn:E.
    + intuition (subst; auto; congruence).
    + rewrite append_new_In. intuition (subst; auto).
Qed.

Lemma unit_free_rhs_raise : forall g var (up : pairs) e,
  fold_left
    (fun racc ab =>
       acc <- racc ;;
       if String.eqb (fst ab) var
       then l <- dict_lookup (productions g) (snd ab) ;;
            ret (add_non_unit (non_terminals g) l acc)
       else ret acc)
    up (inl e) = inl e.
Proof.
  intros g var up e. induction up as [|ab up IH]; simpl; auto.
Qed.

Lemma unit_free_rhs_fold : forall g var (up : pairs) acc l',
  fold_left
    (fun racc ab =>
       acc <- racc ;;
       if String.eqb (fst ab) var
       then l <- dict_lookup (productions g) (snd ab) ;;
            ret (add_non_unit (non_terminals g) l acc)
       else ret acc)
    up (inr acc) = inr l' ->
  forall p,
    In p l' <->
    In p acc \/
    (is_unit (non_terminals g) p = false
     /\ exists b, In (var, b) up /\ In p (prods_of (productions g) b)).
Proof.
  intros g var up. induction up as [|[a b] up IH]; cbn [fold_left];
    intros acc l' H p.
  - inversion H; subst. split; [auto | intros [H' | (_ & b & [] & _)]; auto].
  - cbn [bind fst snd] in H.
    destruct (String.eqb a var) eqn:Ea.
    + apply String.eqb_eq in Ea. subst a.
      destruct (dict_lookup (productions g) b) as [e|l] eqn:Eb;
        cbn [bind ret] in H.
      2:{
        rewrite (IH _ _ H), add_non_unit_In.
        assert (El : prods_of (productions g) b = l).
        { unfold dict_lookup in Eb. unfold prods_of.
          destruct (dict_get (productions g) b); inversion Eb. reflexivity. }
        split.
        -- intros [[Hp | [Hp Hu]] | (Hu & b' & Hb' & Hp)].
           ++ now left.
           ++ right. split; [assumption|]. exists b. rewrite El. simpl. auto.
           ++ right. split; [assumption|]. exists b'. simpl. auto.
        -- intros [Hp | (Hu & b' & [Hb' | Hb'] & Hp)].
           ++ now left; left.
           ++ inversion Hb'; subst b'. rewrite El in Hp. left. now right.
           ++ right. split; [assumption|]. exists b'. simpl. auto. }
      rewrite unit_free_rhs_raise in H. discriminate.
    + apply String.eqb_neq in Ea. cbn [ret] in H. rewrite (IH _ _ H).
      split.
      * intros [Hp | (Hu & b' & Hb' & Hp)].
        -- now left.
        -- right. split; [assumption|]. exists b'. simpl. auto.
      * intros [Hp | (Hu & b' & [Hb' | Hb'] & Hp)].
        -- now left.
        -- inversion Hb'; subst. congruence.
        -- right. split; [assumption|]. exists b'. simpl. auto.
Qed.

Lemma unit_free_rhs_spec : forall g up var own l',
  unit_free_rhs g up var own = inr l' ->
  forall p,
    In p l' <->
    is_unit (non_terminals g) p = false
    /\ (In p own
        \/ exists b, In (var, b) up /\ In p (prods_of (productions g) b)).
Proof.
  intros g up var own l' H p. unfold unit_free_rhs in H.
  rewrite (unit_free_rhs_fold _ _ _ _ H), add_non_unit_In. simpl. tauto.
Qed.

Lemma unit_free_productions_spec : forall g up d d',
  unit_free_productions g up d = inr d' ->
  forall a,
    match dict_get d a with
    | Some own => exists l', unit_free_rhs g up a own = inr l'
                             /\ dict_get d' a = Some l'
    | None => dict_get d' a = None
    end.
Proof.
  intros g up. induction d as [|[v own] d IH]; cbn [unit_free_productions];
    intros d' H a.
  - inversion H; subst. reflexivity.
  - destruct (unit_free_rhs g up v own) as [e|l] eqn:El;
      cbn [bind] in H; [discriminate|].
    destruct (unit_free_productions g up d) as [e|rest] eqn:Er;
      cbn [bind ret] in H; [discriminate|].
    inversion H; subst d'. clear H. simpl.
    destruct (String.eqb a v) eqn:Ea.
    + apply String.eqb_eq in Ea. subst a. eauto.
    + apply (IH rest eq_refl a).
Qed.

Lemma unit_closure_has_production : forall g a b,
  unit_closure g a b -> prods_of (productions g) a <> [].
Proof.
  intros g a b H. induction H as [x y [H _] | x y z _ IH1 _ _]; auto.
  intros E. rewrite E in H. contradiction.
Qed.

(** What stage B leaves, for a converter whose grammar is [g]. *)
Lemma eliminate_unit_productions_spec : forall c c',
  is_dict (productions (grammar c)) ->
  eliminate_unit_productions c = inr c' ->
  non_terminals (grammar c') = non_terminals (grammar c)
  /\ forall a p,
      In p (prods_of (productions (grammar c')) a) <->
      is_unit (non_terminals (grammar c)) p = false
      /\ (In p (prods_of (productions (grammar c)) a)
          \/ exists b, unit_closure (grammar c) a b
                       /\ In p (prods_of (productions (grammar c)) b)).
Proof.
  intros c c' Hd H. unfold eliminate_unit_productions in H.
  change (grammar (print_step c)) with (grammar c) in H.
  set (g := grammar c) in *.
  destruct (unit_free_productions g (find_unit_productions g) (productions g))
    as [e|d'] eqn:Ed; cbn [bind ret] in H; [discriminate|].
  inversion H; subst c'. clear H. simpl. split; [reflexivity|].
  intros a p.
  pose proof (unit_free_productions_spec _ _ _ Ed a) as Ha.
  unfold prods_of at 1 2.
  destruct (dict_get (productions g) a) as [own|] eqn:Ea.
  - destruct Ha as (l' & Hl & Hget). rewrite Hget.
    rewrite (unit_free_rhs_spec _ _ _ _ Hl).
    split; intros [Hu [Hp | (b & Hb & Hp)]]; split; auto; right; exists b;
      (split; [|assumption]); now apply find_unit_productions_closure.
  - rewrite Ha. split; [contradiction|].
    intros [_ [[] | (b & Hb & _)]].
    apply unit_closure_has_production in Hb. apply Hb.
    unfold prods_of. now rewrite Ea.
Qed.

(** C4. When stage B returns, the productions of every variable [a] are
    exactly the right-hand sides that are not unit and belong to [a] or to
    some [b] with [(a, b)] in the transitive closure of the unit pairs; no
    unit right-hand side is left anywhere. For [S -> A], [A -> B], [B -> c]
    the stage returns, [S -> c] is a production afterwards, and no
    production is a unit production. *)
Theorem unit_elimination_rewrites :
  (forall c c',
      is_dict (productions (grammar c)) ->
      eliminate_unit_productions c = inr c' ->
      (forall a p,
          In p (prods_of (productions (grammar c')) a) <->
          is_unit (non_terminals (grammar c)) p = false
          /\ (In p (prods_of (productions (grammar c)) a)
              \/ exists b, unit_closure (grammar c) a b
                           /\ In p (prods_of (productions (grammar c)) b)))
      /\ (forall a p,
             In p (prods_of (productions (grammar c')) a) ->
             is_unit (non_terminals (grammar c')) p = false))
  /\ (exists c1 c2,
         eliminate_epsilon_productions (new_converter scenario3) = inr c1
         /\ eliminate_unit_productions c1 = inr c2
         /\ productions (grammar c2)
            = [("S", [["c"]]); ("A", [["c"]]); ("B", [["c"]])]
         /\ In ["c"] (prods_of (productions (grammar c2)) "S")
         /\ has_unit_productions (grammar c2) = false).
Proof.
  split.
  - intros c c' Hd H.
    destruct (eliminate_unit_productions_spec c Hd H) as [Hn Hp].
    split; [exact Hp|].
    intros a p Hin. rewrite Hn. now apply Hp in Hin.
  - eexists. eexists. split; [vm_compute; reflexivity|].
    split; [vm_compute; reflexivity|].
    split; [reflexivity|]. split; [simpl; auto | reflexivity].
Qed.

Lemma unit_elimination_rewrites_witness :
  exists c',
    eliminate_unit_productions (new_converter scenario3) = inr c'
    /\ forall p, In p (prods_of (productions (grammar c')) "S") ->
                 is_unit (non_terminals (grammar c')) p = false.
Proof.
  eexists. split; [vm_compute; reflexivity|].
  intros p.
  apply (proj1 unit_elimination_rewrites (new_converter scenario3)).
  - repeat constructor; simpl; intuition discriminate.
  - vm_compute. reflexivity.
Defined.

(** ** The whole conversion on concrete grammars *)

(** C1. The claim holds of the code's intent (the docstring of [to_cnf]
    promises a grammar in CNF) and fails on the code: no stage replaces a
    terminal inside a right-hand side of length two or more. For [S -> a b]
    every stage returns, the start symbol keeps its production, the result
    is [S -> a b] itself, [is_in_cnf] is false on it and [to_cnf] still
    returns it, with the warning. Whenever [to_cnf] returns, the grammar
    returned is the working grammar, and the warning is printed exactly
    when [is_in_cnf] fails. It does not always return: for [X -> S] with
    the start symbol [S] without productions, stage B raises [KeyError]. *)
Theorem to_cnf_keeps_terminals_in_pairs :
  (exists c,
      convert two_terminals
      = inr (mkGrammar [("S", [["a"; "b"]])] ["a"; "b"] ["S"] (Some "S"),
             Warning, c)
      /\ is_in_cnf (grammar c) = false)
  /\ (forall c g v c',
         to_cnf c = inr (g, v, c') ->
         g = grammar c' /\ (v = Warning <-> is_in_cnf g = false))
  /\ convert unit_to_missing = inl (KeyError "S").
Proof.
  split; [|split; [|vm_compute; reflexivity]].
  - eexists. split; vm_compute; reflexivity.
  - intros c g v c' H. unfold to_cnf in H.
    destruct (eliminate_epsilon_productions c) as [e|c1];
      cbn [bind] in H; [discriminate|].
    destruct (eliminate_unit_productions c1) as [e|c2];
      cbn [bind] in H; [discriminate|].
    destruct (eliminate_useless_symbols c2) as [e|c3];
      cbn [bind] in H; [discriminate|].
    destruct (convert_to_binary_form c3) as [e|c4];
      cbn [bind ret] in H; [discriminate|].
    inversion H; subst. split; [reflexivity|].
    destruct (is_in_cnf (grammar c')); split; congruence.
Qed.

Lemma to_cnf_keeps_terminals_in_pairs_witness :
  exists g v c',
    convert scenario1 = inr (g, v, c') /\ g = grammar c' /\ v = Completed.
Proof.
  eexists. eexists. eexists.
  split; [vm_compute; reflexivity|].
  split; [|reflexivity].
  eapply (proj1 (proj2 to_cnf_keeps_terminals_in_pairs)
            (new_converter scenario1)).
  vm_compute. reflexivity.
Defined.

(** C6. For [S -> A B], [A -> a | ε], [B -> b | ε] with start symbol [S],
    whether ε is written as the empty right-hand side or as the symbol
    ['ε']: [to_cnf] returns a grammar in CNF with the renamed start symbol
    [S0]; the parser accepts [a b], [a] and [b] on it; no variable of it,
    interior or not, has an epsilon production, and the parser rejects the
    empty sequence, as it does on every grammar, without a parse tree. So
    the empty sequence is accepted through no interior non-terminal. *)
Theorem scenario2_acceptance :
  (forall g,
      (g = scenario2 \/ g = scenario2_eps) ->
      exists g' c,
        convert g = inr (g', Completed, c)
        /\ start_symbol g' = Some "S0"
        /\ accepts g' ["a"; "b"] = true
        /\ accepts g' ["a"] = true
        /\ accepts g' ["b"] = true
        /\ accepts g' [] = false
        /\ has_epsilon_productions g' = false)
  /\ (forall p, parse p [] = ((false, None), p)).
Proof.
  split; [|reflexivity].
  intros g [-> | ->]; eexists; eexists;
    (split; [vm_compute; reflexivity|]);
    repeat split; vm_compute; reflexivity.
Qed.

Lemma scenario2_acceptance_witness :
  exists g' c,
    convert scenario2 = inr (g', Completed, c)
    /\ accepts g' ["a"; "b"] = true.
Proof.
  destruct (proj1 scenario2_acceptance scenario2 (or_introl eq_refl))
    as (g' & c & H & _ & Hab & _).
  exists g', c. split; assumption.
Defined.

(** ** Grammars on which no stage has anything to do *)

Lemma copy_id : forall g, copy g = g.
Proof.
  intros [d t n s]. unfold copy. simpl. f_equal.
  induction d as [|[v l] d IH]; simpl; [reflexivity|].
  rewrite IH, map_id. reflexivity.
Qed.

Lemma list_empty_no_element : forall (A : Type) (l : list A),
  (forall x, ~ In x l) -> l = [].
Proof.
  intros A [|a l] H; [reflexivity|]. exfalso. apply (H a). now left.
Qed.

Lemma filter_all : forall (A : Type) (f : A -> bool) l,
  (forall x, In x l -> f x = true) -> filter f l = l.
Proof.
  intros A f l. induction l as [|a l IH]; simpl; intros H; [reflexivity|].
  rewrite (H a) by auto. rewrite IH; auto.
Qed.

Lemma map_pair_id : forall (d : dict (list rhs)) (f : list rhs -> list rhs),
  (forall a l, In (a, l) d -> f l = l) ->
  map (fun vp => (fst vp, f (snd vp))) d = d.
Proof.
  intros d f. induction d as [|[v l] d IH]; simpl; intros H; [reflexivity|].
  rewrite (H v l) by auto. rewrite IH; [reflexivity|].
  intros a l' Hin. apply (H a). auto.
Qed.

Lemma nonempty_all_in_nil : forall prod, nonempty_all_in [] prod = false.
Proof. intros [|x prod]; reflexivity. Qed.

Lemma propagate_nil : forall fuel d, propagate fuel d [] = [].
Proof.
  intros fuel d.
  assert (P : propagate_pass d [] = ([], false)).
  { unfold propagate_pass.
    apply (fold_left_ind (fun st : set symbol * bool => st = ([], false)));
      [reflexivity|].
    intros b a _ ->. unfold propagate_var. simpl.
    apply (fold_left_ind (fun st : set symbol * bool => st = ([], false)));
      [reflexivity|].
    intros b p _ ->. simpl. now rewrite nonempty_all_in_nil. }
  destruct fuel as [|fuel]; simpl; [reflexivity|]. now rewrite P.
Qed.

Lemma append_all_new : forall l acc,
  NoDup (acc ++ l) ->
  fold_left (fun acc' p => append_new p acc') l acc = acc ++ l.
Proof.
  induction l as [|p l IH]; simpl; intros acc H.
  - now rewrite app_nil_r.
  - assert (Hp : ~ In p acc).
    { apply NoDup_remove_2 in H. intros Hin. apply H.
      apply in_app_iff. now left. }
    unfold append_new at 2. apply mem_rhs_not_In in Hp. rewrite Hp.
    rewrite IH; rewrite <- app_assoc; simpl; auto.
Qed.

Lemma combinations_none_nullable : forall p,
  short_rhs p -> generate_nullable_combinations p [] = [p].
Proof.
  intros p [_ [H | H]].
  - destruct p as [|a [|b p]]; try discriminate. reflexivity.
  - destruct p as [|a [|b [|c p]]]; try discriminate. reflexivity.
Qed.

Lemma epsilon_free_rhs_id : forall l,
  NoDup l -> (forall p, In p l -> short_rhs p) ->
  epsilon_free_rhs [] l = l.
Proof.
  intros l Hn Hs. unfold epsilon_free_rhs.
  assert (G : forall l' acc,
    (forall p, In p l' -> short_rhs p) ->
    fold_left
      (fun acc0 prod =>
         if is_direct_epsilon prod then acc0
         else fold_left
                (fun acc' c => match c with
                               | [] => acc'
                               | _ => append_new c acc'
                               end)
                (generate_nullable_combinations prod []) acc0) l' acc
    = fold_left (fun acc' p => append_new p acc') l' acc).
  { induction l' as [|p l' IH]; simpl; intros acc H; [reflexivity|].
    destruct (H p (or_introl eq_refl)) as [He Hl].
    rewrite He, combinations_none_nullable by (split; assumption).
    simpl. destruct p as [|a p]; [discriminate|]. apply IH. auto. }
  rewrite G by assumption. now apply append_all_new.
Qed.

Lemma add_non_unit_id : forall nts l,
  NoDup l -> (forall p, In p l -> is_unit nts p = false) ->
  add_non_unit nts l [] = l.
Proof.
  intros nts l Hn Hu. unfold add_non_unit.
  assert (G : forall l' acc,
    (forall p, In p l' -> is_unit nts p = false) ->
    fold_left
      (fun acc' prod => if is_unit nts prod then acc' else append_new prod acc')
      l' acc
    = fold_left (fun acc' p => append_new p acc') l' acc).
  { induction l' as [|p l' IH]; simpl; intros acc H; [reflexivity|].
    rewrite (H p) by auto. apply IH. auto. }
  rewrite G by assumption. now apply append_all_new.
Qed.

Lemma unit_free_productions_id : forall g d,
  (forall a l, In (a, l) d ->
     NoDup l /\ forall p, In p l -> is_unit (non_terminals g) p = false) ->
  unit_free_productions g [] d = inr d.
Proof.
  intros g. induction d as [|[v l] d IH]; simpl; intros H; [reflexivity|].
  destruct (H v l (or_introl eq_refl)) as [Hn Hu].
  unfold unit_free_rhs. simpl. rewrite add_non_unit_id by assumption.
  rewrite IH by (intros a l' Hin; apply (H a); auto). reflexivity.
Qed.

Lemma dict_set_fresh : forall V (d : dict V) k v,
  ~ In k (keys d) -> dict_set d k v = d ++ [(k, v)].
Proof.
  induction d as [|[k' v'] d IH]; simpl; intros k v H; [reflexivity|].
  destruct (String.eqb k k') eqn:E.
  - apply String.eqb_eq in E. subst. tauto.
  - rewrite IH; tauto.
Qed.

Lemma dict_set_last : forall V (d : dict V) k v v',
  ~ In k (keys d) -> dict_set (d ++ [(k, v')]) k v = d ++ [(k, v)].
Proof.
  induction d as [|[k0 v0] d IH]; simpl; intros k v v' H.
  - now rewrite String.eqb_refl.
  - destruct (String.eqb k k0) eqn:E.
    + apply String.eqb_eq in E. subst. tauto.
    + rewrite IH; tauto.
Qed.

Lemma dict_get_last : forall V (d : dict V) k v,
  ~ In k (keys d) -> dict_get (d ++ [(k, v)]) k = Some v.
Proof.
  induction d as [|[k0 v0] d IH]; simpl; intros k v H.
  - now rewrite String.eqb_refl.
  - destruct (String.eqb k k0) eqn:E.
    + apply String.eqb_eq in E. subst. tauto.
    + apply IH. tauto.
Qed.

(** Stage D on right-hand sides of at most two symbols rebuilds the
    dictionary entry by entry. *)
Lemma binarize_short_entry : forall v l d n nts acc,
  ~ In v (keys d) ->
  (forall p, In p l -> length p <= 2) ->
  fold_left (binarize_production v) l (mkBin n nts (d ++ [(v, acc)]))
  = mkBin n nts (d ++ [(v, acc ++ l)]).
Proof.
  intros v l d n nts. induction l as [|p l IH]; simpl; intros acc Hv Hl.
  - now rewrite app_nil_r.
  - unfold binarize_production at 2.
    assert (E : (length p <=? 2) = true) by (apply Nat.leb_le; auto).
    rewrite E. simpl. unfold dict_append, prods_of.
    rewrite dict_get_last, dict_set_last by assumption.
    rewrite IH by auto. now rewrite <- app_assoc.
Qed.

Lemma binarize_short : forall d2 d1 n nts,
  NoDup (keys (d1 ++ d2)) ->
  (forall a l p, In (a, l) d2 -> In p l -> length p <= 2) ->
  fold_left
    (fun st vp =>
       fold_left (binarize_production (fst vp)) (snd vp)
                 (mkBin (bin_counter st) (bin_nts st)
                        (dict_set (bin_dict st) (fst vp) [])))
    d2 (mkBin n nts d1)
  = mkBin n nts (d1 ++ d2).
Proof.
  induction d2 as [|[v l] d2 IH]; simpl; intros d1 n nts Hn Hl.
  - now rewrite app_nil_r.
  - assert (Hv : ~ In v (keys d1)).
    { unfold keys in *. rewrite map_app in Hn. simpl in Hn.
      apply NoDup_remove_2 in Hn. intros Hin. apply Hn.
      apply in_app_iff. now left. }
    rewrite dict_set_fresh by assumption.
    rewrite binarize_short_entry; [|assumption|eauto]. simpl.
    replace (d1 ++ (v, l) :: d2) with ((d1 ++ [(v, l)]) ++ d2)
      by (now rewrite <- app_assoc).
    apply IH.
    + now rewrite <- app_assoc.
    + intros a l' p Hin. apply (Hl a). auto.
Qed.

Lemma set_of_list_In : forall l x, In x (set_of_list l) <-> In x l.
Proof.
  intros l x. unfold set_of_list.
  assert (G : forall acc,
    In x (fold_left (fun s y => add y s) l acc) <-> In x acc \/ In x l).
  { induction l as [|a l IH]; simpl; intros acc; [tauto|].
    rewrite IH, add_In. intuition congruence. }
  rewrite G. simpl. tauto.
Qed.

Lemma cnf_production_ok_sets : forall g g' v p,
  terminals g' = terminals g ->
  start_symbol g' = start_symbol g ->
  (forall a, In a (non_terminals g') <-> In a (non_terminals g)) ->
  cnf_production_ok g' v p = cnf_production_ok g v p.
Proof.
  intros g g' v p Ht Hs Hn.
  assert (M : forall a, mem a (non_terminals g') = mem a (non_terminals g)).
  { intros a. destruct (mem a (non_terminals g)) eqn:E.
    - apply mem_In. apply Hn. now apply mem_In.
    - apply mem_not_In. rewrite Hn. now apply mem_not_In. }
  unfold cnf_production_ok, is_start. rewrite Ht, Hs.
  destruct p as [|a [|b [|c p]]]; auto. now rewrite !M.
Qed.

Lemma forallb_same : forall (A : Type) (f g : A -> bool) l,
  (forall x, f x = g x) -> forallb f l = forallb g l.
Proof.
  intros A f g l H. induction l as [|a l IH]; simpl; [reflexivity|].
  now rewrite H, IH.
Qed.

Lemma is_in_cnf_sets : forall g g',
  productions g' = productions g ->
  terminals g' = terminals g ->
  start_symbol g' = start_symbol g ->
  (forall a, In a (non_terminals g') <-> In a (non_terminals g)) ->
  is_in_cnf g' = is_in_cnf g.
Proof.
  intros g g' Hp Ht Hs Hn. unfold is_in_cnf. rewrite Hp, Hs. f_equal.
  apply forallb_same. intros [v l]. simpl.
  apply forallb_same. intros p. now apply cnf_production_ok_sets.
Qed.

Lemma is_in_cnf_production : forall g a l p,
  is_in_cnf g = true -> In (a, l) (productions g) -> In p l ->
  cnf_production_ok g a p = true.
Proof.
  intros g a l p H Hl Hp. unfold is_in_cnf in H.
  apply andb_true_iff in H. destruct H as [_ H].
  rewrite forallb_forall in H. specialize (H (a, l) Hl). simpl in H.
  rewrite forallb_forall in H. auto.
Qed.

Lemma grammar_eta : forall g,
  mkGrammar (productions g) (terminals g) (non_terminals g) (start_symbol g)
  = g.
Proof. intros [d t n s]. reflexivity. Qed.

Lemma settled_short : forall g a l p,
  settled g -> In (a, l) (productions g) -> In p l -> short_rhs p.
Proof.
  intros g a l p (_ & Hc & Hl & _) Hin Hp.
  pose proof (@is_in_cnf_production g a l p Hc Hin Hp) as Hok.
  destruct (Hl a l Hin) as (_ & Hne & Heps).
  unfold short_rhs. destruct p as [|x [|y [|z p]]]; simpl in *.
  - contradiction.
  - split; [|auto]. apply String.eqb_neq. intros ->. contradiction.
  - auto.
  - discriminate.
Qed.

Lemma settled_not_unit : forall g a l p,
  settled g -> In (a, l) (productions g) -> In p l ->
  is_unit (non_terminals g) p = false.
Proof.
  intros g a l p (_ & Hc & _ & Hd & _) Hin Hp.
  pose proof (@is_in_cnf_production g a l p Hc Hin Hp) as Hok.
  destruct p as [|x [|y p]]; simpl in *; try reflexivity.
  apply mem_not_In. apply Hd. now apply mem_In.
Qed.

Lemma settled_nullable : forall g, settled g -> find_nullable_symbols g = [].
Proof.
  intros g Hs. unfold find_nullable_symbols.
  replace (direct_nullable (productions g)) with (@nil symbol).
  - apply propagate_nil.
  - symmetry. apply list_empty_no_element. intros x Hx.
    apply direct_nullable_In in Hx. destruct Hx as (l & p & Hl & Hp & E).
    destruct (@settled_short g x l p Hs Hl Hp) as [E' _]. congruence.
Qed.

Lemma settled_unit_pairs : forall g, settled g -> find_unit_productions g = [].
Proof.
  intros g Hs. unfold find_unit_productions.
  replace (direct_unit_pairs g) with (@nil (symbol * symbol)); [reflexivity|].
  symmetry. apply list_empty_no_element. intros [a b] Hx.
  apply direct_unit_pairs_In in Hx. destruct Hx as (l & Hl & Hp & Hn).
  pose proof (@settled_not_unit g a l [b] Hs Hl Hp) as E. simpl in E.
  apply mem_not_In in E. contradiction.
Qed.

Lemma settled_stage_a : forall g o n k,
  settled g ->
  eliminate_epsilon_productions (mkConverter o g n k)
  = inr (mkConverter o g n (S k)).
Proof.
  intros g o n k Hs. unfold eliminate_epsilon_productions. simpl.
  rewrite (@settled_nullable g Hs).
  rewrite map_pair_id.
  2:{ intros a l Hin. apply epsilon_free_rhs_id.
      - destruct Hs as (_ & _ & Hl & _). now apply (Hl a l).
      - intros p Hp. now apply (@settled_short g a l p). }
  unfold with_grammar. simpl. rewrite grammar_eta.
  destruct (start_symbol g); reflexivity.
Qed.

Lemma settled_stage_b : forall g o n k,
  settled g ->
  eliminate_unit_productions (mkConverter o g n k)
  = inr (mkConverter o g n (S k)).
Proof.
  intros g o n k Hs. unfold eliminate_unit_productions. simpl.
  rewrite (@settled_unit_pairs g Hs).
  rewrite unit_free_productions_id.
  - simpl. unfold with_grammar. simpl. now rewrite grammar_eta.
  - intros a l Hin. split.
    + destruct Hs as (_ & _ & Hl & _). now apply (Hl a l).
    + intros p Hp. now apply (@settled_not_unit g a l p).
Qed.

Lemma settled_generating : forall g a l p x,
  settled g -> In (a, l) (productions g) -> In p l -> In x p ->
  In x (find_generating_symbols g).
Proof.
  intros g a l p x Hs Hin Hp Hx.
  pose proof Hs as (_ & Hc & _ & _ & Hk & Hg).
  pose proof (@is_in_cnf_production g a l p Hc Hin Hp) as Hok.
  destruct p as [|y [|z [|w p]]]; simpl in *; try contradiction;
    try discriminate.
  - destruct Hx as [<- | []]. unfold find_generating_symbols.
    apply propagate_incl. now apply mem_In.
  - apply andb_true_iff in Hok. destruct Hok as [Hy Hz].
    apply mem_In in Hy, Hz.
    destruct Hx as [<- | [<- | []]]; apply Hg; now apply Hk.
Qed.

Lemma settled_stage_c : forall g o n k,
  settled g ->
  eliminate_useless_symbols (mkConverter o g n k)
  = inr (mkConverter o
           (mkGrammar (productions g) (terminals g)
                      (set_of_list (keys (productions g))) (start_symbol g))
           n (S k)).
Proof.
  intros g o n k Hs. unfold eliminate_useless_symbols. simpl.
  pose proof Hs as (_ & _ & _ & _ & _ & Hg).
  assert (E1 : filter_generating (find_generating_symbols g) (productions g)
               = productions g).
  { unfold filter_generating. rewrite filter_all.
    - apply map_pair_id. intros a l Hin. apply filter_all.
      intros p Hp. apply forallb_forall. intros x Hx. apply mem_In.
      now apply (@settled_generating g a l p).
    - intros [a l] Hin. simpl. apply mem_In. apply Hg.
      unfold keys. change a with (fst (a, l)). now apply in_map. }
  rewrite E1, grammar_eta.
  assert (E2 : filter_reachable (find_reachable_symbols g) (productions g)
               = productions g).
  { unfold filter_reachable. apply filter_all.
    intros [a l] Hin. simpl. apply mem_In. apply Hg.
    unfold keys. change a with (fst (a, l)). now apply in_map. }
  rewrite E2. reflexivity.
Qed.

Lemma settled_stage_d : forall g o n k nts,
  settled g ->
  convert_to_binary_form
    (mkConverter o (mkGrammar (productions g) (terminals g) nts
                              (start_symbol g)) n k)
  = inr (mkConverter o (mkGrammar (productions g) (terminals g) nts
                                  (start_symbol g)) n (S k)).
Proof.
  intros g o n k nts Hs. unfold convert_to_binary_form.
  cbn [grammar print_step productions terminals non_terminals start_symbol
       new_var_counter original_grammar step_counter].
  match goal with
  | |- context [bin_dict ?st] =>
      assert (E : st = mkBin n nts ([] ++ productions g))
  end.
  { apply binarize_short.
    - destruct Hs as (Hd & _). exact Hd.
    - intros a l p Hin Hp.
      destruct (@settled_short g a l p Hs Hin Hp) as [_ [H | H]]; lia. }
  rewrite E. reflexivity.
Qed.

(** C5 (as amended). On a grammar in CNF that is settled (no empty or ['ε']
    right-hand side, no right-hand side listed twice, disjoint symbol sets,
    the non-terminals being exactly the variables with productions, each of
    them generating and reachable) [to_cnf] returns, without the warning, a
    grammar with the same productions, the same terminals, the same
    non-terminals and the same start symbol, and generates no variable. *)
Theorem to_cnf_on_settled_cnf :
  forall g,
    settled g ->
    exists g' c,
      convert g = inr (g', Completed, c)
      /\ productions g' = productions g
      /\ terminals g' = terminals g
      /\ (forall a, In a (non_terminals g') <-> In a (non_terminals g))
      /\ start_symbol g' = start_symbol g
      /\ new_var_counter c = 0.
Proof.
  intros g Hs. unfold convert, new_converter, to_cnf. rewrite copy_id.
  rewrite (@settled_stage_a g g 0 1 Hs). cbn [bind].
  rewrite (@settled_stage_b g g 0 2 Hs). cbn [bind].
  rewrite (@settled_stage_c g g 0 3 Hs). cbn [bind].
  rewrite (@settled_stage_d g g 0 4 (set_of_list (keys (productions g))) Hs).
  cbn [bind ret grammar].
  assert (Hn : forall a,
    In a (set_of_list (keys (productions g))) <-> In a (non_terminals g)).
  { intros a. rewrite set_of_list_In. destruct Hs as (_ & _ & _ & _ & Hk & _).
    symmetry. apply Hk. }
  rewrite (@is_in_cnf_sets g) by (simpl; auto).
  destruct Hs as (_ & Hc & _). rewrite Hc.
  eexists. eexists. split; [reflexivity|]. simpl. auto.
Qed.

Lemma to_cnf_on_settled_cnf_witness :
  exists g' c,
    convert small_cnf = inr (g', Completed, c)
    /\ productions g' = productions small_cnf
    /\ new_var_counter c = 0.
Proof.
  destruct (@to_cnf_on_settled_cnf small_cnf)
    as (g' & c & H & Hp & _ & _ & _ & Hn).
  - unfold settled. split; [|split; [|split; [|split; [|split]]]].
    + repeat constructor; simpl; intuition discriminate.
    + reflexivity.
    + intros a l [H | [H | [H | []]]]; inversion H; subst;
        (split; [repeat constructor; simpl; intuition discriminate|]);
        split; simpl; intuition discriminate.
    + simpl. intros x [<- | [<- | []]]; intuition discriminate.
    + simpl. intros a. tauto.
    + intros a Ha. vm_compute in Ha. vm_compute.
      destruct Ha as [<- | [<- | [<- | []]]]; auto 10.
  - exists g', c. auto.
Defined.

(** C5, the claim as stated fails. [S -> a | ε] is in CNF; [to_cnf] makes
    the fresh variable [S0] the start symbol and drops [S]. [S -> a],
    [B -> b] is in CNF; [to_cnf] drops the unreachable [B]. [S -> a | a] is
    in CNF; [to_cnf] keeps one of the two. With the idle non-terminal [T],
    [S -> a] is in CNF; [to_cnf] takes [T] out of the non-terminals. [X -> a],
    [a -> b], with [a] in both symbol sets, is in CNF; [to_cnf] replaces
    [X -> a] by [X -> b] and drops [a]. *)
Lemma to_cnf_changes_cnf_grammars :
  (is_in_cnf cnf_with_duplicate = true
   /\ productions cnf_with_duplicate = [("S", [["a"]; ["a"]])]
   /\ exists c,
       convert cnf_with_duplicate
       = inr (mkGrammar [("S", [["a"]])] ["a"] ["S"] (Some "S"),
              Completed, c))
  /\ (is_in_cnf cnf_with_idle_variable = true
      /\ non_terminals cnf_with_idle_variable = ["T"; "S"]
      /\ exists c,
          convert cnf_with_idle_variable
          = inr (mkGrammar [("S", [["a"]])] ["a"] ["S"] (Some "S"),
                 Completed, c))
  /\ (is_in_cnf terminal_with_production = true
      /\ productions terminal_with_production
         = [("X", [["a"]]); ("a", [["b"]])]
      /\ exists c,
          convert terminal_with_production
          = inr (mkGrammar [("X", [["b"]])] ["a"; "b"] ["X"] (Some "X"),
                 Completed, c))
  /\
  (is_in_cnf cnf_with_empty = true
   /\ exists c,
       convert cnf_with_empty
       = inr (mkGrammar [("S0", [["a"]])] ["a"] ["S0"] (Some "S0"),
              Completed, c)
       /\ new_var_counter c = 1
       /\ productions cnf_with_empty = [("S", [["a"]; []])]
       /\ non_terminals cnf_with_empty = ["S"])
  /\ (is_in_cnf cnf_with_unreachable = true
      /\ exists c,
          convert cnf_with_unreachable
          = inr (mkGrammar [("S", [["a"]])] ["a"; "b"] ["S"] (Some "S"),
                 Completed, c)
          /\ productions cnf_with_unreachable
             = [("S", [["a"]]); ("B", [["b"]])]
          /\ non_terminals cnf_with_unreachable = ["S"; "B"]).
Proof.
  split; [|split; [|split]].
  1, 2, 3: split; [reflexivity|]; split; [reflexivity|]; eexists;
    vm_compute; reflexivity.
  split; (split; [reflexivity|]); eexists;
    (split; [vm_compute; reflexivity|]); repeat split; reflexivity.
Qed.

(** ** The store *)

Lemma length_list_update : forall (A : Type) (l : list A) i f,
  length (list_update l i f) = length l.
Proof.
  induction l as [|a l IH]; intros [|i] f; simpl; auto.
Qed.

Lemma nth_error_update_same : forall (A : Type) (l : list A) i f,
  nth_error (list_update l i f) i = option_map f (nth_error l i).
Proof.
  induction l as [|a l IH]; intros [|i] f; simpl; auto.
Qed.

Lemma nth_error_update_other : forall (A : Type) (l : list A) i j f,
  i <> j -> nth_error (list_update l i f) j = nth_error l j.
Proof.
  induction l as [|a l IH]; intros [|i] [|j] f H; simpl; auto.
  congruence.
Qed.

Lemma nth_error_alloc_old : forall (st : store) c l x,
  nth_error st l = Some x -> nth_error (st ++ [c]) l = Some x.
Proof.
  intros st c l x H. rewrite nth_error_app1; [assumption|].
  apply nth_error_Some. congruence.
Qed.

Lemma nth_error_alloc_new : forall (st : store) c,
  nth_error (st ++ [c]) (length st) = Some c.
Proof.
  intros st c. rewrite nth_error_app2 by lia. now rewrite Nat.sub_diag.
Qed.

Lemma nth_error_in_range : forall (st : store) l x,
  nth_error st l = Some x -> l < length st.
Proof. intros st l x H. apply nth_error_Some. congruence. Qed.

Lemma extends_refl : forall n st, extends n st st.
Proof. intros. split; auto. Qed.

Lemma extends_trans : forall n st1 st2 st3,
  extends n st1 st2 -> extends n st2 st3 -> extends n st1 st3.
Proof.
  intros n st1 st2 st3 [L1 H1] [L2 H2]. split; [lia|].
  intros l Hl. rewrite H2, H1; auto.
Qed.

Lemma extends_alloc : forall n (st : store) c,
  n <= length st -> extends n st (st ++ [c]).
Proof.
  intros n st c Hn. split.
  - rewrite length_app. simpl. lia.
  - intros l Hl. apply nth_error_app1. lia.
Qed.

Lemma extends_write : forall n (st : store) l c,
  n <= l -> extends n st (list_update st l (fun _ => c)).
Proof.
  intros n st l c Hn. split.
  - now rewrite length_list_update.
  - intros l' Hl'. apply nth_error_update_other. lia.
Qed.

Lemma below_extends : forall n st st' r g,
  below n st r g -> extends n st st' -> below n st' r g.
Proof.
  intros n st st' r g (p & t & k & Hr & Hp & Ht & Hk & Lr & Lp & Lt & Lk)
         [_ He].
  exists p, t, k. rewrite !He by assumption. auto 10.
Qed.

Lemma below_holds : forall n st r g, below n st r g -> holds st r g.
Proof.
  intros n st r g (p & t & k & Hr & Hp & Ht & Hk & _). exists p, t, k. auto.
Qed.

Lemma owns_holds : forall n st r g, owns n st r g -> holds st r g.
Proof.
  intros n st r g (p & t & k & Hr & Hp & Ht & Hk & _). exists p, t, k. auto.
Qed.

Lemma load_holds : forall st r g, holds st r g -> load r st = (inr g, st).
Proof.
  intros st r g (p & t & k & Hr & Hp & Ht & Hk).
  unfold load, read_object, read_dict, read_set, read, hbind, hret.
  rewrite Hr. simpl. rewrite Hp. simpl. rewrite Ht. simpl. rewrite Hk. simpl.
  now rewrite grammar_eta.
Qed.

(** The four writes of the stages, on an object the converter owns. *)

Lemma assign_start_symbol_owned : forall n1 st r g s,
  owns n1 st r g ->
  exists st',
    assign_start_symbol r s st = (inr tt, st')
    /\ owns n1 st' r (mkGrammar (productions g) (terminals g)
                                (non_terminals g) s)
    /\ extends n1 st st'.
Proof.
  intros n1 st r g s (p & t & k & Hr & Hp & Ht & Hk & Ntk & Lr & Lp & Lt & Lk).
  unfold assign_start_symbol, read_object, read, write, hbind, hret.
  rewrite Hr. simpl. eexists. split; [reflexivity|]. split.
  - exists p, t, k. simpl.
    rewrite nth_error_update_same, Hr. simpl.
    rewrite !nth_error_update_other by congruence. auto 12.
  - now apply extends_write.
Qed.

Lemma assign_productions_owned : forall n1 st r g d,
  owns n1 st r g ->
  exists st',
    assign_productions r d st = (inr tt, st')
    /\ owns n1 st' r (mkGrammar d (terminals g) (non_terminals g)
                                (start_symbol g))
    /\ extends n1 st st'.
Proof.
  intros n1 st r g d (p & t & k & Hr & Hp & Ht & Hk & Ntk & Lr & Lp & Lt & Lk).
  pose proof (@nth_error_in_range _ _ _ Hr) as Rr.
  pose proof (@nth_error_in_range _ _ _ Ht) as Rt.
  pose proof (@nth_error_in_range _ _ _ Hk) as Rk.
  unfold assign_productions, read_object, read, write, alloc, hbind, hret.
  rewrite Hr. simpl. eexists. split; [reflexivity|]. split.
  - exists (length st), t, k. simpl.
    rewrite nth_error_update_same, (@nth_error_alloc_old _ _ _ _ Hr). simpl.
    rewrite !nth_error_update_other by first [lia | congruence].
    rewrite nth_error_alloc_new.
    rewrite (@nth_error_alloc_old _ _ _ _ Ht), (@nth_error_alloc_old _ _ _ _ Hk).
    repeat split; auto; lia.
  - eapply extends_trans; [apply extends_alloc; lia|].
    now apply extends_write.
Qed.

Lemma assign_non_terminals_owned : forall n1 st r g s,
  owns n1 st r g ->
  exists st',
    assign_non_terminals r s st = (inr tt, st')
    /\ owns n1 st' r (mkGrammar (productions g) (terminals g) s
                                (start_symbol g))
    /\ extends n1 st st'.
Proof.
  intros n1 st r g s (p & t & k & Hr & Hp & Ht & Hk & Ntk & Lr & Lp & Lt & Lk).
  pose proof (@nth_error_in_range _ _ _ Hr) as Rr.
  pose proof (@nth_error_in_range _ _ _ Ht) as Rt.
  pose proof (@nth_error_in_range _ _ _ Hp) as Rp.
  unfold assign_non_terminals, read_object, read, write, alloc, hbind, hret.
  rewrite Hr. simpl. eexists. split; [reflexivity|]. split.
  - exists p, t, (length st). simpl.
    rewrite nth_error_update_same, (@nth_error_alloc_old _ _ _ _ Hr). simpl.
    rewrite !nth_error_update_other by first [lia | congruence].
    rewrite nth_error_alloc_new.
    rewrite (@nth_error_alloc_old _ _ _ _ Ht), (@nth_error_alloc_old _ _ _ _ Hp).
    repeat split; auto; lia.
  - eapply extends_trans; [apply extends_alloc; lia|].
    now apply extends_write.
Qed.

Lemma mutate_non_terminals_owned : forall n1 st r g s,
  owns n1 st r g ->
  exists st',
    mutate_non_terminals r s st = (inr tt, st')
    /\ owns n1 st' r (mkGrammar (productions g) (terminals g) s
                                (start_symbol g))
    /\ extends n1 st st'.
Proof.
  intros n1 st r g s (p & t & k & Hr & Hp & Ht & Hk & Ntk & Lr & Lp & Lt & Lk).
  unfold mutate_non_terminals, read_object, read, write, hbind, hret.
  rewrite Hr. simpl. eexists. split; [reflexivity|]. split.
  - exists p, t, k. simpl.
    rewrite nth_error_update_same, Hk. simpl.
    rewrite !nth_error_update_other by congruence. auto 12.
  - now apply extends_write.
Qed.

Lemma assign_terminals_owned : forall n1 st r g s,
  owns n1 st r g ->
  exists st',
    assign_terminals r s st = (inr tt, st')
    /\ owns n1 st' r (mkGrammar (productions g) s (non_terminals g)
                                (start_symbol g))
    /\ extends n1 st st'.
Proof.
  intros n1 st r g s (p & t & k & Hr & Hp & Ht & Hk & Ntk & Lr & Lp & Lt & Lk).
  pose proof (@nth_error_in_range _ _ _ Hr) as Rr.
  pose proof (@nth_error_in_range _ _ _ Hk) as Rk.
  pose proof (@nth_error_in_range _ _ _ Hp) as Rp.
  unfold assign_terminals, read_object, read, write, alloc, hbind, hret.
  rewrite Hr. simpl. eexists. split; [reflexivity|]. split.
  - exists p, (length st), k. simpl.
    rewrite nth_error_update_same, (@nth_error_alloc_old _ _ _ _ Hr). simpl.
    rewrite !nth_error_update_other by first [lia | congruence].
    rewrite nth_error_alloc_new.
    rewrite (@nth_error_alloc_old _ _ _ _ Hk), (@nth_error_alloc_old _ _ _ _ Hp).
    repeat split; auto; lia.
  - eapply extends_trans; [apply extends_alloc; lia|].
    now apply extends_write.
Qed.

Lemma mutate_productions_owned : forall n1 st r g d,
  owns n1 st r g ->
  exists st',
    mutate_productions r d st = (inr tt, st')
    /\ owns n1 st' r (mkGrammar d (terminals g) (non_terminals g)
                                (start_symbol g))
    /\ extends n1 st st'.
Proof.
  intros n1 st r g d (p & t & k & Hr & Hp & Ht & Hk & Ntk & Lr & Lp & Lt & Lk).
  unfold mutate_productions, read_object, read, write, hbind, hret.
  rewrite Hr. simpl. eexists. split; [reflexivity|]. split.
  - exists p, t, k. simpl.
    rewrite nth_error_update_same, Hp. simpl.
    rewrite !nth_error_update_other by congruence. auto 12.
  - now apply extends_write.
Qed.

Lemma new_grammar_owned : forall st,
  exists st',
    new_grammar st = (inr (length st + 3), st')
    /\ owns (length st) st' (length st + 3) empty_grammar
    /\ extends (length st) st st'.
Proof.
  intros st. unfold new_grammar, alloc, hbind. simpl.
  rewrite !length_app. simpl.
  replace (length st + 1 + 1 + 1) with (length st + 3) by lia.
  replace (length st + 1 + 1) with (length st + 2) by lia.
  eexists. split; [reflexivity|]. split.
  - exists (length st), (length st + 1), (length st + 2). simpl.
    rewrite <- !app_assoc. simpl.
    rewrite !nth_error_app2 by lia.
    replace (length st + 3 - length st) with 3 by lia.
    replace (length st + 2 - length st) with 2 by lia.
    replace (length st + 1 - length st) with 1 by lia.
    rewrite Nat.sub_diag. simpl. repeat split; auto; lia.
  - split.
    + rewrite !length_app. simpl. lia.
    + intros l Hl. rewrite <- !app_assoc. apply nth_error_app1. assumption.
Qed.

Lemma owns_below : forall n st r g,
  owns n st r g -> below (length st) st r g.
Proof.
  intros n st r g (p & t & k & Hr & Hp & Ht & Hk & _).
  exists p, t, k.
  pose proof (@nth_error_in_range _ _ _ Hr).
  pose proof (@nth_error_in_range _ _ _ Hp).
  pose proof (@nth_error_in_range _ _ _ Ht).
  pose proof (@nth_error_in_range _ _ _ Hk). auto 12.
Qed.

Lemma holds_extends : forall st st' r g,
  holds st r g -> extends (length st) st st' -> holds st' r g.
Proof.
  intros st st' r g (p & t & k & Hr & Hp & Ht & Hk) [_ He].
  exists p, t, k.
  rewrite !He by (eapply nth_error_in_range; eassumption). auto.
Qed.

(** [Grammar.copy] reads the object and builds the copy out of fresh
    cells. *)
Lemma copy_object_owned : forall st r g,
  holds st r g ->
  exists st',
    copy_object r st = (inr (length st + 3), st')
    /\ owns (length st) st' (length st + 3) g
    /\ extends (length st) st st'.
Proof.
  intros st r g H. unfold copy_object, hbind.
  rewrite (load_holds H).
  destruct (new_grammar_owned st) as (st1 & E1 & O1 & X1). rewrite E1.
  destruct (assign_start_symbol_owned (start_symbol g) O1)
    as (st2 & E2 & O2 & X2). rewrite E2.
  destruct (assign_terminals_owned (terminals g) O2) as (st3 & E3 & O3 & X3).
  simpl in E3. rewrite E3.
  destruct (assign_non_terminals_owned (non_terminals g) O3)
    as (st4 & E4 & O4 & X4).
  simpl in E4. rewrite E4.
  destruct (mutate_productions_owned (productions (copy g)) O4)
    as (st5 & E5 & O5 & X5).
  rewrite E5. unfold hret.
  eexists. split; [reflexivity|]. split.
  - rewrite copy_id in O5. simpl in O5. now rewrite grammar_eta in O5.
  - repeat (eapply extends_trans; [eassumption|]). apply extends_refl.
Qed.

(** ** The stages on the store *)

Lemma grammar_ext : forall g g',
  productions g = productions g' -> terminals g = terminals g' ->
  non_terminals g = non_terminals g' -> start_symbol g = start_symbol g' ->
  g = g'.
Proof.
  intros [d t n s] [d' t' n' s']. simpl. intros; subst. reflexivity.
Qed.

Lemma commits_epsilon :
  commits eliminate_epsilon_productions commit_epsilon.
Proof.
  intros v v' H. unfold eliminate_epsilon_productions in H.
  change (grammar (print_step v)) with (grammar v) in H.
  change (original_grammar (print_step v)) with (original_grammar v) in H.
  unfold commit_epsilon, hbind.
  destruct (start_symbol (grammar v)) as [s|] eqn:Es.
  - destruct (mem s (find_nullable_symbols (grammar v))) eqn:En.
    + destruct (generate_new_variable "S" (new_var_counter (print_step v))
                  (non_terminals (grammar v))) as [new_start counter].
      destruct (dict_lookup _ s) as [e|old]; cbn [bind ret] in H;
        [discriminate|].
      inversion H; subst v'. clear H. simpl. split; [reflexivity|].
      intros n1 st r O.
      destruct (assign_start_symbol_owned (Some new_start) O)
        as (st1 & E1 & O1 & X1). rewrite E1.
      destruct (mutate_non_terminals_owned
                  (add new_start (non_terminals (grammar v))) O1)
        as (st2 & E2 & O2 & X2). simpl in E2. rewrite E2.
      match goal with
      | |- context [assign_productions r ?d st2] =>
          destruct (assign_productions_owned d O2) as (st3 & E3 & O3 & X3)
      end.
      rewrite E3. eexists. split; [reflexivity|]. split; [exact O3|].
      eapply extends_trans; [eassumption|].
      eapply extends_trans; eassumption.
    + inversion H; subst v'. clear H. simpl. split; [reflexivity|].
      intros n1 st r O. unfold hret.
      match goal with
      | |- context [assign_productions r ?d st] =>
          destruct (assign_productions_owned d O) as (st3 & E3 & O3 & X3)
      end.
      rewrite E3. eexists. split; [reflexivity|]. split; [|exact X3].
      simpl in O3. rewrite Es in O3. exact O3.
  - inversion H; subst v'. clear H. simpl. split; [reflexivity|].
    intros n1 st r O. unfold hret.
    match goal with
    | |- context [assign_productions r ?d st] =>
        destruct (assign_productions_owned d O) as (st3 & E3 & O3 & X3)
    end.
    rewrite E3. eexists. split; [reflexivity|]. split; [|exact X3].
    simpl in O3. rewrite Es in O3. exact O3.
Qed.

Lemma commits_unit : commits eliminate_unit_productions commit_unit.
Proof.
  intros v v' H. unfold eliminate_unit_productions in H.
  change (grammar (print_step v)) with (grammar v) in H.
  destruct (unit_free_productions _ _ _) as [e|d]; cbn [bind ret] in H;
    [discriminate|].
  inversion H; subst v'. clear H. simpl. split; [reflexivity|].
  intros n1 st r O. unfold commit_unit.
  destruct (assign_productions_owned d O) as (st3 & E3 & O3 & X3).
  eexists. split; [exact E3|]. split; assumption.
Qed.

Lemma commits_useless : commits eliminate_useless_symbols commit_useless.
Proof.
  intros v v' H. unfold eliminate_useless_symbols in H.
  change (grammar (print_step v)) with (grammar v) in H.
  inversion H; subst v'. clear H. simpl. split; [reflexivity|].
  intros n1 st r O. unfold commit_useless, hbind.
  match goal with
  | |- context [assign_productions r ?d st] =>
      destruct (assign_productions_owned d O) as (st1 & E1 & O1 & X1)
  end.
  rewrite E1.
  match goal with
  | |- context [assign_productions r ?d st1] =>
      destruct (assign_productions_owned d O1) as (st2 & E2 & O2 & X2)
  end.
  rewrite E2.
  match goal with
  | |- context [assign_non_terminals r ?s st2] =>
      destruct (assign_non_terminals_owned s O2) as (st3 & E3 & O3 & X3)
  end.
  rewrite E3. eexists. split; [reflexivity|]. split; [exact O3|].
  eapply extends_trans; [eassumption|].
  eapply extends_trans; eassumption.
Qed.

Lemma commits_binary : commits convert_to_binary_form commit_binary.
Proof.
  intros v v' H. unfold convert_to_binary_form in H.
  change (grammar (print_step v)) with (grammar v) in H.
  inversion H; subst v'. clear H. simpl. split; [reflexivity|].
  intros n1 st r O. unfold commit_binary, hbind.
  match goal with
  | |- context [mutate_non_terminals r ?s st] =>
      destruct (mutate_non_terminals_owned s O) as (st1 & E1 & O1 & X1)
  end.
  rewrite E1.
  match goal with
  | |- context [assign_productions r ?d st1] =>
      destruct (assign_productions_owned d O1) as (st2 & E2 & O2 & X2)
  end.
  rewrite E2. eexists. split; [reflexivity|]. split; [exact O2|].
  eapply extends_trans; eassumption.
Qed.

Lemma converter_eta : forall v,
  mkConverter (original_grammar v) (grammar v) (new_var_counter v)
              (step_counter v) = v.
Proof. intros [o g n k]. reflexivity. Qed.

Lemma snapshot_represents : forall n1 st c v,
  represents n1 st c v -> snapshot c st = (inr v, st).
Proof.
  intros n1 st c v (Ho & Hg & Hn & Hk). unfold snapshot, hbind, hret.
  rewrite (load_holds (below_holds Ho)), (load_holds (owns_holds Hg)).
  rewrite Hn, Hk. now rewrite converter_eta.
Qed.

Lemma run_stage_represents : forall stage commit n1 st c v,
  commits stage commit ->
  represents n1 st c v ->
  match stage v with
  | inr v' =>
      exists c' st',
        run_stage stage commit c st = (inr c', st')
        /\ represents n1 st' c' v'
        /\ extends n1 st st'
        /\ grammar_at c' = grammar_at c
        /\ original_grammar v' = original_grammar v
  | inl e => run_stage stage commit c st = (inl e, st)
  end.
Proof.
  intros stage commit n1 st c v Hc Hr. unfold run_stage, hbind, hlift.
  rewrite (snapshot_represents Hr).
  destruct (stage v) as [e|v'] eqn:Es; [reflexivity|].
  destruct (Hc v v' Es) as [Ho Hw].
  destruct Hr as (Hb & Hg & Hn & Hk).
  destruct (Hw n1 st (grammar_at c) Hg) as (st' & E & O & X).
  rewrite E. unfold hret. eexists. eexists. split; [reflexivity|].
  split; [|split; [exact X | split; [reflexivity | exact Ho]]].
  unfold represents. simpl. rewrite Ho.
  split; [now apply (below_extends Hb)|]. auto.
Qed.

Lemma to_cnf_object_represents : forall n1 st c v,
  represents n1 st c v ->
  match to_cnf v with
  | inr (g', verdict, v') =>
      exists c' st',
        to_cnf_object c st = (inr (grammar_at c, verdict, c'), st')
        /\ represents n1 st' c' v'
        /\ owns n1 st' (grammar_at c) g'
        /\ extends n1 st st'
        /\ original_grammar v' = original_grammar v
  | inl e =>
      exists st', to_cnf_object c st = (inl e, st') /\ extends n1 st st'
  end.
Proof.
  intros n1 st c v R0. unfold to_cnf, to_cnf_object, hbind.
  pose proof (@run_stage_represents _ _ n1 st c v commits_epsilon R0) as H1.
  destruct (eliminate_epsilon_productions v) as [e|v1]; cbn [bind].
  { rewrite H1. eexists. split; [reflexivity | apply extends_refl]. }
  destruct H1 as (c1 & st1 & E1 & R1 & X1 & G1 & Q1). rewrite E1.
  pose proof (@run_stage_represents _ _ n1 st1 c1 v1 commits_unit R1) as H2.
  destruct (eliminate_unit_productions v1) as [e|v2]; cbn [bind].
  { rewrite H2. eexists. split; [reflexivity | exact X1]. }
  destruct H2 as (c2 & st2 & E2 & R2 & X2 & G2 & Q2). rewrite E2.
  pose proof (@run_stage_represents _ _ n1 st2 c2 v2 commits_useless R2) as H3.
  destruct (eliminate_useless_symbols v2) as [e|v3]; cbn [bind].
  { rewrite H3. eexists. split; [reflexivity|].
    eapply extends_trans; eassumption. }
  destruct H3 as (c3 & st3 & E3 & R3 & X3 & G3 & Q3). rewrite E3.
  pose proof (@run_stage_represents _ _ n1 st3 c3 v3 commits_binary R3) as H4.
  destruct (convert_to_binary_form v3) as [e|v4]; cbn [bind ret].
  { rewrite H4. eexists. split; [reflexivity|].
    eapply extends_trans; [eassumption|].
    eapply extends_trans; eassumption. }
  destruct H4 as (c4 & st4 & E4 & R4 & X4 & G4 & Q4). rewrite E4.
  pose proof R4 as (_ & O4 & _).
  rewrite (load_holds (owns_holds O4)). unfold hret.
  assert (G : grammar_at c4 = grammar_at c) by congruence.
  rewrite G in *.
  eexists. eexists. split; [reflexivity|].
  split; [exact R4|]. split; [exact O4|]. split; [|congruence].
  eapply extends_trans; [eassumption|].
  eapply extends_trans; [eassumption|].
  eapply extends_trans; eassumption.
Qed.

(** C8. Let the store hold a grammar object [r] of value [g], laid out in
    any way. [CNFConverter(r).to_cnf()] leaves every cell of that store as
    it was, whether it returns or raises: the object [r], its dictionary
    and its two sets are untouched and [r] still has the value [g]. When
    the conversion returns, the grammar it returns is an object allocated
    by the converter, holding the value that [to_cnf] computes from [g],
    and the converter's own copy of the original still has the value [g];
    it raises exactly when the conversion of [g] does. *)
Theorem converter_preserves_input :
  forall st r g,
    holds st r g ->
    exists res st',
      convert_object r st = (res, st')
      /\ preserves st st'
      /\ holds st' r g
      /\ match convert g with
         | inr (g', verdict, v') =>
             exists r' c',
               res = inr (r', verdict, c')
               /\ length st <= r'
               /\ holds st' r' g'
               /\ holds st' (original_at c') g
         | inl e => res = inl e
         end.
Proof.
  intros st r g H. unfold convert_object, new_converter_object, hbind.
  destruct (copy_object_owned H) as (st1 & E1 & O1 & X1). rewrite E1.
  pose proof (holds_extends H X1) as H1.
  destruct (copy_object_owned H1) as (st2 & E2 & O2 & X2). rewrite E2.
  unfold hret.
  set (c := mkObject (length st + 3) (length st1 + 3) 0 1).
  assert (R : represents (length st1) st2 c (new_converter g)).
  { unfold represents, new_converter. rewrite copy_id. simpl.
    split; [|auto].
    apply (@below_extends (length st1) st1); [|exact X2].
    now apply owns_below with (n := length st). }
  pose proof (to_cnf_object_represents R) as T.
  assert (L : length st <= length st1) by (destruct X1; assumption).
  assert (P : forall st3, extends (length st1) st2 st3 -> preserves st st3).
  { intros st3 [_ X3] l Hl.
    rewrite X3 by lia. destruct X2 as [_ X2]. rewrite X2 by lia.
    destruct X1 as [_ X1]. now apply X1. }
  assert (Hin : forall st3, preserves st st3 -> holds st3 r g).
  { intros st3 P3. destruct H as (p & t & k & Hr & Hp & Ht & Hk).
    exists p, t, k.
    rewrite !P3 by (eapply nth_error_in_range; eassumption). auto. }
  unfold convert.
  destruct (to_cnf (new_converter g)) as [e|[[g' verdict] v']].
  - destruct T as (st3 & E3 & X3). rewrite E3.
    eexists. eexists. split; [reflexivity|].
    split; [now apply P|]. split; [apply Hin; now apply P | reflexivity].
  - destruct T as (c' & st3 & E3 & R3 & O3 & X3 & Q3). rewrite E3.
    eexists. eexists. split; [reflexivity|].
    split; [now apply P|]. split; [apply Hin; now apply P|].
    exists (grammar_at c), c'. split; [reflexivity|].
    split; [simpl; lia|]. split; [now apply (owns_holds O3)|].
    destruct R3 as (B3 & _).
    assert (Eo : original_grammar v' = g).
    { rewrite Q3. unfold new_converter. simpl. apply copy_id. }
    rewrite <- Eo. now apply (below_holds B3).
Qed.

Lemma converter_preserves_input_witness :
  exists res st',
    convert_object 3 scenario2_store = (res, st')
    /\ preserves scenario2_store st'
    /\ holds st' 3 scenario2.
Proof.
  destruct (@converter_preserves_input scenario2_store 3 scenario2)
    as (res & st' & E & P & H & _).
  - exists 0, 1, 2. repeat split; reflexivity.
  - exists res, st'. auto.
Defined.

(** ** Grids *)

Lemma nth_list_update_same : forall (A : Type) (d : A) (l : list A) i f,
  i < length l -> nth i (list_update l i f) d = f (nth i l d).
Proof.
  induction l as [|a l IH]; intros [|i] f H; simpl in *; try lia; auto.
  apply IH. lia.
Qed.

Lemma nth_list_update_other : forall (A : Type) (d : A) (l : list A) i j f,
  i <> j -> nth j (list_update l i f) d = nth j l d.
Proof.
  induction l as [|a l IH]; intros [|i] [|j] f H; simpl; auto.
  congruence.
Qed.

Lemma In_list_update : forall (A : Type) (l : list A) i f x,
  In x (list_update l i f) -> In x l \/ exists y, In y l /\ x = f y.
Proof.
  induction l as [|a l IH]; intros [|i] f x H; simpl in *; auto.
  - destruct H as [<- | H]; eauto.
  - destruct H as [<- | H]; auto.
    destruct (IH _ _ _ H) as [H' | (y & Hy & ->)]; eauto.
Qed.

Lemma grid_get_update_same : forall (A : Type) (d : A) (t : grid A) i j f,
  i < length t -> j < length (nth i t []) ->
  grid_get d (grid_update t i j f) i j = f (grid_get d t i j).
Proof.
  intros A d t i j f Hi Hj. unfold grid_get, grid_update.
  rewrite nth_list_update_same by assumption.
  now apply nth_list_update_same.
Qed.

Lemma grid_get_update_other : forall (A : Type) (d : A) (t : grid A)
  i j i' j' f,
  (i', j') <> (i, j) ->
  grid_get d (grid_update t i j f) i' j' = grid_get d t i' j'.
Proof.
  intros A d t i j i' j' f H. unfold grid_get, grid_update.
  destruct (Nat.eq_dec i i') as [<- | N].
  - destruct (Nat.lt_ge_cases i (length t)) as [L | L].
    + rewrite nth_list_update_same by assumption.
      apply nth_list_update_other. congruence.
    + assert (E : list_update t i (fun row => list_update row j f) = t).
      { clear - L. revert i L.
        induction t as [|r t IH]; intros [|i] L; simpl in *; auto; try lia.
        rewrite IH by lia. reflexivity. }
      now rewrite E.
  - now rewrite nth_list_update_other.
Qed.

Lemma grid_update_length : forall (A : Type) (t : grid A) i j f,
  length (grid_update t i j f) = length t.
Proof. intros. apply length_list_update. Qed.

Lemma grid_update_rows : forall (A : Type) (t : grid A) i j f n,
  (forall row, In row t -> length row = n) ->
  forall row, In row (grid_update t i j f) -> length row = n.
Proof.
  intros A t i j f n H row Hr. unfold grid_update in Hr.
  apply In_list_update in Hr. destruct Hr as [Hr | (y & Hy & ->)]; auto.
  rewrite length_list_update. auto.
Qed.

Lemma grid_make_get : forall (A : Type) (d x : A) n i j,
  i < n -> j < n -> grid_get d (grid_make n x) i j = x.
Proof.
  intros A d x n i j Hi Hj. unfold grid_get, grid_make.
  rewrite nth_repeat_lt by assumption. now apply nth_repeat_lt.
Qed.

Lemma parsing_row : forall g tokens p i,
  parsing g tokens p -> i < length tokens ->
  length (nth i (table p) []) = length tokens.
Proof.
  intros g tokens p i (_ & _ & _ & _ & Hl & Hr) Hi.
  apply Hr. apply nth_In. lia.
Qed.

(** ** Additions to one cell *)

Lemma adds_refl : forall g tokens i j p,
  parsing g tokens p -> adds g tokens i j (fun _ => False) p p.
Proof.
  intros g tokens i j p H. split; [assumption|]. split; [auto|]. tauto.
Qed.

Lemma adds_weaken : forall g tokens i j (s1 s2 : symbol -> Prop) p p',
  (forall a, s1 a <-> s2 a) ->
  adds g tokens i j s1 p p' -> adds g tokens i j s2 p p'.
Proof.
  intros g tokens i j s1 s2 p p' E (H1 & H2 & H3).
  split; [assumption|]. split; [assumption|].
  intros a. rewrite H3, E. tauto.
Qed.

Lemma adds_trans : forall g tokens i j (s1 s2 : symbol -> Prop) p p1 p2,
  adds g tokens i j s1 p p1 ->
  adds g tokens i j s2 p1 p2 ->
  adds g tokens i j (fun a => s1 a \/ s2 a) p p2.
Proof.
  intros g tokens i j s1 s2 p p1 p2 (_ & F1 & A1) (W2 & F2 & A2).
  split; [assumption|]. split.
  - intros i' j' N. rewrite F2, F1; auto.
  - intros a. rewrite A2, A1. tauto.
Qed.

Lemma adds_fold : forall g tokens i j (X : Type) (f : CYKParser -> X -> CYKParser)
  (s : X -> symbol -> Prop) l p,
  parsing g tokens p ->
  (forall p' x s0,
      In x l -> adds g tokens i j s0 p p' ->
      adds g tokens i j (s x) p' (f p' x)) ->
  adds g tokens i j (fun a => exists x, In x l /\ s x a) p (fold_left f l p).
Proof.
  intros g tokens i j X f s l p W Hf.
  assert (G : forall l' p' s0,
    incl l' l ->
    adds g tokens i j s0 p p' ->
    adds g tokens i j (fun a => s0 a \/ exists x, In x l' /\ s x a)
         p (fold_left f l' p')).
  { induction l' as [|x l' IH]; simpl; intros p' s0 Hi H0.
    - eapply adds_weaken; [|exact H0].
      intros a. split; [auto | intros [H | (x & [] & _)]; auto].
    - assert (Hx : In x l) by (apply Hi; now left).
      pose proof (adds_trans H0 (Hf p' x s0 Hx H0)) as H1.
      eapply adds_weaken; [|apply (IH _ _ (fun y Hy => Hi y (or_intror Hy)) H1)].
      intros a. split.
      + intros [[H | H] | (y & Hy & H)]; eauto.
      + intros [H | (y & [<- | Hy] & H)]; eauto. }
  eapply adds_weaken; [|apply (G l p (fun _ => False) (incl_refl l))].
  - intros a. simpl. tauto.
  - now apply adds_refl.
Qed.

(** ** The two indices of the parser *)

Lemma pdict_get_set_same : forall d k v, pdict_get (pdict_set d k v) k = Some v.
Proof.
  induction d as [|[k' v'] d IH]; simpl; intros k v.
  - destruct (pair_dec k k); congruence.
  - destruct (pair_dec k k') as [E | N]; simpl.
    + destruct (pair_dec k k'); congruence.
    + destruct (pair_dec k k'); [congruence | apply IH].
Qed.

Lemma pdict_get_set_other : forall d k k' v,
  k <> k' -> pdict_get (pdict_set d k v) k' = pdict_get d k'.
Proof.
  induction d as [|[k0 v0] d IH]; simpl; intros k k' v N.
  - destruct (pair_dec k' k); congruence.
  - destruct (pair_dec k k0) as [E | N0]; simpl.
    + subst k0. destruct (pair_dec k' k); congruence.
    + destruct (pair_dec k' k0); auto.
Qed.

Lemma index_production_tokens : forall g v m prod t a,
  In a (tokens_of (index_production g v m prod) t)
  <-> In a (tokens_of m t)
      \/ (a = v /\ prod = [t] /\ In t (terminals g)).
Proof.
  intros g v m prod t a. unfold index_production.
  destruct prod as [|x [|y [|z prod]]].
  1, 4: split; [auto | intros [H | (_ & H & _)]; [auto | discriminate]].
  2: { unfold tokens_of. simpl. split; [auto|].
       intros [H | (_ & H & _)]; [auto | discriminate]. }
  - destruct (mem x (terminals g)) eqn:Ex.
    + apply mem_In in Ex. unfold tokens_of. simpl.
      destruct (string_dec x t) as [-> | N].
      * rewrite dict_get_set_same, add_In. split.
        -- intros [-> | H]; auto.
        -- intros [H | (-> & _)]; auto.
      * rewrite dict_get_set_other by assumption. split; [auto|].
        intros [H | (_ & H & _)]; [auto | congruence].
    + apply mem_not_In in Ex. split; [auto|].
      intros [H | (_ & H & Ht)]; [auto|]. inversion H; subst. contradiction.
Qed.

Lemma index_production_pairs : forall g v m prod b c a,
  In a (pairs_of (index_production g v m prod) b c)
  <-> In a (pairs_of m b c) \/ (a = v /\ prod = [b; c]).
Proof.
  intros g v m prod b c a. unfold index_production.
  destruct prod as [|x [|y [|z prod]]].
  - split; [auto | intros [H | (_ & H)]; [auto | discriminate]].
  - assert (E : pairs_of
                  (if mem x (terminals g)
                   then (dict_set (fst m) x
                           (add v match dict_get (fst m) x with
                                  | Some s => s
                                  | None => []
                                  end), snd m)
                   else m) b c = pairs_of m b c)
      by (destruct (mem x (terminals g)); reflexivity).
    rewrite E. split; [auto | intros [H | (_ & H)]; [auto | discriminate]].
  - unfold pairs_of. simpl.
    destruct (pair_dec (x, y) (b, c)) as [E | N].
    + inversion E; subst. rewrite pdict_get_set_same, add_In. split.
      * intros [-> | H]; auto.
      * intros [H | (-> & _)]; auto.
    + rewrite pdict_get_set_other by assumption. split; [auto|].
      intros [H | (_ & H)]; [auto | congruence].
  - split; [auto | intros [H | (_ & H)]; [auto | discriminate]].
Qed.

Lemma token_producers_spec : forall g t a,
  In a (token_producers g t)
  <-> exists l, In (a, l) (productions g) /\ In [t] l /\ In t (terminals g).
Proof.
  intros g t a. change (token_producers g t)
    with (tokens_of (precompute_production_maps g) t).
  unfold precompute_production_maps.
  assert (G : forall d m,
    In a (tokens_of
            (fold_left
               (fun maps vp =>
                  fold_left (index_production g (fst vp)) (snd vp) maps)
               d m) t)
    <-> In a (tokens_of m t)
        \/ exists l, In (a, l) d /\ In [t] l /\ In t (terminals g)).
  { induction d as [|[v l] d IH]; cbn [fold_left]; intros m.
    - split; [auto | intros [H | (l & [] & _)]; auto].
    - rewrite IH. cbn [fst snd].
      assert (I : forall l' m',
        In a (tokens_of (fold_left (index_production g v) l' m') t)
        <-> In a (tokens_of m' t)
            \/ (a = v /\ In [t] l' /\ In t (terminals g))).
      { induction l' as [|q l' IH']; cbn [fold_left]; intros m'.
        - split; [auto | intros [H | (_ & [] & _)]; auto].
        - rewrite IH', index_production_tokens. simpl. split.
          + intros [[H | (-> & -> & H)] | (-> & H1 & H2)]; auto 6.
          + intros [H | (-> & [-> | H1] & H2)]; auto 6. }
      rewrite I. split.
      + intros [[H | (-> & H1 & H2)] | (l' & H1 & H2 & H3)]; simpl; eauto 8.
      + intros [H | (l' & [H1 | H1] & H2 & H3)]; eauto 8.
        inversion H1; subst. auto. }
  rewrite G. unfold tokens_of. simpl. tauto.
Qed.

Lemma pair_producers_spec : forall g b c a,
  In a (pair_producers g b c)
  <-> exists l, In (a, l) (productions g) /\ In [b; c] l.
Proof.
  intros g b c a. change (pair_producers g b c)
    with (pairs_of (precompute_production_maps g) b c).
  unfold precompute_production_maps.
  assert (G : forall d m,
    In a (pairs_of
            (fold_left
               (fun maps vp =>
                  fold_left (index_production g (fst vp)) (snd vp) maps)
               d m) b c)
    <-> In a (pairs_of m b c) \/ exists l, In (a, l) d /\ In [b; c] l).
  { induction d as [|[v l] d IH]; cbn [fold_left]; intros m.
    - split; [auto | intros [H | (l & [] & _)]; auto].
    - rewrite IH. cbn [fst snd].
      assert (I : forall l' m',
        In a (pairs_of (fold_left (index_production g v) l' m') b c)
        <-> In a (pairs_of m' b c) \/ (a = v /\ In [b; c] l')).
      { induction l' as [|q l' IH']; cbn [fold_left]; intros m'.
        - split; [auto | intros [H | (_ & [])]; auto].
        - rewrite IH', index_production_pairs. simpl. split.
          + intros [[H | (-> & ->)] | (-> & H1)]; auto 6.
          + intros [H | (-> & [-> | H1])]; auto 6. }
      rewrite I. split.
      + intros [[H | (-> & H1)] | (l' & H1 & H2)]; simpl; eauto 8.
      + intros [H | (l' & [H1 | H1] & H2)]; eauto 8.
        inversion H1; subst. auto. }
  rewrite G. unfold pairs_of. simpl. tauto.
Qed.

Lemma In_prods_of : forall g a p,
  is_dict (productions g) ->
  (In p (prods_of (productions g) a)
   <-> exists l, In (a, l) (productions g) /\ In p l).
Proof.
  intros g a p Hd. unfold prods_of. split.
  - destruct (dict_get (productions g) a) as [l|] eqn:E; [|contradiction].
    intros H. exists l. split; [now apply dict_get_In | assumption].
  - intros (l & Hl & Hp). now rewrite (In_dict_get _ _ Hd Hl).
Qed.

(** ** Filling one cell *)

Lemma parsing_with_tables : forall g tokens p i j f pt,
  parsing g tokens p ->
  parsing g tokens (with_tables p (grid_update (table p) i j f) pt).
Proof.
  intros g tokens p i j f pt (H1 & H2 & H3 & H4 & H5 & H6).
  unfold parsing, with_tables. simpl.
  rewrite grid_update_length.
  repeat split; auto.
  now apply grid_update_rows.
Qed.

Lemma add_to_cell : forall g tokens p i j var pt,
  parsing g tokens p -> i < length tokens -> j < length tokens ->
  adds g tokens i j (fun a => a = var) p
       (with_tables p (grid_update (table p) i j (add var)) pt).
Proof.
  intros g tokens p i j var pt W Hi Hj.
  split; [now apply parsing_with_tables|]. split.
  - intros i' j' N. simpl. now apply grid_get_update_other.
  - intros a. simpl. rewrite grid_get_update_same.
    + rewrite add_In. tauto.
    + destruct W as (_ & _ & _ & _ & Hl & _). lia.
    + rewrite (@parsing_row g tokens p i W Hi). assumption.
Qed.

Lemma record_terminal_adds : forall g tokens p i token var,
  parsing g tokens p -> i < length tokens ->
  adds g tokens i i (fun a => a = var) p (record_terminal i token p var).
Proof.
  intros g tokens p i token var W Hi. unfold record_terminal.
  now apply add_to_cell.
Qed.

Lemma record_production_adds : forall g tokens p i j k l r producer,
  parsing g tokens p -> i < length tokens -> j < length tokens ->
  adds g tokens i j (fun a => a = producer) p
       (record_production i j k l r p producer).
Proof.
  intros g tokens p i j k l r producer W Hi Hj. unfold record_production.
  destruct (mem producer (grid_get [] (table p) i j)) eqn:E.
  - apply mem_In in E. split; [assumption|]. split; [auto|].
    intros a. split; [auto | intros [H | ->]; auto].
  - now apply add_to_cell.
Qed.

Lemma adds_parsing : forall g tokens i j s p p',
  adds g tokens i j s p p' -> parsing g tokens p'.
Proof. intros g tokens i j s p p' (H & _). exact H. Qed.

Lemma fill_split_adds : forall g tokens p i j k,
  parsing g tokens p -> i < length tokens -> j < length tokens ->
  adds g tokens i j
       (fun a => exists b c,
            In b (grid_get [] (table p) i k)
            /\ In c (grid_get [] (table p) (S k) j)
            /\ In a (pair_producers g b c))
       p (fill_split i j p k).
Proof.
  intros g tokens p i j k W Hi Hj. unfold fill_split.
  eapply adds_weaken;
    [|apply (@adds_fold g tokens i j symbol _
               (fun b a => exists c,
                    In c (grid_get [] (table p) (S k) j)
                    /\ In a (pair_producers g b c)));
      [assumption|]].
  - intros a. split.
    + intros (b & Hb & c & Hc & Ha). eauto.
    + intros (b & c & Hb & Hc & Ha). eauto.
  - intros p1 b s0 Hb A1.
    pose proof (adds_parsing A1) as W1.
    eapply adds_weaken;
      [|apply (@adds_fold g tokens i j symbol _
                 (fun c a => In a (pair_producers g b c)));
        [assumption|]].
    + intros a. split.
      * intros (c & Hc & Ha). eauto.
      * intros (c & Hc & Ha). eauto.
    + intros p2 c s1 Hc A2.
      pose proof (adds_parsing A2) as W2.
      assert (Eb : binary_producers p2 = snd (precompute_production_maps g))
        by (destruct W2 as (_ & _ & H & _); exact H).
      rewrite Eb. unfold pair_producers.
      destruct (pdict_get (snd (precompute_production_maps g)) (b, c))
        as [producers|].
      * eapply adds_weaken;
          [|apply (@adds_fold g tokens i j symbol _
                     (fun producer a => a = producer));
            [assumption|]].
        -- intros a. split.
           ++ intros (x & Hx & ->). assumption.
           ++ intros Ha. eauto.
        -- intros p3 producer s2 Hp A3.
           apply record_production_adds; [|assumption|assumption].
           exact (adds_parsing A3).
      * eapply adds_weaken; [|now apply adds_refl].
        intros a. simpl. tauto.
Qed.

Lemma fill_cell_adds : forall g tokens p i len,
  parsing g tokens p -> 2 <= len -> i + len - 1 < length tokens ->
  adds g tokens i (i + len - 1)
       (fun a => exists k b c,
            i <= k < i + len - 1
            /\ In b (grid_get [] (table p) i k)
            /\ In c (grid_get [] (table p) (S k) (i + len - 1))
            /\ In a (pair_producers g b c))
       p (fill_cell len p i).
Proof.
  intros g tokens p i len W Hlen Hj. unfold fill_cell.
  set (j := i + len - 1) in *.
  eapply adds_weaken;
    [|apply (@adds_fold g tokens i j nat _
               (fun k a => exists b c,
                    In b (grid_get [] (table p) i k)
                    /\ In c (grid_get [] (table p) (S k) j)
                    /\ In a (pair_producers g b c)));
      [assumption|]].
  - intros a. split.
    + intros (k & Hk & b & c & H). apply in_seq in Hk.
      exists k, b, c. split; [lia | assumption].
    + intros (k & b & c & Hk & H). exists k. split; [|eauto].
      apply in_seq. lia.
  - intros p1 k s0 Hk A1. apply in_seq in Hk.
    pose proof (adds_parsing A1) as W1.
    destruct A1 as (_ & F1 & _).
    rewrite <- (F1 i k) by (intros E; inversion E; lia).
    rewrite <- (F1 (S k) j) by (intros E; inversion E; lia).
    apply fill_split_adds; [assumption | lia | assumption].
Qed.

(** ** Spans and derivations *)

Lemma span_length : forall (tokens : list symbol) i j,
  i <= j -> j < length tokens -> length (span_of tokens i j) = j + 1 - i.
Proof.
  intros tokens i j Hi Hj. unfold span_of.
  rewrite length_firstn, length_skipn. lia.
Qed.

Lemma span_one : forall (tokens : list symbol) i,
  i < length tokens -> span_of tokens i i = [nth i tokens ""].
Proof.
  intros tokens i Hi. unfold span_of.
  replace (i + 1 - i) with 1 by lia.
  assert (E : skipn i tokens = nth i tokens "" :: skipn (S i) tokens).
  { clear - Hi. revert i Hi.
    induction tokens as [|t tokens IH]; intros [|i] Hi; simpl in *;
      try lia; auto.
    apply IH. lia. }
  rewrite E. reflexivity.
Qed.

Lemma span_split : forall (tokens : list symbol) i k j,
  i <= k -> k < j ->
  span_of tokens i j = span_of tokens i k ++ span_of tokens (S k) j.
Proof.
  intros tokens i k j Hi Hk. unfold span_of.
  replace (j + 1 - i) with ((k + 1 - i) + (j + 1 - S k)) by lia.
  replace (skipn (S k) tokens) with (skipn (k + 1 - i) (skipn i tokens))
    by (rewrite skipn_skipn; f_equal; lia).
  generalize (skipn i tokens) as l. generalize (k + 1 - i) as a.
  generalize (j + 1 - S k) as b. clear.
  intros b a l. rewrite <- (firstn_skipn a (firstn (a + b) l)) at 1.
  rewrite firstn_firstn, skipn_firstn_comm.
  f_equal; f_equal; lia.
Qed.

Lemma span_unsplit : forall (tokens : list symbol) i j w1 w2,
  i <= j -> j < length tokens ->
  span_of tokens i j = w1 ++ w2 -> w1 <> [] -> w2 <> [] ->
  exists k, i <= k /\ k < j
            /\ span_of tokens i k = w1 /\ span_of tokens (S k) j = w2.
Proof.
  intros tokens i j w1 w2 Hi Hj E N1 N2.
  pose proof (span_length tokens Hi Hj) as L.
  rewrite E, length_app in L.
  assert (L1 : 0 < length w1) by (destruct w1; simpl; [congruence | lia]).
  assert (L2 : 0 < length w2) by (destruct w2; simpl; [congruence | lia]).
  exists (i + length w1 - 1).
  split; [lia|]. split; [lia|].
  rewrite (@span_split tokens i (i + length w1 - 1) j) in E by lia.
  assert (La : length (span_of tokens i (i + length w1 - 1)) = length w1).
  { rewrite span_length by lia. lia. }
  apply app_eq_app in E. destruct E as (l & [[E1 E2] | [E1 E2]]).
  - assert (l = []).
    { apply (f_equal (@length symbol)) in E1. rewrite length_app in E1.
      destruct l; [reflexivity | simpl in E1; lia]. }
    subst l. rewrite app_nil_r in E1. simpl in E2. split; congruence.
  - assert (l = []).
    { apply (f_equal (@length symbol)) in E1. rewrite length_app in E1.
      destruct l; [reflexivity | simpl in E1; lia]. }
    subst l. rewrite app_nil_r in E1. simpl in E2. split; congruence.
Qed.

Lemma cnf_derives_nonempty : forall g a w, cnf_derives g a w -> w <> [].
Proof.
  intros g a w H. induction H as [a t _ _ | a b c w1 w2 _ _ IH1 _ _].
  - discriminate.
  - intros E. apply app_eq_nil in E. destruct E as [E _]. auto.
Qed.

Lemma cnf_derives_one : forall g a t,
  cnf_derives g a [t]
  <-> In [t] (prods_of (productions g) a) /\ In t (terminals g).
Proof.
  intros g a t. split.
  - intros H. remember [t] as w eqn:E.
    destruct H as [a t' Hp Ht | a b c w1 w2 Hp H1 H2].
    + inversion E; subst. auto.
    + apply cnf_derives_nonempty in H1, H2.
      destruct w1 as [|x w1]; [congruence|].
      destruct w2 as [|y w2]; [congruence|].
      destruct w1; discriminate.
  - intros [Hp Ht]. now apply cnf_terminal.
Qed.

Lemma cnf_derives_split : forall g (tokens : list symbol) a i j,
  i < j -> j < length tokens ->
  (cnf_derives g a (span_of tokens i j)
   <-> exists k b c,
         i <= k < j
         /\ In [b; c] (prods_of (productions g) a)
         /\ cnf_derives g b (span_of tokens i k)
         /\ cnf_derives g c (span_of tokens (S k) j)).
Proof.
  intros g tokens a i j Hi Hj. split.
  - intros H.
    pose proof (@span_length tokens i j (Nat.lt_le_incl _ _ Hi) Hj) as L.
    remember (span_of tokens i j) as w eqn:E.
    destruct H as [a t Hp Ht | a b c w1 w2 Hp H1 H2].
    + simpl in L. lia.
    + symmetry in E.
      destruct (@span_unsplit tokens i j w1 w2 (Nat.lt_le_incl _ _ Hi) Hj E
                  (cnf_derives_nonempty H1) (cnf_derives_nonempty H2))
        as (k & Hk1 & Hk2 & E1 & E2).
      exists k, b, c. rewrite E1, E2. auto.
  - intros (k & b & c & [Hk1 Hk2] & Hp & H1 & H2).
    rewrite (@span_split tokens i k j) by assumption.
    eapply cnf_binary; eassumption.
Qed.

Lemma fold_seq_ind : forall (B : Type) (P : nat -> B -> Prop)
  (f : B -> nat -> B) len start b,
  P start b ->
  (forall k b', start <= k < start + len -> P k b' -> P (S k) (f b' k)) ->
  P (start + len) (fold_left f (seq start len) b).
Proof.
  intros B P f. induction len as [|len IH]; simpl; intros start b H0 Hs.
  - now rewrite Nat.add_0_r.
  - rewrite Nat.add_succ_r. apply (IH (S start)).
    + apply Hs; [lia | assumption].
    + intros k b' Hk. apply Hs. lia.
Qed.

(** ** The table after each loop *)

Lemma fill_diagonal_step : forall g tokens p k,
  parsing g tokens p -> k < length tokens ->
  adds g tokens k k
       (fun a => In a (token_producers g (nth k tokens "")))
       p
       (let token := nth k (sentence p) "" in
        match dict_get (terminal_producers p) token with
        | Some vars => fold_left (record_terminal k token) vars p
        | None => p
        end).
Proof.
  intros g tokens p k W Hk.
  pose proof W as (_ & Et & _ & Es & _). rewrite Es, Et. cbv zeta.
  unfold token_producers.
  destruct (dict_get (fst (precompute_production_maps g)) (nth k tokens ""))
    as [vars|].
  - eapply adds_weaken;
      [|apply (@adds_fold g tokens k k symbol _ (fun var a => a = var));
        [assumption|]].
    + intros a. split.
      * intros (x & Hx & ->). assumption.
      * intros Ha. eauto.
    + intros p1 var s0 Hv A1.
      apply record_terminal_adds; [exact (adds_parsing A1) | assumption].
  - eapply adds_weaken; [|now apply adds_refl].
    intros a. simpl. tauto.
Qed.

Lemma fill_diagonal_filled : forall g tokens p,
  is_dict (productions g) ->
  parsing g tokens p ->
  (forall i j, i < length tokens -> j < length tokens ->
               grid_get [] (table p) i j = []) ->
  filled g tokens 2 0 (fill_diagonal p).
Proof.
  intros g tokens p Hd W Hempty. unfold fill_diagonal.
  pose proof W as (_ & _ & _ & Es & _). rewrite Es.
  pose proof
    (@fold_seq_ind CYKParser
       (fun k p' =>
          parsing g tokens p'
          /\ forall i j, i < length tokens -> j < length tokens ->
               ((i = j /\ i < k) ->
                forall a, In a (grid_get [] (table p') i j) <->
                          In a (token_producers g (nth i tokens "")))
               /\ ((i <> j \/ k <= i) -> grid_get [] (table p') i j = []))
       (fun p' i =>
          let token := nth i (sentence p') "" in
          match dict_get (terminal_producers p') token with
          | Some vars => fold_left (record_terminal i token) vars p'
          | None => p'
          end)
       (length tokens) 0 p) as F.
  simpl in F. destruct F as [W' H'].
  - split; [assumption|]. intros i j Hi Hj. split; [lia|].
    intros _. now apply Hempty.
  - intros k p' Hk [W1 H1].
    pose proof (@fill_diagonal_step g tokens p' k W1 (proj2 Hk))
      as (W2 & F2 & A2).
    split; [exact W2|]. intros i j Hi Hj.
    destruct (H1 i j Hi Hj) as [C1 E1].
    destruct (Nat.eq_dec i k) as [-> | Ni].
    + destruct (Nat.eq_dec j k) as [-> | Nj].
      * split; [|lia]. intros _ a. rewrite A2.
        rewrite (E1 (or_intror (Nat.le_refl k))). simpl. tauto.
      * rewrite F2 by congruence. split; [lia|]. intros _. apply E1. lia.
    + rewrite F2 by congruence. split.
      * intros [-> Hlt]. apply C1. lia.
      * intros [H | H]; apply E1; lia.
  - split; [exact W'|]. intros i j Hij Hj. split.
    + intros Hlen a. assert (i = j) by lia. subst j.
      destruct (H' i i) as [C _]; try lia.
      rewrite (C (conj eq_refl Hj)).
      rewrite span_one by assumption.
      rewrite cnf_derives_one, token_producers_spec, (@In_prods_of g _ _ Hd).
      split.
      * intros (l & H1 & H2 & H3). eauto.
      * intros [(l & H1 & H2) H3]. eauto.
    + intros Hlen. destruct (H' i j) as [_ E]; try lia. apply E. lia.
Qed.

Lemma fill_cell_filled : forall g tokens p len i0,
  is_dict (productions g) ->
  filled g tokens len i0 p ->
  2 <= len -> i0 + len - 1 < length tokens ->
  filled g tokens len (S i0) (fill_cell len p i0).
Proof.
  intros g tokens p len i0 Hd [W H] Hlen Hj.
  pose proof (@fill_cell_adds g tokens p i0 len W Hlen Hj) as (W' & F & A).
  split; [exact W'|]. intros i j Hij Hjn.
  destruct (H i j Hij Hjn) as [C E].
  assert (Dec : (i, j) = (i0, i0 + len - 1) \/ (i, j) <> (i0, i0 + len - 1)).
  { destruct (Nat.eq_dec i i0); destruct (Nat.eq_dec j (i0 + len - 1));
      subst; auto; right; congruence. }
  destruct Dec as [Eq | Ne].
  - inversion Eq; subst i j. clear Eq. split; [|lia].
    intros _ a. rewrite A.
    rewrite E by lia. rewrite cnf_derives_split by lia. split.
    + intros [[] | (k & b & c & Hk & Hb & Hc & Ha)].
      destruct (H i0 k) as [Cb _]; try lia.
      destruct (H (S k) (i0 + len - 1)) as [Cc _]; try lia.
      exists k, b, c. split; [assumption|].
      rewrite <- Cb, <- Cc by lia.
      apply pair_producers_spec in Ha.
      rewrite (@In_prods_of g _ _ Hd). auto.
    + intros (k & b & c & Hk & Hp & Hb & Hc). right.
      destruct (H i0 k) as [Cb _]; try lia.
      destruct (H (S k) (i0 + len - 1)) as [Cc _]; try lia.
      exists k, b, c. split; [assumption|].
      rewrite Cb, Cc by lia.
      split; [assumption|]. split; [assumption|].
      apply pair_producers_spec. now apply (@In_prods_of g _ _ Hd).
  - rewrite F by assumption. split.
    + intros Hc. apply C. destruct Hc as [Hc | [Hc Hi]]; [now left|].
      right. split; [assumption|].
      destruct (Nat.eq_dec i i0) as [-> | N]; [|lia].
      exfalso. apply Ne. f_equal. lia.
    + intros He. apply E. lia.
Qed.

Lemma filled_next : forall g tokens p len,
  filled g tokens len (length tokens + 1 - len) p ->
  filled g tokens (S len) 0 p.
Proof.
  intros g tokens p len [W H]. split; [exact W|].
  intros i j Hij Hj. destruct (H i j Hij Hj) as [C E]. split.
  - intros Hc. apply C. lia.
  - intros He. apply E. lia.
Qed.

Lemma fill_table_filled : forall g tokens p,
  is_dict (productions g) ->
  1 <= length tokens ->
  filled g tokens 2 0 p ->
  filled g tokens (length tokens + 1) 0 (fill_table p).
Proof.
  intros g tokens p Hd Hn H. unfold fill_table.
  pose proof H as [(_ & _ & _ & Es & _) _]. rewrite Es.
  replace (length tokens + 1) with (2 + (length tokens + 1 - 2)) at 1 by lia.
  apply (@fold_seq_ind CYKParser (fun len p' => filled g tokens len 0 p')).
  - exact H.
  - intros len p' Hlen H'. apply filled_next.
    replace (length tokens + 1 - len) with (0 + (length tokens - len + 1))
      by lia.
    apply (@fold_seq_ind CYKParser (fun i p'' => filled g tokens len i p'')).
    + exact H'.
    + intros i p'' Hi H''. apply fill_cell_filled; auto; lia.
Qed.

Lemma new_parse_parsing : forall g (tokens : list symbol),
  parsing g tokens
    (mkParser g (fst (precompute_production_maps g))
              (snd (precompute_production_maps g))
              (grid_make (length tokens) [])
              (grid_make (length tokens) []) tokens).
Proof.
  intros g tokens. unfold parsing, grid_make. simpl.
  rewrite repeat_length. repeat split; auto.
  intros row Hr. apply repeat_spec in Hr. subst row. apply repeat_length.
Qed.

(** After [parse], the cell [table[i][j]] holds the variables that derive
    the tokens [i..j] by the terminal rules and the binary rules. *)
Lemma parse_table_cnf_derives : forall g tokens i j a,
  is_dict (productions g) ->
  tokens <> [] ->
  i <= j -> j < length tokens ->
  (In a (grid_get [] (table (snd (parse (new_parser g) tokens))) i j)
   <-> cnf_derives g a (span_of tokens i j)).
Proof.
  intros g tokens i j a Hd Hne Hij Hj.
  destruct tokens as [|t tokens]; [congruence|].
  set (w := t :: tokens) in *.
  change (snd (parse (new_parser g) w))
    with (fill_table
            (fill_diagonal
               (mkParser g (fst (precompute_production_maps g))
                         (snd (precompute_production_maps g))
                         (grid_make (length w) [])
                         (grid_make (length w) []) w))).
  assert (F : filled g w (length w + 1) 0
                (fill_table
                   (fill_diagonal
                      (mkParser g (fst (precompute_production_maps g))
                         (snd (precompute_production_maps g))
                         (grid_make (length w) [])
                         (grid_make (length w) []) w)))).
  { apply fill_table_filled; [assumption | simpl; lia|].
    apply fill_diagonal_filled; [assumption | apply new_parse_parsing|].
    intros i' j' Hi' Hj'. simpl. now apply grid_make_get. }
  destruct F as [_ F]. destruct (F i j Hij Hj) as [C _]. apply C. lia.
Qed.

(** ** Derivations in a grammar in CNF *)

Lemma key_has_production : forall g a p,
  In p (prods_of (productions g) a) -> In a (keys (productions g)).
Proof.
  intros g a p H. unfold prods_of in H. apply dict_get_keys.
  destruct (dict_get (productions g) a) as [l|]; [eauto | contradiction].
Qed.

Lemma cnf_production_shape : forall g a p,
  is_dict (productions g) -> is_in_cnf g = true ->
  In p (prods_of (productions g) a) ->
  cnf_production_ok g a p = true.
Proof.
  intros g a p Hd Hc Hp. apply (@In_prods_of g a p Hd) in Hp.
  destruct Hp as (l & Hl & Hp). now apply (@is_in_cnf_production g a l p).
Qed.

Lemma cnf_derives_derives : forall g a w,
  classified g ->
  cnf_derives g a w -> In a (non_terminals g) /\ derives g a w.
Proof.
  intros g a w [_ Hk] H.
  induction H as [a t Hp Ht | a b c w1 w2 Hp _ [_ IH1] _ [_ IH2]].
  - split; [apply Hk; now apply key_has_production with (p := [t])|].
    apply derives_production with (p := [t]); [assumption|].
    change [t] with ([t] ++ []) at 2. apply derives_cons.
    + now apply derives_terminal.
    + apply derives_nil.
  - split; [apply Hk; now apply key_has_production with (p := [b; c])|].
    apply derives_production with (p := [b; c]); [assumption|].
    apply derives_cons; [assumption|].
    rewrite <- (app_nil_r w2). apply derives_cons; [assumption|].
    apply derives_nil.
Qed.

(** Only a start symbol with an empty right-hand side derives the empty
    word. *)
Lemma derives_empty : forall g,
  is_dict (productions g) -> is_in_cnf g = true ->
  classified g -> start_isolated g ->
  forall x w, derives g x w -> w = [] ->
    ~ In x (terminals g) /\ (In x (non_terminals g) -> empty_start g x).
Proof.
  intros g Hd Hc [Hdis Hk] Hiso.
  apply (derives_mut
           (fun x w => w = [] ->
              ~ In x (terminals g)
              /\ (In x (non_terminals g) -> empty_start g x))
           (fun p w => w = [] ->
              forall x, In x p ->
                ~ In x (terminals g)
                /\ (In x (non_terminals g) -> empty_start g x))).
  - intros t _ E. discriminate.
  - intros a p w Hp _ IH E. specialize (IH E).
    assert (Ha : In a (non_terminals g))
      by (apply Hk; now apply key_has_production with (p := p)).
    split; [intros Ht; now apply (Hdis a)|]. intros _.
    pose proof (@cnf_production_shape g a p Hd Hc Hp) as Hok.
    destruct p as [|x [|y [|z p]]]; simpl in Hok.
    + unfold is_start in Hok. unfold empty_start.
      destruct (start_symbol g) as [s|]; [|discriminate].
      apply String.eqb_eq in Hok. subst s. auto.
    + apply mem_In in Hok.
      destruct (IH x (or_introl eq_refl)) as [Hx _]. contradiction.
    + apply andb_true_iff in Hok. destruct Hok as [Hx _].
      apply mem_In in Hx.
      destruct (IH x (or_introl eq_refl)) as [_ Hs].
      destruct (Hs Hx) as [Hs1 Hs2].
      exfalso. apply (Hiso x Hs1 Hs2 a [x; y] Hp). now left.
    + discriminate.
  - intros _ x [].
  - intros s ss w1 w2 _ IH1 _ IH2 E x Hx.
    apply app_eq_nil in E. destruct E as [E1 E2].
    destruct Hx as [<- | Hx]; auto.
Qed.

Lemma derives_terminal_only : forall g t w,
  classified g -> In t (terminals g) -> derives g t w -> w = [t].
Proof.
  intros g t w [Hdis Hk] Ht H.
  destruct H as [t' _ | a p w Hp _]; [reflexivity|].
  exfalso. apply (Hdis a Ht). apply Hk.
  now apply key_has_production with (p := p).
Qed.

Lemma derives_cnf_derives : forall g,
  is_dict (productions g) -> is_in_cnf g = true ->
  classified g -> start_isolated g ->
  forall a w, derives g a w ->
    In a (non_terminals g) -> w <> [] -> cnf_derives g a w.
Proof.
  intros g Hd Hc Hcl Hiso.
  pose proof Hcl as [Hdis Hk].
  apply (derives_mut
           (fun a w => In a (non_terminals g) -> w <> [] -> cnf_derives g a w)
           (fun p w =>
              match p with
              | [x] => derives g x w
              | [x; y] =>
                  exists w1 w2,
                    w = w1 ++ w2 /\ derives g x w1 /\ derives g y w2
                    /\ (In x (non_terminals g) -> w1 <> [] ->
                        cnf_derives g x w1)
                    /\ (In y (non_terminals g) -> w2 <> [] ->
                        cnf_derives g y w2)
              | _ => True
              end
              /\ (p = [] -> w = [])
              /\ match p with
                 | [x] => In x (non_terminals g) -> w <> [] ->
                          cnf_derives g x w
                 | _ => True
                 end)).
  - intros t Ht Hn. exfalso. now apply (Hdis t).
  - intros a p w Hp Hall (IH & Hnil & _) Ha Hw.
    pose proof (@cnf_production_shape g a p Hd Hc Hp) as Hok.
    destruct p as [|x [|y [|z p]]]; simpl in Hok.
    + exfalso. apply Hw. now apply Hnil.
    + apply mem_In in Hok.
      rewrite (@derives_terminal_only g x w Hcl Hok IH).
      now apply cnf_terminal.
    + apply andb_true_iff in Hok. destruct Hok as [Hx Hy].
      apply mem_In in Hx, Hy.
      destruct IH as (w1 & w2 & -> & D1 & D2 & C1 & C2).
      assert (N1 : w1 <> []).
      { intros E. destruct (@derives_empty g Hd Hc Hcl Hiso x w1 D1 E) as [_ Hs].
        destruct (Hs Hx) as [Hs1 Hs2].
        apply (Hiso x Hs1 Hs2 a [x; y] Hp). now left. }
      assert (N2 : w2 <> []).
      { intros E. destruct (@derives_empty g Hd Hc Hcl Hiso y w2 D2 E) as [_ Hs].
        destruct (Hs Hy) as [Hs1 Hs2].
        apply (Hiso y Hs1 Hs2 a [x; y] Hp). right. now left. }
      apply cnf_binary with (b := x) (c := y); auto.
    + discriminate.
  - split; [exact I|]. split; [reflexivity | exact I].
  - intros s ss w1 w2 D1 IH1 D2 (IH2 & Hnil & IH3).
    split; [|split; [discriminate|]].
    + destruct ss as [|y [|z ss]]; [| |exact I].
      * rewrite (Hnil eq_refl), app_nil_r. exact D1.
      * exists w1, w2. repeat split; auto.
    + destruct ss as [|y ss]; [|exact I].
      rewrite (Hnil eq_refl), app_nil_r. exact IH1.
Qed.

Lemma parse_accepts : forall g t tokens,
  accepts g (t :: tokens) = true
  <-> exists s,
        start_symbol g = Some s
        /\ In s (grid_get []
                   (table (snd (parse (new_parser g) (t :: tokens))))
                   0 (length (t :: tokens) - 1)).
Proof.
  intros g t tokens. unfold accepts.
  set (w := t :: tokens).
  set (p := fill_table
              (fill_diagonal
                 (mkParser g (fst (precompute_production_maps g))
                           (snd (precompute_production_maps g))
                           (grid_make (length w) [])
                           (grid_make (length w) []) w))).
  change (snd (parse (new_parser g) w)) with p.
  change (fst (fst (parse (new_parser g) w)))
    with (start_in (cyk_grammar p) (grid_get [] (table p) 0 (length w - 1))).
  assert (Eg : cyk_grammar p = g).
  { assert (W : forall q, cyk_grammar (fill_table (fill_diagonal q))
                          = cyk_grammar q).
    { intros q. unfold fill_table.
      apply (fold_left_ind
               (fun q' => cyk_grammar q' = cyk_grammar q)).
      - unfold fill_diagonal.
        apply (fold_left_ind (fun q' => cyk_grammar q' = cyk_grammar q));
          [reflexivity|].
        intros q1 i _ E1.
        destruct (dict_get (terminal_producers q1) (nth i (sentence q1) ""));
          [|assumption].
        apply (fold_left_ind (fun q' => cyk_grammar q' = cyk_grammar q));
          [assumption|].
        intros q2 v _ E2. exact E2.
      - intros q1 len _ E1.
        apply (fold_left_ind (fun q' => cyk_grammar q' = cyk_grammar q));
          [assumption|].
        intros q2 i _ E2. unfold fill_cell.
        apply (fold_left_ind (fun q' => cyk_grammar q' = cyk_grammar q));
          [assumption|].
        intros q3 k _ E3. unfold fill_split.
        apply (fold_left_ind (fun q' => cyk_grammar q' = cyk_grammar q));
          [assumption|].
        intros q4 b _ E4.
        apply (fold_left_ind (fun q' => cyk_grammar q' = cyk_grammar q));
          [assumption|].
        intros q5 c _ E5.
        destruct (pdict_get (binary_producers q5) (b, c)); [|assumption].
        apply (fold_left_ind (fun q' => cyk_grammar q' = cyk_grammar q));
          [assumption|].
        intros q6 v _ E6. unfold record_production.
        destruct (mem v (grid_get [] (table q6) i (i + len - 1) ));
          assumption. }
    unfold p. rewrite W. reflexivity. }
  rewrite Eg. unfold start_in.
  destruct (start_symbol g) as [s|].
  - rewrite mem_In. split.
    + intros H. eauto.
    + intros (s' & E & H). injection E as ->. assumption.
  - split; [discriminate | intros (s & E & _); discriminate].
Qed.

(** C2 (as amended). Let [g] be a grammar in CNF whose symbol sets are
    disjoint, whose variables with productions are non-terminals, and whose
    start symbol, if it has an empty right-hand side, occurs in no
    right-hand side. For every non-empty token sequence of length [n], after
    [parse] has filled the table, [table[i][j]] for [0 <= i <= j < n] is
    exactly the set of non-terminals that derive the tokens [i..j], and the
    sequence is accepted if and only if the start symbol is in
    [table[0][n-1]]. *)
Theorem cyk_table_complete :
  forall g tokens,
    is_dict (productions g) ->
    is_in_cnf g = true ->
    classified g ->
    start_isolated g ->
    tokens <> [] ->
    (forall i j a,
        i <= j -> j < length tokens ->
        (In a (grid_get [] (table (snd (parse (new_parser g) tokens))) i j)
         <-> In a (non_terminals g) /\ derives g a (span_of tokens i j)))
    /\ (accepts g tokens = true
        <-> exists s,
              start_symbol g = Some s
              /\ In s (grid_get []
                         (table (snd (parse (new_parser g) tokens)))
                         0 (length tokens - 1))).
Proof.
  intros g tokens Hd Hc Hcl Hiso Hne. split.
  - intros i j a Hij Hj.
    rewrite (@parse_table_cnf_derives g tokens i j a Hd Hne Hij Hj).
    split.
    + now apply cnf_derives_derives.
    + intros [Ha H].
      apply (@derives_cnf_derives g Hd Hc Hcl Hiso a _ H Ha).
      intros E. apply (f_equal (@length symbol)) in E.
      rewrite span_length in E by assumption. simpl in E. lia.
  - destruct tokens as [|t tokens]; [congruence|]. apply parse_accepts.
Qed.

Lemma cyk_table_complete_witness :
  accepts small_cnf ["a"; "b"] = true
  <-> exists s,
        start_symbol small_cnf = Some s
        /\ In s (grid_get []
                   (table (snd (parse (new_parser small_cnf) ["a"; "b"])))
                   0 1).
Proof.
  apply (@cyk_table_complete small_cnf ["a"; "b"]).
  - repeat constructor; simpl; intuition discriminate.
  - reflexivity.
  - split.
    + simpl. intros x [<- | [<- | []]]; intuition discriminate.
    + simpl. tauto.
  - intros s Hs H. simpl in Hs. inversion Hs; subst s.
    simpl in H. destruct H as [H | []]. discriminate.
  - discriminate.
Defined.

(** C2, the claim as stated fails. [S -> ε | X S], [X -> a] with start
    symbol [S] is in CNF for [is_in_cnf]; the non-terminal [S] derives the
    one-token sequence [a] (by [S -> X S] and [S -> ε]), but [table[0][0]]
    is [{X}] after [parse], and the sequence is rejected. Likewise for
    [X -> a], [a -> b], where [a] is in both symbol sets: [X] derives [b],
    but [table[0][0]] is [{a}] on the sequence [b]. *)
Lemma cyk_misses_derivation_through_empty_start :
  (is_in_cnf start_on_the_right = true
   /\ In "S" (non_terminals start_on_the_right)
   /\ derives start_on_the_right "S" (span_of ["a"] 0 0)
   /\ grid_get [] (table (snd (parse (new_parser start_on_the_right) ["a"])))
               0 0 = ["X"]
   /\ accepts start_on_the_right ["a"] = false)
  /\ (is_in_cnf terminal_with_production = true
      /\ In "X" (non_terminals terminal_with_production)
      /\ derives terminal_with_production "X" (span_of ["b"] 0 0)
      /\ grid_get []
           (table (snd (parse (new_parser terminal_with_production) ["b"])))
           0 0 = ["a"]
      /\ accepts terminal_with_production ["b"] = false).
Proof.
  split.
  - split; [reflexivity|]. split; [simpl; auto|].
    split; [|split; reflexivity].
    apply derives_production with (p := ["X"; "S"]); [simpl; auto|].
    change (span_of ["a"] 0 0) with (["a"] ++ [] ++ []).
    apply derives_cons.
    + apply derives_production with (p := ["a"]); [simpl; auto|].
      change ["a"] with (["a"] ++ []) at 2.
      apply derives_cons; [|apply derives_nil].
      apply derives_terminal. simpl. auto.
    + apply derives_cons; [|apply derives_nil].
      apply derives_production with (p := []); [simpl; auto|].
      apply derives_nil.
  - split; [reflexivity|]. split; [simpl; auto|].
    split; [|split; reflexivity].
    apply derives_production with (p := ["a"]); [simpl; auto|].
    change (span_of ["b"] 0 0) with (["b"] ++ []).
    apply derives_cons; [|apply derives_nil].
    apply derives_production with (p := ["b"]); [simpl; auto|].
    change ["b"] with (["b"] ++ []) at 2.
    apply derives_cons; [|apply derives_nil].
    apply derives_terminal. simpl. auto.
Qed.

(** ** The reachability loop reaches its exit *)

Lemma new_reachable_In : forall d (r : set symbol) x,
  In x (new_reachable d r) -> ~ In x r /\ In x (rhs_symbols d).
Proof.
  intros d r x. unfold new_reachable.
  apply (fold_left_ind
           (fun nr : set symbol =>
              In x nr -> ~ In x r /\ In x (rhs_symbols d))); [contradiction|].
  intros nr var _ IH.
  destruct (dict_get d var) as [l|] eqn:E; [|assumption].
  apply dict_get_In in E.
  apply (fold_left_ind
           (fun nr' : set symbol =>
              In x nr' -> ~ In x r /\ In x (rhs_symbols d))); [assumption|].
  intros nr1 prod Hprod IH1.
  assert (G : forall l' nr2,
    incl l' prod ->
    (In x nr2 -> ~ In x r /\ In x (rhs_symbols d)) ->
    In x (fold_left (fun nr'' s => if mem s r then nr'' else add s nr'')
                    l' nr2) ->
    ~ In x r /\ In x (rhs_symbols d)).
  { induction l' as [|s l' IHl]; simpl; intros nr2 Hi H2; [assumption|].
    apply IHl; [intros y Hy; apply Hi; now right|].
    destruct (mem s r) eqn:Es; [assumption|].
    rewrite add_In. intros [-> | H]; [|auto].
    split; [now apply mem_not_In|].
    unfold rhs_symbols. apply in_concat. exists prod. split; [|apply Hi; now left].
    apply in_concat. exists l. split; [|assumption].
    apply in_map_iff. exists (var, l). auto. }
  apply G; [apply incl_refl | assumption].
Qed.

Lemma update_In : forall nw s x, In x (update s nw) <-> In x s \/ In x nw.
Proof.
  unfold update. induction nw as [|y nw IH]; simpl; intros s x; [tauto|].
  rewrite IH, add_In. intuition congruence.
Qed.

Lemma update_NoDup : forall nw s, NoDup s -> NoDup (update s nw).
Proof.
  unfold update. induction nw as [|y nw IH]; simpl; intros s H; [assumption|].
  apply IH. now apply add_NoDup.
Qed.

Lemma reach_closed : forall d (universe : list symbol) fuel r,
  NoDup r -> incl r universe -> incl (rhs_symbols d) universe ->
  length universe < fuel + length r ->
  new_reachable d (reach fuel d r) = [].
Proof.
  intros d universe. induction fuel as [|fuel IH]; cbn [reach];
    intros r Hn Hi Hu Hl.
  - exfalso. pose proof (NoDup_incl_length Hn Hi). lia.
  - destruct (new_reachable d r) as [|y nr] eqn:E; [assumption|].
    assert (Hy : In y (new_reachable d r)) by (rewrite E; now left).
    apply new_reachable_In in Hy. destruct Hy as [Hy1 Hy2].
    apply IH.
    + now apply update_NoDup.
    + intros x Hx. apply update_In in Hx. destruct Hx as [Hx | Hx]; [auto|].
      rewrite <- E in Hx. apply new_reachable_In in Hx. apply Hu. tauto.
    + assumption.
    + assert (L : length (y :: r) <= length (update r (y :: nr))).
      { apply NoDup_incl_length; [now constructor|].
        intros x [<- | Hx]; apply update_In; [right; now left | now left]. }
      cbn [length] in L. lia.
Qed.

(** The loop of [find_reachable_symbols] ends because a run finds no new
    symbol. *)
Lemma find_reachable_symbols_stable : forall g,
  new_reachable (productions g) (find_reachable_symbols g) = [].
Proof.
  intros g. unfold find_reachable_symbols.
  set (r0 := match start_symbol g with Some s => [s] | None => [] end).
  apply reach_closed with (universe := r0 ++ rhs_symbols (productions g)).
  - unfold r0. destruct (start_symbol g); repeat constructor. simpl. tauto.
  - apply incl_appl, incl_refl.
  - apply incl_appr, incl_refl.
  - rewrite length_app. unfold r0.
    destruct (start_symbol g); simpl; lia.
Qed.

(** ** The recursion of the tree construction ends *)

Lemma list_update_out : forall (A : Type) (l : list A) i f,
  length l <= i -> list_update l i f = l.
Proof.
  induction l as [|a l IH]; intros [|i] f H; simpl in *; auto; try lia.
  rewrite IH by lia. reflexivity.
Qed.

Lemma grid_get_update_cases : forall (A : Type) (d : A) (t : grid A)
  i j i' j' f,
  grid_get d (grid_update t i j f) i' j' = grid_get d t i' j'
  \/ ((i', j') = (i, j)
      /\ grid_get d (grid_update t i j f) i' j' = f (grid_get d t i j)).
Proof.
  intros A d t i j i' j' f.
  destruct (Nat.eq_dec i' i) as [-> | Ni];
    [destruct (Nat.eq_dec j' j) as [-> | Nj]|].
  - destruct (Nat.lt_ge_cases i (length t)) as [Li | Li].
    + destruct (Nat.lt_ge_cases j (length (nth i t []))) as [Lj | Lj].
      * right. split; [reflexivity|]. now apply grid_get_update_same.
      * left. unfold grid_get, grid_update.
        rewrite nth_list_update_same by assumption.
        now rewrite list_update_out.
    + left. unfold grid_update. now rewrite list_update_out.
  - left. apply grid_get_update_other. congruence.
  - left. apply grid_get_update_other. congruence.
Qed.

Lemma dict_get_set_cases : forall V (d : dict V) k v k' x,
  dict_get (dict_set d k v) k' = Some x -> x = v \/ dict_get d k' = Some x.
Proof.
  intros V d k v k' x H. destruct (string_dec k k') as [-> | N].
  - rewrite dict_get_set_same in H. left. congruence.
  - rewrite dict_get_set_other in H by assumption. now right.
Qed.

Lemma splits_inside_record : forall p t i j var e,
  splits_inside p ->
  (forall l r k, e = ProductionEntry l r k -> i <= k /\ k < j) ->
  splits_inside
    (with_tables p t
       (grid_update (parse_table p) i j (fun d => dict_set d var e))).
Proof.
  intros p t i j var e H He i' j' v l r k. simpl.
  intros Hg.
  destruct (grid_get_update_cases [] (parse_table p) i j i' j'
              (fun d => dict_set d var e)) as [E | [Eq E]].
  - apply (H i' j' v l r k). rewrite <- E. exact Hg.
  - inversion Eq; subst i' j'.
    assert (Hg' : dict_get (dict_set (grid_get [] (parse_table p) i j) var e) v
                  = Some (ProductionEntry l r k))
      by (rewrite <- E; exact Hg).
    apply dict_get_set_cases in Hg'. destruct Hg' as [Hg' | Hg'].
    + apply (He l r k). congruence.
    + apply (H i j v l r k). exact Hg'.
Qed.

Lemma fill_diagonal_splits : forall p,
  splits_inside p -> splits_inside (fill_diagonal p).
Proof.
  intros p H. unfold fill_diagonal.
  apply (fold_left_ind splits_inside); [assumption|].
  intros p1 i _ H1.
  destruct (dict_get (terminal_producers p1) (nth i (sentence p1) ""));
    [|assumption].
  apply (fold_left_ind splits_inside); [assumption|].
  intros p2 v _ H2. unfold record_terminal.
  apply splits_inside_record; [assumption|]. discriminate.
Qed.

Lemma fill_table_splits : forall p,
  splits_inside p -> splits_inside (fill_table p).
Proof.
  intros p H. unfold fill_table.
  apply (fold_left_ind splits_inside); [assumption|].
  intros p1 len _ H1.
  apply (fold_left_ind splits_inside); [assumption|].
  intros p2 i _ H2. unfold fill_cell.
  apply (fold_left_ind splits_inside); [assumption|].
  intros p3 k Hk H3. apply in_seq in Hk. unfold fill_split.
  apply (fold_left_ind splits_inside); [assumption|].
  intros p4 b _ H4.
  apply (fold_left_ind splits_inside); [assumption|].
  intros p5 c _ H5.
  destruct (pdict_get (binary_producers p5) (b, c)); [|assumption].
  apply (fold_left_ind splits_inside); [assumption|].
  intros p6 v _ H6. unfold record_production.
  destruct (mem v (grid_get [] (table p6) i (i + len - 1))); [assumption|].
  apply splits_inside_record; [assumption|].
  intros l r k' E. inversion E; subst. lia.
Qed.

(** With fuel for the length of the span, the tree construction never runs
    out of fuel: more fuel gives the same tree. *)
Lemma construct_parse_tree_fuel : forall p,
  splits_inside p ->
  forall fuel fuel' i j var,
    j + 1 - i <= fuel -> fuel <= fuel' ->
    construct_parse_tree fuel' p i j var = construct_parse_tree fuel p i j var.
Proof.
  intros p H. induction fuel as [|fuel IH]; intros fuel' i j var Hs Hf.
  - destruct fuel' as [|fuel']; [reflexivity|]. simpl.
    assert (E : (j <? i) = true) by (apply Nat.ltb_lt; lia).
    now rewrite E.
  - destruct fuel' as [|fuel']; [lia|]. simpl.
    destruct (j <? i) eqn:E; [reflexivity|]. apply Nat.ltb_ge in E.
    destruct (dict_get (grid_get [] (parse_table p) i j) var)
      as [[token | l r k]|] eqn:Eg; try reflexivity.
    destruct (H i j var l r k Eg) as [Hk1 Hk2].
    rewrite (IH fuel' i k l) by lia.
    rewrite (IH fuel' (S k) j r) by lia.
    reflexivity.
Qed.

Lemma grid_make_get_any : forall (A : Type) (x : A) n i j,
  grid_get x (grid_make n x) i j = x.
Proof.
  intros A x n i j. unfold grid_get, grid_make.
  destruct (Nat.lt_ge_cases i n) as [L | L].
  - rewrite nth_repeat_lt by assumption. apply nth_repeat.
  - rewrite (nth_overflow (repeat (repeat x n) n))
      by (now rewrite repeat_length).
    destruct j; reflexivity.
Qed.

(** [parse] hands the tree construction enough fuel. *)
Lemma parse_tree_fuel : forall g t tokens extra s,
  let p := snd (parse (new_parser g) (t :: tokens)) in
  construct_parse_tree (length (t :: tokens) + extra) p
                       0 (length (t :: tokens) - 1) s
  = construct_parse_tree (length (t :: tokens)) p
                         0 (length (t :: tokens) - 1) s.
Proof.
  intros g t tokens extra s p.
  apply construct_parse_tree_fuel; [|simpl; lia | lia].
  unfold p. cbn [parse snd].
  apply fill_table_splits, fill_diagonal_splits.
  intros i j v l r k. simpl. rewrite grid_make_get_any. discriminate.
Qed.

(* ================================================================= *)
(** * Further properties of the recognizer *)

(** ** Acceptance by a grammar that need not be in CNF *)

Lemma span_whole : forall (tokens : list symbol),
  span_of tokens 0 (length tokens - 1) = tokens.
Proof.
  intros tokens. unfold span_of. simpl.
  destruct tokens as [|t tokens]; [reflexivity|].
  replace (length (t :: tokens) - 1 + 1 - 0) with (length (t :: tokens))
    by (simpl; lia).
  apply firstn_all.
Qed.

Lemma cnf_derives_sound : forall g a w, cnf_derives g a w -> derives g a w.
Proof.
  intros g a w H. induction H as [a t Hp Ht | a b c w1 w2 Hp _ IH1 _ IH2].
  - apply derives_production with (p := [t]); [assumption|].
    change [t] with ([t] ++ []) at 2. apply derives_cons.
    + now apply derives_terminal.
    + apply derives_nil.
  - apply derives_production with (p := [b; c]); [assumption|].
    apply derives_cons; [assumption|].
    rewrite <- (app_nil_r w2). apply derives_cons; [assumption|].
    apply derives_nil.
Qed.

Lemma cnf_derives_terminals : forall g a w,
  cnf_derives g a w -> forall t, In t w -> In t (terminals g).
Proof.
  intros g a w H. induction H as [a t Hp Ht | a b c w1 w2 Hp _ IH1 _ IH2];
    intros x Hx.
  - destruct Hx as [<- | []]. assumption.
  - apply in_app_or in Hx. destruct Hx; auto.
Qed.

Lemma accepts_cnf_derives : forall g tokens,
  is_dict (productions g) ->
  accepts g tokens = true ->
  exists s, start_symbol g = Some s /\ cnf_derives g s tokens.
Proof.
  intros g tokens Hd H.
  destruct tokens as [|t tokens]; [discriminate|].
  apply parse_accepts in H. destruct H as (s & Hs & H).
  exists s. split; [assumption|].
  apply (@parse_table_cnf_derives g (t :: tokens) 0
           (length (t :: tokens) - 1) s Hd) in H;
    [|discriminate | lia | simpl; lia].
  now rewrite span_whole in H.
Qed.

(** X1. [parse] is sound for every grammar, in CNF or not (the constructor
    of the parser only prints a warning for a grammar that is not): a
    sentence that is accepted is derived from the start symbol by the
    productions of the grammar. *)
Theorem parse_sound_for_any_grammar :
  forall g tokens,
    is_dict (productions g) ->
    accepts g tokens = true ->
    exists s, start_symbol g = Some s /\ derives g s tokens.
Proof.
  intros g tokens Hd H.
  destruct (@accepts_cnf_derives g tokens Hd H) as (s & Hs & Hc).
  exists s. split; [assumption | now apply cnf_derives_sound].
Qed.

Lemma parse_sound_for_any_grammar_witness :
  let g := grammar_of "S" [("S", ["A"; "B"]); ("S", ["a"; "b"; "c"]);
                           ("A", ["a"]); ("B", ["b"])] in
  is_in_cnf g = false
  /\ exists s, start_symbol g = Some s /\ derives g s ["a"; "b"].
Proof.
  split; [reflexivity|].
  apply (@parse_sound_for_any_grammar
           (grammar_of "S" [("S", ["A"; "B"]); ("S", ["a"; "b"; "c"]);
                            ("A", ["a"]); ("B", ["b"])]) ["a"; "b"]).
  - repeat constructor; simpl; intuition discriminate.
  - vm_compute. reflexivity.
Defined.

(** X2. A token that is not a terminal of the grammar makes [parse] reject
    the sentence, whatever the grammar: the parser warns about the token
    ([Tokens no reconocidos]) and goes on, and the table never holds the
    start symbol for the whole sentence. *)
Theorem parse_rejects_unknown_token :
  forall g tokens t,
    is_dict (productions g) ->
    In t tokens -> ~ In t (terminals g) ->
    accepts g tokens = false.
Proof.
  intros g tokens t Hd Ht Hn.
  destruct (accepts g tokens) eqn:E; [|reflexivity].
  destruct (@accepts_cnf_derives g tokens Hd E) as (s & _ & Hc).
  exfalso. apply Hn. eapply cnf_derives_terminals; eassumption.
Qed.

Lemma parse_rejects_unknown_token_witness :
  accepts small_cnf ["a"; "c"] = false.
Proof.
  apply (@parse_rejects_unknown_token small_cnf ["a"; "c"] "c").
  - repeat constructor; simpl; intuition discriminate.
  - simpl. auto.
  - simpl. intuition discriminate.
Defined.

(** ** The parse tree *)

Lemma grid_update_row_length : forall (A : Type) (t : grid A) i j f i',
  length (nth i' (grid_update t i j f) []) = length (nth i' t []).
Proof.
  intros A t i j f i'. unfold grid_update.
  destruct (Nat.eq_dec i i') as [<- | N].
  - destruct (Nat.lt_ge_cases i (length t)) as [L | L].
    + rewrite nth_list_update_same by assumption. apply length_list_update.
    + now rewrite list_update_out.
  - now rewrite nth_list_update_other.
Qed.

Lemma same_shape_update : forall (A B : Type) (t1 : grid A) (t2 : grid B)
  i j f1 f2,
  same_shape t1 t2 ->
  same_shape (grid_update t1 i j f1) (grid_update t2 i j f2).
Proof.
  intros A B t1 t2 i j f1 f2 [H1 H2]. split.
  - now rewrite !grid_update_length.
  - intros i'. now rewrite !grid_update_row_length.
Qed.

(** Two grids of the same shape, updated in the same cell: both cells are
    as before, or both have changed. *)
Lemma grid_update_both : forall (A B : Type) (d1 : A) (d2 : B)
  (t1 : grid A) (t2 : grid B) i j f1 f2 i' j',
  same_shape t1 t2 ->
  (grid_get d1 (grid_update t1 i j f1) i' j' = grid_get d1 t1 i' j'
   /\ grid_get d2 (grid_update t2 i j f2) i' j' = grid_get d2 t2 i' j')
  \/ ((i', j') = (i, j)
      /\ grid_get d1 (grid_update t1 i j f1) i' j' = f1 (grid_get d1 t1 i j)
      /\ grid_get d2 (grid_update t2 i j f2) i' j' = f2 (grid_get d2 t2 i j)).
Proof.
  intros A B d1 d2 t1 t2 i j f1 f2 i' j' [H1 H2].
  pose proof (H2 i) as H2i.
  destruct (Nat.eq_dec i' i) as [-> | Ni];
    [destruct (Nat.eq_dec j' j) as [-> | Nj]|].
  - destruct (Nat.lt_ge_cases i (length t1)) as [Li | Li].
    + destruct (Nat.lt_ge_cases j (length (nth i t1 []))) as [Lj | Lj].
      * right. split; [reflexivity|]. split.
        -- now apply grid_get_update_same.
        -- apply grid_get_update_same; lia.
      * left. unfold grid_get, grid_update.
        rewrite (@nth_list_update_same (list A) [] t1) by lia.
        rewrite (@nth_list_update_same (list B) [] t2) by lia.
        rewrite (list_update_out (nth i t1 [])) by lia.
        rewrite (list_update_out (nth i t2 [])) by lia. auto.
    + left. unfold grid_update. rewrite !list_update_out by lia. auto.
  - left. split; apply grid_get_update_other; congruence.
  - left. split; apply grid_get_update_other; congruence.
Qed.

Lemma recorded_set : forall p t i j v e i' j' x,
  recorded p i' j' x ->
  recorded (with_tables p t
              (grid_update (parse_table p) i j (fun d => dict_set d v e)))
           i' j' x.
Proof.
  intros p t i j v e i' j' x [e' H]. unfold recorded.
  cbn [with_tables parse_table].
  destruct (@grid_get_update_cases (dict entry) [] (parse_table p) i j i' j'
              (fun d => dict_set d v e)) as [E | [Eq E]].
  - exists e'.
    transitivity (dict_get (grid_get [] (parse_table p) i' j') x);
      [f_equal; exact E | exact H].
  - inversion Eq; subst i' j'.
    destruct (string_dec v x) as [-> | N].
    + exists e.
      transitivity (dict_get (dict_set (grid_get [] (parse_table p) i j) x e) x);
        [f_equal; exact E | apply dict_get_set_same].
    + exists e'.
      transitivity (dict_get (dict_set (grid_get [] (parse_table p) i j) v e) x);
        [f_equal; exact E|].
      rewrite dict_get_set_other by assumption. exact H.
Qed.

Lemma entry_ok_mono : forall g tokens p p' i j v e,
  (forall a b x, recorded p a b x -> recorded p' a b x) ->
  entry_ok g tokens p i j v e -> entry_ok g tokens p' i j v e.
Proof.
  intros g tokens p p' i j v [t | l r k] M H; simpl in *; [assumption|].
  destruct H as (H1 & H2 & H3 & H4 & H5). auto 6.
Qed.

(** Recording a variable in a cell of both tables. *)
Lemma licensed_record : forall g tokens p i j v e,
  licensed g tokens p ->
  entry_ok g tokens p i j v e ->
  licensed g tokens
    (with_tables p
       (grid_update (table p) i j (add v))
       (grid_update (parse_table p) i j (fun d => dict_set d v e))).
Proof.
  intros g tokens p i j v e (Hg & Ht & Hb & Hs & Hlen & Hshape & Hrec & Hok) He.
  set (p' := with_tables p
               (grid_update (table p) i j (add v))
               (grid_update (parse_table p) i j (fun d => dict_set d v e))).
  assert (M : forall a b x, recorded p a b x -> recorded p' a b x)
    by (intros a b x; apply recorded_set).
  split; [assumption|].
  split; [assumption|]. split; [assumption|]. split; [assumption|].
  split; [cbn [p' with_tables table]; now rewrite grid_update_length|].
  split; [now apply same_shape_update|]. split.
  - intros i' j' x Hx. cbn [p' with_tables table] in Hx.
    destruct (@grid_update_both (set symbol) (dict entry) [] []
                (table p) (parse_table p) i j (add v)
                (fun d => dict_set d v e) i' j' Hshape)
      as [[E1 E2] | (Eq & E1 & E2)].
    + apply M. apply Hrec. exact (eq_ind _ (fun c => In x c) Hx _ E1).
    + inversion Eq; subst i' j'.
      pose proof (eq_ind _ (fun c => In x c) Hx _ E1) as Hx'.
      apply add_In in Hx'. destruct Hx' as [-> | Hx'].
      * exists e. cbn [p' with_tables parse_table].
        transitivity
          (dict_get (dict_set (grid_get [] (parse_table p) i j) v e) v);
          [f_equal; exact E2 | apply dict_get_set_same].
      * apply M. now apply Hrec.
  - intros i' j' x e' Hx. apply entry_ok_mono with (p := p); [exact M|].
    cbn [p' with_tables parse_table] in Hx.
    destruct (@grid_get_update_cases (dict entry) [] (parse_table p) i j i' j'
                (fun d => dict_set d v e)) as [E | [Eq E]].
    + apply Hok.
      exact (eq_ind _ (fun c => dict_get c x = Some e') Hx _ E).
    + inversion Eq; subst i' j'.
      pose proof (eq_ind _ (fun c => dict_get c x = Some e') Hx _ E) as Hx'.
      cbv beta in Hx'.
      destruct (string_dec v x) as [-> | N].
      * rewrite dict_get_set_same in Hx'. injection Hx' as <-. exact He.
      * rewrite dict_get_set_other in Hx' by assumption. now apply Hok.
Qed.

Lemma nth_error_nth_default : forall (l : list symbol) i,
  i < length l -> nth_error l i = Some (nth i l "").
Proof.
  intros l i H. now apply nth_error_nth'.
Qed.

Lemma licensed_fill_diagonal : forall g tokens p,
  is_dict (productions g) ->
  licensed g tokens p -> licensed g tokens (fill_diagonal p).
Proof.
  intros g tokens p Hd H. unfold fill_diagonal.
  assert (Es : sentence p = tokens) by apply H. rewrite Es.
  apply (fold_left_ind (licensed g tokens)); [assumption|].
  intros p1 i Hi H1. apply in_seq in Hi.
  assert (Es1 : sentence p1 = tokens) by apply H1.
  assert (Et1 : terminal_producers p1 = fst (precompute_production_maps g))
    by apply H1.
  rewrite Es1, Et1.
  destruct (dict_get (fst (precompute_production_maps g)) (nth i tokens ""))
    as [vars|] eqn:Ev; [|assumption].
  apply (fold_left_ind (licensed g tokens)); [assumption|].
  intros p2 v Hv H2. unfold record_terminal.
  apply licensed_record; [assumption|]. simpl.
  split; [reflexivity|]. split; [apply nth_error_nth_default; lia|].
  assert (Hp : In v (token_producers g (nth i tokens "")))
    by (unfold token_producers; now rewrite Ev).
  apply token_producers_spec in Hp. destruct Hp as (l & Hl & Hp & Ht).
  split; [|assumption].
  apply (@In_prods_of g v [nth i tokens ""] Hd). eauto.
Qed.

Lemma licensed_fill_table : forall g tokens p,
  is_dict (productions g) ->
  licensed g tokens p -> licensed g tokens (fill_table p).
Proof.
  intros g tokens p Hd H. unfold fill_table.
  apply (fold_left_ind (licensed g tokens)); [assumption|].
  intros p1 len _ H1.
  apply (fold_left_ind (licensed g tokens)); [assumption|].
  intros p2 i _ H2. unfold fill_cell.
  apply (fold_left_ind (licensed g tokens)); [assumption|].
  intros p3 k Hk H3. apply in_seq in Hk. unfold fill_split.
  set (j := i + len - 1) in *.
  apply proj1 with (B := forall a b x,
                           recorded p3 a b x ->
                           recorded
                             (fold_left
                                (fun p left_var =>
                                   fold_left
                                     (fun p right_var =>
                                        match pdict_get (binary_producers p)
                                                (left_var, right_var) with
                                        | Some producers =>
                                            fold_left
                                              (record_production i j k left_var
                                                 right_var) producers p
                                        | None => p
                                        end)
                                     (grid_get [] (table p3) (S k) j) p)
                                (grid_get [] (table p3) i k) p3) a b x).
  apply (fold_left_ind
           (fun p' => licensed g tokens p'
                      /\ forall a b x, recorded p3 a b x -> recorded p' a b x));
    [split; auto|].
  intros p4 b Hb [H4 M4].
  apply (fold_left_ind
           (fun p' => licensed g tokens p'
                      /\ forall a b x, recorded p3 a b x -> recorded p' a b x));
    [split; auto|].
  intros p5 c Hc [H5 M5].
  assert (Eb5 : binary_producers p5 = snd (precompute_production_maps g))
    by apply H5.
  rewrite Eb5.
  destruct (pdict_get (snd (precompute_production_maps g)) (b, c))
    as [producers|] eqn:Ep; [|split; auto].
  apply (fold_left_ind
           (fun p' => licensed g tokens p'
                      /\ forall a b x, recorded p3 a b x -> recorded p' a b x));
    [split; auto|].
  intros p6 v Hv [H6 M6]. unfold record_production.
  destruct (mem v (grid_get [] (table p6) i j)); [split; auto|].
  split.
  - apply licensed_record; [assumption|]. simpl.
    split; [lia|]. split; [lia|].
    assert (Hp : In v (pair_producers g b c))
      by (unfold pair_producers; now rewrite Ep).
    apply pair_producers_spec in Hp. destruct Hp as (l & Hl & Hp).
    split; [apply (@In_prods_of g v [b; c] Hd); eauto|].
    destruct H3 as (_ & _ & _ & _ & _ & _ & Hrec3 & _).
    split; apply M6; apply Hrec3; assumption.
  - intros a0 b0 x Hx. apply recorded_set. now apply M6.
Qed.

Lemma licensed_new_parse : forall g (tokens : list symbol),
  licensed g tokens
    (mkParser g (fst (precompute_production_maps g))
              (snd (precompute_production_maps g))
              (grid_make (length tokens) [])
              (grid_make (length tokens) []) tokens).
Proof.
  intros g tokens. unfold licensed. simpl.
  split; [reflexivity|].
  split; [reflexivity|]. split; [reflexivity|]. split; [reflexivity|].
  split; [unfold grid_make; now rewrite repeat_length|].
  split; [|split].
  - split.
    + unfold grid_make. now rewrite !repeat_length.
    + intros i. unfold grid_make.
      destruct (Nat.lt_ge_cases i (length tokens)) as [L | L].
      * rewrite !nth_repeat_lt by assumption. now rewrite !repeat_length.
      * rewrite !nth_overflow by (rewrite repeat_length; assumption).
        reflexivity.
  - intros i j v. rewrite grid_make_get_any. contradiction.
  - intros i j v e. rewrite grid_make_get_any. discriminate.
Qed.

(** On tables that stand for rules of the grammar, the tree of a recorded
    variable is a derivation tree. *)
Lemma construct_parse_tree_derivation : forall g tokens p,
  licensed g tokens p ->
  forall fuel i j v,
    i <= j -> j + 1 - i <= fuel -> recorded p i j v ->
    exists t, construct_parse_tree fuel p i j v = Some t
              /\ derivation_tree g tokens v i j t.
Proof.
  intros g tokens p (_ & _ & _ & _ & _ & _ & _ & Hok).
  induction fuel as [|fuel IH]; intros i j v Hij Hf [e He]; [lia|].
  simpl. assert (E : (j <? i) = false) by (apply Nat.ltb_ge; lia).
  rewrite E, He. pose proof (Hok i j v e He) as Oe.
  destruct e as [t | l r k]; simpl in Oe.
  - destruct Oe as (<- & Hn & Hp & Ht).
    eexists. split; [reflexivity|]. now apply tree_terminal.
  - destruct Oe as (Hk1 & Hk2 & Hp & Hl & Hr).
    destruct (IH i k l Hk1 ltac:(lia) Hl) as (tl & El & Dl).
    destruct (IH (S k) j r ltac:(lia) ltac:(lia) Hr) as (tr & Er & Dr).
    rewrite El, Er. eexists. split; [reflexivity|].
    eapply tree_production; eassumption.
Qed.

Lemma derivation_tree_leaves : forall g tokens v i j t,
  derivation_tree g tokens v i j t ->
  j < length tokens /\ leaves t = span_of tokens i j.
Proof.
  intros g tokens v i j t H.
  induction H as [v i t Hp Ht Hn
                 | v l r i k j tl tr Hp Hk1 Hk2 _ [L1 IH1] _ [L2 IH2]].
  - assert (Hi : i < length tokens) by (apply nth_error_Some; congruence).
    split; [assumption|]. simpl. rewrite span_one by assumption.
    rewrite (nth_error_nth_default tokens Hi) in Hn. congruence.
  - split; [assumption|]. simpl. rewrite app_nil_r, IH1, IH2.
    symmetry. now apply span_split.
Qed.

Lemma derivation_tree_inner_nodes : forall g tokens v i j t,
  derivation_tree g tokens v i j t ->
  i <= j /\ inner_nodes t = 2 * (j + 1 - i) - 1.
Proof.
  intros g tokens v i j t H.
  induction H as [v i t Hp Ht Hn
                 | v l r i k j tl tr Hp Hk1 Hk2 _ [L1 IH1] _ [L2 IH2]].
  - split; [lia|]. simpl. lia.
  - split; [lia|]. simpl. rewrite IH1, IH2. lia.
Qed.

(** The parser after [parse] on a sentence that is not empty. *)
Lemma parse_licensed : forall g t tokens,
  is_dict (productions g) ->
  licensed g (t :: tokens) (snd (parse (new_parser g) (t :: tokens))).
Proof.
  intros g t tokens Hd. cbn [parse snd new_parser cyk_grammar
                              terminal_producers binary_producers].
  apply licensed_fill_table, licensed_fill_diagonal; try assumption.
  apply licensed_new_parse.
Qed.

(** X3. When [parse] accepts a sentence it returns a parse tree, and when
    it rejects it returns none. The tree is a derivation tree of the whole
    sentence from the start symbol: every node with a terminal child
    stands for a rule [v -> t] of the grammar on the token at its position,
    every other node for a rule [v -> l r] whose two subtrees cover the two
    parts of its span; the terminal nodes, read from left to right, are
    the sentence, and there are [2n - 1] other nodes for [n] tokens. This
    holds for any grammar, in CNF or not. *)
Theorem parse_tree_is_derivation :
  forall g tokens,
    is_dict (productions g) ->
    (accepts g tokens = false /\ snd (fst (parse (new_parser g) tokens)) = None)
    \/ (accepts g tokens = true
        /\ exists s t,
             start_symbol g = Some s
             /\ snd (fst (parse (new_parser g) tokens)) = Some t
             /\ derivation_tree g tokens s 0 (length tokens - 1) t
             /\ leaves t = tokens
             /\ inner_nodes t = 2 * length tokens - 1).
Proof.
  intros g tokens Hd.
  destruct tokens as [|t0 tokens]; [left; split; reflexivity|].
  destruct (accepts g (t0 :: tokens)) eqn:Ea.
  - right. split; [reflexivity|].
    pose proof Ea as Ha. apply parse_accepts in Ha.
    destruct Ha as (s & Hs & Hin).
    pose proof (@parse_licensed g t0 tokens Hd) as L.
    assert (R : recorded (snd (parse (new_parser g) (t0 :: tokens)))
                         0 (length (t0 :: tokens) - 1) s)
      by (apply L; exact Hin).
    destruct (@construct_parse_tree_derivation g (t0 :: tokens) _ L
                (length (t0 :: tokens)) 0 (length (t0 :: tokens) - 1) s
                ltac:(lia) ltac:(simpl; lia) R) as (t & Et & Dt).
    exists s, t. split; [assumption|]. split.
    + assert (Eg : cyk_grammar (snd (parse (new_parser g) (t0 :: tokens))) = g)
        by apply L.
      unfold accepts in Ea. revert Ea Et Eg.
      cbn [parse fst snd new_parser cyk_grammar terminal_producers
           binary_producers].
      intros Ea Et Eg. rewrite Ea, Eg, Hs. exact Et.
    + split; [assumption|].
      destruct (derivation_tree_leaves Dt) as [_ El].
      destruct (derivation_tree_inner_nodes Dt) as [_ En].
      rewrite span_whole in El. split; [assumption|].
      rewrite En. simpl. lia.
  - left. split; [reflexivity|].
    unfold accepts in Ea. revert Ea.
    cbn [parse fst snd]. intros Ea. now rewrite Ea.
Qed.

Lemma parse_tree_is_derivation_witness :
  (accepts small_cnf ["a"; "b"] = false
   /\ snd (fst (parse (new_parser small_cnf) ["a"; "b"])) = None)
  \/ (accepts small_cnf ["a"; "b"] = true
      /\ exists s t,
           start_symbol small_cnf = Some s
           /\ snd (fst (parse (new_parser small_cnf) ["a"; "b"])) = Some t
           /\ derivation_tree small_cnf ["a"; "b"] s 0 1 t
           /\ leaves t = ["a"; "b"]
           /\ inner_nodes t = 3).
Proof.
  apply (@parse_tree_is_derivation small_cnf ["a"; "b"]).
  repeat constructor; simpl; intuition discriminate.
Defined.

(** ** The count of the productions used *)

Lemma total_set : forall (usage : dict nat) k v,
  total (dict_set usage k v)
  + match dict_get usage k with Some n => n | None => 0 end
  = total usage + v.
Proof.
  intros usage k v. unfold total.
  induction usage as [|[k' n] usage IH]; simpl; [lia|].
  destruct (String.eqb k k'); simpl; lia.
Qed.

Lemma total_bump : forall usage k, total (bump usage k) = total usage + 1.
Proof.
  intros usage k. unfold bump.
  pose proof (total_set usage k
                (match dict_get usage k with Some n => n | None => 0 end + 1)).
  lia.
Qed.

Lemma count_usage_total : forall g tokens p,
  licensed g tokens p ->
  forall fuel i j v usage,
    i <= j -> j + 1 - i <= fuel -> recorded p i j v ->
    total (count_usage fuel p i j v usage)
    = total usage + (2 * (j + 1 - i) - 1).
Proof.
  intros g tokens p (_ & _ & _ & _ & _ & _ & _ & Hok).
  induction fuel as [|fuel IH]; intros i j v usage Hij Hf [e He]; [lia|].
  simpl. assert (E : (j <? i) = false) by (apply Nat.ltb_ge; lia).
  rewrite E, He. pose proof (Hok i j v e He) as Oe.
  destruct e as [t | l r k]; simpl in Oe.
  - destruct Oe as (<- & _). rewrite total_bump. lia.
  - destruct Oe as (Hk1 & Hk2 & _ & Hl & Hr).
    rewrite (IH (S k) j r _ ltac:(lia) ltac:(lia) Hr).
    rewrite (IH i k l _ Hk1 ltac:(lia) Hl).
    rewrite total_bump. lia.
Qed.

(** ** What [parse] leaves of the parser *)

Lemma fill_keeps_indices : forall (X : Type) (f : CYKParser -> X) q,
  (forall p t pt, f (with_tables p t pt) = f p) ->
  f (fill_table (fill_diagonal q)) = f q.
Proof.
  intros X f q Hf. unfold fill_table.
  apply (fold_left_ind (fun q' => f q' = f q)).
  - unfold fill_diagonal.
    apply (fold_left_ind (fun q' => f q' = f q)); [reflexivity|].
    intros q1 i _ E1.
    destruct (dict_get (terminal_producers q1) (nth i (sentence q1) ""));
      [|assumption].
    apply (fold_left_ind (fun q' => f q' = f q)); [assumption|].
    intros q2 v _ E2. unfold record_terminal. now rewrite Hf.
  - intros q1 len _ E1.
    apply (fold_left_ind (fun q' => f q' = f q)); [assumption|].
    intros q2 i _ E2. unfold fill_cell.
    apply (fold_left_ind (fun q' => f q' = f q)); [assumption|].
    intros q3 k _ E3. unfold fill_split.
    apply (fold_left_ind (fun q' => f q' = f q)); [assumption|].
    intros q4 b _ E4.
    apply (fold_left_ind (fun q' => f q' = f q)); [assumption|].
    intros q5 c _ E5.
    destruct (pdict_get (binary_producers q5) (b, c)); [|assumption].
    apply (fold_left_ind (fun q' => f q' = f q)); [assumption|].
    intros q6 v _ E6. unfold record_production.
    destruct (mem v (grid_get [] (table q6) i (i + len - 1)));
      [assumption|]. now rewrite Hf.
Qed.

(** [parse] never touches the grammar and the two index dictionaries of
    the parser. *)
Lemma parse_keeps_indices : forall p tokens,
  cyk_grammar (snd (parse p tokens)) = cyk_grammar p
  /\ terminal_producers (snd (parse p tokens)) = terminal_producers p
  /\ binary_producers (snd (parse p tokens)) = binary_producers p.
Proof.
  intros p [|t tokens]; [auto|]. cbn [parse snd].
  repeat split.
  - now rewrite (fill_keeps_indices cyk_grammar).
  - now rewrite (fill_keeps_indices terminal_producers).
  - now rewrite (fill_keeps_indices binary_producers).
Qed.

(** What [parse] returns depends on the grammar and the index dictionaries
    only: the tables of an earlier [parse] are replaced. *)
Lemma parse_fresh_tables : forall p q tokens,
  cyk_grammar p = cyk_grammar q ->
  terminal_producers p = terminal_producers q ->
  binary_producers p = binary_producers q ->
  fst (parse p tokens) = fst (parse q tokens).
Proof.
  intros p q [|t tokens] E1 E2 E3; [reflexivity|].
  cbn [parse fst]. now rewrite E1, E2, E3.
Qed.

(** After a sentence that is not empty, the parser is in the state that a
    new parser would be in. *)
Lemma parse_fresh_state : forall p q t tokens,
  cyk_grammar p = cyk_grammar q ->
  terminal_producers p = terminal_producers q ->
  binary_producers p = binary_producers q ->
  snd (parse p (t :: tokens)) = snd (parse q (t :: tokens)).
Proof.
  intros p q t tokens E1 E2 E3. cbn [parse snd]. now rewrite E1, E2, E3.
Qed.

Lemma parser_after_indices : forall g history,
  cyk_grammar (parser_after g history) = cyk_grammar (new_parser g)
  /\ terminal_producers (parser_after g history)
     = terminal_producers (new_parser g)
  /\ binary_producers (parser_after g history)
     = binary_producers (new_parser g).
Proof.
  intros g history. unfold parser_after.
  apply (fold_left_ind
           (fun p => cyk_grammar p = cyk_grammar (new_parser g)
                     /\ terminal_producers p
                        = terminal_producers (new_parser g)
                     /\ binary_producers p
                        = binary_producers (new_parser g))).
  - auto.
  - intros p tokens _ (E1 & E2 & E3).
    destruct (parse_keeps_indices p tokens) as (K1 & K2 & K3).
    rewrite K1, K2, K3. auto.
Qed.

(** The counts after a parse by a new parser. *)
Lemma production_usage_new_parser : forall g tokens,
  is_dict (productions g) ->
  tokens <> [] ->
  (accepts g tokens = true ->
   total (get_production_usage (snd (parse (new_parser g) tokens)))
   = 2 * length tokens - 1)
  /\ (accepts g tokens = false ->
      get_production_usage (snd (parse (new_parser g) tokens)) = []).
Proof.
  intros g tokens Hd Hne.
  destruct tokens as [|t0 tokens]; [now destruct Hne|]. clear Hne.
  pose proof (@parse_licensed g t0 tokens Hd) as L.
  set (w := t0 :: tokens) in *.
  set (p := snd (parse (new_parser g) w)) in *.
  assert (Eg : cyk_grammar p = g) by apply L.
  assert (Es : sentence p = w) by apply L.
  assert (Hpt : parse_table p <> []).
  { destruct L as (_ & _ & _ & _ & Hlen & [Hl _] & _).
    intros E. rewrite E in Hl. rewrite Hl in Hlen. discriminate Hlen. }
  assert (Ea : accepts g w
               = start_in g (grid_get [] (table p) 0 (length w - 1))).
  { unfold accepts, p. cbn [parse fst snd w]. f_equal.
    fold w. change (cyk_grammar (fill_table (fill_diagonal
              (mkParser (cyk_grammar (new_parser g))
                 (terminal_producers (new_parser g))
                 (binary_producers (new_parser g))
                 (grid_make (length w) []) (grid_make (length w) []) w))))
      with (cyk_grammar p). exact Eg. }
  assert (Eu : get_production_usage p
               = if accepts g w
                 then match start_symbol g with
                      | Some s => count_usage (length w) p 0 (length w - 1) s []
                      | None => []
                      end
                 else []).
  { unfold get_production_usage. rewrite Es, Eg, <- Ea.
    destruct (parse_table p) as [|row rows]; [congruence|]. reflexivity. }
  split.
  - intros H. rewrite Eu, H.
    pose proof H as Ha. apply parse_accepts in Ha.
    destruct Ha as (s & Hs & Hin). rewrite Hs.
    assert (R : recorded p 0 (length w - 1) s) by (apply L; exact Hin).
    rewrite (@count_usage_total g w p L (length w) 0 (length w - 1) s []
               ltac:(lia) ltac:(simpl; lia) R).
    simpl. lia.
  - intros H. now rewrite Eu, H.
Qed.

(** X4. On a parser that has parsed nothing yet, [get_production_usage]
    returns the empty dictionary. Whatever the parser has parsed before:
    [parse] answers as a new parser does; after it has accepted a sentence
    of [n] tokens, [get_production_usage] counts [2n - 1] uses of
    productions in all, one for each node of the parse tree that is not a
    terminal node; after it has rejected a sentence that is not empty,
    [get_production_usage] returns the empty dictionary; and after the
    empty sentence, which [parse] rejects before it resets its tables,
    [get_production_usage] returns what it returned before. This holds for
    any grammar. *)
Theorem production_usage_total :
  forall g history tokens,
    is_dict (productions g) ->
    get_production_usage (new_parser g) = []
    /\ fst (fst (parse (parser_after g history) tokens)) = accepts g tokens
    /\ (accepts g tokens = true ->
        total (get_production_usage
                 (snd (parse (parser_after g history) tokens)))
        = 2 * length tokens - 1)
    /\ (tokens <> [] ->
        accepts g tokens = false ->
        get_production_usage (snd (parse (parser_after g history) tokens))
        = [])
    /\ get_production_usage (snd (parse (parser_after g history) []))
       = get_production_usage (parser_after g history).
Proof.
  intros g history tokens Hd.
  destruct (parser_after_indices g history) as (E1 & E2 & E3).
  split; [reflexivity|]. split.
  { unfold accepts. f_equal. now apply parse_fresh_tables. }
  assert (Es : tokens <> [] ->
               snd (parse (parser_after g history) tokens)
               = snd (parse (new_parser g) tokens)).
  { destruct tokens as [|t tokens]; [intros H; now destruct H|].
    intros _. now apply parse_fresh_state. }
  split; [|split; [|reflexivity]].
  - intros H.
    assert (Hne : tokens <> []) by (intros ->; discriminate H).
    rewrite (Es Hne).
    now apply (@production_usage_new_parser g tokens Hd Hne).
  - intros Hne H. rewrite (Es Hne).
    now apply (@production_usage_new_parser g tokens Hd Hne).
Qed.

Lemma production_usage_total_witness :
  total (get_production_usage
           (snd (parse (parser_after small_cnf [["a"; "b"]; ["b"]])
                       ["a"; "b"]))) = 3
  /\ get_production_usage
       (snd (parse (parser_after small_cnf [["a"; "b"]]) ["b"])) = []
  /\ total (get_production_usage
              (snd (parse (parser_after small_cnf [["a"; "b"]]) []))) = 3.
Proof.
  assert (Hd : is_dict (productions small_cnf))
    by (repeat constructor; simpl; intuition discriminate).
  split; [|split].
  - apply (@production_usage_total small_cnf [["a"; "b"]; ["b"]] ["a"; "b"] Hd).
    reflexivity.
  - apply (@production_usage_total small_cnf [["a"; "b"]] ["b"] Hd).
    + discriminate.
    + reflexivity.
  - destruct (@production_usage_total small_cnf [["a"; "b"]] [] Hd)
      as (_ & _ & _ & _ & E).
    rewrite E.
    apply (@production_usage_total small_cnf [] ["a"; "b"] Hd).
    reflexivity.
Defined.

(* ================================================================= *)
(** * The English grammar *)

Lemma cnf_derives_accepts : forall g s tokens,
  is_dict (productions g) ->
  start_symbol g = Some s ->
  cnf_derives g s tokens ->
  accepts g tokens = true.
Proof.
  intros g s tokens Hd Hs H.
  destruct tokens as [|t tokens];
    [exfalso; now apply (cnf_derives_nonempty H)|].
  apply parse_accepts. exists s. split; [assumption|].
  apply (@parse_table_cnf_derives g (t :: tokens) 0
           (length (t :: tokens) - 1) s Hd);
    [discriminate | lia | simpl; lia|].
  now rewrite span_whole.
Qed.

(** ** The grammar of [convert_to_proper_cnf] *)

Lemma english_is_dict :
  is_dict (productions (english_grammar_from english_rules))
  /\ is_dict (productions (english_grammar_from english_cnf_rules)).
Proof.
  split; vm_compute; repeat constructor; simpl; intuition discriminate.
Qed.

(** The state of the object after any number of calls of [parse]. *)
Lemma english_after_parser : forall history,
  eng_terminals (english_after history) = eng_terminals setup_grammar
  /\ (eng_parser (english_after history) = None
      \/ exists p,
           eng_parser (english_after history) = Some p
           /\ cyk_grammar p = english_grammar_from english_cnf_rules
           /\ terminal_producers p
              = terminal_producers
                  (new_parser (english_grammar_from english_cnf_rules))
           /\ binary_producers p
              = binary_producers
                  (new_parser (english_grammar_from english_cnf_rules))).
Proof.
  intros history. unfold english_after.
  apply (fold_left_ind
           (fun e =>
              eng_terminals e = eng_terminals setup_grammar
              /\ (eng_parser e = None
                  \/ exists p,
                       eng_parser e = Some p
                       /\ cyk_grammar p
                          = english_grammar_from english_cnf_rules
                       /\ terminal_producers p
                          = terminal_producers
                              (new_parser
                                 (english_grammar_from english_cnf_rules))
                       /\ binary_producers p
                          = binary_producers
                              (new_parser
                                 (english_grammar_from english_cnf_rules))))).
  - split; [reflexivity | now left].
  - intros e tokens _ [Ht Hp]. unfold english_parse.
    destruct Hp as [Hp | (p & Hp & E1 & E2 & E3)]; rewrite Hp.
    + cbn [convert_to_proper_cnf eng_parser].
      destruct (parse (new_parser (english_grammar_from english_cnf_rules))
                      tokens) as [r p'] eqn:Ep.
      cbn [snd eng_terminals eng_parser]. split; [assumption|].
      right. exists p'. split; [reflexivity|].
      pose proof (parse_keeps_indices
                    (new_parser (english_grammar_from english_cnf_rules))
                    tokens) as K.
      rewrite Ep in K. exact K.
    + rewrite Hp. destruct (parse p tokens) as [r p'] eqn:Ep.
      cbn [snd eng_terminals eng_parser]. split; [assumption|].
      right. exists p'. split; [reflexivity|].
      pose proof (parse_keeps_indices p tokens) as (K1 & K2 & K3).
      rewrite Ep in K1, K2, K3. cbn [snd] in K1, K2, K3.
      rewrite K1, K2, K3. auto.
Qed.

(** The variables below which a preposition can stand. *)
Lemma english_cnf_rule_bounds :
  let bound := fun a : symbol =>
    if existsb (String.eqb a) ["S"; "VP"; "PP"; "P"] then 1 else 0 in
  forallb
    (fun vp : symbol * list rhs =>
       forallb
         (fun prod : rhs =>
            match prod with
            | [t] => (if is_preposition t then 1 else 0) <=? bound (fst vp)
            | [b; c] => bound b + bound c <=? bound (fst vp)
            | _ => true
            end)
         (snd vp))
    (productions (english_grammar_from english_cnf_rules)) = true.
Proof. vm_compute. reflexivity. Qed.

(** A derivation in the grammar of [convert_to_proper_cnf] has at most one
    preposition below [S], [VP], [PP] and [P], and none below the other
    variables. *)
Lemma english_cnf_prepositions : forall a w,
  cnf_derives (english_grammar_from english_cnf_rules) a w ->
  length (filter is_preposition w)
  <= if existsb (String.eqb a) ["S"; "VP"; "PP"; "P"] then 1 else 0.
Proof.
  intros a w H. pose proof english_cnf_rule_bounds as B. cbv zeta in B.
  rewrite forallb_forall in B.
  induction H as [a t Hp Ht | a b c w1 w2 Hp _ IH1 _ IH2].
  - apply (@In_prods_of _ a [t] (proj2 english_is_dict)) in Hp.
    destruct Hp as (l & Hl & Hp). specialize (B _ Hl).
    rewrite forallb_forall in B. specialize (B _ Hp).
    apply Nat.leb_le in B. cbn [fst] in B.
    clear Hl Hp Ht. cbn [filter].
    destruct (is_preposition t); cbn [length]; lia.
  - apply (@In_prods_of _ a [b; c] (proj2 english_is_dict)) in Hp.
    destruct Hp as (l & Hl & Hp). specialize (B _ Hl).
    rewrite forallb_forall in B. specialize (B _ Hp).
    apply Nat.leb_le in B. cbn [fst] in B.
    rewrite filter_app, length_app. lia.
Qed.

(** Every rule of the grammar of [convert_to_proper_cnf] is a rule of the
    grammar of [setup_grammar] when [VP1] is read as [VP]. *)
Lemma english_cnf_rules_in_english :
  let ren := fun a : symbol => if String.eqb a "VP1" then "VP" else a in
  let original := english_grammar_from english_rules in
  forallb
    (fun vp : symbol * list rhs =>
       forallb
         (fun prod : rhs =>
            match prod with
            | [t] => mem_rhs [t] (prods_of (productions original)
                                           (ren (fst vp)))
                     && mem t (terminals original)
            | [b; c] => mem_rhs [ren b; ren c]
                          (prods_of (productions original) (ren (fst vp)))
            | _ => true
            end)
         (snd vp))
    (productions (english_grammar_from english_cnf_rules)) = true.
Proof. vm_compute. reflexivity. Qed.

(** Every derivation in the grammar of [convert_to_proper_cnf] is one in
    the grammar of [setup_grammar], with [VP] in the place of [VP1]. *)
Lemma english_cnf_in_english : forall a w,
  cnf_derives (english_grammar_from english_cnf_rules) a w ->
  cnf_derives (english_grammar_from english_rules)
              (if String.eqb a "VP1" then "VP" else a) w.
Proof.
  intros a w H. pose proof english_cnf_rules_in_english as B.
  cbv zeta in B. rewrite forallb_forall in B.
  induction H as [a t Hp Ht | a b c w1 w2 Hp _ IH1 _ IH2].
  - apply (@In_prods_of _ a [t] (proj2 english_is_dict)) in Hp.
    destruct Hp as (l & Hl & Hp). specialize (B _ Hl).
    rewrite forallb_forall in B. specialize (B _ Hp).
    cbn [fst] in B. apply andb_true_iff in B. destruct B as [B1 B2].
    apply cnf_terminal; [now apply mem_rhs_In | now apply mem_In].
  - apply (@In_prods_of _ a [b; c] (proj2 english_is_dict)) in Hp.
    destruct Hp as (l & Hl & Hp). specialize (B _ Hl).
    rewrite forallb_forall in B. specialize (B _ Hp).
    cbn [fst] in B. apply mem_rhs_In in B.
    eapply cnf_binary; eassumption.
Qed.

(** X5. The English parser accepts a sentence exactly when the grammar
    written out in [convert_to_proper_cnf] does, whatever it has parsed
    before. That grammar is no equivalent of the grammar of
    [setup_grammar], which is in CNF as it stands: the rule [VP -> VP PP]
    has become [VP -> VP1 PP] with a [VP1] that takes no prepositional
    phrase, so an accepted sentence has all its words in the vocabulary,
    is a sentence of the grammar of [setup_grammar], and holds at most one
    of the prepositions [in] and [with]; a sentence with two prepositional
    phrases is accepted by the grammar of [setup_grammar] and rejected by
    the parser. *)
Theorem english_parser_one_prepositional_phrase :
  let original := english_grammar_from english_rules in
  let written := english_grammar_from english_cnf_rules in
  is_in_cnf original = true
  /\ is_in_cnf written = true
  /\ (forall history tokens,
        fst (fst (english_parse (english_after history) tokens))
        = accepts written tokens)
  /\ (forall history tokens,
        accepts written tokens = true ->
        fst (validate_sentence (english_after history) tokens) = true
        /\ accepts original tokens = true
        /\ length (filter is_preposition tokens) <= 1)
  /\ accepts original
       ["she"; "eats"; "a"; "cake"; "with"; "a"; "fork"; "in"; "the"; "oven"]
     = true
  /\ fst (fst (english_parse setup_grammar
                 ["she"; "eats"; "a"; "cake"; "with"; "a"; "fork";
                  "in"; "the"; "oven"]))
     = false.
Proof.
  intros original written.
  split; [vm_compute; reflexivity|]. split; [vm_compute; reflexivity|].
  split; [|split; [|split; vm_compute; reflexivity]].
  - intros history tokens. unfold english_parse.
    destruct (english_after_parser history)
      as [_ [Hp | (p & Hp & E1 & E2 & E3)]]; rewrite Hp.
    + cbn [convert_to_proper_cnf eng_parser]. fold written.
      unfold accepts.
      destruct (parse (new_parser written) tokens) as [r p']. reflexivity.
    + rewrite Hp. unfold accepts.
      rewrite <- (@parse_fresh_tables p (new_parser written) tokens E1 E2 E3).
      destruct (parse p tokens) as [r p']. reflexivity.
  - intros history tokens H.
    destruct (@accepts_cnf_derives written tokens (proj2 english_is_dict) H)
      as (s & Hs & Hc).
    split; [|split].
    + unfold validate_sentence.
      destruct (english_after_parser history) as [Ht _]. rewrite Ht.
      assert (F : filter (fun word => negb (mem word (eng_terminals setup_grammar)))
                         tokens = []).
      { apply list_empty_no_element. intros x Hx.
        apply filter_In in Hx. destruct Hx as [Hx1 Hx2].
        apply (cnf_derives_terminals Hc) in Hx1.
        apply negb_true_iff, mem_not_In in Hx2. apply Hx2.
        vm_compute in Hx1 |- *. tauto. }
      now rewrite F.
    + apply (@cnf_derives_accepts original "S" tokens
               (proj1 english_is_dict) eq_refl).
      vm_compute in Hs. injection Hs as <-.
      exact (english_cnf_in_english Hc).
    + vm_compute in Hs. injection Hs as <-.
      exact (english_cnf_prepositions Hc).
Qed.

(* ================================================================= *)
(** * Further properties of the converter *)

(** ** What the propagation loops compute *)

Lemma nonempty_all_in_spec : forall s p,
  nonempty_all_in s p = true <-> p <> [] /\ forall x, In x p -> In x s.
Proof.
  intros s [|a p]; simpl.
  - split; [discriminate | intros [H _]; congruence].
  - rewrite andb_true_iff, forallb_forall, mem_In. split.
    + intros [Ha Hp]. split; [discriminate|].
      intros x [<- | Hx]; [assumption | now apply mem_In, Hp].
    + intros [_ H]. split; [apply H; now left|].
      intros x Hx. apply mem_In. apply H. now right.
Qed.

Lemma propagate_var_sound : forall (P : symbol -> Prop) v l
  (st : set symbol * bool),
  (forall p, In p l -> p <> [] -> (forall x, In x p -> P x) -> P v) ->
  (forall x, In x (fst st) -> P x) ->
  forall x, In x (fst (propagate_var v l st)) -> P x.
Proof.
  intros P v l st Hstep Hst. unfold propagate_var.
  destruct (mem v (fst st)); [assumption|].
  apply (fold_left_ind
           (fun st' : set symbol * bool => forall x, In x (fst st') -> P x));
    [assumption|].
  intros st' p Hp H'.
  destruct (nonempty_all_in (fst st') p) eqn:E; [|assumption].
  apply nonempty_all_in_spec in E. destruct E as [Hne Hall].
  simpl. intros x Hx. apply add_In in Hx. destruct Hx as [-> | Hx]; auto.
  apply (Hstep p); auto.
Qed.

Lemma propagate_sound : forall (P : symbol -> Prop) fuel d s,
  (forall a l p, In (a, l) d -> In p l -> p <> [] ->
                 (forall x, In x p -> P x) -> P a) ->
  (forall x, In x s -> P x) ->
  forall x, In x (propagate fuel d s) -> P x.
Proof.
  intros P. induction fuel as [|fuel IH]; simpl; intros d s Hstep Hs;
    [assumption|].
  assert (Hp : forall x, In x (fst (propagate_pass d s)) -> P x).
  { unfold propagate_pass.
    apply (fold_left_ind
             (fun st' : set symbol * bool =>
                forall x, In x (fst st') -> P x)); [assumption|].
    intros st' [v l] Hin H'. simpl. apply propagate_var_sound; [|assumption].
    intros p. now apply Hstep. }
  destruct (propagate_pass d s) as [s' changed]. simpl in Hp.
  destruct changed; [|assumption]. now apply IH.
Qed.

Lemma propagate_var_flag : forall v l (st : set symbol * bool),
  snd st = true -> snd (propagate_var v l st) = true.
Proof.
  intros v l st H. unfold propagate_var.
  destruct (mem v (fst st)); [assumption|].
  apply (fold_left_ind (fun st' : set symbol * bool => snd st' = true));
    [assumption|].
  intros st' p _ H'. now destruct (nonempty_all_in (fst st') p).
Qed.

Lemma propagate_var_unchanged : forall v l s,
  snd (propagate_var v l (s, false)) = false ->
  propagate_var v l (s, false) = (s, false)
  /\ (In v s \/ forall p, In p l -> nonempty_all_in s p = false).
Proof.
  intros v l s. unfold propagate_var. simpl.
  destruct (mem v s) eqn:Ev.
  - intros _. split; [reflexivity|]. left. now apply mem_In.
  - induction l as [|p l IH]; simpl; intros H.
    + split; [reflexivity|]. right. intros p [].
    + destruct (nonempty_all_in s p) eqn:Ep.
      * exfalso.
        assert (T : snd (fold_left
                  (fun (st' : set symbol * bool) prod =>
                     if nonempty_all_in (fst st') prod
                     then (add v (fst st'), true) else st')
                  l (add v s, true)) = true).
        { apply (fold_left_ind
                   (fun st' : set symbol * bool => snd st' = true));
            [reflexivity|].
          intros st' q _ H'. now destruct (nonempty_all_in (fst st') q). }
        congruence.
      * destruct (IH H) as [E [Hv | Hl]]; [now apply mem_not_In in Ev|].
        split; [assumption|]. right. intros q [<- | Hq]; auto.
Qed.

Lemma propagate_pass_complete : forall d s,
  snd (propagate_pass d s) = false ->
  forall a l p, In (a, l) d -> In p l -> nonempty_all_in s p = true -> In a s.
Proof.
  unfold propagate_pass. induction d as [|[v l0] d IH]; simpl;
    intros s H a l p Hin Hp Hall; [contradiction|].
  destruct (snd (propagate_var v l0 (s, false))) eqn:Ev.
  - exfalso.
    assert (T : snd (fold_left
                       (fun st vp => propagate_var (fst vp) (snd vp) st)
                       d (propagate_var v l0 (s, false))) = true).
    { apply (fold_left_ind (fun st' : set symbol * bool => snd st' = true));
        [assumption|].
      intros st' vp _ H'. now apply propagate_var_flag. }
    congruence.
  - destruct (@propagate_var_unchanged v l0 s Ev) as [E Hv].
    rewrite E in H. destruct Hin as [Hin | Hin].
    + inversion Hin; subst v l0. destruct Hv as [Hv | Hv]; [assumption|].
      rewrite (Hv p Hp) in Hall. discriminate.
    + now apply (IH s H a l p).
Qed.

(** The set that a propagation loop returns, when it has run to its exit,
    is the closure of the set it started from. *)
Lemma propagate_closure : forall fuel d s x,
  missing d s < fuel ->
  (In x (propagate fuel d s) <-> closure d (fun y => In y s) x).
Proof.
  intros fuel d s x Hf. split.
  - apply propagate_sound.
    + intros a l p Hin Hp Hne Hall. now apply closure_step with l p.
    + intros y Hy. now apply closure_base.
  - intros H. induction H as [y Hy | a l p Hin Hp Hne _ IH].
    + now apply propagate_incl.
    + pose proof (@propagate_stable fuel d s Hf) as St.
      apply (@propagate_pass_complete d (propagate fuel d s)) with l p;
        try assumption.
      * now rewrite St.
      * apply nonempty_all_in_spec. auto.
Qed.

Lemma closure_base_iff : forall d (b1 b2 : symbol -> Prop) x,
  (forall y, b1 y <-> b2 y) -> closure d b1 x -> closure d b2 x.
Proof.
  intros d b1 b2 x E H. induction H as [y Hy | a l p Hin Hp Hne _ IH].
  - apply closure_base. now apply E.
  - now apply closure_step with l p.
Qed.

Lemma find_nullable_symbols_closure : forall g x,
  In x (find_nullable_symbols g) <-> nullable g x.
Proof.
  intros g x. unfold find_nullable_symbols, nullable.
  rewrite propagate_closure.
  - split; apply closure_base_iff; intros y;
      [apply direct_nullable_In | symmetry; apply direct_nullable_In].
  - pose proof (missing_le_length (productions g)
                  (direct_nullable (productions g))). lia.
Qed.

Lemma find_generating_symbols_closure : forall g x,
  In x (find_generating_symbols g) <-> generating g x.
Proof.
  intros g x. unfold find_generating_symbols, generating.
  apply propagate_closure.
  pose proof (missing_le_length (productions g) (terminals g)). lia.
Qed.

Lemma derives_all_nil : forall g p,
  (forall x, In x p -> derives g x []) -> derives_all g p [].
Proof.
  intros g p. induction p as [|s p IH]; intros H; [apply derives_nil|].
  change (@nil symbol) with (@nil symbol ++ []).
  apply derives_cons; [apply H; now left|].
  apply IH. intros x Hx. apply H. now right.
Qed.

Lemma derives_all_some : forall g p,
  (forall x, In x p -> exists w, derives g x w) ->
  exists w, derives_all g p w.
Proof.
  intros g p. induction p as [|s p IH]; intros H.
  - exists []. apply derives_nil.
  - destruct (H s (or_introl eq_refl)) as [w1 H1].
    destruct IH as [w2 H2]; [intros x Hx; apply H; now right|].
    exists (w1 ++ w2). now apply derives_cons.
Qed.

(** When the empty right-hand sides are written as empty lists, the
    nullable symbols are the symbols that derive the empty word. *)
Lemma find_nullable_symbols_derives : forall g,
  is_dict (productions g) ->
  (forall a l, In (a, l) (productions g) -> ~ In [epsilon_sym] l) ->
  forall x, In x (find_nullable_symbols g) <-> derives g x [].
Proof.
  intros g Hd Heps x. rewrite find_nullable_symbols_closure. split.
  - intros H. induction H as [y (l & p & Hin & Hp & E) | a l p Hin Hp Hne _ IH].
    + apply derives_production with (p := p);
        [apply (@In_prods_of g y p Hd); eauto|].
      destruct p as [|s [|s' p]]; try discriminate E; [apply derives_nil|].
      simpl in E. apply String.eqb_eq in E. subst s.
      exfalso. now apply (Heps y l).
    + apply derives_production with (p := p);
        [apply (@In_prods_of g a p Hd); eauto|].
      now apply derives_all_nil.
  - intros H. revert x H.
    assert (G : forall x w, derives g x w -> w = [] -> nullable g x);
      [|intros x H; now apply (G x [])].
    apply (derives_mut
             (fun x w => w = [] -> nullable g x)
             (fun p w => w = [] -> forall x, In x p -> nullable g x)).
    + intros t _ E. discriminate.
    + intros a p w' Hp _ IH E.
      apply (@In_prods_of g a p Hd) in Hp. destruct Hp as (l & Hin & Hp).
      destruct p as [|s p'].
      * apply closure_base. exists l, []. repeat split; assumption.
      * apply closure_step with l (s :: p'); auto; [discriminate|].
        now apply IH.
    + intros _ x0 [].
    + intros s ss w1 w2 _ IH1 _ IH2 E.
      apply app_eq_nil in E. destruct E as [E1 E2].
      intros x0 [<- | Hx]; auto.
Qed.

(** X6. [find_nullable_symbols] returns exactly the nullable variables:
    those with a right-hand side that is empty or ['ε'], or that is made of
    nullable variables. In a grammar that writes its epsilon productions
    as empty right-hand sides the nullable variables are exactly the
    symbols that derive the empty word. *)
Theorem find_nullable_symbols_spec :
  forall g,
    (forall x, In x (find_nullable_symbols g) <-> nullable g x)
    /\ (is_dict (productions g) ->
        (forall a l, In (a, l) (productions g) -> ~ In [epsilon_sym] l) ->
        forall x, In x (find_nullable_symbols g) <-> derives g x []).
Proof.
  intros g. split; [apply find_nullable_symbols_closure|].
  intros Hd Heps x. now apply find_nullable_symbols_derives.
Qed.

Lemma find_nullable_symbols_spec_witness :
  In "S" (find_nullable_symbols scenario2) <-> derives scenario2 "S" [].
Proof.
  apply (find_nullable_symbols_spec scenario2).
  - repeat constructor; simpl; intuition discriminate.
  - intros a l H. simpl in H.
    destruct H as [H | [H | [H | []]]]; inversion H; subst;
      simpl; intuition discriminate.
Defined.

(** Without empty right-hand sides, whatever derives a word is generating. *)
Lemma derives_generating : forall g,
  is_dict (productions g) ->
  (forall a l, In (a, l) (productions g) -> ~ In [] l) ->
  (forall x w, derives g x w -> generating g x)
  /\ (forall p w, derives_all g p w -> forall x, In x p -> generating g x).
Proof.
  intros g Hd Hne.
  assert (Hp : forall a p,
             In p (prods_of (productions g) a) ->
             (forall x, In x p -> generating g x) -> generating g a).
  { intros a p Hp IH.
    apply (@In_prods_of g a p Hd) in Hp. destruct Hp as (l & Hin & Hp).
    apply closure_step with l p; auto.
    intros ->. now apply (Hne a l). }
  split.
  - apply (derives_mut
             (fun x w => generating g x)
             (fun p w => forall x, In x p -> generating g x)).
    + intros t Ht. now apply closure_base.
    + intros a p w Hin _ IH. now apply (Hp a p).
    + intros x0 [].
    + intros s ss w1 w2 _ IH1 _ IH2 x0 [<- | Hx]; auto.
  - apply (derives_all_mut
             (fun x w => generating g x)
             (fun p w => forall x, In x p -> generating g x)).
    + intros t Ht. now apply closure_base.
    + intros a p w Hin _ IH. now apply (Hp a p).
    + intros x0 [].
    + intros s ss w1 w2 _ IH1 _ IH2 x0 [<- | Hx]; auto.
Qed.

(** X7. [find_generating_symbols] returns exactly the generating symbols:
    the terminals, and the variables with a right-hand side that is not
    empty and is made of generating symbols. Every generating symbol derives
    a word; in a grammar without empty right-hand sides the generating
    symbols are exactly the symbols that derive a word. A variable whose
    right-hand sides are all empty derives the empty word and is not
    generating. *)
Theorem find_generating_symbols_spec :
  forall g,
    (forall x, In x (find_generating_symbols g) <-> generating g x)
    /\ (is_dict (productions g) ->
        (forall x, In x (find_generating_symbols g) ->
                   exists w, derives g x w)
        /\ ((forall a l, In (a, l) (productions g) -> ~ In [] l) ->
            forall x w, derives g x w -> In x (find_generating_symbols g))
        /\ (forall a,
              ~ In a (terminals g) ->
              (forall l p, In (a, l) (productions g) -> In p l -> p = []) ->
              ~ In a (find_generating_symbols g))).
Proof.
  intros g. split; [apply find_generating_symbols_closure|].
  intros Hd. split; [|split].
  - intros x H. apply find_generating_symbols_closure in H.
    induction H as [y Hy | a l p Hin Hp Hne _ IH].
    + exists [y]. now apply derives_terminal.
    + destruct (@derives_all_some g p IH) as [w Hw].
      exists w. apply derives_production with (p := p); [|assumption].
      apply (@In_prods_of g a p Hd). eauto.
  - intros Hne x w H. apply find_generating_symbols_closure.
    exact (proj1 (@derives_generating g Hd Hne) x w H).
  - intros a Ht Hall H. apply find_generating_symbols_closure in H.
    destruct H as [y Hy | a l p Hin Hp Hne _]; [contradiction|].
    apply Hne. now apply (Hall l p).
Qed.

Lemma find_generating_symbols_spec_witness :
  (forall x, In x (find_generating_symbols cnf_with_empty) ->
             exists w, derives cnf_with_empty x w)
  /\ ~ In "S" (find_generating_symbols (grammar_of "S" [("S", [])])).
Proof.
  split.
  - apply (find_generating_symbols_spec cnf_with_empty).
    repeat constructor; simpl; intuition discriminate.
  - apply (find_generating_symbols_spec (grammar_of "S" [("S", [])])).
    + repeat constructor; simpl; intuition discriminate.
    + simpl. tauto.
    + simpl. intros l p [H | []] Hp. inversion H; subst l.
      destruct Hp as [<- | []]. reflexivity.
Defined.

(** ** Reachable symbols and useless symbols *)

Lemma fold_left_reaches : forall (A B : Type) (Q : B -> Prop)
  (f : B -> A -> B) l b y0,
  In y0 l ->
  (forall b y, Q b -> Q (f b y)) ->
  (forall b, Q (f b y0)) ->
  Q (fold_left f l b).
Proof.
  intros A B Q f l. induction l as [|y l IH]; simpl; intros b y0 Hin Hm Hh;
    [contradiction|].
  destruct Hin as [-> | Hin].
  - apply fold_left_ind; auto.
  - now apply IH with y0.
Qed.

Lemma new_reachable_sound : forall d (r : set symbol) x,
  In x (new_reachable d r) -> exists a, In a r /\ occurs d a x.
Proof.
  intros d r x. unfold new_reachable.
  apply (fold_left_ind
           (fun nr : set symbol =>
              In x nr -> exists a, In a r /\ occurs d a x));
    [contradiction|].
  intros nr var Hvar IH.
  destruct (dict_get d var) as [l|] eqn:E; [|assumption].
  apply (fold_left_ind
           (fun nr' : set symbol =>
              In x nr' -> exists a, In a r /\ occurs d a x)); [assumption|].
  intros nr1 prod Hprod IH1.
  assert (G : forall l' nr2,
    incl l' prod ->
    (In x nr2 -> exists a, In a r /\ occurs d a x) ->
    In x (fold_left (fun nr'' s => if mem s r then nr'' else add s nr'')
                    l' nr2) ->
    exists a, In a r /\ occurs d a x).
  { induction l' as [|s l' IHl]; simpl; intros nr2 Hi H2; [assumption|].
    apply IHl; [intros y Hy; apply Hi; now right|].
    destruct (mem s r) eqn:Es; [assumption|].
    rewrite add_In. intros [-> | H]; [|auto].
    exists var. split; [assumption|]. exists prod. split.
    - unfold prods_of. now rewrite E.
    - apply Hi. now left. }
  apply G; [apply incl_refl | assumption].
Qed.

Lemma new_reachable_complete : forall d (r : set symbol) a x,
  In a r -> occurs d a x -> ~ In x r -> In x (new_reachable d r).
Proof.
  intros d r a x Ha (p & Hp & Hx) Hn. unfold new_reachable.
  unfold prods_of in Hp.
  destruct (dict_get d a) as [l|] eqn:E; [|contradiction].
  assert (M3 : forall q (nr : set symbol),
    In x nr ->
    In x (fold_left (fun nr'' s => if mem s r then nr'' else add s nr'')
                    q nr)).
  { intros q nr H.
    apply (fold_left_ind (fun nr' : set symbol => In x nr')); [assumption|].
    intros nr' s _ H'. destruct (mem s r); [assumption|].
    apply add_In. now right. }
  assert (M2 : forall l' (nr : set symbol),
    In x nr ->
    In x (fold_left
            (fun nr' prod =>
               fold_left
                 (fun nr'' s => if mem s r then nr'' else add s nr'')
                 prod nr') l' nr)).
  { intros l' nr H.
    apply (fold_left_ind (fun nr' : set symbol => In x nr')); [assumption|].
    intros nr' q _ H'. now apply M3. }
  apply (@fold_left_reaches symbol (set symbol) (fun nr => In x nr)) with a;
    [assumption | |].
  - intros nr var H. destruct (dict_get d var); [|assumption]. now apply M2.
  - intros nr. rewrite E.
    apply (@fold_left_reaches rhs (set symbol) (fun nr => In x nr)) with p;
      [assumption | |].
    + intros nr' q H. now apply M3.
    + intros nr'.
      apply (@fold_left_reaches symbol (set symbol) (fun nr => In x nr))
        with x; [assumption | |].
      * intros nr'' s H. destruct (mem s r); [assumption|].
        apply add_In. now right.
      * intros nr''. apply mem_not_In in Hn. rewrite Hn.
        apply add_In. now left.
Qed.

Lemma reach_incl : forall fuel d (r : set symbol) x,
  In x r -> In x (reach fuel d r).
Proof.
  induction fuel as [|fuel IH]; cbn [reach]; intros d r x H; [assumption|].
  destruct (new_reachable d r) as [|y nr]; [assumption|].
  apply IH. apply update_In. now left.
Qed.

Lemma reach_sound : forall (P : symbol -> Prop) d fuel (r : set symbol),
  (forall a x, P a -> occurs d a x -> P x) ->
  (forall x, In x r -> P x) ->
  forall x, In x (reach fuel d r) -> P x.
Proof.
  intros P d. induction fuel as [|fuel IH]; cbn [reach]; intros r Hstep Hr;
    [assumption|].
  destruct (new_reachable d r) as [|y nr] eqn:E; [assumption|].
  apply IH; [assumption|].
  intros x Hx. apply update_In in Hx. destruct Hx as [Hx | Hx]; [auto|].
  rewrite <- E in Hx. apply new_reachable_sound in Hx.
  destruct Hx as (a & Ha & Ho). apply (Hstep a); auto.
Qed.

Lemma find_reachable_symbols_closure : forall g x,
  In x (find_reachable_symbols g) <-> reachable g x.
Proof.
  intros g x. split.
  - unfold find_reachable_symbols. apply reach_sound.
    + intros a y (s & Hs & Ha) Ho. exists s. split; [assumption|].
      apply rt_trans with a; [assumption | now apply rt_step].
    + intros y Hy. destruct (start_symbol g) as [s|] eqn:Es; [|contradiction].
      destruct Hy as [<- | []]. exists s. split; [exact Es | apply rt_refl].
  - intros (s & Hs & H).
    assert (H0 : In s (find_reachable_symbols g)).
    { unfold find_reachable_symbols. apply reach_incl. rewrite Hs. now left. }
    clear Hs. revert H0. induction H as [a y Ho | a | a y z _ IH1 _ IH2].
    + intros Ha.
      destruct (in_dec string_dec y (find_reachable_symbols g)) as [Hy | Hy];
        [assumption|].
      pose proof (@new_reachable_complete (productions g)
                    (find_reachable_symbols g) a y Ha Ho Hy) as Hn.
      rewrite find_reachable_symbols_stable in Hn. contradiction.
    + auto.
    + intros Ha. apply IH2, IH1, Ha.
Qed.

(** X8. [find_reachable_symbols] returns exactly the symbols that are
    reached from the start symbol through the right-hand sides of the
    grammar: the start symbol, and every symbol of a right-hand side of a
    symbol that is reached. Without a start symbol nothing is reached. *)
Theorem find_reachable_symbols_spec :
  forall g x,
    In x (find_reachable_symbols g)
    <-> exists s, start_symbol g = Some s
                  /\ clos_refl_trans symbol
                       (fun a y => exists p,
                            In p (prods_of (productions g) a) /\ In y p)
                       s x.
Proof. intros g x. apply find_reachable_symbols_closure. Qed.

(** *** Stage C *)

Lemma prods_of_filter_keys : forall (f : symbol -> bool) d a,
  prods_of (filter (fun vp => f (fst vp)) d) a
  = if f a then prods_of d a else [].
Proof.
  intros f d a. unfold prods_of.
  induction d as [|[k l] d IH]; simpl; [now destruct (f a)|].
  destruct (f k) eqn:Ek; simpl.
  - destruct (String.eqb a k) eqn:Ea; [|assumption].
    apply String.eqb_eq in Ea. subst k. now rewrite Ek.
  - destruct (String.eqb a k) eqn:Ea; [|assumption].
    apply String.eqb_eq in Ea. subst k. rewrite Ek in IH. rewrite Ek.
    exact IH.
Qed.

Lemma prods_of_filter_generating : forall s d a,
  prods_of (filter_generating s d) a
  = if mem a s
    then filter (forallb (fun x => mem x s)) (prods_of d a)
    else [].
Proof.
  intros s d a. unfold filter_generating.
  rewrite (@prods_of_map_snd (filter (forallb (fun x => mem x s)))) by reflexivity.
  rewrite (prods_of_filter_keys (fun k => mem k s)).
  now destruct (mem a s).
Qed.

Lemma keys_filter_keys : forall (f : symbol -> bool) (d : dict (list rhs)) a,
  In a (keys (filter (fun vp => f (fst vp)) d))
  <-> In a (keys d) /\ f a = true.
Proof.
  intros f d a. unfold keys. rewrite !in_map_iff. split.
  - intros ([k l] & <- & H). apply filter_In in H. destruct H as [H1 H2].
    split; [|assumption]. exists (k, l). auto.
  - intros [([k l] & <- & H1) H2]. exists (k, l). split; [reflexivity|].
    apply filter_In. auto.
Qed.

Lemma clos_refl_trans_equiv : forall (R1 R2 : symbol -> symbol -> Prop) a b,
  (forall x y, R1 x y -> R2 x y) ->
  clos_refl_trans symbol R1 a b -> clos_refl_trans symbol R2 a b.
Proof.
  intros R1 R2 a b E H. induction H as [x y H | x | x y z _ IH1 _ IH2].
  - apply rt_step. now apply E.
  - apply rt_refl.
  - now apply rt_trans with y.
Qed.

Lemma keys_filter_generating : forall s d a,
  In a (keys (filter_generating s d)) <-> In a (keys d) /\ mem a s = true.
Proof.
  intros s d a. unfold filter_generating. rewrite keys_map_snd.
  apply (keys_filter_keys (fun k => mem k s)).
Qed.

Lemma generating_mem : forall g x,
  mem x (find_generating_symbols g) = true <-> generating g x.
Proof.
  intros g x. rewrite mem_In. apply find_generating_symbols_closure.
Qed.

Lemma generating_forallb : forall g p,
  forallb (fun x => mem x (find_generating_symbols g)) p = true
  <-> forall x, In x p -> generating g x.
Proof.
  intros g p. rewrite forallb_forall.
  split; intros H x Hx; apply generating_mem; auto.
Qed.

(** The right-hand sides left by the first filter of stage C are those of
    the steps that [useful] follows. *)
Lemma occurs_filter_generating : forall g a x,
  occurs (filter_generating (find_generating_symbols g) (productions g)) a x
  <-> useful_step g a x.
Proof.
  intros g a x. unfold occurs, useful_step. split.
  - intros (p & Hp & Hx). rewrite prods_of_filter_generating in Hp.
    destruct (mem a (find_generating_symbols g)) eqn:Ea; [|contradiction].
    apply filter_In in Hp. destruct Hp as [Hp Hf].
    split; [now apply generating_mem|]. exists p. split; [assumption|].
    split; [now apply generating_forallb | assumption].
  - intros (Ha & p & Hp & Hf & Hx). exists p. split; [|assumption].
    rewrite prods_of_filter_generating.
    apply generating_mem in Ha. rewrite Ha. apply filter_In.
    split; [assumption|]. now apply generating_forallb.
Qed.

Lemma useful_mem : forall g a,
  mem a (find_reachable_symbols
           (mkGrammar (filter_generating (find_generating_symbols g)
                                         (productions g))
                      (terminals g) (non_terminals g) (start_symbol g)))
  = true
  <-> useful g a.
Proof.
  intros g a. rewrite mem_In, find_reachable_symbols_closure.
  unfold reachable, useful. cbn [start_symbol productions].
  split; intros (s & Hs & H); exists s; (split; [assumption|]);
    revert H; apply clos_refl_trans_equiv; intros x y;
    apply occurs_filter_generating.
Qed.

(** The productions that the two filters of stage C leave. *)
Lemma useless_productions : forall g a p,
  In p (prods_of
          (filter_reachable
             (find_reachable_symbols
                (mkGrammar (filter_generating (find_generating_symbols g)
                                              (productions g))
                           (terminals g) (non_terminals g) (start_symbol g)))
             (filter_generating (find_generating_symbols g) (productions g)))
          a)
  <-> In p (prods_of (productions g) a)
      /\ generating g a
      /\ (forall x, In x p -> generating g x)
      /\ useful g a.
Proof.
  intros g a p. unfold filter_reachable.
  rewrite (prods_of_filter_keys
             (fun k => mem k (find_reachable_symbols
                (mkGrammar (filter_generating (find_generating_symbols g)
                                              (productions g))
                           (terminals g) (non_terminals g) (start_symbol g))))).
  rewrite prods_of_filter_generating.
  destruct (mem a (find_reachable_symbols _)) eqn:Er.
  - destruct (mem a (find_generating_symbols g)) eqn:Ea.
    + rewrite filter_In, generating_forallb.
      apply useful_mem in Er. apply generating_mem in Ea. tauto.
    + split; [contradiction|]. intros (_ & Ha & _).
      apply generating_mem in Ha. congruence.
  - split; [contradiction|]. intros (_ & _ & _ & Hu).
    apply useful_mem in Hu. congruence.
Qed.

(** X9. [eliminate_useless_symbols] always returns. It keeps the
    terminals and the start symbol, and a production [a -> p] is a
    production afterwards exactly when it was one before, [a] and every
    symbol of [p] are generating, and [a] is reached from the start symbol
    through right-hand sides made of generating symbols. The variables that
    keep an entry are the generating variables that are reached in this
    way, and the non-terminals afterwards are exactly these variables: a
    start symbol that is not generating is no non-terminal any more. *)
Theorem useless_symbols_elimination :
  forall c,
    exists c',
      eliminate_useless_symbols c = inr c'
      /\ terminals (grammar c') = terminals (grammar c)
      /\ start_symbol (grammar c') = start_symbol (grammar c)
      /\ (forall a p,
            In p (prods_of (productions (grammar c')) a)
            <-> In p (prods_of (productions (grammar c)) a)
                /\ generating (grammar c) a
                /\ (forall x, In x p -> generating (grammar c) x)
                /\ useful (grammar c) a)
      /\ (forall a,
            In a (keys (productions (grammar c')))
            <-> In a (keys (productions (grammar c)))
                /\ generating (grammar c) a
                /\ useful (grammar c) a)
      /\ (forall a,
            In a (non_terminals (grammar c'))
            <-> In a (keys (productions (grammar c')))).
Proof.
  intros c. eexists. split; [reflexivity|].
  cbn [grammar with_grammar print_step terminals start_symbol productions
       non_terminals].
  split; [reflexivity|]. split; [reflexivity|]. split; [|split].
  - intros a p. apply useless_productions.
  - intros a. unfold filter_reachable.
    rewrite (keys_filter_keys
               (fun k => mem k (find_reachable_symbols
                  (mkGrammar (filter_generating
                                (find_generating_symbols (grammar c))
                                (productions (grammar c)))
                             (terminals (grammar c))
                             (non_terminals (grammar c))
                             (start_symbol (grammar c)))))).
    rewrite keys_filter_generating, useful_mem, generating_mem. tauto.
  - intros a. apply set_of_list_In.
Qed.

(** ** The combinations of stage A *)

Lemma combination_sound : forall p nl mask i c,
  combination p nl mask i = Some c -> drops nl p c.
Proof.
  induction p as [|s p IH]; simpl; intros nl mask i c H.
  - injection H as <-. constructor.
  - destruct (Nat.testbit mask i).
    + destruct (combination p nl mask (S i)) as [c'|] eqn:E; [|discriminate].
      simpl in H. injection H as <-. apply drops_keep. now apply IH in E.
    + destruct (mem s nl) eqn:Es; [|discriminate].
      apply drops_skip; [now apply mem_In | now apply IH in H].
Qed.

Lemma combination_shift : forall p nl m (b : bool) i,
  combination p nl (2 * m + (if b then 1 else 0)) (S i)
  = combination p nl m i.
Proof.
  induction p as [|s p IH]; cbn [combination]; intros nl m b i; [reflexivity|].
  assert (E : Nat.testbit (2 * m + (if b then 1 else 0)) (S i)
              = Nat.testbit m i).
  { destruct b.
    - apply Nat.testbit_odd_succ. lia.
    - rewrite Nat.add_0_r. apply Nat.testbit_even_succ. lia. }
  rewrite E, IH. reflexivity.
Qed.

Lemma combination_complete : forall nl p c,
  drops nl p c ->
  exists mask, mask < 2 ^ length p /\ combination p nl mask 0 = Some c.
Proof.
  intros nl p c H. induction H as [|s p c _ (m & Hm & IH)
                                    |s p c Hs _ (m & Hm & IH)].
  - exists 0. simpl. auto.
  - exists (2 * m + 1). split; [simpl; lia|].
    cbn [combination]. rewrite Nat.testbit_odd_0.
    rewrite (combination_shift p nl m true 0), IH. reflexivity.
  - exists (2 * m). split; [simpl; lia|].
    cbn [combination]. rewrite Nat.testbit_even_0.
    apply mem_In in Hs. rewrite Hs.
    replace (2 * m) with (2 * m + 0) by lia.
    rewrite (combination_shift p nl m false 0). exact IH.
Qed.

Lemma collect_combinations_In : forall p nl masks acc c,
  In c (fold_left
          (fun acc mask =>
             match combination p nl mask 0 with
             | Some ((_ :: _) as c) => acc ++ [c]
             | _ => acc
             end) masks acc)
  <-> In c acc
      \/ (c <> [] /\ exists mask, In mask masks
                                 /\ combination p nl mask 0 = Some c).
Proof.
  intros p nl masks. induction masks as [|m masks IH]; simpl; intros acc c.
  - split; [auto | intros [H | (_ & m & [] & _)]; auto].
  - rewrite IH. destruct (combination p nl m 0) as [[|x c']|] eqn:E.
    + split.
      * intros [H | (Hne & m' & Hm & Hc)]; eauto 6.
      * intros [H | (Hne & m' & [<- | Hm] & Hc)]; eauto 6. congruence.
    + rewrite in_app_iff. simpl. split.
      * intros [[H | [<- | []]] | (Hne & m' & Hm & Hc)]; eauto 6.
        right. split; [discriminate|]. eauto.
      * intros [H | (Hne & m' & [<- | Hm] & Hc)]; eauto 6.
        rewrite E in Hc. injection Hc as <-. auto.
    + split.
      * intros [H | (Hne & m' & Hm & Hc)]; eauto 6.
      * intros [H | (Hne & m' & [<- | Hm] & Hc)]; eauto 6. congruence.
Qed.

Lemma append_new_NoDup : forall p l, NoDup l -> NoDup (append_new p l).
Proof.
  intros p l H. unfold append_new. destruct (mem_rhs p l) eqn:E; [assumption|].
  apply mem_rhs_not_In in E. apply NoDup_app; [assumption | | ].
  - repeat constructor. intros [].
  - intros x Hx [<- | []]. contradiction.
Qed.

Lemma unique_In : forall l acc c,
  In c (fold_left (fun unique combo => append_new combo unique) l acc)
  <-> In c acc \/ In c l.
Proof.
  induction l as [|p l IH]; simpl; intros acc c; [tauto|].
  rewrite IH, append_new_In. intuition congruence.
Qed.

Lemma unique_NoDup : forall l acc,
  NoDup acc ->
  NoDup (fold_left (fun unique combo => append_new combo unique) l acc).
Proof.
  induction l as [|p l IH]; simpl; intros acc H; [assumption|].
  apply IH. now apply append_new_NoDup.
Qed.

Lemma drops_refl : forall nl p, drops nl p p.
Proof. intros nl p. induction p; constructor; assumption. Qed.

Lemma drops_incl : forall nl p c, drops nl p c -> incl c p.
Proof.
  intros nl p c H. induction H as [|s p c _ IH | s p c _ _ IH].
  - apply incl_refl.
  - intros x [<- | Hx]; [now left | right; now apply IH].
  - intros x Hx. right. now apply IH.
Qed.

Lemma generate_nullable_combinations_In : forall production nullable c,
  production <> [] ->
  (In c (generate_nullable_combinations production nullable)
   <-> c <> [] /\ drops nullable production c).
Proof.
  intros production nullable c Hne.
  destruct production as [|s0 p0]; [congruence|].
  unfold generate_nullable_combinations.
  rewrite unique_In, collect_combinations_In. simpl In at 1 2. split.
  - intros [[] | [[] | (Hc & m & _ & E)]].
    split; [assumption | now apply combination_sound in E].
  - intros [Hc H]. right. right. split; [assumption|].
    destruct (combination_complete H) as (m & Hm & E).
    exists m. split; [|assumption]. apply in_seq. lia.
Qed.

(** X10. [generate_nullable_combinations] returns, for a right-hand side
    that is not empty, exactly its versions with some occurrences of
    nullable symbols left out, the empty one excepted, each of them once;
    the right-hand side itself is one of them. For the empty right-hand
    side it returns the list that holds the empty right-hand side. *)
Theorem nullable_combinations_spec :
  forall production nullable,
    generate_nullable_combinations [] nullable = [[]]
    /\ NoDup (generate_nullable_combinations production nullable)
    /\ (production <> [] ->
        In production (generate_nullable_combinations production nullable)
        /\ forall c,
             In c (generate_nullable_combinations production nullable)
             <-> c <> [] /\ drops nullable production c).
Proof.
  intros production nullable. split; [reflexivity|]. split.
  - destruct production as [|s p]; [repeat constructor; intros []|].
    unfold generate_nullable_combinations. apply unique_NoDup. constructor.
  - intros Hne. split.
    + apply generate_nullable_combinations_In; [assumption|].
      split; [assumption | apply drops_refl].
    + intros c. now apply generate_nullable_combinations_In.
Qed.

Lemma nullable_combinations_spec_witness :
  In ["A"; "b"; "C"] (generate_nullable_combinations ["A"; "b"; "C"] ["A"; "C"])
  /\ forall c,
       In c (generate_nullable_combinations ["A"; "b"; "C"] ["A"; "C"])
       <-> c <> [] /\ drops ["A"; "C"] ["A"; "b"; "C"] c.
Proof.
  apply (nullable_combinations_spec ["A"; "b"; "C"] ["A"; "C"]).
  discriminate.
Defined.

(** ** Stage A *)

Lemma epsilon_free_rhs_In : forall nl l p,
  In p (epsilon_free_rhs nl l)
  <-> p <> []
      /\ exists q, In q l /\ is_direct_epsilon q = false /\ drops nl q p.
Proof.
  intros nl l p. unfold epsilon_free_rhs.
  assert (I : forall cs acc,
    In p (fold_left
            (fun acc' c => match c with
                           | [] => acc'
                           | _ => append_new c acc'
                           end) cs acc)
    <-> In p acc \/ (p <> [] /\ In p cs)).
  { induction cs as [|c cs IH]; simpl; intros acc.
    - split; [auto | intros [H | [_ []]]; auto].
    - rewrite IH. destruct c as [|x c].
      + split.
        * intros [H | [Hne H]]; auto.
        * intros [H | [Hne [<- | H]]]; auto. congruence.
      + rewrite append_new_In. split.
        * intros [[-> | H] | [Hne H]]; auto.
          right. split; [discriminate | now left].
        * intros [H | [Hne [<- | H]]]; auto. }
  assert (G : forall l' acc,
    In p (fold_left
            (fun acc0 prod =>
               if is_direct_epsilon prod then acc0
               else fold_left
                      (fun acc' c => match c with
                                     | [] => acc'
                                     | _ => append_new c acc'
                                     end)
                      (generate_nullable_combinations prod nl) acc0) l' acc)
    <-> In p acc
        \/ (p <> []
            /\ exists q, In q l' /\ is_direct_epsilon q = false
                         /\ drops nl q p)).
  { induction l' as [|q l' IH]; simpl; intros acc.
    - split; [auto | intros [H | (_ & q & [] & _)]; auto].
    - rewrite IH. destruct (is_direct_epsilon q) eqn:Eq.
      + split.
        * intros [H | (Hne & q' & Hq & E & D)]; eauto 8.
        * intros [H | (Hne & q' & [<- | Hq] & E & D)]; eauto 8. congruence.
      + assert (Nq : q <> []) by (intros ->; discriminate).
        rewrite I. split.
        * intros [[H | [Hne H]] | (Hne & q' & Hq & E & D)]; eauto 8.
          apply generate_nullable_combinations_In in H; [|assumption].
          right. split; [assumption|]. exists q. tauto.
        * intros [H | (Hne & q' & [<- | Hq] & E & D)]; eauto 8.
          left. right. split; [assumption|].
          apply generate_nullable_combinations_In; auto. }
  rewrite G. simpl. tauto.
Qed.

Lemma is_dict_set : forall V (d : dict V) k v,
  is_dict d -> is_dict (dict_set d k v).
Proof.
  unfold is_dict, keys.
  induction d as [|[k' v'] d IH]; simpl; intros k v H.
  - repeat constructor. intros [].
  - inversion H as [|? ? Hn Hd]; subst.
    destruct (String.eqb k k') eqn:E; simpl; [now constructor|].
    constructor; [|now apply IH].
    intros Hin. apply (keys_set d k v k') in Hin.
    apply String.eqb_neq in E. destruct Hin as [-> | Hin]; [congruence|].
    contradiction.
Qed.

(** The converter after stage A. *)
Lemma eliminate_epsilon_productions_shape : forall c,
  exists c',
    eliminate_epsilon_productions c = inr c'
    /\ let g := grammar c in
       let g' := grammar c' in
       let made := fun a =>
         exists s, start_symbol g = Some s
                   /\ In s (find_nullable_symbols g)
                   /\ start_symbol g' = Some a in
       terminals g' = terminals g
       /\ (forall a, ~ made a ->
             prods_of (productions g') a
             = epsilon_free_rhs (find_nullable_symbols g)
                 (prods_of (productions g) a))
       /\ (forall a, made a ->
             exists s, start_symbol g = Some s
                       /\ In s (keys (productions g))
                       /\ (prods_of (productions g') a = [[s]]
                           \/ prods_of (productions g') a = [[s]; []]))
       /\ (forall x, In x (keys (productions g)) ->
                     In x (keys (productions g')))
       /\ (forall a, made a -> In a (keys (productions g')))
       /\ (forall x, In x (non_terminals g') ->
                     In x (non_terminals g) \/ made x)
       /\ (is_dict (productions g) -> is_dict (productions g')).
Proof.
  intros c. unfold eliminate_epsilon_productions.
  change (grammar (print_step c)) with (grammar c).
  change (new_var_counter (print_step c)) with (new_var_counter c).
  set (g := grammar c).
  set (nl := find_nullable_symbols g).
  set (np := map (fun vp => (fst vp, epsilon_free_rhs nl (snd vp)))
                 (productions g)).
  assert (Enp : forall a,
            prods_of np a = epsilon_free_rhs nl (prods_of (productions g) a))
    by (intros a; unfold np; now rewrite prods_of_map_snd).
  assert (Knp : keys np = keys (productions g))
    by (unfold np; apply keys_map_snd).
  assert (Plain : forall c0,
    grammar c0 = mkGrammar np (terminals g) (non_terminals g) (start_symbol g) ->
    (forall s, start_symbol g = Some s -> ~ In s nl) ->
    let g' := grammar c0 in
    let made := fun a =>
      exists s, start_symbol g = Some s /\ In s nl
                /\ start_symbol g' = Some a in
    terminals g' = terminals g
    /\ (forall a, ~ made a ->
          prods_of (productions g') a
          = epsilon_free_rhs nl (prods_of (productions g) a))
    /\ (forall a, made a ->
          exists s, start_symbol g = Some s
                    /\ In s (keys (productions g))
                    /\ (prods_of (productions g') a = [[s]]
                        \/ prods_of (productions g') a = [[s]; []]))
    /\ (forall x, In x (keys (productions g)) ->
                  In x (keys (productions g')))
    /\ (forall a, made a -> In a (keys (productions g')))
    /\ (forall x, In x (non_terminals g') ->
                  In x (non_terminals g) \/ made x)
    /\ (is_dict (productions g) -> is_dict (productions g'))).
  { intros c0 E Hno g' made. unfold g'. rewrite E. simpl.
    assert (Nm : forall a, ~ made a).
    { intros a (s & Hs & Hn & _). now apply (Hno s). }
    split; [reflexivity|]. split; [intros a _; apply Enp|].
    split; [intros a Ha; now destruct (Nm a)|].
    split; [intros x Hx; now rewrite Knp|].
    split; [intros a Ha; now destruct (Nm a)|].
    split; [auto|]. unfold is_dict. now rewrite Knp. }
  destruct (start_symbol g) as [s|] eqn:Es.
  2:{ eexists. split; [reflexivity|]. apply Plain; [reflexivity|].
      intros s E. discriminate. }
  destruct (mem s nl) eqn:En.
  2:{ eexists. split; [reflexivity|]. apply Plain; [reflexivity|].
      intros s0 E. injection E as <-. now apply mem_not_In. }
  apply mem_In in En.
  assert (Ks : In s (keys (productions g))) by now apply nullable_keys.
  destruct (generate_new_variable "S" (new_var_counter c) (non_terminals g))
    as [s' counter].
  assert (Hget : exists old, dict_get (dict_set np s' [[s]]) s = Some old).
  { apply dict_get_keys. apply keys_set. right. now rewrite Knp. }
  destruct Hget as [old Hget]. unfold dict_lookup. rewrite Hget.
  cbn [bind ret]. eexists. split; [reflexivity|].
  cbn [grammar terminals productions start_symbol non_terminals].
  set (np2 := match old with
              | [] => dict_set (dict_set np s' [[s]]) s'
                        (prods_of (dict_set np s' [[s]]) s' ++ [[]])
              | _ :: _ => dict_set np s' [[s]]
              end).
  assert (Hother : forall a, s' <> a -> prods_of np2 a = prods_of np a).
  { intros a Na. unfold np2.
    destruct old; rewrite ?prods_of_set_other by assumption; reflexivity. }
  assert (Hsame : prods_of np2 s' = [[s]] \/ prods_of np2 s' = [[s]; []]).
  { unfold np2. destruct old; rewrite !prods_of_set_same; auto. }
  assert (Hkeys : forall x, In x (keys np2) <-> x = s' \/ In x (keys np)).
  { intros x. unfold np2. destruct old; rewrite ?keys_set; tauto. }
  split; [reflexivity|]. split; [|split; [|split; [|split; [|split]]]].
  - intros a Ha. rewrite Hother; [apply Enp|].
    intros ->. apply Ha. exists s. auto.
  - intros a (s0 & E0 & _ & E1). injection E0 as <-. injection E1 as <-.
    exists s. auto.
  - intros x Hx. apply Hkeys. right. now rewrite Knp.
  - intros a (s0 & _ & _ & E1). injection E1 as <-. apply Hkeys. now left.
  - intros x Hx. apply add_In in Hx. destruct Hx as [-> | Hx]; [|now left].
    right. exists s. auto.
  - intros Hd. unfold np2.
    assert (Hnp : is_dict np) by (unfold is_dict; now rewrite Knp).
    destruct old; repeat apply is_dict_set; assumption.
Qed.

(** X11. [eliminate_epsilon_productions] always returns. It keeps the
    terminals and every variable with an entry, and, the start symbol it
    may have made apart, the right-hand sides of a variable are afterwards
    exactly the versions, not empty, of its right-hand sides other than the
    empty one and ['ε'] in which some occurrences of nullable symbols are
    left out. So an empty right-hand side is found afterwards on a newly
    made start symbol only. *)
Theorem epsilon_elimination_rewrites :
  forall c,
    exists c',
      eliminate_epsilon_productions c = inr c'
      /\ let g := grammar c in
         let g' := grammar c' in
         let made := fun a =>
           exists s, start_symbol g = Some s
                     /\ In s (find_nullable_symbols g)
                     /\ start_symbol g' = Some a in
         terminals g' = terminals g
         /\ (forall x, In x (keys (productions g)) ->
                       In x (keys (productions g')))
         /\ (forall a p,
               ~ made a ->
               (In p (prods_of (productions g') a)
                <-> p <> []
                    /\ exists q, In q (prods_of (productions g) a)
                                 /\ is_direct_epsilon q = false
                                 /\ drops (find_nullable_symbols g) q p))
         /\ (forall a, In [] (prods_of (productions g') a) -> made a).
Proof.
  intros c.
  destruct (eliminate_epsilon_productions_shape c)
    as (c' & E & Kt & Kp & _ & Kk & _).
  exists c'. split; [assumption|]. cbv zeta.
  set (g := grammar c) in *. set (g' := grammar c') in *.
  set (made := fun a =>
         exists s, start_symbol g = Some s
                   /\ In s (find_nullable_symbols g)
                   /\ start_symbol g' = Some a) in *.
  split; [assumption|]. split; [assumption|]. split.
  - intros a p Ha. rewrite (Kp a Ha). apply epsilon_free_rhs_In.
  - intros a Ha.
    assert (Dec : made a \/ ~ made a).
    { unfold made. destruct (start_symbol g) as [s|];
        [|right; intros (s & E0 & _); discriminate].
      destruct (in_dec string_dec s (find_nullable_symbols g)) as [Hs | Hs];
        [|right; intros (s0 & E0 & Hs0 & _); injection E0 as <-; contradiction].
      destruct (start_symbol g') as [s'|];
        [|right; intros (s0 & _ & _ & E0); discriminate].
      destruct (string_dec s' a) as [-> | N].
      - left. exists s. auto.
      - right. intros (s0 & _ & _ & E0). congruence. }
    destruct Dec as [Hm | Hm]; [assumption|].
    rewrite (Kp a Hm) in Ha. apply epsilon_free_rhs_In in Ha.
    destruct Ha as [Hne _]. congruence.
Qed.

(** ** When stage B returns *)

Lemma unit_free_rhs_returns : forall g var (up : pairs) acc,
  (forall b, In (var, b) up -> In b (keys (productions g))) ->
  exists l,
    fold_left
      (fun racc ab =>
         acc <- racc ;;
         if String.eqb (fst ab) var
         then l <- dict_lookup (productions g) (snd ab) ;;
              ret (add_non_unit (non_terminals g) l acc)
         else ret acc)
      up (inr acc) = inr l.
Proof.
  intros g var up. induction up as [|[a b] up IH]; cbn [fold_left];
    intros acc H; [eauto|].
  cbn [bind fst snd]. destruct (String.eqb a var) eqn:Ea.
  - apply String.eqb_eq in Ea. subst a.
    assert (Hb : In b (keys (productions g))) by (apply H; now left).
    apply dict_get_keys in Hb. destruct Hb as [l Hl].
    assert (El : dict_lookup (productions g) b = inr l)
      by (unfold dict_lookup; now rewrite Hl).
    rewrite El. cbn [bind ret].
    apply IH. intros b' Hb'. apply H. now right.
  - cbn [ret]. apply IH. intros b' Hb'. apply H. now right.
Qed.

Lemma unit_free_rhs_error : forall g var (up : pairs) acc e,
  fold_left
    (fun racc ab =>
       acc <- racc ;;
       if String.eqb (fst ab) var
       then l <- dict_lookup (productions g) (snd ab) ;;
            ret (add_non_unit (non_terminals g) l acc)
       else ret acc)
    up (inr acc) = inl e ->
  exists b, In (var, b) up /\ ~ In b (keys (productions g)) /\ e = KeyError b.
Proof.
  intros g var up. induction up as [|[a b] up IH]; cbn [fold_left];
    intros acc e H; [discriminate|].
  cbn [bind fst snd] in H. destruct (String.eqb a var) eqn:Ea.
  - apply String.eqb_eq in Ea. subst a.
    destruct (dict_lookup (productions g) b) as [e'|l] eqn:Eb;
      cbn [bind ret] in H.
    + rewrite unit_free_rhs_raise in H. injection H as <-.
      unfold dict_lookup in Eb.
      destruct (dict_get (productions g) b) eqn:Eg; [discriminate|].
      injection Eb as <-.
      exists b. split; [now left|].
      split; [now apply dict_get_None | reflexivity].
    + destruct (IH _ _ H) as (b' & Hb' & Hk & He).
      exists b'. split; [now right | auto].
  - cbn [ret] in H. destruct (IH _ _ H) as (b' & Hb' & Hk & He).
    exists b'. split; [now right | auto].
Qed.

Lemma unit_free_rhs_ok : forall g var (up : pairs) acc l',
  fold_left
    (fun racc ab =>
       acc <- racc ;;
       if String.eqb (fst ab) var
       then l <- dict_lookup (productions g) (snd ab) ;;
            ret (add_non_unit (non_terminals g) l acc)
       else ret acc)
    up (inr acc) = inr l' ->
  forall b, In (var, b) up -> In b (keys (productions g)).
Proof.
  intros g var up. induction up as [|[a b] up IH]; cbn [fold_left];
    intros acc l' H b0 Hb0; [contradiction|].
  cbn [bind fst snd] in H. destruct (String.eqb a var) eqn:Ea.
  - apply String.eqb_eq in Ea. subst a.
    destruct (dict_lookup (productions g) b) as [e'|l] eqn:Eb;
      cbn [bind ret] in H.
    + rewrite unit_free_rhs_raise in H. discriminate.
    + destruct Hb0 as [E | Hb0]; [|now apply (IH _ _ H)].
      injection E as <-. unfold dict_lookup in Eb.
      apply dict_get_keys.
      destruct (dict_get (productions g) b) eqn:Eg; [eauto | discriminate].
  - cbn [ret] in H. destruct Hb0 as [E | Hb0]; [|now apply (IH _ _ H)].
    injection E as -> _. rewrite String.eqb_refl in Ea. discriminate.
Qed.

Lemma unit_free_productions_returns : forall g up d,
  (forall a b, In a (keys d) -> In (a, b) up -> In b (keys (productions g))) ->
  exists d', unit_free_productions g up d = inr d'.
Proof.
  intros g up. induction d as [|[v own] d IH]; cbn [unit_free_productions];
    intros H; [eexists; reflexivity|].
  destruct (@unit_free_rhs_returns g v up (add_non_unit (non_terminals g) own []))
    as [l Hl].
  { intros b Hb. apply (H v); [now left | assumption]. }
  assert (El : unit_free_rhs g up v own = inr l) by exact Hl.
  rewrite El. cbn [bind].
  destruct IH as [d' Hd'].
  { intros a b Ha. apply H. now right. }
  rewrite Hd'. cbn [bind ret]. eexists. reflexivity.
Qed.

Lemma unit_free_productions_error : forall g up d e,
  unit_free_productions g up d = inl e ->
  exists a b, In a (keys d) /\ In (a, b) up
              /\ ~ In b (keys (productions g)) /\ e = KeyError b.
Proof.
  intros g up. induction d as [|[v own] d IH]; cbn [unit_free_productions];
    intros e H; [discriminate|].
  destruct (unit_free_rhs g up v own) as [e'|l] eqn:El; cbn [bind] in H.
  - injection H as <-. unfold unit_free_rhs in El.
    apply unit_free_rhs_error in El. destruct El as (b & Hb & Hk & He).
    exists v, b. split; [now left | auto].
  - destruct (unit_free_productions g up d) as [e'|rest] eqn:Er;
      cbn [bind ret] in H; [|discriminate].
    injection H as <-. destruct (IH _ eq_refl) as (a & b & Ha & Hb & Hk & He).
    exists a, b. split; [now right | auto].
Qed.

(** The second component of a pair of the closure is the target of a unit
    production. *)
Lemma unit_closure_target : forall g a b,
  unit_closure g a b -> exists a', unit_pair g a' b.
Proof.
  intros g a b H. induction H as [x y H | x y z _ _ _ IH]; eauto.
Qed.

Lemma unit_pair_key : forall g a b,
  unit_pair g a b -> In a (keys (productions g)).
Proof.
  intros g a b [H _]. now apply key_has_production with (p := [b]).
Qed.

Lemma eliminate_unit_productions_returns : forall c,
  is_dict (productions (grammar c)) ->
  (forall a b, unit_pair (grammar c) a b ->
               In b (keys (productions (grammar c)))) ->
  exists c', eliminate_unit_productions c = inr c'.
Proof.
  intros c Hd H. unfold eliminate_unit_productions.
  change (grammar (print_step c)) with (grammar c).
  set (g := grammar c) in *.
  destruct (@unit_free_productions_returns g (find_unit_productions g)
              (productions g)) as [d' Hd'].
  - intros a b _ Hab. apply (find_unit_productions_closure g a b Hd) in Hab.
    destruct (unit_closure_target Hab) as [a' Ha']. now apply (H a' b).
  - rewrite Hd'. cbn [bind ret]. eexists. reflexivity.
Qed.

(** X12. [eliminate_unit_productions] returns exactly when every symbol
    that is the right-hand side of a unit production has an entry in the
    dictionary of the productions. When it does not return on the grammar
    that stage A has left, as inside [to_cnf], where the dictionary is a
    plain [dict], it raises [KeyError] for such a symbol without an
    entry. *)
Theorem unit_elimination_returns_iff :
  (forall c,
      is_dict (productions (grammar c)) ->
      ((exists c', eliminate_unit_productions c = inr c')
       <-> forall a b, unit_pair (grammar c) a b ->
                       In b (keys (productions (grammar c)))))
  /\ (forall c0 c e,
        is_dict (productions (grammar c0)) ->
        eliminate_epsilon_productions c0 = inr c ->
        eliminate_unit_productions c = inl e ->
        exists a b, unit_pair (grammar c) a b
                    /\ ~ In b (keys (productions (grammar c)))
                    /\ e = KeyError b).
Proof.
  split.
  - intros c Hd. split.
    + intros [c' H] a b Hab.
      destruct (in_dec string_dec b (keys (productions (grammar c))))
        as [Hb | Hb]; [assumption|].
      exfalso.
      unfold eliminate_unit_productions in H.
      change (grammar (print_step c)) with (grammar c) in H.
      set (g := grammar c) in *.
      destruct (unit_free_productions g (find_unit_productions g)
                  (productions g))
        as [e'|d'] eqn:Ed; cbn [bind ret] in H; [discriminate|].
      pose proof (unit_free_productions_spec _ _ _ Ed a) as Ha.
      pose proof (unit_pair_key Hab) as Ka. apply dict_get_keys in Ka.
      destruct Ka as [own Hown]. rewrite Hown in Ha.
      destruct Ha as (l' & Hl & _). unfold unit_free_rhs in Hl.
      assert (Hin : In (a, b) (find_unit_productions g)).
      { apply (find_unit_productions_closure g a b Hd). now apply t_step. }
      apply Hb. exact (unit_free_rhs_ok _ _ _ _ Hl b Hin).
    + intros H. now apply eliminate_unit_productions_returns.
  - intros c0 c e Hd0 HA H.
    assert (Hd : is_dict (productions (grammar c))).
    { destruct (eliminate_epsilon_productions_shape c0) as (c1 & E & S).
      rewrite HA in E. injection E as <-. now apply S. }
    unfold eliminate_unit_productions in H.
    change (grammar (print_step c)) with (grammar c) in H.
    set (g := grammar c) in *.
    destruct (unit_free_productions g (find_unit_productions g) (productions g))
      as [e'|d'] eqn:Ed; cbn [bind ret] in H; [|discriminate].
    injection H as <-.
    apply unit_free_productions_error in Ed.
    destruct Ed as (a & b & _ & Hab & Hk & He).
    apply (find_unit_productions_closure g a b Hd) in Hab.
    destruct (unit_closure_target Hab) as [a' Ha']. eauto.
Qed.

Lemma unit_elimination_returns_iff_witness :
  exists c a b,
    eliminate_epsilon_productions (new_converter unit_to_missing) = inr c
    /\ unit_pair (grammar c) a b
    /\ ~ In b (keys (productions (grammar c)))
    /\ eliminate_unit_productions c = inl (KeyError b).
Proof.
  let r := eval vm_compute in
             (eliminate_epsilon_productions (new_converter unit_to_missing)) in
  match r with
  | inr ?c =>
      exists c;
      destruct (proj2 unit_elimination_returns_iff
                  (new_converter unit_to_missing) c (KeyError "S"))
        as (a & b & Hab & Hb & E)
  end.
  - repeat constructor; simpl; intuition discriminate.
  - vm_compute. reflexivity.
  - vm_compute. reflexivity.
  - exists a, b. injection E as <-.
    split; [vm_compute; reflexivity|]. split; [exact Hab|].
    split; [exact Hb | vm_compute; reflexivity].
Defined.

(* ================================================================= *)
(** * Validation *)

Lemma used_non_terminals_In : forall g x,
  In x (used_non_terminals g)
  <-> exists a l p,
        In (a, l) (productions g) /\ In p l /\ In x p
        /\ ~ In x (terminals g) /\ x <> "".
Proof.
  intros g x. unfold used_non_terminals.
  assert (I3 : forall (p : rhs) (acc : set symbol),
    In x (fold_left
            (fun used'' s =>
               if negb (mem s (terminals g)) && negb (String.eqb s "")
               then add s used'' else used'') p acc)
    <-> In x acc \/ (In x p /\ ~ In x (terminals g) /\ x <> "")).
  { induction p as [|s p IH]; simpl; intros acc; [tauto|].
    rewrite IH.
    destruct (negb (mem s (terminals g)) && negb (String.eqb s "")) eqn:E.
    - apply andb_true_iff in E. destruct E as [E1 E2].
      apply negb_true_iff in E1, E2. apply mem_not_In in E1.
      apply String.eqb_neq in E2. rewrite add_In.
      split; [intros [[-> | H] | H]; tauto | intros [H | [[<- | H] H']]; tauto].
    - split; [tauto|]. intros [H | [[<- | H] [H1 H2]]]; auto.
      apply mem_not_In in H1. apply String.eqb_neq in H2.
      rewrite H1, H2 in E. discriminate. }
  assert (I2 : forall (l : list rhs) (acc : set symbol),
    In x (fold_left
            (fun used' prod =>
               fold_left
                 (fun used'' s =>
                    if negb (mem s (terminals g)) && negb (String.eqb s "")
                    then add s used'' else used'') prod used') l acc)
    <-> In x acc
        \/ exists p, In p l /\ In x p /\ ~ In x (terminals g) /\ x <> "").
  { induction l as [|p l IH]; simpl; intros acc.
    - split; [auto | intros [H | (p & [] & _)]; auto].
    - rewrite IH, I3. split.
      + intros [[H | H] | (q & Hq & H)]; eauto 6.
      + intros [H | (q & [<- | Hq] & H)]; eauto 6. }
  assert (I1 : forall (d : dict (list rhs)) (acc : set symbol),
    In x (fold_left
            (fun used vp =>
               fold_left
                 (fun used' prod =>
                    fold_left
                      (fun used'' s =>
                         if negb (mem s (terminals g))
                            && negb (String.eqb s "")
                         then add s used'' else used'') prod used')
                 (snd vp) used) d acc)
    <-> In x acc
        \/ exists a l p, In (a, l) d /\ In p l /\ In x p
                         /\ ~ In x (terminals g) /\ x <> "").
  { induction d as [|[a l] d IH]; simpl; intros acc.
    - split; [auto | intros [H | (a & l & p & [] & _)]; auto].
    - rewrite IH, I2. split.
      + intros [[H | (p & Hp & H)] | (a' & l' & p & Hin & H)]; eauto 10.
      + intros [H | (a' & l' & p & [E | Hin] & H)]; eauto 10.
        inversion E; subst. left. right. exists p. tauto. }
  rewrite I1. simpl. tauto.
Qed.

Lemma app_not_nil : forall (A : Type) (l : list A) x, l ++ [x] <> [].
Proof. intros A [|a l] x; discriminate. Qed.

Lemma validate_true : forall g,
  fst (validate g) = true
  <-> truthy (start_symbol g) = true
      /\ productions g <> []
      /\ (forall s, start_symbol g = Some s -> In s (keys (productions g)))
      /\ (forall a l p x,
            In (a, l) (productions g) -> In p l -> In x p ->
            ~ In x (terminals g) -> x <> "" ->
            In x (keys (productions g))).
Proof.
  intros g. unfold validate. cbn [fst].
  set (undefined := filter (fun x => negb (dict_mem (productions g) x))
                           (used_non_terminals g)).
  assert (Hmem : forall x, dict_mem (productions g) x = true
                           <-> In x (keys (productions g))).
  { intros x. unfold dict_mem. rewrite dict_get_keys.
    destruct (dict_get (productions g) x); split; eauto;
      [discriminate | intros [v H]; discriminate]. }
  assert (Hund : undefined = []
                 <-> forall a l p x,
                       In (a, l) (productions g) -> In p l -> In x p ->
                       ~ In x (terminals g) -> x <> "" ->
                       In x (keys (productions g))).
  { split.
    - intros E a l p x Hin Hp Hx Ht Hne.
      destruct (dict_mem (productions g) x) eqn:Em; [now apply Hmem|].
      exfalso. assert (Hu : In x undefined).
      { apply filter_In. split; [|now rewrite Em].
        apply used_non_terminals_In. eauto 8. }
      rewrite E in Hu. contradiction.
    - intros H. apply list_empty_no_element. intros x Hx.
      apply filter_In in Hx. destruct Hx as [Hx Hn].
      apply used_non_terminals_In in Hx.
      destruct Hx as (a & l & p & Hin & Hp & Hxp & Ht & Hne).
      apply negb_true_iff in Hn.
      assert (Hk : dict_mem (productions g) x = true)
        by (apply Hmem; eauto).
      congruence. }
  destruct (truthy (start_symbol g)) eqn:Et.
  2:{ split; [|intros [H _]; discriminate].
      destruct (productions g); destruct (start_symbol g) as [s|];
        try (destruct (truthy (Some s) && negb (dict_mem _ s)));
        destruct undefined; simpl; discriminate. }
  destruct (start_symbol g) as [s|] eqn:Es; [|discriminate].
  rewrite Et. cbn [andb].
  destruct (productions g) as [|vp d] eqn:Ep.
  { split; [|intros (_ & H & _); congruence].
    cbn [app]. destruct (negb (dict_mem [] s)); destruct undefined;
      simpl; discriminate. }
  rewrite <- Ep in *.
  destruct (dict_mem (productions g) s) eqn:Em; cbn [negb].
  - destruct undefined as [|u us] eqn:Eu.
    + split; [|reflexivity]. intros _.
      split; [reflexivity|]. split; [congruence|]. split.
      * intros s0 E. injection E as <-. now apply Hmem.
      * now apply Hund.
    + split; [discriminate|]. intros (_ & _ & _ & H).
      apply Hund in H. discriminate.
  - split.
    + destruct undefined; simpl; discriminate.
    + intros (_ & _ & H & _). specialize (H s eq_refl).
      apply Hmem in H. congruence.
Qed.

(** X13. [validate] answers [True], with an empty list of errors, exactly
    when the start symbol is set and is not the empty string, there is at
    least one entry in the dictionary of the productions, the start symbol
    has an entry, and every symbol of a right-hand side that is no terminal
    and not the empty string has an entry. *)
Theorem validate_spec :
  forall g,
    (fst (validate g) = true <-> snd (validate g) = [])
    /\ (fst (validate g) = true
        <-> truthy (start_symbol g) = true
            /\ productions g <> []
            /\ (forall s, start_symbol g = Some s ->
                          In s (keys (productions g)))
            /\ (forall a l p x,
                  In (a, l) (productions g) -> In p l -> In x p ->
                  ~ In x (terminals g) -> x <> "" ->
                  In x (keys (productions g)))).
Proof.
  intros g. split.
  - assert (E : fst (validate g)
                 = match snd (validate g) with [] => true | _ => false end)
      by reflexivity.
    rewrite E.
    destruct (snd (validate g)); split; intros H; try reflexivity;
      discriminate.
  - apply validate_true.
Qed.

(** ** A valid grammar is converted *)

Lemma made_dec : forall g g' a,
  let made := fun a =>
    exists s, start_symbol g = Some s
              /\ In s (find_nullable_symbols g)
              /\ start_symbol g' = Some a in
  made a \/ ~ made a.
Proof.
  intros g g' a made. unfold made.
  destruct (start_symbol g) as [s|];
    [|right; intros (s & E0 & _); discriminate].
  destruct (in_dec string_dec s (find_nullable_symbols g)) as [Hs | Hs];
    [|right; intros (s0 & E0 & Hs0 & _); injection E0 as <-; contradiction].
  destruct (start_symbol g') as [s'|];
    [|right; intros (s0 & _ & _ & E0); discriminate].
  destruct (string_dec s' a) as [-> | N].
  - left. exists s. auto.
  - right. intros (s0 & _ & _ & E0). congruence.
Qed.

(** X14. [to_cnf] returns for every grammar that [validate] accepts, that
    has no symbol in both of its symbol sets, and that has not the empty
    string among its non-terminals: no stage raises [KeyError]. *)
Theorem valid_grammar_is_converted :
  forall g,
    is_dict (productions g) ->
    fst (validate g) = true ->
    (forall x, In x (terminals g) -> ~ In x (non_terminals g)) ->
    ~ In "" (non_terminals g) ->
    exists r, convert g = inr r.
Proof.
  intros g Hd Hv Hdis Hempty.
  apply validate_true in Hv. destruct Hv as (_ & _ & _ & Hdef).
  unfold convert, new_converter. rewrite copy_id. unfold to_cnf.
  set (c := mkConverter g g 0 1).
  destruct (eliminate_epsilon_productions_shape c)
    as (c1 & E1 & _ & Kp & Km & Kk & Kmk & Kn & Kd).
  change (grammar c) with g in *.
  rewrite E1. cbn [bind].
  destruct (@eliminate_unit_productions_returns c1 (Kd Hd)) as [c2 E2].
  { intros a b [Hp Hb].
    destruct (made_dec g (grammar c1) a) as [Ha | Ha].
    - destruct (Km a Ha) as (s & _ & Ks & [E | E]); rewrite E in Hp.
      + destruct Hp as [Hp | []]. injection Hp as <-. now apply Kk.
      + destruct Hp as [Hp | [Hp | []]]; [|discriminate].
        injection Hp as <-. now apply Kk.
    - rewrite (Kp a Ha) in Hp. apply epsilon_free_rhs_In in Hp.
      destruct Hp as (_ & q & Hq & _ & Hdrops).
      apply drops_incl in Hdrops.
      assert (Hbq : In b q) by (apply Hdrops; now left).
      destruct (Kn b Hb) as [Hnt | Hmade]; [|now apply Kmk].
      apply Kk. apply (@In_prods_of g a q Hd) in Hq.
      destruct Hq as (l & Hl & Hq).
      apply (Hdef a l q b); auto.
      + intros Ht. now apply (Hdis b).
      + intros ->. contradiction. }
  rewrite E2. cbn [bind].
  unfold eliminate_useless_symbols. cbn [bind ret].
  unfold convert_to_binary_form. cbn [bind ret].
  eexists. reflexivity.
Qed.

Lemma valid_grammar_is_converted_witness :
  exists r, convert scenario1 = inr r.
Proof.
  apply (@valid_grammar_is_converted scenario1).
  - repeat constructor; simpl; intuition discriminate.
  - vm_compute. reflexivity.
  - intros x Hx. vm_compute in Hx |- *. intuition (subst; discriminate).
  - vm_compute. intuition discriminate.
Defined.

(* ================================================================= *)
(** * Stage D *)

(** ** Right-hand sides of at most two symbols *)

Lemma In_dict_set : forall V (d : dict V) k v a x,
  In (a, x) (dict_set d k v) -> (a = k /\ x = v) \/ In (a, x) d.
Proof.
  induction d as [|[k' v'] d IH]; simpl; intros k v a x H.
  - destruct H as [H | []]. injection H as <- <-. auto.
  - destruct (String.eqb k k') eqn:E.
    + apply String.eqb_eq in E. subst k'.
      destruct H as [H | H]; [injection H as <- <-; auto | auto].
    + destruct H as [H | H]; [auto|].
      destruct (IH _ _ _ _ H) as [H' | H']; auto.
Qed.

Lemma In_prods_of_entry : forall (d : dict (list rhs)) k p,
  In p (prods_of d k) -> exists l, In (k, l) d /\ In p l.
Proof.
  intros d k p H. unfold prods_of in H.
  destruct (dict_get d k) as [l|] eqn:E; [|contradiction].
  exists l. split; [now apply dict_get_In | assumption].
Qed.

Lemma dict_append_short : forall d var p,
  (forall a l q, In (a, l) d -> In q l -> length q <= 2) ->
  length p <= 2 ->
  forall a l q, In (a, l) (dict_append d var p) -> In q l -> length q <= 2.
Proof.
  intros d var p Hd Hp a l q Hin Hq. unfold dict_append in Hin.
  apply In_dict_set in Hin. destruct Hin as [[-> ->] | Hin]; [|eauto].
  apply in_app_or in Hq. destruct Hq as [Hq | [<- | []]]; [|assumption].
  apply In_prods_of_entry in Hq. destruct Hq as (l & Hl & Hq). eauto.
Qed.

Lemma convert_long_production_short : forall production var st,
  (forall a l q, In (a, l) (bin_dict st) -> In q l -> length q <= 2) ->
  forall a l q,
    In (a, l) (bin_dict (convert_long_production var production st)) ->
    In q l -> length q <= 2.
Proof.
  induction production as [|p0 rest IH]; intros var st Hst.
  - cbn [convert_long_production bin_dict].
    destruct (dict_mem (bin_dict st) var).
    + destruct (mem_rhs [] (prods_of (bin_dict st) var)); [assumption|].
      apply dict_append_short; [assumption | simpl; lia].
    + assert (H0 : forall a l q,
                In (a, l) (dict_set (bin_dict st) var []) -> In q l ->
                length q <= 2).
      { intros a l q Hin Hq. apply In_dict_set in Hin.
        destruct Hin as [[-> ->] | Hin]; [contradiction | eauto]. }
      destruct (mem_rhs [] (prods_of (dict_set (bin_dict st) var []) var));
        [assumption|].
      apply dict_append_short; [assumption | simpl; lia].
  - destruct rest as [|p1 [|p2 rest']].
    + cbn [convert_long_production bin_dict].
      assert (H0 : forall a l q,
                In (a, l) (if dict_mem (bin_dict st) var then bin_dict st
                           else dict_set (bin_dict st) var []) -> In q l ->
                length q <= 2).
      { destruct (dict_mem (bin_dict st) var); [assumption|].
        intros a l q Hin Hq. apply In_dict_set in Hin.
        destruct Hin as [[-> ->] | Hin]; [contradiction | eauto]. }
      destruct (mem_rhs [p0] _); [assumption|].
      apply dict_append_short; [assumption | simpl; lia].
    + cbn [convert_long_production bin_dict].
      assert (H0 : forall a l q,
                In (a, l) (if dict_mem (bin_dict st) var then bin_dict st
                           else dict_set (bin_dict st) var []) -> In q l ->
                length q <= 2).
      { destruct (dict_mem (bin_dict st) var); [assumption|].
        intros a l q Hin Hq. apply In_dict_set in Hin.
        destruct Hin as [[-> ->] | Hin]; [contradiction | eauto]. }
      destruct (mem_rhs [p0; p1] _); [assumption|].
      apply dict_append_short; [assumption | simpl; lia].
    + cbn [convert_long_production].
      destruct (generate_new_variable "Y" (bin_counter st) (bin_nts st))
        as [new_var counter].
      cbn [bin_dict]. apply IH. cbn [bin_dict].
      apply dict_append_short; [assumption | simpl; lia].
Qed.

Lemma binarize_production_short : forall var st prod,
  (forall a l q, In (a, l) (bin_dict st) -> In q l -> length q <= 2) ->
  forall a l q,
    In (a, l) (bin_dict (binarize_production var st prod)) ->
    In q l -> length q <= 2.
Proof.
  intros var st prod Hst. unfold binarize_production.
  destruct (length prod <=? 2) eqn:E.
  - cbn [bin_dict]. apply Nat.leb_le in E. now apply dict_append_short.
  - now apply convert_long_production_short.
Qed.

Lemma convert_to_binary_form_short : forall c c',
  convert_to_binary_form c = inr c' ->
  forall a l p,
    In (a, l) (productions (grammar c')) -> In p l -> length p <= 2.
Proof.
  intros c c' H. unfold convert_to_binary_form in H.
  injection H as <-. cbn [grammar productions].
  apply (fold_left_ind
           (fun st => forall a l q,
                In (a, l) (bin_dict st) -> In q l -> length q <= 2)).
  - intros a l q [].
  - intros st [v l0] _ Hst. cbn [fst snd].
    apply (fold_left_ind
             (fun st' => forall a l q,
                  In (a, l) (bin_dict st') -> In q l -> length q <= 2)).
    + cbn [bin_dict]. intros a l q Hin Hq. apply In_dict_set in Hin.
      destruct Hin as [[-> ->] | Hin]; [contradiction | eauto].
    + intros st' prod _ Hst'. now apply binarize_production_short.
Qed.

(** X15. [convert_to_binary_form] always returns, and no right-hand side
    of the grammar it leaves has more than two symbols, whatever the
    grammar before; it keeps the terminals and the start symbol. So no
    right-hand side of a grammar that [to_cnf] returns has more than two
    symbols. *)
Theorem binary_form_is_binary :
  (forall c,
      exists c',
        convert_to_binary_form c = inr c'
        /\ terminals (grammar c') = terminals (grammar c)
        /\ start_symbol (grammar c') = start_symbol (grammar c)
        /\ forall a l p,
             In (a, l) (productions (grammar c')) -> In p l ->
             length p <= 2)
  /\ (forall c g v c',
        to_cnf c = inr (g, v, c') ->
        forall a l p, In (a, l) (productions g) -> In p l -> length p <= 2).
Proof.
  split.
  - intros c. eexists. split; [reflexivity|].
    split; [reflexivity|]. split; [reflexivity|].
    now apply (@convert_to_binary_form_short c).
  - intros c g v c' H. unfold to_cnf in H.
    destruct (eliminate_epsilon_productions c) as [e|c1];
      cbn [bind] in H; [discriminate|].
    destruct (eliminate_unit_productions c1) as [e|c2];
      cbn [bind] in H; [discriminate|].
    destruct (eliminate_useless_symbols c2) as [e|c3];
      cbn [bind] in H; [discriminate|].
    destruct (convert_to_binary_form c3) as [e|c4] eqn:E4;
      cbn [bind ret] in H; [discriminate|].
    injection H as <- _ _.
    now apply (@convert_to_binary_form_short c3 c4).
Qed.

Lemma binary_form_is_binary_witness :
  exists g v c',
    to_cnf (new_converter scenario1) = inr (g, v, c')
    /\ forall a l p, In (a, l) (productions g) -> In p l -> length p <= 2.
Proof.
  destruct (to_cnf (new_converter scenario1)) as [e | [[g v] c']] eqn:E;
    [vm_compute in E; discriminate|].
  exists g, v, c'. split; [reflexivity|].
  exact (proj2 binary_form_is_binary (new_converter scenario1) g v c' E).
Defined.

(** ** The derivations that stage D keeps *)

Lemma grows_refl : forall d, grows d d.
Proof. intros d k p H. exact H. Qed.

Lemma grows_trans : forall d1 d2 d3, grows d1 d2 -> grows d2 d3 -> grows d1 d3.
Proof. intros d1 d2 d3 H1 H2 k p H. apply H2, H1, H. Qed.

Lemma grows_append : forall d var p, grows d (dict_append d var p).
Proof.
  intros d var p k q H. unfold dict_append.
  destruct (string_dec var k) as [-> | N].
  - rewrite prods_of_set_same. apply in_or_app. now left.
  - now rewrite prods_of_set_other.
Qed.

Lemma In_dict_append : forall d var p, In p (prods_of (dict_append d var p) var).
Proof.
  intros d var p. unfold dict_append. rewrite prods_of_set_same.
  apply in_or_app. right. now left.
Qed.

Lemma grows_ensure : forall d var,
  grows d (if dict_mem d var then d else dict_set d var []).
Proof.
  intros d var. unfold dict_mem.
  destruct (dict_get d var) eqn:E; [apply grows_refl|].
  intros k p H. destruct (string_dec var k) as [-> | N].
  - unfold prods_of in H. rewrite E in H. contradiction.
  - now rewrite prods_of_set_other.
Qed.

Lemma covers_grows : forall d d' old a p,
  grows d d' -> covers d old a p -> covers d' old a p.
Proof.
  intros d d' old a p G H. induction H as [a p H | a x y rest H Hy _ IH].
  - apply covers_listed. now apply G.
  - apply covers_chain with y; auto.
Qed.

(** Emptying the entry of a variable of [old] keeps what is covered for
    the other variables. *)
Lemma covers_reset : forall d old var a p,
  In var old -> a <> var ->
  covers d old a p -> covers (dict_set d var []) old a p.
Proof.
  intros d old var a p Hv Ha H.
  induction H as [a p H | a x y rest H Hy _ IH].
  - apply covers_listed. now rewrite prods_of_set_other by congruence.
  - apply covers_chain with y; [|assumption|].
    + now rewrite prods_of_set_other by congruence.
    + apply IH. intros ->. contradiction.
Qed.

Lemma convert_long_production_covers : forall old production var st,
  incl old (bin_nts st) ->
  let st' := convert_long_production var production st in
  covers (bin_dict st') old var production
  /\ grows (bin_dict st) (bin_dict st')
  /\ incl (bin_nts st) (bin_nts st').
Proof.
  intros old. induction production as [|p0 rest IH]; intros var st Hold.
  - cbn [convert_long_production bin_dict bin_nts].
    split; [|split; [|apply incl_refl]].
    + apply covers_listed.
      destruct (mem_rhs [] _) eqn:E;
        [now apply mem_rhs_In | apply In_dict_append].
    + eapply grows_trans; [apply (grows_ensure (bin_dict st) var)|].
      destruct (mem_rhs [] _); [apply grows_refl | apply grows_append].
  - destruct rest as [|p1 [|p2 rest']].
    + cbn [convert_long_production bin_dict bin_nts].
      split; [|split; [|apply incl_refl]].
      * apply covers_listed.
        destruct (mem_rhs [p0] _) eqn:E;
          [now apply mem_rhs_In | apply In_dict_append].
      * eapply grows_trans; [apply (grows_ensure (bin_dict st) var)|].
        destruct (mem_rhs [p0] _); [apply grows_refl | apply grows_append].
    + cbn [convert_long_production bin_dict bin_nts].
      split; [|split; [|apply incl_refl]].
      * apply covers_listed.
        destruct (mem_rhs [p0; p1] _) eqn:E;
          [now apply mem_rhs_In | apply In_dict_append].
      * eapply grows_trans; [apply (grows_ensure (bin_dict st) var)|].
        destruct (mem_rhs [p0; p1] _); [apply grows_refl | apply grows_append].
    + cbn [convert_long_production].
      pose proof (generate_new_variable_fresh "Y" (bin_counter st) (bin_nts st))
        as [Hfresh _].
      destruct (generate_new_variable "Y" (bin_counter st) (bin_nts st))
        as [new_var counter]. cbn [fst] in Hfresh.
      specialize (IH new_var
                    (mkBin counter (bin_nts st)
                       (dict_append (bin_dict st) var [p0; new_var]))
                    Hold).
      cbv zeta in IH. destruct IH as (Hc & Hg & Hn).
      cbn [bin_dict bin_nts] in *.
      split; [|split].
      * apply covers_chain with new_var; [| |assumption].
        -- apply Hg. apply In_dict_append.
        -- intros Hin. apply Hfresh. now apply Hold.
      * eapply grows_trans; [apply grows_append | exact Hg].
      * intros x Hx. apply add_In. right. now apply Hn.
Qed.

Lemma binarize_production_covers : forall old var st prod,
  incl old (bin_nts st) ->
  let st' := binarize_production var st prod in
  covers (bin_dict st') old var prod
  /\ grows (bin_dict st) (bin_dict st')
  /\ incl (bin_nts st) (bin_nts st').
Proof.
  intros old var st prod Hold. unfold binarize_production.
  destruct (length prod <=? 2).
  - cbn [bin_dict bin_nts]. split; [|split; [|apply incl_refl]].
    + apply covers_listed. apply In_dict_append.
    + apply grows_append.
  - now apply convert_long_production_covers.
Qed.

(** One entry of the dictionary: the body of the outer loop. *)
Lemma binarize_entry_covers : forall old var l st,
  incl old (bin_nts st) -> In var old ->
  let st' := fold_left (binarize_production var) l
               (mkBin (bin_counter st) (bin_nts st)
                      (dict_set (bin_dict st) var [])) in
  (forall p, In p l -> covers (bin_dict st') old var p)
  /\ (forall a p, a <> var -> covers (bin_dict st) old a p ->
                  covers (bin_dict st') old a p)
  /\ incl old (bin_nts st').
Proof.
  intros old var l st Hold Hvar.
  assert (G : forall l' st0,
    incl old (bin_nts st0) ->
    let st' := fold_left (binarize_production var) l' st0 in
    (forall p, In p l' -> covers (bin_dict st') old var p)
    /\ grows (bin_dict st0) (bin_dict st')
    /\ incl old (bin_nts st')).
  { induction l' as [|q l' IH]; intros st0 H0; cbn [fold_left].
    - split; [intros p []|]. split; [apply grows_refl | assumption].
    - destruct (@binarize_production_covers old var st0 q H0)
        as (Hc & Hg & Hn).
      destruct (IH (binarize_production var st0 q)) as (Hc' & Hg' & Hn').
      { intros x Hx. apply Hn. now apply H0. }
      split; [|split; [eapply grows_trans; eassumption | assumption]].
      intros p [<- | Hp]; [|now apply Hc'].
      eapply covers_grows; eassumption. }
  destruct (G l (mkBin (bin_counter st) (bin_nts st)
                       (dict_set (bin_dict st) var [])) Hold)
    as (Hc & Hg & Hn).
  split; [assumption|]. split; [|assumption].
  intros a p Ha H. eapply covers_grows; [exact Hg|].
  cbn [bin_dict]. now apply covers_reset.
Qed.

Lemma binarize_all_covers : forall old d st,
  NoDup (keys d) -> incl (keys d) old -> incl old (bin_nts st) ->
  let st' :=
    fold_left
      (fun st vp =>
         fold_left (binarize_production (fst vp)) (snd vp)
                   (mkBin (bin_counter st) (bin_nts st)
                          (dict_set (bin_dict st) (fst vp) [])))
      d st in
  (forall a l p, In (a, l) d -> In p l -> covers (bin_dict st') old a p)
  /\ (forall a p, ~ In a (keys d) -> covers (bin_dict st) old a p ->
                  covers (bin_dict st') old a p).
Proof.
  intros old. induction d as [|[v l] d IH]; intros st Hn Hk Hold;
    cbn [fold_left fst snd].
  - split; [intros a l p [] | auto].
  - cbn [keys map fst] in Hn, Hk. inversion Hn as [|? ? Hv Hd]; subst.
    destruct (@binarize_entry_covers old v l st Hold) as (Hc & Hp & Hn').
    { apply Hk. now left. }
    destruct (IH (fold_left (binarize_production v) l
                    (mkBin (bin_counter st) (bin_nts st)
                           (dict_set (bin_dict st) v []))) Hd)
      as (Hc' & Hp').
    { intros x Hx. apply Hk. now right. }
    { assumption. }
    split.
    + intros a l0 p [E | Hin] Hp0.
      * injection E as <- <-. apply Hp'; [assumption | now apply Hc].
      * now apply (Hc' a l0 p).
    + intros a p Ha H. apply Hp'.
      * intros Hin. apply Ha. now right.
      * apply Hp; [|assumption]. intros ->. apply Ha. now left.
Qed.

Lemma covers_derives : forall g' old a p,
  covers (productions g') old a p ->
  forall w, derives_all g' p w -> derives g' a w.
Proof.
  intros g' old a p H. induction H as [a p H | a x y rest H Hy _ IH];
    intros w Hw.
  - now apply derives_production with (p := p).
  - inversion Hw as [|s ss w1 w2 H1 H2]; subst.
    apply derives_production with (p := [x; y]); [assumption|].
    apply derives_cons; [assumption|].
    rewrite <- (app_nil_r w2). apply derives_cons; [now apply IH|].
    apply derives_nil.
Qed.

Lemma binary_stage_covers : forall c c',
  is_dict (productions (grammar c)) ->
  (forall a, In a (keys (productions (grammar c))) ->
             In a (non_terminals (grammar c))) ->
  convert_to_binary_form c = inr c' ->
  forall a p,
    In p (prods_of (productions (grammar c)) a) ->
    covers (productions (grammar c')) (keys (productions (grammar c))) a p.
Proof.
  intros c c' Hd Hk H a p Hp. unfold convert_to_binary_form in H.
  injection H as <-. cbn [grammar productions].
  change (grammar (print_step c)) with (grammar c).
  apply (@In_prods_of (grammar c) a p Hd) in Hp.
  destruct Hp as (l & Hl & Hp).
  destruct (@binarize_all_covers (keys (productions (grammar c)))
              (productions (grammar c))
              (mkBin (new_var_counter (print_step c))
                     (non_terminals (grammar c)) [])
              Hd (incl_refl _)) as [Hc _].
  - intros x Hx. cbn [bin_nts]. now apply Hk.
  - now apply (Hc a l p).
Qed.

Lemma binary_stage_terminals : forall c c',
  convert_to_binary_form c = inr c' ->
  terminals (grammar c') = terminals (grammar c)
  /\ start_symbol (grammar c') = start_symbol (grammar c).
Proof.
  intros c c' H. unfold convert_to_binary_form in H.
  injection H as <-. split; reflexivity.
Qed.

Lemma binary_stage_complete : forall c c',
  is_dict (productions (grammar c)) ->
  (forall a, In a (keys (productions (grammar c))) ->
             In a (non_terminals (grammar c))) ->
  convert_to_binary_form c = inr c' ->
  forall x w, derives (grammar c) x w -> derives (grammar c') x w.
Proof.
  intros c c' Hd Hk H.
  destruct (@binary_stage_terminals c c' H) as [Ht _].
  apply (derives_mut (g := grammar c)
           (fun x w => derives (grammar c') x w)
           (fun p w => derives_all (grammar c') p w)).
  - intros t Hin. apply derives_terminal. now rewrite Ht.
  - intros a p w Hp _ IH.
    apply (@covers_derives (grammar c') (keys (productions (grammar c))) a p);
      [|assumption].
    now apply (@binary_stage_covers c c').
  - apply derives_nil.
  - intros s ss w1 w2 _ IH1 _ IH2. now apply derives_cons.
Qed.

(** X16. When every variable with an entry is a non-terminal, as it is
    after stage C, the grammar that [convert_to_binary_form] leaves covers
    every production of the grammar before: it lists a right-hand side of
    at most two symbols as it is, and for a longer one [a -> x1 x2 ... xn]
    it lists [a -> x1 y1], [y1 -> x2 y2], and so on up to the last two
    symbols, with variables [y1, y2, ...] that had no entry before. So
    every word that a symbol derived before it derives afterwards. *)
Theorem binary_form_keeps_derivations :
  forall c,
    is_dict (productions (grammar c)) ->
    (forall a, In a (keys (productions (grammar c))) ->
               In a (non_terminals (grammar c))) ->
    exists c',
      convert_to_binary_form c = inr c'
      /\ (forall a p,
            In p (prods_of (productions (grammar c)) a) ->
            covers (productions (grammar c'))
                   (keys (productions (grammar c))) a p)
      /\ (forall x w, derives (grammar c) x w -> derives (grammar c') x w).
Proof.
  intros c Hd Hk. eexists. split; [reflexivity|]. split.
  - now apply (@binary_stage_covers c).
  - now apply (@binary_stage_complete c).
Qed.

Lemma binary_form_keeps_derivations_witness :
  exists c',
    convert_to_binary_form (new_converter scenario1) = inr c'
    /\ forall x w, derives scenario1 x w -> derives (grammar c') x w.
Proof.
  destruct (@binary_form_keeps_derivations (new_converter scenario1))
    as (c' & E & _ & H).
  - repeat constructor; simpl; intuition discriminate.
  - intros a Ha. vm_compute in Ha |- *. tauto.
  - exists c'. split; [exact E | exact H].
Defined.

(* ================================================================= *)
(** * Further properties of the grammar and of the converter *)

(** ** New variables *)

(** X17. [generate_new_variable] returns the first name [base] followed by
    a number, from the counter on, that is no non-terminal, and leaves the
    counter one above that number. The names that two calls with the same
    base return, the second after the first, are different, whatever the
    non-terminals are at the time of the second call. *)
Theorem generate_new_variable_spec :
  forall base counter nts,
    ~ In (fst (generate_new_variable base counter nts)) nts
    /\ (exists k,
          generate_new_variable base counter nts
          = (candidate base (counter + k), S (counter + k))
          /\ forall i, i < k -> In (candidate base (counter + i)) nts)
    /\ (forall counter' nts',
          snd (generate_new_variable base counter nts) <= counter' ->
          fst (generate_new_variable base counter' nts')
          <> fst (generate_new_variable base counter nts)).
Proof.
  intros base counter nts.
  split; [apply generate_new_variable_fresh|].
  unfold generate_new_variable.
  destruct (generate_loop_spec (length nts) base counter nts)
    as (k & Hk & _ & Hin & _).
  split; [exists k; auto|].
  intros counter' nts' Hle.
  destruct (generate_loop_spec (length nts') base counter' nts')
    as (k' & Hk' & _).
  rewrite Hk in *. rewrite Hk'. cbn [fst snd] in *.
  intros E. apply candidate_inj in E. lia.
Qed.

(** ** Adding and removing a production *)

Lemma list_remove_last : forall p (l : list rhs),
  ~ In p l -> list_remove p (l ++ [p]) = l.
Proof.
  intros p l. unfold list_remove. induction l as [|q l IH]; simpl; intros H.
  - destruct (rhs_dec p p); [reflexivity | congruence].
  - destruct (rhs_dec p q) as [-> | N]; [tauto|].
    rewrite IH; tauto.
Qed.

Lemma list_remove_first : forall p (l : list rhs),
  In p l -> list_remove p (l ++ [p]) = list_remove p l ++ [p].
Proof.
  intros p l. unfold list_remove. induction l as [|q l IH]; simpl; intros H;
    [contradiction|].
  destruct (rhs_dec p q) as [-> | N]; [reflexivity|].
  destruct H as [H | H]; [congruence|]. simpl. now rewrite IH.
Qed.

Lemma dict_set_twice : forall V (d : dict V) k v1 v2,
  dict_set (dict_set d k v1) k v2 = dict_set d k v2.
Proof.
  induction d as [|[k' v'] d IH]; simpl; intros k v1 v2.
  - now rewrite String.eqb_refl.
  - destruct (String.eqb k k') eqn:E; simpl; rewrite E; [reflexivity|].
    now rewrite IH.
Qed.

Lemma dict_set_same_value : forall V (d : dict V) k v,
  dict_get d k = Some v -> dict_set d k v = d.
Proof.
  induction d as [|[k' v'] d IH]; simpl; intros k v H; [discriminate|].
  destruct (String.eqb k k') eqn:E.
  - congruence.
  - now rewrite IH.
Qed.

Lemma dict_del_set_fresh : forall V (d : dict V) k v,
  dict_get d k = None -> dict_del (dict_set d k v) k = d.
Proof.
  intros V d k v H. apply dict_get_None in H.
  rewrite dict_set_fresh by assumption. unfold dict_del.
  rewrite filter_app. simpl. rewrite String.eqb_refl. simpl.
  rewrite app_nil_r. apply filter_all. intros [k' v'] Hin. simpl.
  apply negb_true_iff, String.eqb_neq. intros ->. apply H.
  change k' with (fst (k', v')). unfold keys. now apply in_map.
Qed.

(** X18. [remove_production(left, right)] after
    [add_production(left, right)] gives back the dictionary of the
    productions, entry for entry, when [right] was not listed for [left]
    and [left] had no entry with an empty list; the start symbol is as
    before; the terminals that [add_production] has added stay (of the
    symbols that start with an ASCII character, or are ['ε'] or the empty
    string: those of [right] that do not start with one of the letters [A]
    to [Z], or are ['ε'], ['epsilon'] or the empty string); the other
    non-terminals are as before, and [left] is a non-terminal afterwards
    exactly when it had an entry or is the start symbol. When [right] was
    listed for [left] already, the pair of calls moves it to the end of
    the list: [remove] takes out the first occurrence. *)
Theorem add_then_remove_production :
  forall g left right,
    let g' := remove_production (add_production_list g left right)
                                left right in
    (~ In right (prods_of (productions g) left) ->
     dict_get (productions g) left <> Some [] ->
     productions g' = productions g
     /\ start_symbol g' = start_symbol g
     /\ (forall x,
           ascii_initial x = true \/ x = epsilon_sym ->
           (In x (terminals g') <->
            In x (terminals g)
            \/ (In x right
                /\ (starts_with_capital x = false
                    \/ x = epsilon_sym \/ x = "epsilon" \/ x = ""))))
     /\ (forall x, x <> left ->
                   (In x (non_terminals g') <-> In x (non_terminals g)))
     /\ (In left (non_terminals g')
         <-> In left (keys (productions g))
             \/ start_symbol g = Some left))
    /\ (In right (prods_of (productions g) left) ->
        prods_of (productions g') left
        = list_remove right (prods_of (productions g) left) ++ [right]).
Proof.
  intros g left right g'. subst g'. unfold remove_production, is_start.
  cbn [add_production_list productions terminals non_terminals start_symbol].
  rewrite dict_get_set_same.
  assert (Em : mem_rhs right (prods_of (productions g) left ++ [right]) = true).
  { apply mem_rhs_In. apply in_or_app. right. now left. }
  rewrite Em. split.
  - intros Hnew Hne. rewrite list_remove_last by assumption.
    unfold prods_of in *.
    destruct (dict_get (productions g) left) as [[|p l]|] eqn:Eg.
    + congruence.
    + cbn [productions terminals non_terminals start_symbol].
      rewrite dict_set_twice, (@dict_set_same_value _ (productions g) left _ Eg).
      split; [reflexivity|]. split; [reflexivity|].
      split; [intros x _; rewrite <- classified_terminal_spec;
              apply fold_classify_In|].
      split; [intros x Hx; rewrite add_In; intuition congruence|].
      rewrite add_In. split; [intros _|auto].
      left. apply dict_get_keys. eauto.
    + cbn [productions terminals non_terminals start_symbol].
      rewrite (@dict_del_set_fresh _ (productions g) left _ Eg).
      split; [reflexivity|]. split; [reflexivity|].
      split; [intros x _; rewrite <- classified_terminal_spec;
              apply fold_classify_In|].
      destruct (start_symbol g) as [s|] eqn:Es.
      * destruct (String.eqb left s) eqn:E.
        -- apply String.eqb_eq in E. subst s. split.
           ++ intros x Hx. rewrite add_In. intuition congruence.
           ++ rewrite add_In. split; auto.
        -- apply String.eqb_neq in E. split.
           ++ intros x Hx. rewrite discard_In, add_In. intuition congruence.
           ++ rewrite discard_In. split; [tauto|].
              intros [H | H]; [|congruence].
              apply dict_get_keys in H. destruct H as [v H]. congruence.
      * split.
        -- intros x Hx. rewrite discard_In, add_In. intuition congruence.
        -- rewrite discard_In. split; [tauto|].
           intros [H | H]; [|discriminate].
           apply dict_get_keys in H. destruct H as [v H]. congruence.
  - intros Hold. rewrite list_remove_first by assumption.
    destruct (list_remove right (prods_of (productions g) left) ++ [right])
      as [|p l] eqn:E.
    + exfalso. now apply (@app_not_nil rhs _ _ E).
    + cbn [productions]. now rewrite prods_of_set_same.
Qed.

Lemma add_then_remove_production_witness :
  productions (remove_production
                 (add_production_list small_cnf "S" ["A"; "A"])
                 "S" ["A"; "A"])
  = productions small_cnf
  /\ prods_of (productions
                 (remove_production
                    (add_production_list cnf_with_empty "S" ["a"])
                    "S" ["a"])) "S"
     = [[]; ["a"]].
Proof.
  split.
  - apply (add_then_remove_production small_cnf "S" ["A"; "A"]).
    + simpl. intuition discriminate.
    + discriminate.
  - apply (add_then_remove_production cnf_with_empty "S" ["a"]).
    simpl. auto.
Defined.

(** ** Unit productions in a grammar in CNF *)

Lemma is_in_cnf_no_unit : forall g,
  is_in_cnf g = true ->
  (forall x, In x (terminals g) -> ~ In x (non_terminals g)) ->
  has_unit_productions g = false.
Proof.
  intros g Hc Hdis. unfold is_in_cnf in Hc.
  apply andb_true_iff in Hc. destruct Hc as [_ Hc].
  rewrite forallb_forall in Hc.
  unfold has_unit_productions.
  destruct (existsb _ (productions g)) eqn:E; [|reflexivity].
  exfalso. apply existsb_exists in E. destruct E as ([a l] & Hin & E).
  apply existsb_exists in E. destruct E as (p & Hp & Hu).
  specialize (Hc _ Hin). rewrite forallb_forall in Hc.
  specialize (Hc _ Hp). cbn [fst snd] in *.
  destruct p as [|x [|y p]]; try discriminate Hu.
  simpl in Hu, Hc. apply mem_In in Hu, Hc. now apply (Hdis x).
Qed.

(** X19. A grammar that [is_in_cnf] accepts and that has no symbol in both
    of its symbol sets has no unit production: [has_unit_productions]
    answers [False]. *)
Theorem cnf_has_no_unit_productions :
  forall g,
    is_in_cnf g = true ->
    (forall x, In x (terminals g) -> ~ In x (non_terminals g)) ->
    has_unit_productions g = false.
Proof. exact is_in_cnf_no_unit. Qed.

Lemma cnf_has_no_unit_productions_witness :
  has_unit_productions small_cnf = false.
Proof.
  apply (@cnf_has_no_unit_productions small_cnf).
  - reflexivity.
  - intros x Hx. vm_compute in Hx |- *. intuition (subst; discriminate).
Defined.

(** ** The check of the result *)

(** X20. [validate_cnf_conversion] answers [True], with an empty list of
    errors, exactly when the working grammar passes [is_in_cnf], has at
    least one entry in the dictionary of its productions, has no unit
    production, and, if some right-hand side is empty, ['ε'], ['epsilon']
    or the empty string, the start symbol has an empty right-hand side.
    For a grammar without a symbol in both symbol sets the check of the
    unit productions follows from [is_in_cnf]. *)
Theorem validate_cnf_conversion_spec :
  forall c,
    let g := grammar c in
    (fst (validate_cnf_conversion c) = true
     <-> snd (validate_cnf_conversion c) = [])
    /\ (fst (validate_cnf_conversion c) = true
        <-> is_in_cnf g = true
            /\ productions g <> []
            /\ has_unit_productions g = false
            /\ (has_epsilon_productions g = true ->
                exists s, start_symbol g = Some s
                          /\ In [] (prods_of (productions g) s)))
    /\ ((forall x, In x (terminals g) -> ~ In x (non_terminals g)) ->
        (fst (validate_cnf_conversion c) = true
         <-> is_in_cnf g = true
             /\ productions g <> []
             /\ (has_epsilon_productions g = true ->
                 exists s, start_symbol g = Some s
                           /\ In [] (prods_of (productions g) s)))).
Proof.
  intros c g.
  assert (Main : fst (validate_cnf_conversion c) = true
        <-> is_in_cnf g = true
            /\ productions g <> []
            /\ has_unit_productions g = false
            /\ (has_epsilon_productions g = true ->
                exists s, start_symbol g = Some s
                          /\ In [] (prods_of (productions g) s))).
  { unfold validate_cnf_conversion. fold g. cbn [fst].
    assert (Hstart : existsb
                       (fun prod : rhs =>
                          match prod with [] => true | _ => false end)
                       (match start_symbol g with
                        | Some s => prods_of (productions g) s
                        | None => []
                        end) = true
                     <-> exists s, start_symbol g = Some s
                                   /\ In [] (prods_of (productions g) s)).
    { rewrite existsb_exists. split.
      - intros (p & Hp & E). destruct p; [|discriminate].
        destruct (start_symbol g) as [s|]; [eauto | contradiction].
      - intros (s & Hs & Hp). rewrite Hs. exists []. auto. }
    destruct (is_in_cnf g) eqn:Ec.
    2:{ split; [|intros [H _]; discriminate].
        destruct (truthy (start_symbol g)); destruct (productions g);
          destruct (has_epsilon_productions g);
          try destruct (existsb _ _);
          destruct (has_unit_productions g); simpl; discriminate. }
    assert (Et : truthy (start_symbol g) = true).
    { unfold is_in_cnf in Ec. now apply andb_true_iff in Ec. }
    rewrite Et.
    destruct (productions g) as [|vp d] eqn:Ep.
    { split; [|intros (_ & H & _); congruence].
      destruct (has_epsilon_productions _);
        try destruct (existsb _ _);
        destruct (has_unit_productions _); simpl; discriminate. }
    rewrite <- Ep in *. cbn [app].
    destruct (has_epsilon_productions g) eqn:Ee.
    - destruct (existsb _ _) eqn:Es.
      + destruct (has_unit_productions g) eqn:Eu.
        * split; [discriminate | intros (_ & _ & H & _); discriminate].
        * split; [|reflexivity]. intros _.
          split; [reflexivity|]. split; [congruence|].
          split; [reflexivity|]. intros _. now apply Hstart.
      + split.
        * destruct (has_unit_productions g); simpl; discriminate.
        * intros (_ & _ & _ & H). specialize (H eq_refl).
          apply Hstart in H. discriminate.
    - destruct (has_unit_productions g) eqn:Eu.
      + split; [discriminate | intros (_ & _ & H & _); discriminate].
      + split; [|reflexivity]. intros _.
        split; [reflexivity|]. split; [congruence|].
        split; [reflexivity|]. discriminate. }
  split; [|split; [exact Main|]].
  - assert (E : fst (validate_cnf_conversion c)
                 = match snd (validate_cnf_conversion c) with
                   | [] => true
                   | _ => false
                   end) by reflexivity.
    rewrite E.
    destruct (snd (validate_cnf_conversion c)); split; intros H;
      try reflexivity; discriminate.
  - intros Hdis. rewrite Main. split.
    + intros (H1 & H2 & _ & H3). auto.
    + intros (H1 & H2 & H3). repeat split; auto.
      now apply is_in_cnf_no_unit.
Qed.

Lemma validate_cnf_conversion_spec_witness :
  fst (validate_cnf_conversion (new_converter small_cnf)) = true
  <-> is_in_cnf small_cnf = true
      /\ productions small_cnf <> []
      /\ (has_epsilon_productions small_cnf = true ->
          exists s, start_symbol small_cnf = Some s
                    /\ In [] (prods_of (productions small_cnf) s)).
Proof.
  apply (validate_cnf_conversion_spec (new_converter small_cnf)).
  intros x Hx. vm_compute in Hx |- *. intuition (subst; discriminate).
Defined.

(* ================================================================= *)
(** * Copies *)

Lemma mutate_terminals_owned : forall n1 st r g s,
  owns n1 st r g ->
  exists st',
    mutate_terminals r s st = (inr tt, st')
    /\ owns n1 st' r (mkGrammar (productions g) s (non_terminals g)
                                (start_symbol g))
    /\ extends n1 st st'.
Proof.
  intros n1 st r g s (p & t & k & Hr & Hp & Ht & Hk & Ntk & Lr & Lp & Lt & Lk).
  unfold mutate_terminals, read_object, read, write, hbind, hret.
  rewrite Hr. simpl. eexists. split; [reflexivity|]. split.
  - exists p, t, k. simpl.
    rewrite nth_error_update_same, Ht. simpl.
    rewrite !nth_error_update_other by congruence. auto 12.
  - now apply extends_write.
Qed.

Lemma add_production_object_owned : forall n1 st r g left right,
  owns n1 st r g ->
  exists st',
    add_production_object r left right st = (inr tt, st')
    /\ owns n1 st' r (add_production_list g left right)
    /\ extends n1 st st'.
Proof.
  intros n1 st r g left right O. unfold add_production_object, hbind.
  rewrite (load_holds (owns_holds O)).
  destruct (mutate_productions_owned
              (productions (add_production_list g left right)) O)
    as (st1 & E1 & O1 & X1). rewrite E1.
  destruct (mutate_non_terminals_owned
              (non_terminals (add_production_list g left right)) O1)
    as (st2 & E2 & O2 & X2). rewrite E2.
  destruct (mutate_terminals_owned
              (terminals (add_production_list g left right)) O2)
    as (st3 & E3 & O3 & X3). rewrite E3.
  eexists. split; [reflexivity|]. split.
  - exact O3.
  - eapply extends_trans; [exact X1|].
    eapply extends_trans; [exact X2 | exact X3].
Qed.

(** X21. [copy] returns a new object whose dictionary and two sets are new
    objects too, with the value of the grammar copied. The copy is
    independent of the original: after [add_production] on the copy, which
    changes the dictionary and the sets of the copy in place, the original
    has the value it had, no cell of the store before [copy] has changed,
    and the copy has the value of the original with the production
    added. *)
Theorem copy_is_independent :
  forall st r g left right,
    holds st r g ->
    exists r' st1 st2,
      copy_object r st = (inr r', st1)
      /\ length st <= r'
      /\ holds st1 r' g
      /\ add_production_object r' left right st1 = (inr tt, st2)
      /\ preserves st st2
      /\ holds st2 r g
      /\ holds st2 r' (add_production_list g left right).
Proof.
  intros st r g left right H.
  destruct (copy_object_owned H) as (st1 & E1 & O1 & X1).
  destruct (@add_production_object_owned (length st) st1 (length st + 3) g
              left right O1) as (st2 & E2 & O2 & X2).
  exists (length st + 3), st1, st2.
  split; [exact E1|]. split; [lia|].
  split; [exact (owns_holds O1)|]. split; [exact E2|].
  assert (P : preserves st st2).
  { intros l Hl. destruct X2 as [_ X2]. rewrite X2 by lia.
    destruct X1 as [_ X1]. now apply X1. }
  split; [exact P|]. split; [|exact (owns_holds O2)].
  destruct H as (p & t & k & Hr & Hp & Ht & Hk). exists p, t, k.
  rewrite !P by (eapply nth_error_in_range; eassumption). auto.
Qed.

Lemma copy_is_independent_witness :
  exists r' st1 st2,
    copy_object 3 scenario2_store = (inr r', st1)
    /\ length scenario2_store <= r'
    /\ holds st1 r' scenario2
    /\ add_production_object r' "S" ["a"] st1 = (inr tt, st2)
    /\ preserves scenario2_store st2
    /\ holds st2 3 scenario2
    /\ holds st2 r' (add_production_list scenario2 "S" ["a"]).
Proof.
  apply (@copy_is_independent scenario2_store 3 scenario2 "S" ["a"]).
  exists 0, 1, 2. repeat split.
Defined.

(** ** Stage B and the derivations *)

Lemma eliminate_unit_productions_fields : forall c c',
  eliminate_unit_productions c = inr c' ->
  terminals (grammar c') = terminals (grammar c)
  /\ non_terminals (grammar c') = non_terminals (grammar c)
  /\ start_symbol (grammar c') = start_symbol (grammar c).
Proof.
  intros c c' H. unfold eliminate_unit_productions in H.
  change (grammar (print_step c)) with (grammar c) in H.
  destruct (unit_free_productions (grammar c)
              (find_unit_productions (grammar c)) (productions (grammar c)))
    as [e|d']; cbn [bind ret] in H; [discriminate|].
  inversion H; subst c'. simpl. auto.
Qed.

Lemma derives_single : forall g b w,
  derives g b w -> derives_all g [b] w.
Proof.
  intros g b w H. rewrite <- (app_nil_r w).
  apply derives_cons; [assumption | apply derives_nil].
Qed.

Lemma derives_all_single : forall g b w,
  derives_all g [b] w -> derives g b w.
Proof.
  intros g b w H. inversion H as [|s ss w1 w2 H1 H2]; subst.
  inversion H2; subst. now rewrite app_nil_r.
Qed.

(** A variable derives what the target of a chain of unit productions
    derives. *)
Lemma unit_closure_derives : forall g a b,
  unit_closure g a b -> forall w, derives g b w -> derives g a w.
Proof.
  intros g a b H. induction H as [x y [H _] | x y z _ IH1 _ IH2]; intros w Hw.
  - apply derives_production with (p := [y]); [assumption|].
    now apply derives_single.
  - auto.
Qed.

Lemma unit_stage_sound : forall c c',
  is_dict (productions (grammar c)) ->
  eliminate_unit_productions c = inr c' ->
  forall x w, derives (grammar c') x w -> derives (grammar c) x w.
Proof.
  intros c c' Hd H.
  destruct (eliminate_unit_productions_fields c H) as (Ht & _ & _).
  destruct (eliminate_unit_productions_spec c Hd H) as [_ Hp].
  apply (derives_mut (g := grammar c')
           (fun x w => derives (grammar c) x w)
           (fun p w => derives_all (grammar c) p w)).
  - intros t Hin. apply derives_terminal. now rewrite <- Ht.
  - intros a p w Hin _ IH. apply Hp in Hin.
    destruct Hin as [_ [Hin | (b & Hb & Hin)]].
    + now apply derives_production with (p := p).
    + apply (unit_closure_derives Hb).
      now apply derives_production with (p := p).
  - apply derives_nil.
  - intros s ss w1 w2 _ H1 _ H2. now apply derives_cons.
Qed.

Lemma unit_stage_complete : forall c c',
  is_dict (productions (grammar c)) ->
  (forall x, In x (terminals (grammar c)) ->
             ~ In x (non_terminals (grammar c))) ->
  eliminate_unit_productions c = inr c' ->
  forall x w, derives (grammar c) x w -> derives (grammar c') x w.
Proof.
  intros c c' Hd Hdis H.
  destruct (eliminate_unit_productions_fields c H) as (Ht & _ & _).
  destruct (eliminate_unit_productions_spec c Hd H) as [_ Hp].
  apply (derives_mut (g := grammar c)
           (fun x w => derives (grammar c') x w)
           (fun p w => derives_all (grammar c') p w)).
  - intros t Hin. apply derives_terminal. now rewrite Ht.
  - intros a p w Hin _ IH.
    destruct (is_unit (non_terminals (grammar c)) p) eqn:Eu.
    + destruct p as [|b [|? ?]]; try discriminate.
      cbn [is_unit] in Eu. apply mem_In in Eu.
      assert (Hab : unit_pair (grammar c) a b) by (split; assumption).
      apply derives_all_single in IH.
      inversion IH as [t Hin' | a' q w' Hq Hall]; subst.
      * rewrite Ht in Hin'. exfalso. exact (Hdis _ Hin' Eu).
      * apply derives_production with (p := q); [|assumption].
        apply Hp. apply Hp in Hq. destruct Hq as [Hu Hq].
        split; [assumption|]. right.
        destruct Hq as [Hq | (d & Hd' & Hq)].
        -- exists b. split; [now apply t_step | assumption].
        -- exists d. split; [|assumption].
           apply t_trans with (y := b); [now apply t_step | assumption].
    + apply derives_production with (p := p); [|assumption].
      apply Hp. split; [assumption | now left].
  - apply derives_nil.
  - intros s ss w1 w2 _ H1 _ H2. now apply derives_cons.
Qed.



(** ** Stage C and the derivations *)

Lemma eliminate_useless_symbols_fields : forall c c',
  eliminate_useless_symbols c = inr c' ->
  terminals (grammar c') = terminals (grammar c)
  /\ start_symbol (grammar c') = start_symbol (grammar c)
  /\ (forall a p,
        In p (prods_of (productions (grammar c')) a)
        <-> In p (prods_of (productions (grammar c)) a)
            /\ generating (grammar c) a
            /\ (forall x, In x p -> generating (grammar c) x)
            /\ useful (grammar c) a).
Proof.
  intros c c' H. unfold eliminate_useless_symbols in H.
  injection H as <-.
  cbn [grammar with_grammar print_step terminals start_symbol productions].
  split; [reflexivity|]. split; [reflexivity|].
  intros a p. apply useless_productions.
Qed.

Lemma useless_stage_sound : forall c c',
  eliminate_useless_symbols c = inr c' ->
  forall x w, derives (grammar c') x w -> derives (grammar c) x w.
Proof.
  intros c c' H.
  destruct (@eliminate_useless_symbols_fields c c' H) as (Ht & _ & Hp).
  apply (derives_mut (g := grammar c')
           (fun x w => derives (grammar c) x w)
           (fun p w => derives_all (grammar c) p w)).
  - intros t Hin. apply derives_terminal. now rewrite <- Ht.
  - intros a p w Hin _ IH. apply Hp in Hin.
    apply derives_production with (p := p); tauto.
  - apply derives_nil.
  - intros s ss w1 w2 _ H1 _ H2. now apply derives_cons.
Qed.

Lemma useful_next : forall g a x,
  useful g a -> useful_step g a x -> useful g x.
Proof.
  intros g a x (s & Hs & H) Hx. exists s. split; [assumption|].
  apply rt_trans with a; [assumption | now apply rt_step].
Qed.

(** Without empty right-hand sides, stage C keeps the derivations from the
    symbols that it keeps. *)
Lemma useless_stage_complete : forall c c',
  is_dict (productions (grammar c)) ->
  (forall a l, In (a, l) (productions (grammar c)) -> ~ In [] l) ->
  eliminate_useless_symbols c = inr c' ->
  forall x w, derives (grammar c) x w ->
              useful (grammar c) x -> derives (grammar c') x w.
Proof.
  intros c c' Hd Hne H.
  destruct (@eliminate_useless_symbols_fields c c' H) as (Ht & _ & Hp).
  destruct (@derives_generating (grammar c) Hd Hne) as [Hg Hga].
  apply (derives_mut (g := grammar c)
           (fun x w => useful (grammar c) x -> derives (grammar c') x w)
           (fun p w => (forall y, In y p -> useful (grammar c) y) ->
                       derives_all (grammar c') p w)).
  - intros t Hin _. apply derives_terminal. now rewrite Ht.
  - intros a p w Hin Hall IH Hu.
    assert (Ha : generating (grammar c) a).
    { apply Hg with w. now apply derives_production with (p := p). }
    assert (Hs : forall y, In y p -> generating (grammar c) y).
    { now apply Hga with w. }
    apply derives_production with (p := p).
    + apply Hp. auto.
    + apply IH. intros y Hy. apply (@useful_next (grammar c) a y Hu).
      split; [assumption|]. exists p. auto.
  - intros _. apply derives_nil.
  - intros s ss w1 w2 _ IH1 _ IH2 Hu.
    apply derives_cons; [apply IH1 | apply IH2]; intros; apply Hu;
      simpl; auto.
Qed.



(** ** Stage A and the derivations *)

(** Right-hand sides with nullable symbols left out derive what is derived
    without them. *)
Lemma drops_derives : forall g nl q p,
  (forall x, In x nl -> derives g x []) ->
  drops nl q p ->
  forall w, derives_all g p w -> derives_all g q w.
Proof.
  intros g nl q p Hn H. induction H as [|s q p _ IH | s q p Hs _ IH]; intros w Hw.
  - assumption.
  - inversion Hw as [|s' ss w1 w2 H1 H2]; subst.
    apply derives_cons; [assumption | now apply IH].
  - change w with ([] ++ w). apply derives_cons; [now apply Hn | now apply IH].
Qed.

(** The names that [generate_new_variable] makes with the bases [S] and
    [Y] start with a capital letter. *)
Lemma candidate_S_capital : forall n,
  starts_with_capital (candidate "S" n) = true.
Proof. intros n. reflexivity. Qed.

Lemma candidate_Y_capital : forall n,
  starts_with_capital (candidate "Y" n) = true.
Proof. intros n. reflexivity. Qed.

(** The start symbol that stage A makes is new: no non-terminal, and a
    name that starts with a capital letter. *)
Lemma made_start_fresh : forall c c' s a,
  eliminate_epsilon_productions c = inr c' ->
  start_symbol (grammar c) = Some s ->
  In s (find_nullable_symbols (grammar c)) ->
  start_symbol (grammar c') = Some a ->
  ~ In a (non_terminals (grammar c)) /\ starts_with_capital a = true.
Proof.
  intros c c' s a H Hs Hn Ha. unfold eliminate_epsilon_productions in H.
  change (grammar (print_step c)) with (grammar c) in H.
  change (new_var_counter (print_step c)) with (new_var_counter c) in H.
  rewrite Hs in H. apply mem_In in Hn. rewrite Hn in H.
  pose proof (generate_new_variable_fresh "S" (new_var_counter c)
                (non_terminals (grammar c))) as [Hf _].
  unfold generate_new_variable in H, Hf.
  destruct (generate_loop_spec (length (non_terminals (grammar c))) "S"
              (new_var_counter c) (non_terminals (grammar c)))
    as (k & Hk & _).
  rewrite Hk in H, Hf. cbn [fst] in Hf.
  destruct (dict_lookup _ s) as [e|old]; cbn [bind ret] in H; [discriminate|].
  injection H as <-. cbn [grammar start_symbol] in Ha.
  injection Ha as <-. split; [assumption | apply candidate_S_capital].
Qed.

Lemma prods_of_key : forall (d : dict (list rhs)) a p,
  In p (prods_of d a) -> In a (keys d).
Proof.
  intros d a p H. unfold prods_of in H.
  destruct (dict_get d a) as [l|] eqn:E; [|contradiction].
  apply dict_get_In in E. unfold keys. change a with (fst (a, l)).
  now apply in_map.
Qed.

Section StageA.
Variables c c' : CNFConverter.
Hypothesis Hwf : well_formed (grammar c).
Hypothesis Hret : eliminate_epsilon_productions c = inr c'.

Let g := grammar c.
Let g' := grammar c'.
Let nl := find_nullable_symbols g.

Lemma epsilon_stage_terminals : terminals g' = terminals g.
Proof.
  destruct (eliminate_epsilon_productions_shape c) as (c0 & E & H).
  unfold g, g'. rewrite Hret in E. injection E as <-. apply H.
Qed.

Lemma epsilon_stage_old : forall a p,
  ~ made_start g g' a ->
  (In p (prods_of (productions g') a)
   <-> p <> []
       /\ exists q, In q (prods_of (productions g) a)
                    /\ is_direct_epsilon q = false /\ drops nl q p).
Proof.
  intros a p Ha.
  destruct (eliminate_epsilon_productions_shape c) as (c0 & E & H).
  unfold g, g', nl in *. rewrite Hret in E. injection E as <-.
  destruct H as (_ & H & _). rewrite (H a Ha). apply epsilon_free_rhs_In.
Qed.

Lemma epsilon_stage_made : forall a,
  made_start g g' a ->
  exists s, start_symbol g = Some s
            /\ In s (keys (productions g))
            /\ (prods_of (productions g') a = [[s]]
                \/ prods_of (productions g') a = [[s]; []]).
Proof.
  intros a Ha.
  destruct (eliminate_epsilon_productions_shape c) as (c0 & E & H).
  unfold g, g' in *. rewrite Hret in E. injection E as <-.
  destruct H as (_ & _ & H & _). now apply H.
Qed.

(** The start symbol that the stage makes is no symbol of the grammar
    before. *)
Lemma made_start_new : forall a,
  made_start g g' a ->
  ~ In a (terminals g) /\ ~ In a (non_terminals g)
  /\ ~ In a (keys (productions g))
  /\ (forall b p, In p (prods_of (productions g) b) -> ~ In a p).
Proof.
  intros a (s & Hs & Hn & Ha).
  destruct (@made_start_fresh c c' s a Hret Hs Hn Ha) as [Hf Hc].
  destruct Hwf as (_ & Hk & Ht & Hr).
  assert (Hterm : ~ In a (terminals g)).
  { intros H. apply Ht in H. congruence. }
  split; [assumption|]. split; [assumption|]. split.
  - intros H. apply Hf. now apply Hk.
  - intros b p Hp Hin. destruct (Hr b p a Hp Hin); contradiction.
Qed.

Hypothesis Heps : epsilon_as_empty (grammar c).

Lemma epsilon_stage_sound : forall x w,
  derives g' x w -> ~ made_start g g' x -> derives g x w.
Proof.
  assert (Hn : forall x, In x nl -> derives g x []).
  { intros x Hx. apply find_nullable_symbols_derives; [apply Hwf | exact Heps | exact Hx]. }
  apply (derives_mut (g := g')
           (fun x w => ~ made_start g g' x -> derives g x w)
           (fun p w => (forall y, In y p -> ~ made_start g g' y) ->
                       derives_all g p w)).
  - intros t Hin _. apply derives_terminal.
    now rewrite <- epsilon_stage_terminals.
  - intros a p w Hin _ IH Ha.
    apply (@epsilon_stage_old a p Ha) in Hin.
    destruct Hin as (_ & q & Hq & _ & Hd).
    apply derives_production with (p := q); [assumption|].
    apply (@drops_derives g nl q p Hn Hd). apply IH.
    intros y Hy Hm. apply made_start_new in Hm.
    destruct Hm as (_ & _ & _ & Hm). apply (Hm a q Hq).
    now apply (drops_incl Hd).
  - intros _. apply derives_nil.
  - intros s ss w1 w2 _ IH1 _ IH2 Hm.
    apply derives_cons; [apply IH1 | apply IH2]; intros; apply Hm;
      simpl; auto.
Qed.

Lemma epsilon_stage_complete : forall x w,
  derives g x w -> w <> [] -> derives g' x w.
Proof.
  apply (derives_mut (g := g)
           (fun x w => w <> [] -> derives g' x w)
           (fun q w => exists p, drops nl q p /\ derives_all g' p w
                                 /\ (w <> [] -> p <> []))).
  - intros t Hin _. apply derives_terminal.
    now rewrite epsilon_stage_terminals.
  - intros a q w Hin Hall (p & Hd & Hp & Hne) Hw.
    apply derives_production with (p := p); [|assumption].
    apply epsilon_stage_old.
    + intros Hm. apply made_start_new in Hm.
      destruct Hm as (_ & _ & Hm & _). apply Hm.
      now apply prods_of_key with q.
    + split; [now apply Hne|]. exists q. split; [assumption|].
      split; [|assumption].
      destruct q as [|s [|s' q]]; try reflexivity.
      * inversion Hall; subst. now destruct Hw.
      * simpl. destruct (String.eqb s epsilon_sym) eqn:E; [|reflexivity].
        apply String.eqb_eq in E. subst s. exfalso.
        apply (@In_prods_of g a [epsilon_sym]) in Hin; [|apply Hwf].
        destruct Hin as (l & Hl & Hin). exact (Heps a l Hl Hin).
  - exists []. split; [apply drops_nil|]. split; [apply derives_nil|].
    intros H. now destruct H.
  - intros s ss w1 w2 H1 IH1 _ (p & Hd & Hp & Hne).
    destruct w1 as [|t w1].
    + exists p. split; [|split; assumption].
      apply drops_skip; [|assumption].
      apply find_nullable_symbols_derives; [apply Hwf | exact Heps | exact H1].
    + exists (s :: p). split; [now apply drops_keep|]. split.
      * apply derives_cons; [|assumption]. apply IH1. discriminate.
      * intros _. discriminate.
Qed.

(** After the stage only the start symbol that it has made derives the
    empty word. *)
Lemma epsilon_stage_no_empty : forall x w,
  derives g' x w -> w = [] -> made_start g g' x.
Proof.
  apply (derives_mut (g := g')
           (fun x w => w = [] -> made_start g g' x)
           (fun p w => w = [] ->
                       p = [] \/ exists y, In y p /\ made_start g g' y)).
  - intros t _ E. discriminate.
  - intros a p w Hin _ IH E.
    destruct (@made_dec g g' a) as [Ha | Ha]; [assumption|].
    exfalso. apply (@epsilon_stage_old a p Ha) in Hin.
    destruct Hin as (Hne & q & Hq & _ & Hd).
    destruct (IH E) as [-> | (y & Hy & Hm)]; [now apply Hne|].
    apply made_start_new in Hm.
    destruct Hm as (_ & _ & _ & Hm). apply (Hm a q Hq).
    now apply (drops_incl Hd).
  - intros _. now left.
  - intros s ss w1 w2 _ IH1 _ IH2 E.
    apply app_eq_nil in E. destruct E as [E1 E2].
    right. exists s. split; [now left | now apply IH1].
Qed.

End StageA.

(** ** What the methods of a grammar keep in order *)

Lemma is_dict_del : forall V (d : dict V) k,
  is_dict d -> is_dict (dict_del d k).
Proof.
  unfold is_dict, keys, dict_del.
  induction d as [|[k' v'] d IH]; simpl; intros k H; [constructor|].
  inversion H as [|? ? Hn Hd]; subst.
  destruct (negb (String.eqb k k')); simpl; [|now apply IH].
  constructor; [|now apply IH].
  intros Hin. apply Hn. apply in_map_iff in Hin.
  destruct Hin as (kv & E & Hin). apply filter_In in Hin.
  apply in_map_iff. exists kv. tauto.
Qed.

Lemma In_dict_del : forall V (d : dict V) k a x,
  In (a, x) (dict_del d k) -> In (a, x) d /\ a <> k.
Proof.
  intros V d k a x H. unfold dict_del in H. apply filter_In in H.
  destruct H as [H E]. split; [assumption|].
  simpl in E. apply Bool.negb_true_iff in E. apply String.eqb_neq in E.
  congruence.
Qed.

Lemma list_remove_incl : forall p l q, In q (list_remove p l) -> In q l.
Proof.
  intros p l q. unfold list_remove. induction l as [|x l IH]; simpl; [auto|].
  destruct (rhs_dec p x); simpl; intuition.
Qed.

Lemma In_entry_key : forall V (d : dict V) a x, In (a, x) d -> In a (keys d).
Proof.
  intros V d a x H. unfold keys. change a with (fst (a, x)). now apply in_map.
Qed.

Lemma orderly_empty : orderly empty_grammar.
Proof.
  repeat split; simpl; try contradiction. constructor.
Qed.

Lemma orderly_add_production : forall g left right,
  orderly g -> orderly (add_production_list g left right).
Proof.
  intros g left right (Hd & Hk & Ht & Hr). unfold add_production_list.
  split; [|split; [|split]]; cbn [productions terminals non_terminals].
  - now apply is_dict_set.
  - intros a Ha. apply keys_set in Ha. apply add_In.
    destruct Ha as [-> | Ha]; auto.
  - intros t Hin. apply fold_classify_In in Hin.
    destruct Hin as [Hin | [_ Hin]]; auto.
  - intros a l p x Hin Hp Hx Hc. apply fold_classify_In.
    apply In_dict_set in Hin. destruct Hin as [[-> ->] | Hin].
    + apply in_app_or in Hp. destruct Hp as [Hp | [<- | []]]; [|auto].
      left. apply In_prods_of_entry in Hp.
      destruct Hp as (l & Hl & Hp). now apply (Hr left l p x).
    + left. now apply (Hr a l p x).
Qed.

Lemma orderly_set_start_symbol : forall g s,
  orderly g -> orderly (set_start_symbol g s).
Proof.
  intros g s (Hd & Hk & Ht & Hr). unfold set_start_symbol.
  split; [|split; [|split]]; cbn [productions terminals non_terminals];
    auto.
  intros a Ha. apply add_In. auto.
Qed.

Lemma orderly_remove_production : forall g left right,
  orderly g -> orderly (remove_production g left right).
Proof.
  intros g left right H. pose proof H as (Hd & Hk & Ht & Hr).
  unfold remove_production.
  destruct (dict_get (productions g) left) as [l|] eqn:El; [|assumption].
  destruct (mem_rhs right l); [|assumption].
  destruct (list_remove right l) as [|q l'] eqn:Er.
  - split; [|split; [|split]]; cbn [productions terminals non_terminals].
    + now apply is_dict_del.
    + intros a Ha. unfold keys in Ha. apply in_map_iff in Ha.
      destruct Ha as ([a' x] & E & Ha). simpl in E. subst a'.
      apply In_dict_del in Ha. destruct Ha as [Ha Na].
      apply In_entry_key in Ha.
      destruct (is_start g left); [now apply Hk|].
      apply discard_In. split; [now apply Hk | assumption].
    + assumption.
    + intros a l0 p x Hin. apply In_dict_del in Hin. destruct Hin as [Hin _].
      now apply (Hr a l0 p x).
  - split; [|split; [|split]]; cbn [productions terminals non_terminals].
    + now apply is_dict_set.
    + intros a Ha. apply keys_set in Ha. destruct Ha as [-> | Ha]; auto.
      apply Hk. now apply dict_get_keys; exists l.
    + assumption.
    + intros a l0 p x Hin Hp. apply In_dict_set in Hin.
      destruct Hin as [[-> ->] | Hin]; [|now apply (Hr a l0)].
      apply (Hr left l); [now apply dict_get_In|].
      apply list_remove_incl with right. now rewrite Er.
Qed.

Lemma orderly_run_ops : forall ops g, orderly g -> orderly (run_ops g ops).
Proof.
  intros ops g H. unfold run_ops. apply fold_left_ind; [assumption|].
  clear g H. intros g op _ H. destruct op as [l r | s | l r | ]; simpl.
  - destruct r as [r|]; simpl; [now apply orderly_add_production | assumption].
  - now apply orderly_set_start_symbol.
  - now apply orderly_remove_production.
  - now rewrite copy_id.
Qed.

(** An orderly grammar that [validate] accepts is well formed. *)
Lemma orderly_validate_well_formed : forall g,
  orderly g -> fst (validate g) = true -> well_formed g.
Proof.
  intros g (Hd & Hk & Ht & Hr) Hv.
  apply validate_true in Hv. destruct Hv as (_ & _ & _ & Hdef).
  split; [assumption|]. split; [assumption|]. split.
  { intros t Hin. apply Ht in Hin. apply classified_terminal_spec in Hin.
    destruct Hin as [H | [-> | [-> | ->]]]; [assumption | reflexivity ..]. }
  intros a p x Hp Hx. apply In_prods_of_entry in Hp.
  destruct Hp as (l & Hl & Hp).
  destruct (classified_terminal x) eqn:Ec; [left; now apply (Hr a l p x)|].
  destruct (in_dec string_dec x (terminals g)) as [Hin | Hin]; [now left|].
  right. apply Hk. apply (Hdef a l p x); auto.
  intros ->. discriminate.
Qed.

Lemma grammar_of_run_ops : forall start rules,
  grammar_of start rules
  = run_ops empty_grammar
      (SetStartSymbol start
       :: map (fun r => AddProduction (fst r) (PyList (snd r))) rules).
Proof.
  intros start rules. unfold grammar_of, run_ops. simpl.
  generalize (set_start_symbol empty_grammar start).
  induction rules as [|r rules IH]; intros g; simpl; [reflexivity|].
  apply IH.
Qed.

Lemma grammar_of_orderly : forall start rules,
  orderly (grammar_of start rules).
Proof.
  intros start rules. rewrite grammar_of_run_ops.
  apply orderly_run_ops. apply orderly_empty.
Qed.


(** ** The language after stage A *)

Lemma epsilon_stage_start : forall c c' s,
  eliminate_epsilon_productions c = inr c' ->
  start_symbol (grammar c) = Some s ->
  ~ In s (find_nullable_symbols (grammar c)) ->
  start_symbol (grammar c') = Some s.
Proof.
  intros c c' s H Hs Hn. unfold eliminate_epsilon_productions in H.
  change (grammar (print_step c)) with (grammar c) in H.
  rewrite Hs in H. apply mem_not_In in Hn. rewrite Hn in H.
  injection H as <-. reflexivity.
Qed.

(** The start symbol after stage A derives the words, other than the empty
    one, that the start symbol derived before. *)
Lemma epsilon_stage_language : forall c c' s s' w,
  well_formed (grammar c) ->
  epsilon_as_empty (grammar c) ->
  eliminate_epsilon_productions c = inr c' ->
  start_symbol (grammar c) = Some s ->
  start_symbol (grammar c') = Some s' ->
  w <> [] ->
  (derives (grammar c') s' w <-> derives (grammar c) s w).
Proof.
  intros c c' s s' w Hwf Heps H Hs Hs' Hw.
  destruct (in_dec string_dec s (find_nullable_symbols (grammar c)))
    as [Hn | Hn].
  - assert (Hm : made_start (grammar c) (grammar c') s') by (exists s; auto).
    assert (Hold : ~ made_start (grammar c) (grammar c') s).
    { intros Hm'. apply (@made_start_new c c' Hwf H) in Hm'.
      destruct Hm' as (_ & _ & Hm' & _). apply Hm'. now apply nullable_keys. }
    destruct (@epsilon_stage_made c c' H s' Hm) as (s0 & Hs0 & _ & Hp).
    rewrite Hs in Hs0. injection Hs0 as <-.
    apply (@made_start_new c c' Hwf H) in Hm. destruct Hm as (Hterm & _).
    split.
    + intros Hd. apply (@epsilon_stage_sound c c' Hwf H Heps); [|assumption].
      inversion Hd as [t Hin | a p w' Hin Hall]; subst.
      * rewrite (@epsilon_stage_terminals c c' H) in Hin. contradiction.
      * destruct Hp as [Hp | Hp]; rewrite Hp in Hin; simpl in Hin.
        -- destruct Hin as [<- | []]. now apply derives_all_single.
        -- destruct Hin as [<- | [<- | []]];
             [now apply derives_all_single|].
           inversion Hall; subst. now destruct Hw.
    + intros Hd. apply derives_production with (p := [s]).
      * destruct Hp as [Hp | Hp]; rewrite Hp; simpl; auto.
      * apply derives_single.
        now apply (@epsilon_stage_complete c c' Hwf H Heps).
  - rewrite (@epsilon_stage_start c c' s H Hs Hn) in Hs'. injection Hs' as <-.
    split.
    + intros Hd. apply (@epsilon_stage_sound c c' Hwf H Heps); [assumption|].
      intros (s0 & Hs0 & Hn0 & _). rewrite Hs in Hs0.
      injection Hs0 as <-. contradiction.
    + intros Hd. now apply (@epsilon_stage_complete c c' Hwf H Heps).
Qed.



(** ** Stage D and the derivations *)

Lemma ensure_append_spec : forall (d : dict (list rhs)) var production,
  let d1 := if dict_mem d var then d else dict_set d var [] in
  let d2 := if mem_rhs production (prods_of d1 var) then d1
            else dict_append d1 var production in
  (forall y, In y (keys d2) -> y = var \/ In y (keys d))
  /\ (forall k, k <> var -> prods_of d2 k = prods_of d k)
  /\ (prods_of d2 var = prods_of d var ++ [production]
      \/ (prods_of d2 var = prods_of d var
          /\ In production (prods_of d var))).
Proof.
  intros d var production d1 d2.
  assert (K1 : forall y, In y (keys d1) -> y = var \/ In y (keys d)).
  { intros y. unfold d1. destruct (dict_mem d var); [auto|].
    intros H. now apply keys_set in H. }
  assert (O1 : forall k, k <> var -> prods_of d1 k = prods_of d k).
  { intros k N. unfold d1. destruct (dict_mem d var); [reflexivity|].
    apply prods_of_set_other. congruence. }
  assert (S1 : prods_of d1 var = prods_of d var).
  { unfold d1, dict_mem. destruct (dict_get d var) eqn:E; [reflexivity|].
    rewrite prods_of_set_same. unfold prods_of. now rewrite E. }
  unfold d2. destruct (mem_rhs production (prods_of d1 var)) eqn:E.
  - split; [assumption|]. split; [assumption|]. right.
    split; [assumption|]. rewrite <- S1. now apply mem_rhs_In.
  - unfold dict_append. split; [|split].
    + intros y H. apply keys_set in H. destruct H as [-> | H]; auto.
    + intros k N. rewrite prods_of_set_other by congruence. now apply O1.
    + left. rewrite prods_of_set_same. now rewrite S1.
Qed.

Lemma unfolds_agree : forall g (d d' : dict (list rhs)) p q,
  (forall y, new_symbol g y -> In y (keys d) ->
             prods_of d' y = prods_of d y) ->
  unfolds g d p q -> unfolds g d' p q.
Proof.
  intros g d d' p q E H.
  induction H as [|x p q Hx _ IH | y p q Hy Hp _ IH].
  - apply unfolds_nil.
  - now apply unfolds_old.
  - apply unfolds_new with p; [assumption | | assumption].
    rewrite E; [assumption | assumption |].
    apply prods_of_key with p. rewrite Hp. now left.
Qed.

Lemma unfolds_olds : forall g d p,
  (forall x, In x p -> ~ new_symbol g x) -> unfolds g d p p.
Proof.
  intros g d p. induction p as [|x p IH]; intros H; [apply unfolds_nil|].
  apply unfolds_old; [apply H; now left|].
  apply IH. intros y Hy. apply H. now right.
Qed.

Lemma new_symbol_dec : forall g x, new_symbol g x \/ ~ new_symbol g x.
Proof.
  intros g x. unfold new_symbol.
  destruct (in_dec string_dec x (terminals g));
    destruct (in_dec string_dec x (non_terminals g)); tauto.
Qed.

Lemma settled_name_mono : forall g st st' y,
  bin_counter st <= bin_counter st' ->
  settled_name g st y -> settled_name g st' y.
Proof.
  intros g st st' y Hle [H | (i & Hi & E)]; [now left|].
  right. exists i. split; [lia | assumption].
Qed.

Lemma convert_long_production_long : forall var p0 p1 p2 rest st,
  convert_long_production var (p0 :: p1 :: p2 :: rest) st
  = let (new_var, counter) :=
      generate_new_variable "Y" (bin_counter st) (bin_nts st) in
    let st' := convert_long_production new_var (p1 :: p2 :: rest)
                 (mkBin counter (bin_nts st)
                        (dict_append (bin_dict st) var [p0; new_var])) in
    mkBin (bin_counter st') (add new_var (bin_nts st')) (bin_dict st').
Proof. reflexivity. Qed.

Section StageD.
Variable g : Grammar.
Hypothesis Hwf : well_formed g.

(** The name that [generate_new_variable] returns in a state of the loops
    is no symbol of [g] and no settled name. *)
Lemma binarizer_new_variable : forall st,
  incl (non_terminals g) (bin_nts st) ->
  exists k,
    generate_new_variable "Y" (bin_counter st) (bin_nts st)
    = (candidate "Y" (bin_counter st + k), S (bin_counter st + k))
    /\ new_symbol g (candidate "Y" (bin_counter st + k))
    /\ ~ settled_name g st (candidate "Y" (bin_counter st + k)).
Proof.
  intros st Hn.
  pose proof (generate_new_variable_fresh "Y" (bin_counter st) (bin_nts st))
    as [Hf _].
  unfold generate_new_variable in *.
  destruct (generate_loop_spec (length (bin_nts st)) "Y" (bin_counter st)
              (bin_nts st)) as (k & Hk & _).
  rewrite Hk in Hf. cbn [fst] in Hf. exists k. split; [assumption|].
  assert (Hnew : new_symbol g (candidate "Y" (bin_counter st + k))).
  { split.
    - intros H. destruct Hwf as (_ & _ & Ht & _). apply Ht in H.
      rewrite candidate_Y_capital in H. discriminate.
    - intros H. apply Hf. now apply Hn. }
  split; [assumption|].
  intros [H | (i & Hi & E)]; [contradiction|].
  apply candidate_inj in E. lia.
Qed.

Lemma convert_long_production_settled : forall production var st,
  incl (non_terminals g) (bin_nts st) ->
  (forall y, In y (keys (bin_dict st)) -> settled_name g st y) ->
  settled_name g st var ->
  (forall x, In x production -> ~ new_symbol g x) ->
  let st' := convert_long_production var production st in
  incl (non_terminals g) (bin_nts st')
  /\ (forall y, In y (keys (bin_dict st')) -> settled_name g st' y)
  /\ bin_counter st <= bin_counter st'
  /\ (forall k, k <> var -> settled_name g st k ->
        prods_of (bin_dict st') k = prods_of (bin_dict st) k)
  /\ exists p,
       unfolds g (bin_dict st') p production
       /\ (prods_of (bin_dict st') var = prods_of (bin_dict st) var ++ [p]
           \/ (prods_of (bin_dict st') var = prods_of (bin_dict st) var
               /\ In p (prods_of (bin_dict st) var))).
Proof.
  assert (Short : forall production var st,
    incl (non_terminals g) (bin_nts st) ->
    (forall y, In y (keys (bin_dict st)) -> settled_name g st y) ->
    settled_name g st var ->
    (forall x, In x production -> ~ new_symbol g x) ->
    let d1 := if dict_mem (bin_dict st) var then bin_dict st
              else dict_set (bin_dict st) var [] in
    let d2 := if mem_rhs production (prods_of d1 var) then d1
              else dict_append d1 var production in
    let st' := mkBin (bin_counter st) (bin_nts st) d2 in
    incl (non_terminals g) (bin_nts st')
    /\ (forall y, In y (keys (bin_dict st')) -> settled_name g st' y)
    /\ bin_counter st <= bin_counter st'
    /\ (forall k, k <> var -> settled_name g st k ->
          prods_of (bin_dict st') k = prods_of (bin_dict st) k)
    /\ exists p,
         unfolds g (bin_dict st') p production
         /\ (prods_of (bin_dict st') var = prods_of (bin_dict st) var ++ [p]
             \/ (prods_of (bin_dict st') var = prods_of (bin_dict st) var
                 /\ In p (prods_of (bin_dict st) var)))).
  { intros production var st Hn Hk Hv Hp d1 d2 st'.
    destruct (ensure_append_spec (bin_dict st) var production)
      as (K & O & S).
    fold d1 in K, O, S. fold d2 in K, O, S.
    cbn [st' bin_nts bin_dict bin_counter].
    split; [assumption|]. split.
    { intros y Hy. destruct (K y Hy) as [-> | Hy'];
        [exact Hv | now apply Hk]. }
    split; [lia|]. split; [intros k N _; now apply O|].
    exists production. split; [now apply unfolds_olds | exact S]. }
  induction production as [|p0 rest IH]; intros var st Hn Hk Hv Hp.
  - apply (Short [] var st); assumption.
  - destruct rest as [|p1 [|p2 rest']].
    + apply (Short [p0] var st); assumption.
    + apply (Short [p0; p1] var st); assumption.
    + destruct (binarizer_new_variable st Hn) as (k & Eg & Hnew & Hns).
      set (new_var := candidate "Y" (bin_counter st + k)) in *.
      set (st1 := mkBin (S (bin_counter st + k)) (bin_nts st)
                        (dict_append (bin_dict st) var [p0; new_var])).
      assert (Nv : new_var <> var) by (intros E; apply Hns; now rewrite E).
      assert (Hle1 : bin_counter st <= bin_counter st1)
        by (cbn [st1 bin_counter]; lia).
      destruct (IH new_var st1) as (Hn2 & Hk2 & Hle2 & Ho2 & p' & Hu & Hs).
      { exact Hn. }
      { cbn [st1 bin_dict]. intros y Hy. unfold dict_append in Hy.
        apply keys_set in Hy.
        apply (@settled_name_mono g st st1 y Hle1).
        destruct Hy as [-> | Hy]; [exact Hv | now apply Hk]. }
      { right. exists (bin_counter st + k).
        split; [cbn [st1 bin_counter]; lia | reflexivity]. }
      { intros x Hx. apply Hp. now right. }
      cbv zeta in Hn2, Hk2, Hle2, Ho2, Hu, Hs.
      set (st2 := convert_long_production new_var (p1 :: p2 :: rest') st1)
        in *.
      assert (E : convert_long_production var (p0 :: p1 :: p2 :: rest') st
                  = mkBin (bin_counter st2) (add new_var (bin_nts st2))
                          (bin_dict st2)).
      { rewrite convert_long_production_long, Eg. reflexivity. }
      cbv zeta. rewrite E. cbn [bin_nts bin_dict bin_counter].
      assert (E1 : forall k0, k0 <> var ->
                 prods_of (bin_dict st1) k0 = prods_of (bin_dict st) k0).
      { intros k0 N. cbn [st1 bin_dict]. unfold dict_append.
        apply prods_of_set_other. congruence. }
      assert (Hempty : prods_of (bin_dict st) new_var = []).
      { unfold prods_of.
        destruct (dict_get (bin_dict st) new_var) as [l|] eqn:El;
          [|reflexivity].
        exfalso. apply Hns. apply Hk. apply dict_get_keys. now exists l. }
      split; [|split; [|split; [|split]]].
      * intros x Hx. apply add_In. right. now apply Hn2.
      * intros y Hy. apply Hk2 in Hy. exact Hy.
      * apply Nat.le_trans with (bin_counter st1); assumption.
      * intros k0 N Hs0.
        assert (N' : k0 <> new_var) by (intros Ek; apply Hns; now rewrite <- Ek).
        rewrite (Ho2 k0 N' (@settled_name_mono g st st1 k0 Hle1 Hs0)).
        now apply E1.
      * exists [p0; new_var]. split.
        -- apply unfolds_old; [apply Hp; now left|].
           apply unfolds_new with p'; [assumption | | assumption].
           rewrite (E1 new_var Nv), Hempty in Hs.
           destruct Hs as [Hs | [_ []]]. exact Hs.
        -- left.
           assert (N' : var <> new_var) by congruence.
           rewrite (Ho2 var N' (@settled_name_mono g st st1 var Hle1 Hv)).
           cbn [st1 bin_dict]. unfold dict_append.
           now rewrite prods_of_set_same.
Qed.

Lemma old_symbols : forall a p x,
  In p (prods_of (productions g) a) -> In x p -> ~ new_symbol g x.
Proof.
  intros a p x Hp Hx [Ht Hn]. destruct Hwf as (_ & _ & _ & Hr).
  destruct (Hr a p x Hp Hx); contradiction.
Qed.

Lemma old_key : forall a, In a (keys (productions g)) -> ~ new_symbol g a.
Proof.
  intros a Ha [_ Hn]. destruct Hwf as (_ & Hk & _). apply Hn. now apply Hk.
Qed.

(** One more right-hand side for the variable [var] of [g], the other
    entries staying as they are. *)
Lemma binarizing_step : forall st st' var prod,
  binarizing g st ->
  ~ new_symbol g var ->
  In prod (prods_of (productions g) var) ->
  incl (non_terminals g) (bin_nts st') ->
  (forall y, In y (keys (bin_dict st')) -> settled_name g st' y) ->
  (forall k, k <> var -> settled_name g st k ->
     prods_of (bin_dict st') k = prods_of (bin_dict st) k) ->
  (exists p,
      unfolds g (bin_dict st') p prod
      /\ (prods_of (bin_dict st') var = prods_of (bin_dict st) var ++ [p]
          \/ (prods_of (bin_dict st') var = prods_of (bin_dict st) var
              /\ In p (prods_of (bin_dict st) var)))) ->
  binarizing g st'.
Proof.
  intros st st' var prod (Hn & Hk & Hf) Hv Hprod Hn' Hk' Ho (p & Hu & Hs).
  split; [assumption|]. split; [assumption|].
  assert (Stable : forall p0 q, unfolds g (bin_dict st) p0 q ->
                                unfolds g (bin_dict st') p0 q).
  { intros p0 q. apply unfolds_agree. intros y Hy Hin. apply Ho.
    - intros ->. contradiction.
    - now apply Hk. }
  intros a p0 Ha Hin.
  destruct (string_dec a var) as [-> | N].
  - assert (Hcases : In p0 (prods_of (bin_dict st) var) \/ p0 = p).
    { destruct Hs as [Hs | [Hs _]]; rewrite Hs in Hin; [|now left].
      apply in_app_or in Hin. destruct Hin as [Hin | [<- | []]]; auto. }
    destruct Hcases as [Hold | ->].
    + destruct (Hf var p0 Ha Hold) as (q & Hq & Hin'). exists q. auto.
    + exists prod. auto.
  - rewrite (Ho a N (or_introl Ha)) in Hin.
    destruct (Hf a p0 Ha Hin) as (q & Hq & Hin'). exists q. auto.
Qed.

Lemma binarize_production_binarizing : forall var st prod,
  binarizing g st ->
  ~ new_symbol g var ->
  In prod (prods_of (productions g) var) ->
  binarizing g (binarize_production var st prod).
Proof.
  intros var st prod Hb Hv Hprod. pose proof Hb as (Hn & Hk & _).
  assert (Hold : forall x, In x prod -> ~ new_symbol g x)
    by (intros x; now apply old_symbols with var).
  unfold binarize_production. destruct (length prod <=? 2).
  - apply (@binarizing_step st _ var prod Hb Hv Hprod);
      cbn [bin_nts bin_dict bin_counter].
    + assumption.
    + intros y Hy. unfold dict_append in Hy. apply keys_set in Hy.
      destruct Hy as [-> | Hy]; [now left | now apply Hk].
    + intros k N _. unfold dict_append. apply prods_of_set_other. congruence.
    + exists prod. split; [now apply unfolds_olds|]. left.
      unfold dict_append. now rewrite prods_of_set_same.
  - destruct (@convert_long_production_settled prod var st Hn Hk
                (or_introl Hv) Hold) as (Hn' & Hk' & _ & Ho & Hp).
    now apply (@binarizing_step st _ var prod Hb Hv Hprod).
Qed.

Lemma binarize_reset_binarizing : forall var st,
  binarizing g st ->
  ~ new_symbol g var ->
  binarizing g (mkBin (bin_counter st) (bin_nts st)
                      (dict_set (bin_dict st) var [])).
Proof.
  intros var st (Hn & Hk & Hf) Hv. split; [assumption|]. split.
  - cbn [bin_dict]. intros y Hy. apply keys_set in Hy.
    destruct Hy as [-> | Hy]; [now left | now apply Hk].
  - cbn [bin_dict]. intros a p Ha Hin.
    destruct (string_dec var a) as [-> | N].
    + rewrite prods_of_set_same in Hin. contradiction.
    + rewrite prods_of_set_other in Hin by assumption.
      destruct (Hf a p Ha Hin) as (q & Hq & Hin'). exists q.
      split; [|assumption].
      revert Hq. apply unfolds_agree. intros y Hy _.
      apply prods_of_set_other. intros ->. contradiction.
Qed.

Lemma binarize_all_binarizing : forall counter,
  binarizing g
    (fold_left
       (fun st vp =>
          fold_left (binarize_production (fst vp)) (snd vp)
                    (mkBin (bin_counter st) (bin_nts st)
                           (dict_set (bin_dict st) (fst vp) [])))
       (productions g)
       (mkBin counter (non_terminals g) [])).
Proof.
  intros counter. apply fold_left_ind.
  - split; [apply incl_refl|]. split; [intros y []|].
    intros a p _ [].
  - intros st [var l] Hin Hb. cbn [fst snd].
    assert (Hv : ~ new_symbol g var).
    { apply old_key. now apply In_entry_key with l. }
    apply fold_left_ind; [now apply binarize_reset_binarizing|].
    intros st0 prod Hprod Hb0.
    apply binarize_production_binarizing; [assumption | assumption|].
    apply In_prods_of; [apply Hwf|]. exists l. auto.
Qed.

(** What is derived over a dictionary that the loops of stage D have built
    is derived in [g]. *)
Lemma binarizing_sound : forall st start x w,
  binarizing g st ->
  derives (mkGrammar (bin_dict st) (terminals g) (bin_nts st) start) x w ->
  ~ new_symbol g x -> derives g x w.
Proof.
  intros st start x w (_ & _ & Hf) H Hx.
  assert (G : forall x w,
             derives (mkGrammar (bin_dict st) (terminals g) (bin_nts st)
                                start) x w ->
             forall rest, unfolds g (bin_dict st) [x] rest ->
                          derives_all g rest w).
  { apply (derives_mut
             (fun x w => forall rest, unfolds g (bin_dict st) [x] rest ->
                                      derives_all g rest w)
             (fun p w => forall q, unfolds g (bin_dict st) p q ->
                                   derives_all g q w)).
    - intros t Ht rest Hu. cbn [terminals] in Ht.
      inversion Hu as [|x0 p q Hold Hu'|y p q [Hnew _] _ _]; subst;
        [|contradiction].
      inversion Hu'; subst. apply derives_single. now apply derives_terminal.
    - intros a p w0 Hin _ IH rest Hu. cbn [productions] in Hin.
      inversion Hu as [|x0 p1 q Hold Hu'|y p1 q Hnew Hp Hu']; subst.
      + inversion Hu'; subst.
        destruct (Hf a p Hold Hin) as (q & Hq & Hin').
        apply derives_single. apply derives_production with (p := q);
          [assumption | now apply IH].
      + rewrite Hp in Hin. destruct Hin as [<- | []]. now apply IH.
    - intros q Hu. inversion Hu; subst. apply derives_nil.
    - intros s ss w1 w2 _ IH1 Hss IH2 q Hu.
      inversion Hu as [|x0 p1 q1 Hold Hu'|y p1 q1 Hnew Hp Hu']; subst.
      + apply derives_cons; [|now apply IH2].
        apply derives_all_single. apply IH1.
        apply unfolds_old; [assumption | apply unfolds_nil].
      + inversion Hss; subst. rewrite app_nil_r. now apply IH1. }
  apply derives_all_single. apply (G x w H).
  apply unfolds_old; [assumption | apply unfolds_nil].
Qed.

End StageD.

(** ** The language after stage D *)

Lemma binary_stage_binarizing : forall c c',
  well_formed (grammar c) ->
  convert_to_binary_form c = inr c' ->
  exists st,
    binarizing (grammar c) st
    /\ grammar c' = mkGrammar (bin_dict st) (terminals (grammar c))
                              (bin_nts st) (start_symbol (grammar c)).
Proof.
  intros c c' Hwf H. unfold convert_to_binary_form in H.
  injection H as <-. eexists. split; [|reflexivity].
  change (grammar (print_step c)) with (grammar c).
  now apply binarize_all_binarizing.
Qed.

Lemma binary_stage_sound : forall c c',
  well_formed (grammar c) ->
  convert_to_binary_form c = inr c' ->
  forall x w, derives (grammar c') x w ->
              ~ new_symbol (grammar c) x -> derives (grammar c) x w.
Proof.
  intros c c' Hwf H x w Hd Hx.
  destruct (@binary_stage_binarizing c c' Hwf H) as (st & Hb & E).
  rewrite E in Hd.
  now apply (@binarizing_sound (grammar c) st
               (start_symbol (grammar c)) x w).
Qed.

Lemma old_symbol : forall g x,
  In x (terminals g) \/ In x (non_terminals g) -> ~ new_symbol g x.
Proof. intros g x H [Ht Hn]. tauto. Qed.



(** ** The language after the four stages *)

Lemma unit_free_productions_keys : forall g up d d',
  unit_free_productions g up d = inr d' -> keys d' = keys d.
Proof.
  intros g up. induction d as [|[v own] d IH]; cbn [unit_free_productions];
    intros d' H.
  - injection H as <-. reflexivity.
  - destruct (unit_free_rhs g up v own) as [e|l]; cbn [bind] in H;
      [discriminate|].
    destruct (unit_free_productions g up d) as [e|rest]; cbn [bind ret] in H;
      [discriminate|].
    injection H as <-. cbn [keys map fst]. f_equal. now apply IH.
Qed.

Lemma unit_stage_is_dict : forall c c',
  is_dict (productions (grammar c)) ->
  eliminate_unit_productions c = inr c' ->
  is_dict (productions (grammar c')).
Proof.
  intros c c' Hd H. unfold eliminate_unit_productions in H.
  change (grammar (print_step c)) with (grammar c) in H.
  destruct (unit_free_productions (grammar c)
              (find_unit_productions (grammar c)) (productions (grammar c)))
    as [e|d'] eqn:Ed; cbn [bind ret] in H; [discriminate|].
  injection H as <-. cbn [grammar with_grammar productions].
  unfold is_dict. now rewrite (unit_free_productions_keys _ _ _ Ed).
Qed.

Lemma is_dict_filter : forall V (f : symbol * V -> bool) (d : dict V),
  is_dict d -> is_dict (filter f d).
Proof.
  unfold is_dict, keys. intros V f.
  induction d as [|kv d IH]; simpl; intros H; [constructor|].
  inversion H as [|? ? Hn Hd]; subst.
  destruct (f kv); simpl; [|now apply IH].
  constructor; [|now apply IH].
  intros Hin. apply Hn. apply in_map_iff in Hin.
  destruct Hin as (kv' & E & Hin). apply filter_In in Hin.
  apply in_map_iff. exists kv'. tauto.
Qed.

Lemma generating_cases : forall g x,
  generating g x -> In x (terminals g) \/ In x (keys (productions g)).
Proof.
  intros g x H. destruct H as [y Hy | a l p Hin _ _ _]; [now left|].
  right. now apply In_entry_key with l.
Qed.

(** The variables that keep an entry in stage C. *)
Lemma useless_stage_keys : forall c c',
  eliminate_useless_symbols c = inr c' ->
  (forall a,
      In a (keys (productions (grammar c')))
      <-> In a (keys (productions (grammar c)))
          /\ generating (grammar c) a /\ useful (grammar c) a)
  /\ (forall a, In a (non_terminals (grammar c'))
                <-> In a (keys (productions (grammar c'))))
  /\ (is_dict (productions (grammar c)) ->
      is_dict (productions (grammar c'))).
Proof.
  intros c c' H. unfold eliminate_useless_symbols in H. injection H as <-.
  cbn [grammar with_grammar print_step productions non_terminals].
  split; [|split].
  - intros a. unfold filter_reachable.
    rewrite (keys_filter_keys
               (fun k => mem k (find_reachable_symbols
                  (mkGrammar (filter_generating
                                (find_generating_symbols (grammar c))
                                (productions (grammar c)))
                             (terminals (grammar c))
                             (non_terminals (grammar c))
                             (start_symbol (grammar c)))))).
    rewrite keys_filter_generating, useful_mem, generating_mem. tauto.
  - intros a. apply set_of_list_In.
  - intros Hd. unfold filter_reachable. apply is_dict_filter.
    unfold filter_generating. unfold is_dict. rewrite keys_map_snd.
    now apply is_dict_filter.
Qed.

(** Stage C leaves a well-formed grammar. *)
Lemma useless_stage_well_formed : forall c c',
  is_dict (productions (grammar c)) ->
  (forall t, In t (terminals (grammar c)) -> starts_with_capital t = false) ->
  eliminate_useless_symbols c = inr c' ->
  well_formed (grammar c').
Proof.
  intros c c' Hd Ht H.
  destruct (@eliminate_useless_symbols_fields c c' H) as (Et & _ & Hp).
  destruct (@useless_stage_keys c c' H) as (Hk & Hn & Hd').
  split; [now apply Hd'|]. split; [intros a Ha; now apply Hn|].
  split; [intros t Hin; rewrite Et in Hin; now apply Ht|].
  intros a p x Hin Hx. apply Hp in Hin.
  destruct Hin as (Hin & Ha & Hall & Hu).
  destruct (generating_cases (Hall x Hx)) as [Hterm | Hkey].
  - left. now rewrite Et.
  - right. apply Hn. apply Hk. split; [assumption|].
    split; [now apply Hall|].
    apply (@useful_next (grammar c) a x Hu).
    split; [assumption|]. exists p. auto.
Qed.

(** When stage C leaves an entry at all, it leaves one for the start
    symbol. *)
Lemma useless_stage_start_key : forall c c' a,
  eliminate_useless_symbols c = inr c' ->
  In a (keys (productions (grammar c'))) ->
  exists s, start_symbol (grammar c) = Some s
            /\ In s (keys (productions (grammar c'))).
Proof.
  intros c c' a H Ha.
  destruct (@useless_stage_keys c c' H) as (Hk & _ & _).
  pose proof Ha as Ha'. apply Hk in Ha'.
  destruct Ha' as (_ & _ & (s & Hs & Hr)).
  exists s. split; [assumption|].
  assert (Hfirst : a = s \/ exists y, useful_step (grammar c) s y).
  { clear Hs Ha. induction Hr as [x y Hxy | x | x y z _ IH1 _ IH2].
    - right. eauto.
    - now left.
    - destruct IH1 as [-> | IH1]; [exact IH2 | now right]. }
  destruct Hfirst as [-> | [y Hstep]]; [assumption|].
  destruct Hstep as (Hg & p & Hp & _ & _).
  apply Hk. split; [now apply key_has_production with p|].
  split; [assumption|]. exists s. split; [assumption | apply rt_refl].
Qed.

Lemma binary_stage_empty : forall c c',
  convert_to_binary_form c = inr c' ->
  productions (grammar c) = [] ->
  productions (grammar c') = [].
Proof.
  intros c c' H E. unfold convert_to_binary_form in H. injection H as <-.
  change (grammar (print_step c)) with (grammar c).
  cbn [grammar productions]. rewrite E. reflexivity.
Qed.

Lemma epsilon_stage_has_start : forall c c' s,
  eliminate_epsilon_productions c = inr c' ->
  start_symbol (grammar c) = Some s ->
  exists s', start_symbol (grammar c') = Some s'.
Proof.
  intros c c' s H Hs. unfold eliminate_epsilon_productions in H.
  change (grammar (print_step c)) with (grammar c) in H.
  rewrite Hs in H.
  destruct (mem s (find_nullable_symbols (grammar c))).
  - destruct (generate_new_variable "S" _ _) as [s' counter].
    destruct (dict_lookup _ s) as [e|old]; cbn [bind ret] in H;
      [discriminate|].
    injection H as <-. exists s'. reflexivity.
  - injection H as <-. exists s. reflexivity.
Qed.

(** An empty right-hand side is left by stage A only when the start symbol
    of the grammar has kept no right-hand side. *)
Lemma epsilon_stage_empty_rhs : forall c c' a,
  (forall x, In x (keys (productions (grammar c))) ->
             In x (non_terminals (grammar c))) ->
  eliminate_epsilon_productions c = inr c' ->
  In [] (prods_of (productions (grammar c')) a) ->
  exists s, start_symbol (grammar c) = Some s
            /\ prods_of (productions (grammar c')) s = [].
Proof.
  intros c c' a Hk H Hin. unfold eliminate_epsilon_productions in H.
  change (grammar (print_step c)) with (grammar c) in H.
  change (new_var_counter (print_step c)) with (new_var_counter c) in H.
  set (g := grammar c) in *.
  set (nl := find_nullable_symbols g) in *.
  set (np := map (fun vp => (fst vp, epsilon_free_rhs nl (snd vp)))
                 (productions g)) in *.
  assert (Hno : forall b, ~ In [] (prods_of np b)).
  { intros b Hb. unfold np in Hb. rewrite prods_of_map_snd in Hb by reflexivity.
    apply epsilon_free_rhs_In in Hb. destruct Hb as [Hne _]. now apply Hne. }
  destruct (start_symbol g) as [s|] eqn:Es.
  2:{ injection H as <-. cbn [grammar with_grammar productions] in Hin.
      exfalso. exact (Hno a Hin). }
  destruct (mem s nl) eqn:En.
  2:{ injection H as <-. cbn [grammar with_grammar productions] in Hin.
      exfalso. exact (Hno a Hin). }
  pose proof (generate_new_variable_fresh "S" (new_var_counter c)
                (non_terminals g)) as [Hfresh _].
  destruct (generate_new_variable "S" (new_var_counter c) (non_terminals g))
    as [s' counter]. cbn [fst] in Hfresh.
  assert (Ns : s' <> s).
  { intros ->. apply Hfresh. apply Hk. apply nullable_keys.
    now apply mem_In. }
  unfold dict_lookup in H.
  destruct (dict_get (dict_set np s' [[s]]) s) as [old|] eqn:Eg;
    cbn [bind ret raise] in H; [|discriminate].
  injection H as <-. cbn [grammar productions] in Hin |- *.
  exists s. split; [reflexivity|].
  assert (Eold : prods_of (dict_set np s' [[s]]) s = old)
    by (unfold prods_of; now rewrite Eg).
  destruct old as [|q old'].
  - rewrite prods_of_set_other by assumption. exact Eold.
  - exfalso. destruct (string_dec s' a) as [-> | N].
    + rewrite prods_of_set_same in Hin.
      destruct Hin as [E | []]. discriminate.
    + rewrite prods_of_set_other in Hin by assumption. exact (Hno a Hin).
Qed.


